(** * A shallow embedding of the reactivity kernel, scheduler, KeepAlive
      cache and parser whitespace pass of the vue3 code-analysis repository.

    Heaps of JavaScript objects (effects, deps, raw targets) are finite maps
    from object identities to records; JavaScript [Map]/[Set] values whose
    iteration order is observable are insertion-ordered association lists. *)

From stdpp Require Import base option list gmap strings sorting.
From Stdlib Require Import ZArith Lia.
From Equations Require Import Equations.

Local Open Scope Z_scope.

(** ** Insertion-ordered maps (JavaScript [Map]) *)

Module OMap.
Section omap.
Context {K V : Type} `{EqDecision K}.

Fixpoint get (k : K) (m : list (K * V)) : option V :=
  match m with
  | [] => None
  | (k', v) :: m' => if decide (k = k') then Some v else get k m'
  end.

(** [Map.prototype.set]: an existing key keeps its position. *)
Fixpoint set (k : K) (v : V) (m : list (K * V)) : list (K * V) :=
  match m with
  | [] => [(k, v)]
  | (k', v') :: m' =>
      if decide (k = k') then (k', v) :: m' else (k', v') :: set k v m'
  end.

Fixpoint delete (k : K) (m : list (K * V)) : list (K * V) :=
  match m with
  | [] => []
  | (k', v') :: m' =>
      if decide (k = k') then delete k m' else (k', v') :: delete k m'
  end.

Definition keys (m : list (K * V)) : list K := m.*1.
Definition values (m : list (K * V)) : list V := m.*2.

Lemma get_set_eq k v m : get k (set k v m) = Some v.
Proof.
  induction m as [|[k' v'] m IH]; simpl.
  - by rewrite decide_True.
  - destruct (decide (k = k')) as [->|Hne]; simpl.
    + by rewrite decide_True.
    + by rewrite decide_False.
Qed.

Lemma get_set_ne k k' v m : k ≠ k' → get k' (set k v m) = get k' m.
Proof.
  intros Hne. induction m as [|[k2 v2] m IH]; simpl.
  - by rewrite decide_False.
  - destruct (decide (k = k2)) as [->|Hne2]; simpl.
    + by rewrite !decide_False.
    + destruct (decide (k' = k2)); [done|apply IH].
Qed.

Lemma get_delete_eq k m : get k (delete k m) = None.
Proof.
  induction m as [|[k' v'] m IH]; simpl; [done|].
  destruct (decide (k = k')); simpl; [done|]. by rewrite decide_False.
Qed.

Lemma get_delete_ne k k' m : k ≠ k' → get k' (delete k m) = get k' m.
Proof.
  intros Hne. induction m as [|[k2 v2] m IH]; simpl; [done|].
  destruct (decide (k = k2)) as [->|Hne2]; simpl.
  - by rewrite decide_False.
  - destruct (decide (k' = k2)); [done|apply IH].
Qed.

Lemma get_Some_elem_of k v m : get k m = Some v → (k, v) ∈ m.
Proof.
  induction m as [|[k' v'] m IH]; simpl; [done|].
  destruct (decide (k = k')) as [->|Hne].
  - intros [= ->]. apply list_elem_of_here.
  - intros H. apply list_elem_of_further. by apply IH.
Qed.

Lemma get_Some_keys k v m : get k m = Some v → k ∈ keys m.
Proof.
  intros H. apply get_Some_elem_of in H.
  unfold keys. apply list_elem_of_fmap. by exists (k, v).
Qed.

Lemma get_None_keys k m : get k m = None ↔ k ∉ keys m.
Proof.
  unfold keys. induction m as [|[k' v'] m IH]; simpl.
  - split; [intros _; apply not_elem_of_nil|done].
  - destruct (decide (k = k')) as [->|Hne].
    + split; [done|]. intros H. exfalso. apply H, list_elem_of_here.
    + rewrite IH, not_elem_of_cons. tauto.
Qed.
Lemma elem_of_get k v m : NoDup (keys m) → (k, v) ∈ m → get k m = Some v.
Proof.
  unfold keys. induction m as [|[k' v'] m IH]; simpl.
  - by intros _ ?%elem_of_nil.
  - intros [Hk Hnd]%NoDup_cons [Heq|Hin]%elem_of_cons.
    + injection Heq as -> ->. by rewrite decide_True.
    + destruct (decide (k = k')) as [->|Hne]; [|by apply IH].
      exfalso. apply Hk. apply list_elem_of_fmap. by exists (k', v).
Qed.
End omap.
End OMap.

(** ** The reactivity kernel: effect.ts, reactiveEffect.ts, baseHandlers.ts *)

Module Reactivity.

(** [DirtyLevels] of constants.ts, with the numeric value the comparisons
    of [triggerEffects] and of the [dirty] getter use. *)
Inductive DirtyLevels := NotDirty | MaybeDirty | Dirty.

Definition level_value (l : DirtyLevels) : Z :=
  match l with NotDirty => 0 | MaybeDirty => 1 | Dirty => 2 end.

Global Instance DirtyLevels_eq_dec : EqDecision DirtyLevels.
Proof. solve_decision. Defined.

Inductive TriggerOpTypes := SET | ADD | DELETE | CLEAR.

Global Instance TriggerOpTypes_eq_dec : EqDecision TriggerOpTypes.
Proof. solve_decision. Defined.

(** Property keys as the proxy traps pass them.  [KIndex i] is the canonical
    decimal string of [i] (exactly the keys [isIntegerKey] accepts),
    [KProp s] is any other string key (its [Number] is NaN), and the
    remaining constructors are symbols. *)
Inductive Key :=
  | KLength
  | KIndex (i : N)
  | KProp (name : string)
  | ITERATE_KEY
  | MAP_KEY_ITERATE_KEY
  | KSymbol (n : nat).

Global Instance Key_eq_dec : EqDecision Key.
Proof. solve_decision. Defined.

Definition isSymbol (k : Key) : bool :=
  match k with
  | ITERATE_KEY | MAP_KEY_ITERATE_KEY | KSymbol _ => true
  | _ => false
  end.

Definition isIntegerKey (k : Key) : bool :=
  match k with KIndex _ => true | _ => false end.

(** [key >= newLength] for a non-symbol key and [newLength = Number(newValue)];
    [None] stands for NaN, which compares false with everything. *)
Definition key_ge (k : Key) (newLength : option Z) : bool :=
  match k, newLength with
  | KIndex i, Some n => bool_decide (n ≤ Z.of_N i)
  | _, _ => false
  end.

Definition EffectId := nat.
Definition DepId := nat.
Definition TargetId := nat.

(** Values stored in raw arrays. *)
Inductive Value := VUndef | VNum (z : Z).

Global Instance Value_eq_dec : EqDecision Value.
Proof. solve_decision. Defined.

(** Raw reactive targets, discriminated the way [isArray] and [isMap] do. *)
Inductive Target :=
  | TArray (elems : list Value)
  | TMap
  | TObject.

Definition isArray (t : Target) : bool :=
  match t with TArray _ => true | _ => false end.
Definition isMap (t : Target) : bool :=
  match t with TMap => true | _ => false end.

(** What an effect body may do to the reactive world. *)
Inductive Op :=
  | OpTrack (target : TargetId) (key : Key)
      (** a tracked read: [track(target, GET, key)] *)
  | OpTrigger (target : TargetId) (type : TriggerOpTypes)
              (key : option Key) (newValue : option Z)
      (** a write reported by a trap: [trigger(target, type, key, newValue)] *)
  | OpArrayGet (arr : TargetId) (key : Key)
      (** [proxy[key]] on a reactive array *)
  | OpArraySetIndex (arr : TargetId) (i : nat) (v : Z)
      (** [proxy[i] = v] on a reactive array *)
  | OpArraySetLength (arr : TargetId) (n : nat)
      (** [proxy.length = n] on a reactive array *)
  | OpArrayPush (arr : TargetId) (v : Z)
      (** [proxy.push(v)] on a reactive array *)
  | OpRun (e : EffectId)
      (** calling the runner of another effect *)
  | OpStop (e : EffectId).
      (** [stop(runner)] *)

(** A scheduler callback.  [SchedRunIfDirty e] is the closure built by
    [effect()]: [() => { if (_effect.dirty) _effect.run() }]; [SchedUser n]
    is a scheduler supplied through the options, opaque to the kernel. *)
Inductive Scheduler :=
  | SchedRunIfDirty (e : EffectId)
  | SchedUser (n : nat).

Global Instance Scheduler_eq_dec : EqDecision Scheduler.
Proof. solve_decision. Defined.

Record ReactiveEffect := mkEffect {
  active : bool;
  deps : list DepId;
  allowRecurse : bool;
  _dirtyLevel : DirtyLevels;
  _trackId : nat;
  _runnings : Z;
  _shouldSchedule : bool;
  _depsLength : nat;
  fn : list Op;
  scheduler : option Scheduler;
}.

(** A [Dep]: the map effect -> track-id, and the [cleanup] closure.  The
    deps made by [track] delete their key from the target's [depsMap]
    ([Some (target, key)]); other deps have a cleanup that leaves this
    state alone. *)
Record Dep := mkDep {
  subs : list (EffectId * nat);
  cleanup : option (TargetId * Key);
}.

(** Observable calls into user code. *)
Inductive Event :=
  | EvTrigger (e : EffectId)          (** [effect.trigger()] *)
  | EvRun (e : EffectId)              (** [effect.fn()] entered *)
  | EvScheduler (s : Scheduler).      (** a queued scheduler invoked *)

Global Instance Event_eq_dec : EqDecision Event.
Proof. solve_decision. Defined.

(** The module-level state of effect.ts and reactiveEffect.ts together with
    the heaps of the objects it refers to. *)
Record State := mkState {
  effects : gmap EffectId ReactiveEffect;
  depHeap : gmap DepId Dep;
  targets : gmap TargetId Target;
  targetMap : gmap TargetId (list (Key * DepId));
  activeEffect : option EffectId;
  shouldTrack : bool;
  trackStack : list bool;
  pauseScheduleStack : Z;
  queueEffectSchedulers : list Scheduler;
  nextDep : DepId;
  nextEffect : EffectId;
  trace : list Event;
}.

Definition initial : State :=
  mkState ∅ ∅ ∅ ∅ None true [] 0 [] 0%nat 0%nat [].

(** *** Field updates *)

Definition set_effects (f : gmap EffectId ReactiveEffect → gmap EffectId ReactiveEffect)
    (st : State) : State :=
  mkState (f (effects st)) (depHeap st) (targets st) (targetMap st)
    (activeEffect st) (shouldTrack st) (trackStack st) (pauseScheduleStack st)
    (queueEffectSchedulers st) (nextDep st) (nextEffect st) (trace st).

Definition set_depHeap (f : gmap DepId Dep → gmap DepId Dep) (st : State) : State :=
  mkState (effects st) (f (depHeap st)) (targets st) (targetMap st)
    (activeEffect st) (shouldTrack st) (trackStack st) (pauseScheduleStack st)
    (queueEffectSchedulers st) (nextDep st) (nextEffect st) (trace st).

Definition set_targets (f : gmap TargetId Target → gmap TargetId Target) (st : State) : State :=
  mkState (effects st) (depHeap st) (f (targets st)) (targetMap st)
    (activeEffect st) (shouldTrack st) (trackStack st) (pauseScheduleStack st)
    (queueEffectSchedulers st) (nextDep st) (nextEffect st) (trace st).

Definition set_targetMap
    (f : gmap TargetId (list (Key * DepId)) → gmap TargetId (list (Key * DepId)))
    (st : State) : State :=
  mkState (effects st) (depHeap st) (targets st) (f (targetMap st))
    (activeEffect st) (shouldTrack st) (trackStack st) (pauseScheduleStack st)
    (queueEffectSchedulers st) (nextDep st) (nextEffect st) (trace st).

Definition set_activeEffect (a : option EffectId) (st : State) : State :=
  mkState (effects st) (depHeap st) (targets st) (targetMap st)
    a (shouldTrack st) (trackStack st) (pauseScheduleStack st)
    (queueEffectSchedulers st) (nextDep st) (nextEffect st) (trace st).

Definition set_shouldTrack (b : bool) (st : State) : State :=
  mkState (effects st) (depHeap st) (targets st) (targetMap st)
    (activeEffect st) b (trackStack st) (pauseScheduleStack st)
    (queueEffectSchedulers st) (nextDep st) (nextEffect st) (trace st).

Definition set_trackStack (s : list bool) (st : State) : State :=
  mkState (effects st) (depHeap st) (targets st) (targetMap st)
    (activeEffect st) (shouldTrack st) s (pauseScheduleStack st)
    (queueEffectSchedulers st) (nextDep st) (nextEffect st) (trace st).

Definition set_pauseScheduleStack (n : Z) (st : State) : State :=
  mkState (effects st) (depHeap st) (targets st) (targetMap st)
    (activeEffect st) (shouldTrack st) (trackStack st) n
    (queueEffectSchedulers st) (nextDep st) (nextEffect st) (trace st).

Definition set_queue (q : list Scheduler) (st : State) : State :=
  mkState (effects st) (depHeap st) (targets st) (targetMap st)
    (activeEffect st) (shouldTrack st) (trackStack st) (pauseScheduleStack st)
    q (nextDep st) (nextEffect st) (trace st).

Definition set_nextDep (n : DepId) (st : State) : State :=
  mkState (effects st) (depHeap st) (targets st) (targetMap st)
    (activeEffect st) (shouldTrack st) (trackStack st) (pauseScheduleStack st)
    (queueEffectSchedulers st) n (nextEffect st) (trace st).

Definition set_nextEffect (n : EffectId) (st : State) : State :=
  mkState (effects st) (depHeap st) (targets st) (targetMap st)
    (activeEffect st) (shouldTrack st) (trackStack st) (pauseScheduleStack st)
    (queueEffectSchedulers st) (nextDep st) n (trace st).

Definition log (ev : Event) (st : State) : State :=
  mkState (effects st) (depHeap st) (targets st) (targetMap st)
    (activeEffect st) (shouldTrack st) (trackStack st) (pauseScheduleStack st)
    (queueEffectSchedulers st) (nextDep st) (nextEffect st) (trace st ++ [ev]).

(** Update of one effect object in place; an identity that names no object
    leaves the state alone. *)
Definition upd_effect (e : EffectId) (f : ReactiveEffect → ReactiveEffect)
    (st : State) : State :=
  match effects st !! e with
  | Some E => set_effects (<[e := f E]>) st
  | None => st
  end.

Definition upd_dep (d : DepId) (f : Dep → Dep) (st : State) : State :=
  match depHeap st !! d with
  | Some D => set_depHeap (<[d := f D]>) st
  | None => st
  end.

Definition with_deps (l : list DepId) (E : ReactiveEffect) : ReactiveEffect :=
  mkEffect (active E) l (allowRecurse E) (_dirtyLevel E) (_trackId E)
    (_runnings E) (_shouldSchedule E) (_depsLength E) (fn E) (scheduler E).
Definition with_active (b : bool) (E : ReactiveEffect) : ReactiveEffect :=
  mkEffect b (deps E) (allowRecurse E) (_dirtyLevel E) (_trackId E)
    (_runnings E) (_shouldSchedule E) (_depsLength E) (fn E) (scheduler E).
Definition with_dirtyLevel (l : DirtyLevels) (E : ReactiveEffect) : ReactiveEffect :=
  mkEffect (active E) (deps E) (allowRecurse E) l (_trackId E)
    (_runnings E) (_shouldSchedule E) (_depsLength E) (fn E) (scheduler E).
Definition with_trackId (n : nat) (E : ReactiveEffect) : ReactiveEffect :=
  mkEffect (active E) (deps E) (allowRecurse E) (_dirtyLevel E) n
    (_runnings E) (_shouldSchedule E) (_depsLength E) (fn E) (scheduler E).
Definition with_runnings (n : Z) (E : ReactiveEffect) : ReactiveEffect :=
  mkEffect (active E) (deps E) (allowRecurse E) (_dirtyLevel E) (_trackId E)
    n (_shouldSchedule E) (_depsLength E) (fn E) (scheduler E).
Definition with_shouldSchedule (b : bool) (E : ReactiveEffect) : ReactiveEffect :=
  mkEffect (active E) (deps E) (allowRecurse E) (_dirtyLevel E) (_trackId E)
    (_runnings E) b (_depsLength E) (fn E) (scheduler E).
Definition with_depsLength (n : nat) (E : ReactiveEffect) : ReactiveEffect :=
  mkEffect (active E) (deps E) (allowRecurse E) (_dirtyLevel E) (_trackId E)
    (_runnings E) (_shouldSchedule E) n (fn E) (scheduler E).

Definition with_subs (s : list (EffectId * nat)) (D : Dep) : Dep :=
  mkDep s (cleanup D).

(** *** effect.ts: tracking and scheduling switches *)

Definition pauseTracking (st : State) : State :=
  set_shouldTrack false (set_trackStack (trackStack st ++ [shouldTrack st]) st).

Definition enableTracking (st : State) : State :=
  set_shouldTrack true (set_trackStack (trackStack st ++ [shouldTrack st]) st).

(** [trackStack.pop()] takes the last pushed entry; an empty stack resets
    to [true]. *)
Definition resetTracking (st : State) : State :=
  match last (trackStack st) with
  | Some b => set_shouldTrack b (set_trackStack (removelast (trackStack st)) st)
  | None => set_shouldTrack true st
  end.

Definition pauseScheduling (st : State) : State :=
  set_pauseScheduleStack (pauseScheduleStack st + 1) st.

(** *** effect.ts: dependency bookkeeping *)

Definition preCleanupEffect (e : EffectId) (st : State) : State :=
  upd_effect e (λ E, with_depsLength 0 (with_trackId (S (_trackId E)) E)) st.

(** [dep.cleanup()] for a dep made by [track]: [depsMap.delete(key)]. *)
Definition run_cleanup (D : Dep) (st : State) : State :=
  match cleanup D with
  | Some (t, k) =>
      match targetMap st !! t with
      | Some depsMap => set_targetMap (<[t := OMap.delete k depsMap]>) st
      | None => st
      end
  | None => st
  end.

Definition cleanupDepEffect (d : DepId) (e : EffectId) (st : State) : State :=
  match depHeap st !! d, effects st !! e with
  | Some D, Some E =>
      match OMap.get e (subs D) with
      | Some trackId =>
          if decide (_trackId E = trackId) then st
          else
            let D' := with_subs (OMap.delete e (subs D)) D in
            let st1 := set_depHeap (<[d := D']>) st in
            if decide (length (subs D') = 0%nat) then run_cleanup D' st1 else st1
      | None => st
      end
  | _, _ => st
  end.

Definition postCleanupEffect (e : EffectId) (st : State) : State :=
  match effects st !! e with
  | Some E =>
      if decide (_depsLength E < length (deps E))%nat then
        let st1 :=
          foldl (λ s d, cleanupDepEffect d e s) st (drop (_depsLength E) (deps E)) in
        upd_effect e (λ E', with_deps (take (_depsLength E) (deps E')) E') st1
      else st
  | None => st
  end.

(** [arr[i] = x] on a JavaScript array.  Writing at [length] appends; the
    cursor never exceeds the length (lemma [wf_depsLength] below), so a
    write past the end, which would leave holes, does not arise. *)
Definition array_write {A} (i : nat) (x : A) (l : list A) : list A :=
  take i l ++ x :: drop (S i) l.

Definition trackEffect (e : EffectId) (d : DepId) (st : State) : State :=
  match effects st !! e, depHeap st !! d with
  | Some E, Some D =>
      if decide (OMap.get e (subs D) = Some (_trackId E)) then st
      else
        let st1 := set_depHeap (<[d := with_subs (OMap.set e (_trackId E) (subs D)) D]>) st in
        let oldDep := deps E !! _depsLength E in
        if decide (oldDep = Some d) then
          upd_effect e (λ E', with_depsLength (S (_depsLength E')) E') st1
        else
          let st2 :=
            match oldDep with
            | Some od => cleanupDepEffect od e st1
            | None => st1
            end in
          upd_effect e
            (λ E', with_depsLength (S (_depsLength E'))
                     (with_deps (array_write (_depsLength E') d (deps E')) E')) st2
  | _, _ => st
  end.

(** reactiveEffect.ts [track]. *)
Definition track (target : TargetId) (key : Key) (st : State) : State :=
  match shouldTrack st, activeEffect st with
  | true, Some e =>
      let depsMap := default [] (targetMap st !! target) in
      let st1 :=
        match targetMap st !! target with
        | Some _ => st
        | None => set_targetMap (<[target := []]>) st
        end in
      match OMap.get key depsMap with
      | Some d => trackEffect e d st1
      | None =>
          let d := nextDep st1 in
          let st2 :=
            set_nextDep (S d)
              (set_depHeap (<[d := mkDep [] (Some (target, key))]>)
                 (set_targetMap (<[target := OMap.set key d depsMap]>) st1)) in
          trackEffect e d st2
      end
  | _, _ => st
  end.


(** *** effect.ts: [triggerEffects] and [scheduleEffects] *)

(** One iteration of the loop of [triggerEffects]. *)
Definition bump_one (d : DepId) (dirtyLevel : DirtyLevels) (st : State)
    (e : EffectId) : State :=
  match effects st !! e, depHeap st !! d with
  | Some E, Some D =>
      if bool_decide (level_value (_dirtyLevel E) < level_value dirtyLevel)
         && bool_decide (OMap.get e (subs D) = Some (_trackId E))
      then
        let lastDirtyLevel := _dirtyLevel E in
        let st1 := upd_effect e (with_dirtyLevel dirtyLevel) st in
        if decide (lastDirtyLevel = NotDirty)
        then log (EvTrigger e) (upd_effect e (with_shouldSchedule true) st1)
        else st1
      else st
  | _, _ => st
  end.

Definition dep_keys (d : DepId) (st : State) : list EffectId :=
  match depHeap st !! d with
  | Some D => OMap.keys (subs D)
  | None => []
  end.

Definition bump_effects (d : DepId) (dirtyLevel : DirtyLevels) (st : State) : State :=
  foldl (bump_one d dirtyLevel) st (dep_keys d st).

(** One iteration of the loop of [scheduleEffects]. *)
Definition schedule_one (d : DepId) (st : State) (e : EffectId) : State :=
  match effects st !! e, depHeap st !! d with
  | Some E, Some D =>
      match scheduler E with
      | Some s =>
          if _shouldSchedule E
             && (bool_decide (_runnings E = 0) || allowRecurse E)
             && bool_decide (OMap.get e (subs D) = Some (_trackId E))
          then
            set_queue (queueEffectSchedulers st ++ [s])
              (upd_effect e (with_shouldSchedule false) st)
          else st
      | None => st
      end
  | _, _ => st
  end.

Definition scheduleEffects (d : DepId) (st : State) : State :=
  foldl (schedule_one d) st (dep_keys d st).

(** *** reactiveEffect.ts: the deps a [trigger] collects *)

Definition collectDeps (target : Target) (depsMap : list (Key * DepId))
    (type : TriggerOpTypes) (key : option Key) (newValue : option Z)
    : list (option DepId) :=
  if decide (type = CLEAR) then
    Some <$> OMap.values depsMap
  else if bool_decide (key = Some KLength) && isArray target then
    let newLength := newValue in
    Some <$>
      (filter (λ kd, bool_decide (kd.1 = KLength)
                     || (negb (isSymbol kd.1) && key_ge kd.1 newLength))
              depsMap).*2
  else
    match key with Some k => [OMap.get k depsMap] | None => [] end
    ++
    match type with
    | ADD =>
        if negb (isArray target) then
          OMap.get ITERATE_KEY depsMap ::
          (if isMap target then [OMap.get MAP_KEY_ITERATE_KEY depsMap] else [])
        else if from_option isIntegerKey false key then
          [OMap.get KLength depsMap]
        else []
    | DELETE =>
        if negb (isArray target) then
          OMap.get ITERATE_KEY depsMap ::
          (if isMap target then [OMap.get MAP_KEY_ITERATE_KEY depsMap] else [])
        else []
    | SET =>
        if isMap target then [OMap.get ITERATE_KEY depsMap] else []
    | CLEAR => []
    end.

(** A target that is not in the heap of arrays and maps is a plain object. *)
Definition target_of (st : State) (t : TargetId) : Target :=
  default TObject (targets st !! t).

(** The [dirty] getter.  No dep of this model belongs to a computed ref
    (computed.ts is outside the sources), so the loop over the deps finds
    nothing to re-evaluate. *)
Definition dirty (e : EffectId) (st : State) : bool * State :=
  match effects st !! e with
  | Some E =>
      let st' :=
        if decide (_dirtyLevel E = MaybeDirty) then
          let st1 := pauseTracking st in
          let st2 :=
            upd_effect e (λ E', if bool_decide (level_value (_dirtyLevel E') < level_value Dirty)
                                then with_dirtyLevel NotDirty E' else E') st1 in
          resetTracking st2
        else st in
      (match effects st' !! e with
       | Some E' => bool_decide (level_value Dirty ≤ level_value (_dirtyLevel E'))
       | None => false
       end, st')
  | None => (false, st)
  end.

(** *** Code that re-enters the kernel

    Running an effect runs user code that may trigger, and a trigger may
    drain the scheduler queue, which runs effects.  The functions below take
    the re-entrant calls as a parameter [rec]; [interp] ties the knot with a
    step budget, [None] meaning the budget was exhausted. *)

Inductive Call :=
  | CallRun (e : EffectId)
  | CallDrain.

Section kernel.
Variable rec : Call → State → option State.

Definition invoke_scheduler (s : Scheduler) (st : State) : option State :=
  match s with
  | SchedRunIfDirty e =>
      let '(b, st1) := dirty e st in
      if b then rec (CallRun e) st1 else Some st1
  | SchedUser _ => Some st
  end.

(** The [while] loop of [resetScheduling]. *)
Definition drain (st : State) : option State :=
  match queueEffectSchedulers st with
  | s :: q =>
      if bool_decide (pauseScheduleStack st = 0) then
        st1 ← invoke_scheduler s (log (EvScheduler s) (set_queue q st));
        rec CallDrain st1
      else Some st
  | [] => Some st
  end.

Definition resetScheduling (st : State) : option State :=
  drain (set_pauseScheduleStack (pauseScheduleStack st - 1) st).

Definition triggerEffects (d : DepId) (dirtyLevel : DirtyLevels) (st : State)
    : option State :=
  resetScheduling (scheduleEffects d (bump_effects d dirtyLevel (pauseScheduling st))).

Fixpoint trigger_deps (ds : list (option DepId)) (st : State) : option State :=
  match ds with
  | [] => Some st
  | Some d :: ds' => st1 ← triggerEffects d Dirty st; trigger_deps ds' st1
  | None :: ds' => trigger_deps ds' st
  end.

Definition trigger (target : TargetId) (type : TriggerOpTypes)
    (key : option Key) (newValue : option Z) (st : State) : option State :=
  match targetMap st !! target with
  | None => Some st
  | Some depsMap =>
      let ds := collectDeps (target_of st target) depsMap type key newValue in
      st1 ← trigger_deps ds (pauseScheduling st);
      resetScheduling st1
  end.

(** *** baseHandlers.ts: the traps of a mutable, deep proxy over an array
    of numbers *)

Definition array_elems (st : State) (a : TargetId) : option (list Value) :=
  match targets st !! a with
  | Some (TArray l) => Some l
  | _ => None
  end.

(** String keys the [get] trap answers without tracking: the instrumented
    methods, [hasOwnProperty], and [isNonTrackableKeys]. *)
Definition untracked_names : list string :=
  ["includes"; "indexOf"; "lastIndexOf"; "push"; "pop"; "shift"; "unshift";
   "splice"; "hasOwnProperty"; "__proto__"; "__v_isRef"; "__isVue"]%string.

Definition proxy_get (a : TargetId) (key : Key) (st : State) : State :=
  match key with
  | KProp name => if bool_decide (name ∈ untracked_names) then st else track a key st
  | _ => track a key st
  end.

(** [target[i] = v] on the raw array: past the end the array grows. *)
Definition write_index (i : nat) (v : Value) (l : list Value) : list Value :=
  if decide (i < length l)%nat then <[i := v]> l
  else l ++ replicate (i - length l) VUndef ++ [v].

(** [target.length = n] on the raw array. *)
Definition write_length (n : nat) (l : list Value) : list Value :=
  if decide (n ≤ length l)%nat then take n l
  else l ++ replicate (n - length l) VUndef.

(** The [set] trap for an integer key; the receiver is the proxy itself. *)
Definition proxy_set_index (a : TargetId) (i : nat) (v : Z) (st : State)
    : option State :=
  match array_elems st a with
  | Some l =>
      let oldValue := default VUndef (l !! i) in
      let hadKey := bool_decide (i < length l)%nat in
      let st1 := set_targets (<[a := TArray (write_index i (VNum v) l)]>) st in
      if negb hadKey then trigger a ADD (Some (KIndex (N.of_nat i))) (Some v) st1
      else if bool_decide (VNum v ≠ oldValue)
           then trigger a SET (Some (KIndex (N.of_nat i))) (Some v) st1
           else Some st1
  | None => Some st
  end.

(** The [set] trap for the key ['length']. *)
Definition proxy_set_length (a : TargetId) (n : nat) (st : State)
    : option State :=
  match array_elems st a with
  | Some l =>
      let oldValue := length l in
      let st1 := set_targets (<[a := TArray (write_length n l)]>) st in
      if bool_decide (n ≠ oldValue)
      then trigger a SET (Some KLength) (Some (Z.of_nat n)) st1
      else Some st1
  | None => Some st
  end.

(** The wrapper [createArrayInstrumentations] puts around push, pop,
    shift, unshift and splice; [method] is the underlying array method
    applied to the proxy. *)
Definition instrumented (method : State → option State) (st : State)
    : option State :=
  st1 ← method (pauseScheduling (pauseTracking st));
  st2 ← resetScheduling st1;
  Some (resetTracking st2).

(** [Array.prototype.push] with one argument, run on the proxy: read
    [length], write the element, write the new [length]. *)
Definition native_push (a : TargetId) (v : Z) (st : State) : option State :=
  match array_elems st a with
  | Some l =>
      let len := length l in
      let st1 := proxy_get a KLength st in
      st2 ← proxy_set_index a len v st1;
      proxy_set_length a (S len) st2
  | None => Some st
  end.

(** *** effect.ts: [ReactiveEffect.run] and [stop] *)

Definition stop (e : EffectId) (st : State) : State :=
  match effects st !! e with
  | Some E =>
      if active E then
        upd_effect e (with_active false)
          (postCleanupEffect e (preCleanupEffect e st))
      else st
  | None => st
  end.

Definition exec_op (op : Op) (st : State) : option State :=
  match op with
  | OpTrack t k => Some (track t k st)
  | OpTrigger t ty k nv => trigger t ty k nv st
  | OpArrayGet a k => Some (proxy_get a k st)
  | OpArraySetIndex a i v => proxy_set_index a i v st
  | OpArraySetLength a n => proxy_set_length a n st
  | OpArrayPush a v => instrumented (native_push a v) st
  | OpRun e => rec (CallRun e) st
  | OpStop e => Some (stop e st)
  end.

Fixpoint exec_ops (ops : list Op) (st : State) : option State :=
  match ops with
  | [] => Some st
  | op :: ops' => st1 ← exec_op op st; exec_ops ops' st1
  end.

Definition run (e : EffectId) (st : State) : option State :=
  match effects st !! e with
  | Some E =>
      let st0 := upd_effect e (with_dirtyLevel NotDirty) st in
      if negb (active E) then exec_ops (fn E) (log (EvRun e) st0)
      else
        let lastShouldTrack := shouldTrack st0 in
        let lastEffect := activeEffect st0 in
        let st1 := set_activeEffect (Some e) (set_shouldTrack true st0) in
        let st2 := upd_effect e (λ E', with_runnings (_runnings E' + 1) E') st1 in
        let st3 := preCleanupEffect e st2 in
        st4 ← exec_ops (fn E) (log (EvRun e) st3);
        let st5 := postCleanupEffect e st4 in
        let st6 := upd_effect e (λ E', with_runnings (_runnings E' - 1) E') st5 in
        Some (set_shouldTrack lastShouldTrack (set_activeEffect lastEffect st6))
  | None => Some st
  end.

Definition step (c : Call) (st : State) : option State :=
  match c with
  | CallRun e => run e st
  | CallDrain => drain st
  end.
End kernel.

Fixpoint interp (fuel : nat) (c : Call) (st : State) : option State :=
  match fuel with
  | O => None
  | S fuel' => step (interp fuel') c st
  end.

(** [effect(fn, options)]. *)
Record ReactiveEffectOptions := mkOptions {
  lazy : bool;
  opt_scheduler : option nat;
  opt_allowRecurse : bool;
}.

Definition new_effect (e : EffectId) (body : list Op)
    (options : option ReactiveEffectOptions) : ReactiveEffect :=
  let sched :=
    match options with
    | Some o => match opt_scheduler o with
                | Some n => SchedUser n
                | None => SchedRunIfDirty e
                end
    | None => SchedRunIfDirty e
    end in
  mkEffect true [] (from_option opt_allowRecurse false options) Dirty 0%nat 0
    false 0%nat body (Some sched).

Definition effect (fuel : nat) (body : list Op)
    (options : option ReactiveEffectOptions) (st : State)
    : option (EffectId * State) :=
  let e := nextEffect st in
  let st1 := set_nextEffect (S e) (set_effects (<[e := new_effect e body options]>) st) in
  if from_option lazy false options then Some (e, st1)
  else st2 ← run (interp fuel) e st1; Some (e, st2).

(** *** Basic facts about state updates *)

Lemma effects_upd_effect e f st e' :
  effects (upd_effect e f st) !! e' =
    if decide (e = e') then f <$> effects st !! e' else effects st !! e'.
Proof.
  unfold upd_effect. destruct (effects st !! e) as [E|] eqn:HE; simpl.
  - destruct (decide (e = e')) as [<-|Hne].
    + by rewrite lookup_insert_eq, HE.
    + by rewrite lookup_insert_ne.
  - destruct (decide (e = e')) as [<-|Hne]; [by rewrite HE|done].
Qed.

Lemma effects_upd_effect_eq e f st :
  effects (upd_effect e f st) !! e = f <$> effects st !! e.
Proof. rewrite effects_upd_effect. by rewrite decide_True. Qed.

Lemma effects_upd_effect_ne e e' f st :
  e ≠ e' → effects (upd_effect e f st) !! e' = effects st !! e'.
Proof. intros. rewrite effects_upd_effect. by rewrite decide_False. Qed.

Lemma depHeap_upd_effect e f st : depHeap (upd_effect e f st) = depHeap st.
Proof. unfold upd_effect. by destruct (effects st !! e). Qed.

Lemma nextEffect_upd_effect e f st : nextEffect (upd_effect e f st) = nextEffect st.
Proof. unfold upd_effect. by destruct (effects st !! e). Qed.

Lemma array_write_lookup {A} (n i : nat) (x : A) (l : list A) :
  (n ≤ length l)%nat →
  array_write n x l !! i = if decide (i = n) then Some x else l !! i.
Proof.
  intros Hn. unfold array_write.
  assert (Hlen : length (take n l) = n) by (rewrite length_take; lia).
  destruct (decide (i = n)) as [->|Hne].
  - rewrite lookup_app_r by lia. by rewrite Hlen, Nat.sub_diag.
  - destruct (decide (i < n)%nat).
    + rewrite lookup_app_l by lia. by rewrite lookup_take_lt by lia.
    + rewrite lookup_app_r by lia. rewrite Hlen.
      destruct (i - n)%nat as [|k] eqn:Hk; [lia|]. simpl.
      rewrite lookup_drop. f_equal. lia.
Qed.

Lemma array_write_length {A} (n : nat) (x : A) (l : list A) :
  (n ≤ length l)%nat →
  length (array_write n x l) = if decide (n = length l) then S n else length l.
Proof.
  intros Hn. unfold array_write.
  rewrite length_app, length_take. simpl. rewrite length_drop.
  destruct (decide (n = length l)); lia.
Qed.

(** *** The subscription invariant

    An entry [e -> tid] of a dep [d] is either current, and then [d] sits
    below the cursor [_depsLength] of [e]'s dep list, or stale, and then
    [d] sits at or beyond the cursor, where [postCleanupEffect] (or the
    next overwrite by [trackEffect]) removes it. *)

Definition entry_ok (E : ReactiveEffect) (d : DepId) (tid : nat) : Prop :=
  ∃ i : nat, deps E !! i = Some d ∧
    ((tid = _trackId E ∧ i < _depsLength E)%nat ∨
     (tid < _trackId E ∧ _depsLength E ≤ i)%nat).

Record wf (st : State) : Prop := mk_wf {
  wf_depsLength : ∀ e E,
    effects st !! e = Some E → (_depsLength E ≤ length (deps E))%nat;
  wf_entries : ∀ d D e tid,
    depHeap st !! d = Some D → OMap.get e (subs D) = Some tid →
    ∃ E, effects st !! e = Some E ∧ entry_ok E d tid;
  wf_fresh : ∀ e : EffectId, is_Some (effects st !! e) → (e < nextEffect st)%nat;
}.

(** An effect is settled when it is not in the middle of a run: its cursor
    is at the end of its dep list. *)
Definition settled (e : EffectId) (st : State) : Prop :=
  ∀ E, effects st !! e = Some E → _depsLength E = length (deps E).

Lemma wf_initial : wf initial.
Proof.
  split; simpl.
  - intros e E H. by rewrite lookup_empty in H.
  - intros d D e tid H. by rewrite lookup_empty in H.
  - intros e [E H]. by rewrite lookup_empty in H.
Qed.

Lemma wf_same st st' :
  effects st' = effects st → depHeap st' = depHeap st →
  nextEffect st' = nextEffect st → wf st → wf st'.
Proof.
  intros He Hd Hn [H1 H2 H3]. split.
  - intros e E. rewrite He. apply H1.
  - intros d D e tid. rewrite Hd, He. apply H2.
  - intros e. rewrite He, Hn. apply H3.
Qed.

Lemma settled_same st st' e :
  effects st' = effects st → settled e st → settled e st'.
Proof. intros He H E. rewrite He. apply H. Qed.

(** Updating fields of an effect other than its dep list, cursor and
    track-id keeps the invariant. *)
Lemma wf_upd_effect_frame e f st :
  (∀ E, deps (f E) = deps E ∧ _depsLength (f E) = _depsLength E
        ∧ _trackId (f E) = _trackId E) →
  wf st → wf (upd_effect e f st).
Proof.
  intros Hf [H1 H2 H3]. split.
  - intros e' E'. rewrite effects_upd_effect.
    destruct (decide (e = e')) as [<-|Hne]; [|apply H1].
    destruct (effects st !! e) as [E|] eqn:HE; simpl; [|done].
    intros [= <-]. destruct (Hf E) as (Hd & Hl & _). rewrite Hd, Hl. by eapply H1.
  - intros d D e' tid. rewrite depHeap_upd_effect. intros HD Hg.
    destruct (H2 d D e' tid HD Hg) as (E & HE & Hok).
    rewrite effects_upd_effect.
    destruct (decide (e = e')) as [<-|Hne]; [|by exists E].
    rewrite HE. simpl. exists (f E). split; [done|].
    destruct (Hf E) as (Hd & Hl & Ht). unfold entry_ok. by rewrite Hd, Hl, Ht.
  - intros e'. rewrite effects_upd_effect, nextEffect_upd_effect.
    destruct (decide (e = e')) as [<-|Hne]; [|apply H3].
    intros [E' HE']. apply H3. apply (fmap_is_Some f). by exists E'.
Qed.

Lemma settled_upd_effect_frame e e' f st :
  (∀ E, deps (f E) = deps E ∧ _depsLength (f E) = _depsLength E) →
  settled e' st → settled e' (upd_effect e f st).
Proof.
  intros Hf H E'. rewrite effects_upd_effect.
  destruct (decide (e = e')) as [<-|Hne]; [|apply H].
  destruct (effects st !! e) as [E|] eqn:HE; simpl; [|done].
  intros [= <-]. destruct (Hf E) as (Hd & Hl). rewrite Hd, Hl. by apply H.
Qed.

(** *** [cleanupDepEffect] only removes stale entries *)

Lemma run_cleanup_frame D st :
  effects (run_cleanup D st) = effects st
  ∧ depHeap (run_cleanup D st) = depHeap st
  ∧ nextEffect (run_cleanup D st) = nextEffect st.
Proof.
  unfold run_cleanup. destruct (cleanup D) as [[t k]|]; [|done].
  by destruct (targetMap st !! t).
Qed.

Lemma cleanupDepEffect_effects d e st :
  effects (cleanupDepEffect d e st) = effects st
  ∧ nextEffect (cleanupDepEffect d e st) = nextEffect st.
Proof.
  unfold cleanupDepEffect.
  destruct (depHeap st !! d) as [D|]; [|done].
  destruct (effects st !! e) as [E|]; [|done].
  destruct (OMap.get e (subs D)) as [tid|]; [|done].
  destruct (decide (_trackId E = tid)); [done|].
  match goal with |- context [decide (?a = ?b)] => destruct (decide (a = b)) end;
    [|done].
  destruct (run_cleanup_frame (with_subs (OMap.delete e (subs D)) D)
              (set_depHeap <[d:=with_subs (OMap.delete e (subs D)) D]> st))
    as (-> & _ & ->). done.
Qed.

Lemma cleanupDepEffect_entries d e st d' D' e' tid :
  depHeap (cleanupDepEffect d e st) !! d' = Some D' →
  OMap.get e' (subs D') = Some tid →
  ∃ D, depHeap st !! d' = Some D ∧ OMap.get e' (subs D) = Some tid ∧
       (d' = d → e' = e → ∀ E, effects st !! e = Some E → tid = _trackId E).
Proof.
  unfold cleanupDepEffect.
  destruct (depHeap st !! d) as [D|] eqn:HD.
  2:{ intros H1 H2. exists D'. split_and!; [done..|]. intros ->. by rewrite HD in H1. }
  destruct (effects st !! e) as [E|] eqn:HE.
  2:{ intros H1 H2. exists D'. split_and!; [done..|]. by intros _ _ E. }
  destruct (OMap.get e (subs D)) as [t0|] eqn:Hg.
  2:{ intros H1 H2. exists D'. split_and!; [done..|].
      intros -> ->. rewrite HD in H1. injection H1 as <-. by rewrite Hg in H2. }
  destruct (decide (_trackId E = t0)) as [Heq|Hne].
  { intros H1 H2. exists D'. split_and!; [done..|].
    intros -> -> E0 [= <-]. rewrite HD in H1. injection H1 as <-.
    rewrite Hg in H2. by injection H2 as <-. }
  set (Dn := with_subs (OMap.delete e (subs D)) D).
  assert (Hheap : depHeap (if decide (length (subs Dn) = 0%nat)
                           then run_cleanup Dn (set_depHeap <[d:=Dn]> st)
                           else set_depHeap <[d:=Dn]> st)
                  = <[d:=Dn]> (depHeap st)).
  { destruct (decide (length (subs Dn) = 0%nat)); [|done].
    by destruct (run_cleanup_frame Dn (set_depHeap <[d:=Dn]> st)) as (_ & -> & _). }
  rewrite Hheap. clear Hheap.
  destruct (decide (d = d')) as [<-|Hdd].
  - rewrite lookup_insert_eq. intros [= <-]. simpl.
    destruct (decide (e = e')) as [<-|Hee].
    + by rewrite OMap.get_delete_eq.
    + rewrite OMap.get_delete_ne by done. intros H2.
      exists D. split_and!; [done..|]. intros _ ?. by subst.
  - rewrite lookup_insert_ne by done. intros H1 H2.
    exists D'. split_and!; [done..|]. intros ?. by subst.
Qed.

Lemma wf_cleanupDepEffect d e st : wf st → wf (cleanupDepEffect d e st).
Proof.
  intros [H1 H2 H3].
  destruct (cleanupDepEffect_effects d e st) as [He Hn]. split.
  - intros e0 E0. rewrite He. apply H1.
  - intros d' D' e' tid HD Hg. rewrite He.
    destruct (cleanupDepEffect_entries _ _ _ _ _ _ _ HD Hg) as (D & HD0 & Hg0 & _).
    by eapply H2.
  - intros e0. rewrite He, Hn. apply H3.
Qed.

(** After cleaning the deps [ds] for [e], no dep of [ds] holds a stale
    entry for [e], and no entry has appeared anywhere. *)
Lemma cleanup_fold_entries ds e st d' D' e' tid :
  depHeap (foldl (λ s d, cleanupDepEffect d e s) st ds) !! d' = Some D' →
  OMap.get e' (subs D') = Some tid →
  ∃ D, depHeap st !! d' = Some D ∧ OMap.get e' (subs D) = Some tid ∧
       (d' ∈ ds → e' = e → ∀ E, effects st !! e = Some E → tid = _trackId E).
Proof.
  revert st. induction ds as [|d ds IH]; intros st; simpl.
  - intros H1 H2. exists D'. split_and!; [done..|]. by intros ?%elem_of_nil.
  - intros H1 H2. destruct (IH _ H1 H2) as (D1 & HD1 & Hg1 & Hst1).
    destruct (cleanupDepEffect_entries _ _ _ _ _ _ _ HD1 Hg1) as (D & HD & Hg & Hst).
    exists D. split_and!; [done..|].
    intros [->|Hin]%elem_of_cons Hee E HE.
    + by apply Hst.
    + apply Hst1; [done..|]. by rewrite (proj1 (cleanupDepEffect_effects _ _ _)).
Qed.

Lemma cleanup_fold_effects ds e st :
  effects (foldl (λ s d, cleanupDepEffect d e s) st ds) = effects st
  ∧ nextEffect (foldl (λ s d, cleanupDepEffect d e s) st ds) = nextEffect st.
Proof.
  revert st. induction ds as [|d ds IH]; intros st; simpl; [done|].
  destruct (IH (cleanupDepEffect d e st)) as [-> ->].
  apply cleanupDepEffect_effects.
Qed.

(** *** The cursor protocol preserves the invariant *)

Lemma wf_preCleanupEffect e st : wf st → wf (preCleanupEffect e st).
Proof.
  intros [H1 H2 H3]. unfold preCleanupEffect. split.
  - intros e' E'. rewrite effects_upd_effect.
    destruct (decide (e = e')) as [<-|Hne]; [|apply H1].
    destruct (effects st !! e) as [E|]; simpl; [|done].
    intros [= <-]. simpl. lia.
  - intros d D e' tid. rewrite depHeap_upd_effect. intros HD Hg.
    destruct (H2 d D e' tid HD Hg) as (E & HE & i & Hi & Hcase).
    rewrite effects_upd_effect.
    destruct (decide (e = e')) as [<-|Hne]; [|exists E; split; [done|by exists i]].
    rewrite HE. simpl. eexists. split; [done|].
    exists i. simpl. split; [done|]. right. lia.
  - intros e'. rewrite effects_upd_effect, nextEffect_upd_effect.
    destruct (decide (e = e')) as [<-|Hne]; [|apply H3].
    intros [E' HE']. apply H3. eapply fmap_is_Some. by exists E'.
Qed.

Lemma wf_postCleanupEffect e st : wf st → wf (postCleanupEffect e st).
Proof.
  intros Hwf. unfold postCleanupEffect.
  destruct (effects st !! e) as [E|] eqn:HE; [|done].
  destruct (decide (_depsLength E < length (deps E))%nat) as [Hlt|]; [|done].
  set (st1 := foldl _ st _).
  destruct (cleanup_fold_effects (drop (_depsLength E) (deps E)) e st) as [He Hn].
  fold st1 in He, Hn.
  destruct Hwf as [H1 H2 H3]. split.
  - intros e' E'. rewrite effects_upd_effect, He.
    destruct (decide (e = e')) as [<-|Hne]; [|apply H1].
    rewrite HE. simpl. intros [= <-]. simpl. rewrite length_take. lia.
  - intros d D e' tid. rewrite depHeap_upd_effect. intros HD Hg.
    destruct (cleanup_fold_entries _ _ _ _ _ _ _ HD Hg) as (D0 & HD0 & Hg0 & Hst).
    destruct (H2 d D0 e' tid HD0 Hg0) as (E0 & HE0 & i & Hi & Hcase).
    rewrite effects_upd_effect, He.
    destruct (decide (e = e')) as [<-|Hne]; [|exists E0; split; [done|by exists i]].
    rewrite HE in HE0. injection HE0 as <-.
    rewrite HE. simpl. eexists. split; [done|].
    exists i. simpl. destruct Hcase as [[-> Hi2]|[Hstale Hi2]].
    + split; [|by left]. by rewrite lookup_take_lt.
    + exfalso. assert (tid = _trackId E); [|lia].
      apply Hst; [|done..]. apply list_elem_of_lookup.
      exists (i - _depsLength E)%nat. rewrite lookup_drop. rewrite <- Hi. f_equal. lia.
  - intros e'. rewrite effects_upd_effect, nextEffect_upd_effect, He, Hn.
    destruct (decide (e = e')) as [<-|Hne]; [|apply H3].
    intros [E' HE']. apply H3. eapply fmap_is_Some. by exists E'.
Qed.

Lemma settled_postCleanupEffect e st : wf st → settled e (postCleanupEffect e st).
Proof.
  intros Hwf E'. unfold postCleanupEffect.
  destruct (effects st !! e) as [E|] eqn:HE; [|by rewrite HE].
  destruct (decide (_depsLength E < length (deps E))%nat) as [Hlt|Hge].
  - rewrite effects_upd_effect_eq.
    rewrite (proj1 (cleanup_fold_effects _ e st)), HE. simpl.
    intros [= <-]. simpl. rewrite length_take. lia.
  - rewrite HE. intros [= <-]. pose proof (wf_depsLength _ Hwf _ _ HE). lia.
Qed.

Lemma settled_postCleanupEffect_other e e' st :
  settled e' st → settled e' (postCleanupEffect e st).
Proof.
  intros Hs E'. unfold postCleanupEffect.
  destruct (effects st !! e) as [E|] eqn:HE; [|apply Hs].
  destruct (decide (_depsLength E < length (deps E))%nat) as [Hlt|Hge]; [|apply Hs].
  rewrite effects_upd_effect, (proj1 (cleanup_fold_effects _ e st)).
  destruct (decide (e = e')) as [<-|Hne]; [|apply Hs].
  rewrite HE. simpl. intros [= <-]. simpl. specialize (Hs E HE). lia.
Qed.

Lemma wf_trackEffect e d st : wf st → wf (trackEffect e d st).
Proof.
  intros Hwf. unfold trackEffect.
  destruct (effects st !! e) as [E|] eqn:HE; [|done].
  destruct (depHeap st !! d) as [D|] eqn:HD; [|done].
  destruct (decide (OMap.get e (subs D) = Some (_trackId E))) as [|Hnew]; [done|].
  set (Dn := with_subs (OMap.set e (_trackId E) (subs D)) D).
  set (st1 := set_depHeap <[d:=Dn]> st).
  pose proof (wf_depsLength _ Hwf _ _ HE) as Hlen.
  (* entries of [st1] other than the new one come from [st] *)
  assert (Hst1 : ∀ d' D' e' tid,
            depHeap st1 !! d' = Some D' → OMap.get e' (subs D') = Some tid →
            (d' = d ∧ e' = e ∧ tid = _trackId E) ∨
            ((d' ≠ d ∨ e' ≠ e) ∧ ∃ D0, depHeap st !! d' = Some D0
                                       ∧ OMap.get e' (subs D0) = Some tid)).
  { intros d' D' e' tid. subst st1. simpl.
    destruct (decide (d = d')) as [<-|Hdd].
    - rewrite lookup_insert_eq. intros [= <-]. subst Dn. simpl.
      destruct (decide (e = e')) as [<-|Hee].
      + rewrite OMap.get_set_eq. intros [= <-]. by left.
      + rewrite OMap.get_set_ne by done. intros Hg. right. split; [by right|].
        by exists D.
    - rewrite lookup_insert_ne by done. intros H1 H2. right. split; [by left|].
      by exists D'. }
  destruct (decide (deps E !! _depsLength E = Some d)) as [Hold|Hold].
  - (* the dep is already at the cursor *)
    assert (Hlt : (_depsLength E < length (deps E))%nat)
      by (by eapply lookup_lt_Some).
    destruct Hwf as [H1 H2 H3]. split.
    + intros e' E'. rewrite effects_upd_effect.
      destruct (decide (e = e')) as [<-|Hne]; [|apply H1].
      simpl. rewrite HE. simpl. intros [= <-]. simpl. lia.
    + intros d' D' e' tid. rewrite depHeap_upd_effect. intros HD' Hg.
      rewrite effects_upd_effect. simpl.
      destruct (Hst1 _ _ _ _ HD' Hg) as [(-> & -> & ->)|(Hdiff & D0 & HD0 & Hg0)].
      * rewrite decide_True by done. rewrite HE. simpl. eexists. split; [done|].
        exists (_depsLength E). simpl. split; [done|]. left. lia.
      * destruct (H2 _ _ _ _ HD0 Hg0) as (E0 & HE0 & i & Hi & Hcase).
        destruct (decide (e = e')) as [<-|Hne]; [|exists E0; split; [done|by exists i]].
        rewrite HE in HE0. injection HE0 as <-. rewrite HE. simpl.
        eexists. split; [done|]. exists i. simpl. split; [done|].
        destruct Hcase as [[-> Hi2]|[Hstale Hi2]]; [left; lia|right].
        split; [done|]. destruct (decide (i = _depsLength E)) as [->|]; [|lia].
        rewrite Hold in Hi. injection Hi as <-. by destruct Hdiff.
    + intros e'. rewrite effects_upd_effect, nextEffect_upd_effect. simpl.
      destruct (decide (e = e')) as [<-|Hne]; [|apply H3].
      intros [E' HE']. apply H3. eapply fmap_is_Some. by exists E'.
  - (* the dep replaces whatever sits at the cursor *)
    set (st2 := match deps E !! _depsLength E with
                | Some od => cleanupDepEffect od e st1
                | None => st1
                end).
    assert (He2 : effects st2 = effects st ∧ nextEffect st2 = nextEffect st).
    { subst st2. destruct (deps E !! _depsLength E) as [od|]; [|done].
      by destruct (cleanupDepEffect_effects od e st1) as [-> ->]. }
    assert (Hst2 : ∀ d' D' e' tid,
              depHeap st2 !! d' = Some D' → OMap.get e' (subs D') = Some tid →
              ∃ D1, depHeap st1 !! d' = Some D1 ∧ OMap.get e' (subs D1) = Some tid
                    ∧ (deps E !! _depsLength E = Some d' → e' = e →
                       tid = _trackId E)).
    { intros d' D' e' tid. subst st2.
      destruct (deps E !! _depsLength E) as [od|] eqn:Hod.
      - intros HD' Hg.
        destruct (cleanupDepEffect_entries _ _ _ _ _ _ _ HD' Hg) as (D1 & ? & ? & Hst).
        exists D1. split_and!; [done..|]. intros [= <-] ->. by apply Hst.
      - intros HD' Hg. exists D'. by split_and!. }
    destruct He2 as [He2 Hn2].
    destruct Hwf as [H1 H2 H3]. split.
    + intros e' E'. rewrite effects_upd_effect, He2.
      destruct (decide (e = e')) as [<-|Hne]; [|apply H1].
      rewrite HE. simpl. intros [= <-]. simpl.
      rewrite array_write_length by done. destruct (decide _); lia.
    + intros d' D' e' tid. rewrite depHeap_upd_effect. intros HD' Hg.
      rewrite effects_upd_effect, He2.
      destruct (Hst2 _ _ _ _ HD' Hg) as (D1 & HD1 & Hg1 & Hcur).
      destruct (Hst1 _ _ _ _ HD1 Hg1) as [(-> & -> & ->)|(Hdiff & D0 & HD0 & Hg0)].
      * rewrite decide_True by done. rewrite HE. simpl. eexists. split; [done|].
        exists (_depsLength E). simpl. rewrite array_write_lookup by done.
        rewrite decide_True by done. split; [done|]. left. lia.
      * destruct (H2 _ _ _ _ HD0 Hg0) as (E0 & HE0 & i & Hi & Hcase).
        destruct (decide (e = e')) as [<-|Hne]; [|exists E0; split; [done|by exists i]].
        rewrite HE in HE0. injection HE0 as <-. rewrite HE. simpl.
        eexists. split; [done|]. exists i. simpl.
        rewrite array_write_lookup by done.
        destruct Hcase as [[-> Hi2]|[Hstale Hi2]].
        -- rewrite decide_False by lia. split; [done|]. left. lia.
        -- destruct (decide (i = _depsLength E)) as [->|Hi3].
           ++ exfalso. assert (tid = _trackId E); [|lia]. by apply Hcur.
           ++ split; [done|]. right. lia.
    + intros e'. rewrite effects_upd_effect, nextEffect_upd_effect, He2, Hn2.
      destruct (decide (e = e')) as [<-|Hne]; [|apply H3].
      intros [E' HE']. apply H3. eapply fmap_is_Some. by exists E'.
Qed.

Lemma settled_trackEffect e d e' st : settled e' st → settled e' (trackEffect e d st).
Proof.
  intros Hs. unfold trackEffect.
  destruct (effects st !! e) as [E|] eqn:HE; [|done].
  destruct (depHeap st !! d) as [D|] eqn:HD; [|done].
  destruct (decide (OMap.get e (subs D) = Some (_trackId E))) as [|Hnew]; [done|].
  destruct (decide (e = e')) as [<-|Hne].
  - (* a settled effect has nothing at its cursor: the dep is appended *)
    pose proof (Hs E HE) as Hlen.
    assert (Hnone : deps E !! _depsLength E = None)
      by (apply lookup_ge_None_2; lia).
    rewrite Hnone. rewrite decide_False by done.
    intros E'. rewrite effects_upd_effect_eq. simpl. rewrite HE. simpl.
    intros [= <-]. simpl. rewrite array_write_length by lia.
    rewrite decide_True by done. done.
  - destruct (decide (deps E !! _depsLength E = Some d)).
    + intros E'. rewrite effects_upd_effect_ne by done. apply Hs.
    + intros E'. rewrite effects_upd_effect_ne by done.
      destruct (deps E !! _depsLength E) as [od|]; [|apply Hs].
      rewrite (proj1 (cleanupDepEffect_effects _ _ _)). apply Hs.
Qed.

Lemma wf_track t k st : wf st → wf (track t k st).
Proof.
  intros Hwf. unfold track.
  destruct (shouldTrack st); [|done].
  destruct (activeEffect st) as [e|]; [|done].
  set (st1 := match targetMap st !! t with
              | Some _ => st
              | None => set_targetMap <[t:=[]]> st
              end).
  assert (Hwf1 : wf st1).
  { subst st1. destruct (targetMap st !! t); [done|]. (eapply wf_same; [..|eassumption]; done). }
  destruct (OMap.get k (default [] (targetMap st !! t))) as [d|].
  - by apply wf_trackEffect.
  - apply wf_trackEffect.
    destruct Hwf1 as [H1 H2 H3]. split; simpl; [done| |done].
    intros d D e' tid.
    destruct (decide (nextDep st1 = d)) as [<-|Hne].
    + rewrite lookup_insert_eq. by intros [= <-].
    + rewrite lookup_insert_ne by done. apply H2.
Qed.

Lemma settled_track t k e st : settled e st → settled e (track t k st).
Proof.
  intros Hs. unfold track.
  destruct (shouldTrack st); [|done].
  destruct (activeEffect st) as [a|]; [|done].
  destruct (OMap.get k (default [] (targetMap st !! t))) as [d|];
    apply settled_trackEffect.
  - by destruct (targetMap st !! t).
  - eapply settled_same; [|exact Hs]. by destruct (targetMap st !! t).
Qed.

Lemma wf_foldl {A} (f : State → A → State) (l : list A) st :
  (∀ s x, wf s → wf (f s x)) → wf st → wf (foldl f st l).
Proof. intros Hf. revert st. induction l; simpl; auto. Qed.

Lemma settled_foldl {A} (f : State → A → State) (l : list A) e st :
  (∀ s x, settled e s → settled e (f s x)) → settled e st → settled e (foldl f st l).
Proof. intros Hf. revert st. induction l; simpl; auto. Qed.

Lemma wf_bump_one d lvl st e : wf st → wf (bump_one d lvl st e).
Proof.
  intros Hwf. unfold bump_one.
  destruct (effects st !! e); [|done]. destruct (depHeap st !! d); [|done].
  destruct (_ && _); [|done].
  destruct (decide _).
  - eapply wf_same; [..|apply wf_upd_effect_frame, wf_upd_effect_frame, Hwf]; done.
  - by apply wf_upd_effect_frame.
Qed.

Lemma settled_bump_one d lvl st e e' : settled e' st → settled e' (bump_one d lvl st e).
Proof.
  intros Hs. unfold bump_one.
  destruct (effects st !! e); [|done]. destruct (depHeap st !! d); [|done].
  destruct (_ && _); [|done].
  destruct (decide _).
  - eapply settled_same;
      [|apply settled_upd_effect_frame, settled_upd_effect_frame, Hs]; done.
  - by apply settled_upd_effect_frame.
Qed.

Lemma wf_schedule_one d st e : wf st → wf (schedule_one d st e).
Proof.
  intros Hwf. unfold schedule_one.
  destruct (effects st !! e) as [E|]; [|done]. destruct (depHeap st !! d); [|done].
  destruct (scheduler E); [|done]. destruct (_ && _); [|done].
  eapply wf_same; [..|apply wf_upd_effect_frame, Hwf]; done.
Qed.

Lemma settled_schedule_one d st e e' :
  settled e' st → settled e' (schedule_one d st e).
Proof.
  intros Hs. unfold schedule_one.
  destruct (effects st !! e) as [E|]; [|done]. destruct (depHeap st !! d); [|done].
  destruct (scheduler E); [|done]. destruct (_ && _); [|done].
  eapply settled_same; [|apply settled_upd_effect_frame, Hs]; done.
Qed.

Lemma wf_resetTracking st : wf st → wf (resetTracking st).
Proof.
  intros Hwf. unfold resetTracking.
  destruct (last (trackStack st)); (eapply wf_same; [..|eassumption]; done).
Qed.

Lemma settled_resetTracking e st : settled e st → settled e (resetTracking st).
Proof.
  intros Hs. unfold resetTracking.
  destruct (last (trackStack st)); (eapply settled_same; [|eassumption]; done).
Qed.

Lemma wf_dirty e st : wf st → wf (dirty e st).2.
Proof.
  intros Hwf. unfold dirty.
  destruct (effects st !! e) as [E|]; [|done]. simpl.
  destruct (decide (_dirtyLevel E = MaybeDirty)); [|done].
  apply wf_resetTracking, wf_upd_effect_frame.
  - intros E'. by destruct (bool_decide _).
  - (eapply wf_same; [..|eassumption]; done).
Qed.

Lemma settled_dirty e e' st : settled e' st → settled e' (dirty e st).2.
Proof.
  intros Hs. unfold dirty.
  destruct (effects st !! e) as [E|]; [|done]. simpl.
  destruct (decide (_dirtyLevel E = MaybeDirty)); [|done].
  apply settled_resetTracking, settled_upd_effect_frame.
  - intros E'. by destruct (bool_decide _).
  - (eapply settled_same; [|eassumption]; done).
Qed.

Lemma wf_stop e st : wf st → wf (stop e st).
Proof.
  intros Hwf. unfold stop.
  destruct (effects st !! e) as [E|]; [|done]. destruct (active E); [|done].
  by apply wf_upd_effect_frame, wf_postCleanupEffect, wf_preCleanupEffect.
Qed.

Lemma settled_preCleanupEffect_other e e' st :
  e ≠ e' → settled e' st → settled e' (preCleanupEffect e st).
Proof.
  intros Hne Hs E'. unfold preCleanupEffect.
  rewrite effects_upd_effect_ne by done. apply Hs.
Qed.

Lemma settled_stop e e' st : wf st → settled e' st → settled e' (stop e st).
Proof.
  intros Hwf Hs. unfold stop.
  destruct (effects st !! e) as [E|]; [|done]. destruct (active E); [|done].
  apply settled_upd_effect_frame; [done|].
  destruct (decide (e = e')) as [<-|Hne].
  - by apply settled_postCleanupEffect, wf_preCleanupEffect.
  - by apply settled_postCleanupEffect_other, settled_preCleanupEffect_other.
Qed.

(** [ok st st']: the invariant holds in [st'] and no effect that was
    settled in [st] is left in the middle of a run. *)
Definition ok (st st' : State) : Prop :=
  wf st' ∧ ∀ e, settled e st → settled e st'.

Lemma ok_refl st : wf st → ok st st.
Proof. by split. Qed.

Lemma ok_trans st1 st2 st3 : ok st1 st2 → ok st2 st3 → ok st1 st3.
Proof. intros [? H1] [? H2]. split; [done|]. auto. Qed.

Section kernel_invariant.
Variable rec : Call → State → option State.
Hypothesis rec_ok : ∀ c st st', wf st → rec c st = Some st' → ok st st'.

Lemma ok_drain st st' : wf st → drain rec st = Some st' → ok st st'.
Proof.
  intros Hwf. unfold drain.
  destruct (queueEffectSchedulers st) as [|s q]; [intros [= <-]; by apply ok_refl|].
  destruct (bool_decide _); [|intros [= <-]; by apply ok_refl].
  set (st0 := log (EvScheduler s) (set_queue q st)).
  assert (H0 : ok st st0).
  { split; [(eapply wf_same; [..|eassumption]; done)|]. intros e. by apply settled_same. }
  destruct (invoke_scheduler rec s st0) as [st1|] eqn:Hinv; simpl; [|done].
  intros Hrec. eapply ok_trans; [exact H0|].
  assert (H1 : ok st0 st1).
  { destruct s as [e|n]; simpl in Hinv.
    - destruct (dirty e st0) as [b sd] eqn:Hd.
      assert (Hsd : ok st0 sd).
      { replace sd with (dirty e st0).2 by (by rewrite Hd).
        split; [apply wf_dirty, H0|]. intros e'. apply settled_dirty. }
      destruct b.
      + eapply ok_trans; [exact Hsd|]. eapply rec_ok; [apply Hsd|done].
      + by injection Hinv as <-.
    - injection Hinv as <-. apply ok_refl, H0. }
  eapply ok_trans; [exact H1|]. eapply rec_ok; [apply H1|done].
Qed.

Lemma ok_resetScheduling st st' :
  wf st → resetScheduling rec st = Some st' → ok st st'.
Proof.
  intros Hwf Hr. unfold resetScheduling in Hr.
  eapply ok_trans; [|eapply ok_drain; [|exact Hr]].
  - split; [(eapply wf_same; [..|eassumption]; done)|]. intros e. by apply settled_same.
  - (eapply wf_same; [..|eassumption]; done).
Qed.

Lemma ok_triggerEffects d lvl st st' :
  wf st → triggerEffects rec d lvl st = Some st' → ok st st'.
Proof.
  intros Hwf Hr. unfold triggerEffects in Hr.
  set (st1 := scheduleEffects d (bump_effects d lvl (pauseScheduling st))) in Hr.
  assert (H1 : ok st st1).
  { split.
    - apply wf_foldl; [intros; by apply wf_schedule_one|].
      apply wf_foldl; [intros; by apply wf_bump_one|]. (eapply wf_same; [..|eassumption]; done).
    - intros e Hs.
      apply settled_foldl; [intros; by apply settled_schedule_one|].
      apply settled_foldl; [intros; by apply settled_bump_one|].
      (eapply settled_same; [|eassumption]; done). }
  eapply ok_trans; [exact H1|]. eapply ok_resetScheduling; [apply H1|done].
Qed.

Lemma ok_trigger_deps ds st st' :
  wf st → trigger_deps rec ds st = Some st' → ok st st'.
Proof.
  revert st. induction ds as [|[d|] ds IH]; intros st Hwf; simpl.
  - intros [= <-]. by apply ok_refl.
  - destruct (triggerEffects rec d Dirty st) as [st1|] eqn:H1; simpl; [|done].
    intros H2. pose proof (ok_triggerEffects _ _ _ _ Hwf H1) as Hok.
    eapply ok_trans; [exact Hok|]. apply IH; [apply Hok|done].
  - by apply IH.
Qed.

Lemma ok_trigger t ty k nv st st' :
  wf st → trigger rec t ty k nv st = Some st' → ok st st'.
Proof.
  intros Hwf. unfold trigger.
  destruct (targetMap st !! t) as [depsMap|]; [|intros [= <-]; by apply ok_refl].
  destruct (trigger_deps rec _ (pauseScheduling st)) as [st1|] eqn:H1; simpl; [|done].
  intros H2.
  assert (H0 : ok st (pauseScheduling st)).
  { split; [(eapply wf_same; [..|eassumption]; done)|]. intros e. by apply settled_same. }
  pose proof (ok_trigger_deps _ _ _ (proj1 H0) H1) as Hok1.
  eapply ok_trans; [exact H0|]. eapply ok_trans; [exact Hok1|].
  eapply ok_resetScheduling; [apply Hok1|done].
Qed.

Lemma ok_set_targets f st : wf st → ok st (set_targets f st).
Proof. intros Hwf. split; [(eapply wf_same; [..|eassumption]; done)|]. intros e. by apply settled_same. Qed.

Lemma ok_proxy_get a k st : wf st → ok st (proxy_get a k st).
Proof.
  intros Hwf. unfold proxy_get.
  assert (ok st (track a k st)).
  { split; [by apply wf_track|]. intros e. apply settled_track. }
  destruct k; try done. destruct (bool_decide _); [by apply ok_refl|done].
Qed.

Lemma ok_proxy_set_index a i v st st' :
  wf st → proxy_set_index rec a i v st = Some st' → ok st st'.
Proof.
  intros Hwf. unfold proxy_set_index.
  destruct (array_elems st a) as [l|]; [|intros [= <-]; by apply ok_refl].
  set (st1 := set_targets _ st).
  pose proof (ok_set_targets (<[a := TArray (write_index i (VNum v) l)]>) st Hwf)
    as H1. fold st1 in H1.
  destruct (negb _).
  - intros H2. eapply ok_trans; [exact H1|]. eapply ok_trigger; [apply H1|done].
  - destruct (bool_decide _).
    + intros H2. eapply ok_trans; [exact H1|]. eapply ok_trigger; [apply H1|done].
    + by intros [= <-].
Qed.

Lemma ok_proxy_set_length a n st st' :
  wf st → proxy_set_length rec a n st = Some st' → ok st st'.
Proof.
  intros Hwf. unfold proxy_set_length.
  destruct (array_elems st a) as [l|]; [|intros [= <-]; by apply ok_refl].
  set (st1 := set_targets _ st).
  pose proof (ok_set_targets (<[a := TArray (write_length n l)]>) st Hwf) as H1.
  fold st1 in H1.
  destruct (bool_decide _).
  - intros H2. eapply ok_trans; [exact H1|]. eapply ok_trigger; [apply H1|done].
  - by intros [= <-].
Qed.

Lemma ok_native_push a v st st' :
  wf st → native_push rec a v st = Some st' → ok st st'.
Proof.
  intros Hwf. unfold native_push.
  destruct (array_elems st a) as [l|]; [|intros [= <-]; by apply ok_refl].
  pose proof (ok_proxy_get a KLength st Hwf) as H1.
  destruct (proxy_set_index rec a (length l) v _) as [st2|] eqn:H2; simpl; [|done].
  intros H3. pose proof (ok_proxy_set_index _ _ _ _ _ (proj1 H1) H2) as Hok2.
  eapply ok_trans; [exact H1|]. eapply ok_trans; [exact Hok2|].
  eapply ok_proxy_set_length; [apply Hok2|done].
Qed.

Lemma ok_instrumented method st st' :
  (∀ s s', wf s → method s = Some s' → ok s s') →
  wf st → instrumented rec method st = Some st' → ok st st'.
Proof.
  intros Hm Hwf. unfold instrumented.
  set (st0 := pauseScheduling (pauseTracking st)).
  assert (H0 : ok st st0).
  { split; [(eapply wf_same; [..|eassumption]; done)|]. intros e. by apply settled_same. }
  destruct (method st0) as [st1|] eqn:H1; simpl; [|done].
  destruct (resetScheduling rec st1) as [st2|] eqn:H2; simpl; [|done].
  intros [= <-].
  pose proof (Hm _ _ (proj1 H0) H1) as Hok1.
  pose proof (ok_resetScheduling _ _ (proj1 Hok1) H2) as Hok2.
  eapply ok_trans; [exact H0|]. eapply ok_trans; [exact Hok1|].
  eapply ok_trans; [exact Hok2|].
  split; [apply wf_resetTracking, Hok2|]. intros e. apply settled_resetTracking.
Qed.

Lemma ok_exec_op op st st' : wf st → exec_op rec op st = Some st' → ok st st'.
Proof.
  intros Hwf. destruct op; simpl.
  - intros [= <-]. split; [by apply wf_track|]. intros e. apply settled_track.
  - by apply ok_trigger.
  - intros [= <-]. by apply ok_proxy_get.
  - by apply ok_proxy_set_index.
  - by apply ok_proxy_set_length.
  - apply ok_instrumented; [|done]. intros s s'. apply ok_native_push.
  - by apply rec_ok.
  - intros [= <-]. split; [by apply wf_stop|]. intros e'. by apply settled_stop.
Qed.

Lemma ok_exec_ops ops st st' : wf st → exec_ops rec ops st = Some st' → ok st st'.
Proof.
  revert st. induction ops as [|op ops IH]; intros st Hwf; simpl.
  - intros [= <-]. by apply ok_refl.
  - destruct (exec_op rec op st) as [st1|] eqn:H1; simpl; [|done].
    intros H2. pose proof (ok_exec_op _ _ _ Hwf H1) as Hok.
    eapply ok_trans; [exact Hok|]. apply IH; [apply Hok|done].
Qed.

(** A completed run leaves its own effect settled as well. *)
Lemma ok_run e st st' :
  wf st → run rec e st = Some st' →
  ok st st' ∧ (∀ E, effects st !! e = Some E → active E = true → settled e st').
Proof.
  intros Hwf. unfold run.
  destruct (effects st !! e) as [E|] eqn:HE;
    [|intros [= <-]; split; [by apply ok_refl|done]].
  set (st0 := upd_effect e (with_dirtyLevel NotDirty) st).
  assert (H0 : ok st st0).
  { split; [by apply wf_upd_effect_frame|].
    intros e'. by apply settled_upd_effect_frame. }
  destruct (active E) eqn:Hact; simpl.
  - set (st3 := log (EvRun e) (preCleanupEffect e _)).
    destruct (exec_ops rec (fn E) st3) as [st4|] eqn:H4; simpl; [|done].
    intros [= <-].
    assert (Hwf3 : wf st3).
    { eapply wf_same; [..|apply wf_preCleanupEffect, wf_upd_effect_frame]; try done.
      eapply wf_same; [..|apply H0]; done. }
    pose proof (ok_exec_ops _ _ _ Hwf3 H4) as Hok4.
    assert (Hwf5 : wf (postCleanupEffect e st4)) by apply wf_postCleanupEffect, Hok4.
    assert (Hset : settled e (postCleanupEffect e st4))
      by apply settled_postCleanupEffect, Hok4.
    split; [split|].
    + eapply wf_same; [..|apply wf_upd_effect_frame, Hwf5]; done.
    + intros e' Hs.
      eapply settled_same; [|apply settled_upd_effect_frame]; [done..|].
      destruct (decide (e = e')) as [<-|Hne]; [done|].
      apply settled_postCleanupEffect_other, Hok4.
      eapply settled_same; [|apply settled_preCleanupEffect_other]; [done..|].
      apply settled_upd_effect_frame; [done|].
      eapply settled_same; [|apply H0, Hs]. done.
    + intros _ _ _.
      eapply settled_same; [|apply settled_upd_effect_frame]; done.
  - intros H4. split; [|intros E0 [= <-]; congruence].
    eapply ok_trans; [exact H0|].
    assert (Hl : ok st0 (log (EvRun e) st0)).
    { split; [eapply wf_same; [..|apply H0]; done|].
      intros e'. by apply settled_same. }
    eapply ok_trans; [exact Hl|]. eapply ok_exec_ops; [apply Hl|done].
Qed.

Lemma ok_step c st st' : wf st → step rec c st = Some st' → ok st st'.
Proof.
  intros Hwf. destruct c; simpl.
  - intros H. by apply ok_run in H as [? _].
  - by apply ok_drain.
Qed.
End kernel_invariant.

Lemma ok_interp fuel c st st' : wf st → interp fuel c st = Some st' → ok st st'.
Proof.
  revert c st st'. induction fuel as [|fuel IH]; intros c st st' Hwf; simpl; [done|].
  by apply ok_step.
Qed.

(** *** States reachable through the public entry points *)

Inductive reachable : State → Prop :=
  | reach_initial : reachable initial
  | reach_alloc st t T :
      reachable st → reachable (set_targets (<[t := T]>) st)
  | reach_effect st fuel body options e st' :
      reachable st → effect fuel body options st = Some (e, st') → reachable st'
  | reach_ops st fuel ops st' :
      reachable st → exec_ops (interp fuel) ops st = Some st' → reachable st'.

Lemma ok_effect fuel body options st e st' :
  wf st → (∀ e', settled e' st) → effect fuel body options st = Some (e, st') →
  wf st' ∧ ∀ e', settled e' st'.
Proof.
  intros Hwf Hs. unfold effect.
  set (n := nextEffect st).
  set (st1 := set_nextEffect (S n) (set_effects _ st)).
  assert (Hfresh : effects st !! n = None).
  { destruct (effects st !! n) eqn:Hn; [|done].
    assert (n < nextEffect st)%nat by (apply (wf_fresh _ Hwf); by eexists).
    subst n. lia. }
  assert (Hwf1 : wf st1).
  { destruct Hwf as [H1 H2 H3]. split; simpl.
    - intros e0 E0. destruct (decide (n = e0)) as [<-|Hne].
      + rewrite lookup_insert_eq. intros [= <-]. simpl. lia.
      + rewrite lookup_insert_ne by done. apply H1.
    - intros d D e0 tid HD Hg.
      destruct (H2 _ _ _ _ HD Hg) as (E0 & HE0 & Hok).
      exists E0. split; [|done].
      rewrite lookup_insert_ne; [done|]. intros <-. by rewrite Hfresh in HE0.
    - intros e0. destruct (decide (n = e0)) as [<-|Hne]; [lia|].
      rewrite lookup_insert_ne by done. intros H%H3. fold n in H. lia. }
  assert (Hs1 : ∀ e', settled e' st1).
  { intros e' E'. subst st1. simpl. destruct (decide (n = e')) as [<-|Hne].
    - rewrite lookup_insert_eq. by intros [= <-].
    - rewrite lookup_insert_ne by done. apply Hs. }
  destruct (from_option lazy false options).
  - by intros [= <- <-].
  - destruct (run (interp fuel) n st1) as [st2|] eqn:Hrun; simpl; [|done].
    intros [= <- <-].
    destruct (ok_run (interp fuel) (ok_interp fuel) _ _ _ Hwf1 Hrun) as [[Hwf2 Hs2] _].
    split; [done|]. intros e'. apply Hs2, Hs1.
Qed.

Lemma reachable_wf st : reachable st → wf st ∧ ∀ e, settled e st.
Proof.
  induction 1 as [|st t T _ [IHw IHs]|st fuel body options e st' _ [IHw IHs] Heff
                  |st fuel ops st' _ [IHw IHs] Hops].
  - split; [apply wf_initial|]. intros e E H. simpl in H. by rewrite lookup_empty in H.
  - split; [(eapply wf_same; [..|eassumption]; done)|]. intros e. (eapply settled_same; [|eauto]; done).
  - by eapply ok_effect.
  - destruct (ok_exec_ops (interp fuel) (ok_interp fuel) _ _ _ IHw Hops) as [Hw Hs].
    split; [done|]. intros e. apply Hs, IHs.
Qed.

(** C4. For every effect [e] and dep [d], once a track or trigger cycle has
    run to completion (any state reached through [effect()], runner calls,
    triggers and [stop]), [e] is one of [d]'s subscribers exactly when the
    track-id [d] records for [e] is [e]'s current track-id. *)
Theorem subscriber_iff_current_trackId (st : State) (e : EffectId)
    (E : ReactiveEffect) (d : DepId) (D : Dep) :
  reachable st →
  effects st !! e = Some E → depHeap st !! d = Some D →
  e ∈ OMap.keys (subs D) ↔ OMap.get e (subs D) = Some (_trackId E).
Proof.
  intros [Hwf Hs]%reachable_wf HE HD. split.
  - intros Hin.
    destruct (OMap.get e (subs D)) as [tid|] eqn:Hg.
    2:{ by apply OMap.get_None_keys in Hg. }
    destruct (wf_entries _ Hwf _ _ _ _ HD Hg) as (E0 & HE0 & i & Hi & Hcase).
    rewrite HE in HE0. injection HE0 as <-.
    destruct Hcase as [[-> _]|[_ Hge]]; [done|].
    apply lookup_lt_Some in Hi. rewrite (Hs e E HE) in Hge. lia.
  - apply OMap.get_Some_keys.
Qed.

(** A concrete session: an array [[5]], one effect that reads its length
    and its first element, then a push from outside any effect. *)
Definition demo_session : State :=
  default initial
    ('(_, s1) ← effect 8 [OpArrayGet 0%nat KLength; OpArrayGet 0%nat (KIndex 0)] None
                  (set_targets (<[0%nat := TArray [VNum 5]]>) initial);
     exec_ops (interp 8) [OpArrayPush 0%nat 7] s1).

Lemma demo_session_reachable : reachable demo_session.
Proof.
  pose proof (reach_alloc _ 0%nat (TArray [VNum 5]) reach_initial) as H0.
  destruct (effect 8 [OpArrayGet 0%nat KLength; OpArrayGet 0%nat (KIndex 0)] None
              (set_targets (<[0%nat := TArray [VNum 5]]>) initial))
    as [[e s1]|] eqn:H1; [|by vm_compute in H1].
  pose proof (reach_effect _ _ _ _ _ _ H0 H1) as Hr1.
  destruct (exec_ops (interp 8) [OpArrayPush 0%nat 7] s1) as [s2|] eqn:H2.
  - pose proof (reach_ops _ _ _ _ Hr1 H2) as Hr2.
    unfold demo_session. rewrite H1.
    change (reachable (default initial (exec_ops (interp 8) [OpArrayPush 0%nat 7] s1))).
    by rewrite H2.
  - exfalso. vm_compute in H1. injection H1 as <- <-. by vm_compute in H2.
Defined.

Lemma subscriber_iff_current_trackId_witness :
  reachable demo_session ∧
  (0%nat ∈ OMap.keys [(0%nat, 2%nat)] ↔
   OMap.get 0%nat [(0%nat, 2%nat)] = Some 2%nat).
Proof.
  split; [exact demo_session_reachable|].
  apply (subscriber_iff_current_trackId demo_session 0%nat
           (mkEffect true [0%nat; 1%nat] false NotDirty 2%nat 0 false 2%nat
              [OpArrayGet 0%nat KLength; OpArrayGet 0%nat (KIndex 0)]
              (Some (SchedRunIfDirty 0%nat)))
           0%nat (mkDep [(0%nat, 2%nat)] (Some (0%nat, KLength)))).
  - exact demo_session_reachable.
  - vm_compute. reflexivity.
  - vm_compute. reflexivity.
Defined.

(** *** What one call of [triggerEffects] does to the effects of a dep *)

(** The state [triggerEffects] has built when it reaches its final
    [resetScheduling()]. *)
Definition marked (d : DepId) (dirtyLevel : DirtyLevels) (st : State) : State :=
  scheduleEffects d (bump_effects d dirtyLevel (pauseScheduling st)).

(** The guard of the first loop: dirty-level below the triggering level and
    recorded track-id current. *)
Definition eligible (lvl : DirtyLevels) (D : Dep) (e : EffectId)
    (E : ReactiveEffect) : bool :=
  bool_decide (level_value (_dirtyLevel E) < level_value lvl)
  && bool_decide (OMap.get e (subs D) = Some (_trackId E)).

(** The effect is told: [_shouldSchedule] set and [trigger()] called. *)
Definition notified (lvl : DirtyLevels) (D : Dep) (e : EffectId)
    (E : ReactiveEffect) : bool :=
  eligible lvl D e E && bool_decide (_dirtyLevel E = NotDirty).

(** The effect's scheduler is pushed on [queueEffectSchedulers]. *)
Definition enqueued (lvl : DirtyLevels) (D : Dep) (e : EffectId)
    (E : ReactiveEffect) : bool :=
  bool_decide (is_Some (scheduler E))
  && (notified lvl D e E || _shouldSchedule E)
  && (bool_decide (_runnings E = 0) || allowRecurse E)
  && bool_decide (OMap.get e (subs D) = Some (_trackId E)).

Definition bump_eff (lvl : DirtyLevels) (D : Dep) (e : EffectId)
    (E : ReactiveEffect) : ReactiveEffect :=
  if eligible lvl D e E then
    if decide (_dirtyLevel E = NotDirty)
    then with_shouldSchedule true (with_dirtyLevel lvl E)
    else with_dirtyLevel lvl E
  else E.

Definition sched_eff (D : Dep) (e : EffectId) (E : ReactiveEffect) : ReactiveEffect :=
  if bool_decide (is_Some (scheduler E)) && _shouldSchedule E
     && (bool_decide (_runnings E = 0) || allowRecurse E)
     && bool_decide (OMap.get e (subs D) = Some (_trackId E))
  then with_shouldSchedule false E
  else E.

Definition trigger_events (lvl : DirtyLevels) (D : Dep) (st : State)
    (ks : list EffectId) : list Event :=
  omap (λ e, E ← effects st !! e;
             if notified lvl D e E then Some (EvTrigger e) else None) ks.

Definition new_schedulers (lvl : DirtyLevels) (D : Dep) (st : State)
    (ks : list EffectId) : list Scheduler :=
  omap (λ e, E ← effects st !! e;
             if enqueued lvl D e E then scheduler E else None) ks.

Lemma upd_effect_fields e f st :
  depHeap (upd_effect e f st) = depHeap st
  ∧ queueEffectSchedulers (upd_effect e f st) = queueEffectSchedulers st
  ∧ pauseScheduleStack (upd_effect e f st) = pauseScheduleStack st
  ∧ trace (upd_effect e f st) = trace st
  ∧ shouldTrack (upd_effect e f st) = shouldTrack st
  ∧ trackStack (upd_effect e f st) = trackStack st.
Proof. unfold upd_effect. by destruct (effects st !! e). Qed.

Lemma omap_ext_in {A B} (f g : A → option B) (l : list A) :
  (∀ x, x ∈ l → f x = g x) → omap f l = omap g l.
Proof.
  induction l as [|a l IH]; intros H; [done|].
  assert (Ha : f a = g a) by apply H, list_elem_of_here.
  assert (Hl : omap f l = omap g l).
  { apply IH. intros x Hx. apply H. by apply list_elem_of_further. }
  change (omap f (a :: l)) with (match f a with Some y => y :: omap f l | None => omap f l end).
  change (omap g (a :: l)) with (match g a with Some y => y :: omap g l | None => omap g l end).
  by rewrite Ha, Hl.
Qed.

Lemma trigger_events_cons lvl D st k ks :
  trigger_events lvl D st (k :: ks)
  = trigger_events lvl D st [k] ++ trigger_events lvl D st ks.
Proof. unfold trigger_events. apply (omap_app _ [k] ks). Qed.

Lemma new_schedulers_cons lvl D st k ks :
  new_schedulers lvl D st (k :: ks)
  = new_schedulers lvl D st [k] ++ new_schedulers lvl D st ks.
Proof. unfold new_schedulers. apply (omap_app _ [k] ks). Qed.

Lemma bump_one_spec d lvl D s k :
  depHeap s !! d = Some D →
  depHeap (bump_one d lvl s k) = depHeap s
  ∧ queueEffectSchedulers (bump_one d lvl s k) = queueEffectSchedulers s
  ∧ pauseScheduleStack (bump_one d lvl s k) = pauseScheduleStack s
  ∧ trace (bump_one d lvl s k) = trace s ++ trigger_events lvl D s [k]
  ∧ ∀ e, effects (bump_one d lvl s k) !! e =
         if decide (e = k) then bump_eff lvl D k <$> effects s !! k
         else effects s !! e.
Proof.
  intros HD. unfold bump_one, trigger_events, notified, bump_eff. simpl.
  rewrite HD.
  destruct (effects s !! k) as [E|] eqn:HE; simpl.
  2:{ rewrite app_nil_r. split_and!; try done.
      intros e. destruct (decide (e = k)) as [->|]; [by rewrite HE|done]. }
  fold (eligible lvl D k E).
  destruct (eligible lvl D k E); simpl.
  2:{ rewrite app_nil_r. split_and!; try done.
      intros e. destruct (decide (e = k)) as [->|]; [by rewrite HE|done]. }
  destruct (decide (_dirtyLevel E = NotDirty)) as [Hn|Hn].
  - rewrite bool_decide_eq_true_2 by done. simpl.
    destruct (upd_effect_fields k (with_shouldSchedule true)
                (upd_effect k (with_dirtyLevel lvl) s)) as (-> & -> & -> & -> & _).
    destruct (upd_effect_fields k (with_dirtyLevel lvl) s) as (-> & -> & -> & -> & _).
    split_and!; try done.
    intros e. rewrite !effects_upd_effect.
    destruct (decide (e = k)) as [->|Hne].
    + rewrite !decide_True by done. by rewrite HE.
    + by rewrite !decide_False by done.
  - rewrite bool_decide_eq_false_2 by done. simpl. rewrite app_nil_r.
    destruct (upd_effect_fields k (with_dirtyLevel lvl) s) as (-> & -> & -> & -> & _).
    split_and!; try done.
    intros e. rewrite !effects_upd_effect.
    destruct (decide (e = k)) as [->|Hne].
    + rewrite !decide_True by done. by rewrite HE.
    + by rewrite !decide_False by done.
Qed.

Lemma bump_fold_spec d lvl D ks :
  NoDup ks → ∀ s, depHeap s !! d = Some D →
  depHeap (foldl (bump_one d lvl) s ks) = depHeap s
  ∧ queueEffectSchedulers (foldl (bump_one d lvl) s ks) = queueEffectSchedulers s
  ∧ pauseScheduleStack (foldl (bump_one d lvl) s ks) = pauseScheduleStack s
  ∧ trace (foldl (bump_one d lvl) s ks) = trace s ++ trigger_events lvl D s ks
  ∧ ∀ e, effects (foldl (bump_one d lvl) s ks) !! e =
         if decide (e ∈ ks) then bump_eff lvl D e <$> effects s !! e
         else effects s !! e.
Proof.
  induction 1 as [|k ks Hk Hnd IH]; intros s HD; cbn [foldl].
  - unfold trigger_events. simpl. rewrite app_nil_r. by split_and!.
  - destruct (bump_one_spec d lvl D s k HD) as (Hd1 & Hq1 & Hp1 & Ht1 & He1).
    destruct (IH (bump_one d lvl s k)) as (Hd2 & Hq2 & Hp2 & Ht2 & He2).
    { by rewrite Hd1. }
    rewrite Hd2, Hq2, Hp2, Ht2, Hd1, Hq1, Hp1, Ht1.
    split_and!; try done.
    + rewrite <- app_assoc. f_equal.
      rewrite (trigger_events_cons lvl D s k ks). f_equal.
      apply omap_ext_in. intros e He. rewrite He1.
      rewrite decide_False; [done|]. intros ->. done.
    + intros e. rewrite He2, He1.
      destruct (decide (e = k)) as [->|Hne].
      * rewrite decide_False by done. rewrite decide_True; [done|].
        apply list_elem_of_here.
      * destruct (decide (e ∈ ks)) as [Hin|Hnin].
        -- rewrite decide_True; [done|]. by apply list_elem_of_further.
        -- rewrite decide_False; [done|]. rewrite not_elem_of_cons. done.
Qed.

Definition sched_cond (D : Dep) (e : EffectId) (E : ReactiveEffect) : bool :=
  bool_decide (is_Some (scheduler E)) && _shouldSchedule E
  && (bool_decide (_runnings E = 0) || allowRecurse E)
  && bool_decide (OMap.get e (subs D) = Some (_trackId E)).

Definition sched_list (D : Dep) (st : State) (ks : list EffectId) : list Scheduler :=
  omap (λ e, E ← effects st !! e; if sched_cond D e E then scheduler E else None) ks.

Lemma sched_list_cons D st k ks :
  sched_list D st (k :: ks) = sched_list D st [k] ++ sched_list D st ks.
Proof. unfold sched_list. apply (omap_app _ [k] ks). Qed.

Lemma schedule_one_spec d D s k :
  depHeap s !! d = Some D →
  depHeap (schedule_one d s k) = depHeap s
  ∧ trace (schedule_one d s k) = trace s
  ∧ pauseScheduleStack (schedule_one d s k) = pauseScheduleStack s
  ∧ queueEffectSchedulers (schedule_one d s k)
    = queueEffectSchedulers s ++ sched_list D s [k]
  ∧ ∀ e, effects (schedule_one d s k) !! e =
         if decide (e = k) then sched_eff D k <$> effects s !! k
         else effects s !! e.
Proof.
  intros HD. unfold schedule_one, sched_list, sched_eff. simpl. rewrite HD.
  destruct (effects s !! k) as [E|] eqn:HE; simpl.
  2:{ rewrite app_nil_r. split_and!; try done.
      intros e. destruct (decide (e = k)) as [->|]; [by rewrite HE|done]. }
  fold (sched_cond D k E).
  destruct (scheduler E) as [sc|] eqn:Hsc.
  - unfold sched_cond. rewrite Hsc.
    rewrite (bool_decide_eq_true_2 (is_Some (Some sc))) by by eexists.
    simpl.
    destruct (_shouldSchedule E && (bool_decide (_runnings E = 0) || allowRecurse E)
              && bool_decide (OMap.get k (subs D) = Some (_trackId E))); simpl.
    + destruct (upd_effect_fields k (with_shouldSchedule false) s)
        as (Hf1 & Hf2 & Hf3 & Hf4 & _).
      rewrite ?Hf1, ?Hf2, ?Hf3, ?Hf4.
      split_and!; try done.
      intros e. rewrite effects_upd_effect.
      destruct (decide (e = k)) as [->|Hne].
      * rewrite decide_True by done. by rewrite HE.
      * by rewrite decide_False by done.
    + rewrite app_nil_r. split_and!; try done.
      intros e. destruct (decide (e = k)) as [->|]; [by rewrite HE|done].
  - unfold sched_cond. rewrite Hsc.
    rewrite (bool_decide_eq_false_2 (is_Some None)) by (by intros [? ?]).
    simpl. rewrite app_nil_r. split_and!; try done.
    intros e. destruct (decide (e = k)) as [->|]; [by rewrite HE|done].
Qed.

Lemma schedule_fold_spec d D ks :
  NoDup ks → ∀ s, depHeap s !! d = Some D →
  depHeap (foldl (schedule_one d) s ks) = depHeap s
  ∧ trace (foldl (schedule_one d) s ks) = trace s
  ∧ pauseScheduleStack (foldl (schedule_one d) s ks) = pauseScheduleStack s
  ∧ queueEffectSchedulers (foldl (schedule_one d) s ks)
    = queueEffectSchedulers s ++ sched_list D s ks
  ∧ ∀ e, effects (foldl (schedule_one d) s ks) !! e =
         if decide (e ∈ ks) then sched_eff D e <$> effects s !! e
         else effects s !! e.
Proof.
  induction 1 as [|k ks Hk Hnd IH]; intros s HD; cbn [foldl].
  - unfold sched_list. simpl. rewrite app_nil_r. by split_and!.
  - destruct (schedule_one_spec d D s k HD) as (Hd1 & Ht1 & Hp1 & Hq1 & He1).
    destruct (IH (schedule_one d s k)) as (Hd2 & Ht2 & Hp2 & Hq2 & He2).
    { by rewrite Hd1. }
    rewrite Hd2, Hq2, Hp2, Ht2, Hd1, Hq1, Hp1, Ht1.
    split_and!; try done.
    + rewrite <- app_assoc. f_equal.
      rewrite (sched_list_cons D s k ks). f_equal.
      apply omap_ext_in. intros e He. rewrite He1.
      rewrite decide_False; [done|]. intros ->. done.
    + intros e. rewrite He2, He1.
      destruct (decide (e = k)) as [->|Hne].
      * rewrite decide_False by done. rewrite decide_True; [done|].
        apply list_elem_of_here.
      * destruct (decide (e ∈ ks)) as [Hin|Hnin].
        -- rewrite decide_True; [done|]. by apply list_elem_of_further.
        -- rewrite decide_False; [done|]. rewrite not_elem_of_cons. done.
Qed.

Lemma sched_cond_bump lvl D e E :
  sched_cond D e (bump_eff lvl D e E) = enqueued lvl D e E
  ∧ scheduler (bump_eff lvl D e E) = scheduler E
  ∧ _dirtyLevel (bump_eff lvl D e E)
    = (if eligible lvl D e E then lvl else _dirtyLevel E)
  ∧ _shouldSchedule (bump_eff lvl D e E) = (notified lvl D e E || _shouldSchedule E).
Proof.
  unfold sched_cond, enqueued, notified, bump_eff.
  destruct (eligible lvl D e E); simpl; [|done].
  destruct (decide (_dirtyLevel E = NotDirty)) as [Hn|Hn]; simpl.
  - by rewrite (bool_decide_eq_true_2 _ Hn).
  - by rewrite (bool_decide_eq_false_2 _ Hn).
Qed.

(** When the pause counter does not come back to zero, [resetScheduling]
    leaves the queue alone. *)
Lemma resetScheduling_deferred rec st :
  pauseScheduleStack st ≠ 1 →
  resetScheduling rec st
  = Some (set_pauseScheduleStack (pauseScheduleStack st - 1) st).
Proof.
  intros Hp. unfold resetScheduling, drain. simpl.
  destruct (queueEffectSchedulers st); [done|].
  rewrite bool_decide_eq_false_2; [done|lia].
Qed.

(** C3 (amended). In [triggerEffects], every effect of the dep whose recorded
    track-id is current and whose dirty-level is below the triggering level
    has its dirty-level raised to the triggering level; it is marked for
    scheduling and its trigger-notify is called only when its previous
    level was NotDirty.  Then the scheduler of every effect of the dep that
    is marked, has a scheduler, is not running or allows recursion, and
    whose track-id is current is enqueued and the mark cleared.  While the
    schedule-pause stack is not fully unwound no enqueued scheduler runs. *)
Theorem triggerEffects_marks_then_defers (rec : Call → State → option State)
    (st : State) (d : DepId) (D : Dep) (lvl : DirtyLevels) :
  depHeap st !! d = Some D → NoDup (OMap.keys (subs D)) →
  (∀ e E, e ∈ OMap.keys (subs D) → effects st !! e = Some E →
     ∃ E', effects (marked d lvl st) !! e = Some E'
       ∧ _dirtyLevel E' = (if eligible lvl D e E then lvl else _dirtyLevel E)
       ∧ _shouldSchedule E'
         = ((notified lvl D e E || _shouldSchedule E) && negb (enqueued lvl D e E)))
  ∧ trace (marked d lvl st)
    = trace st ++ trigger_events lvl D st (OMap.keys (subs D))
  ∧ queueEffectSchedulers (marked d lvl st)
    = queueEffectSchedulers st ++ new_schedulers lvl D st (OMap.keys (subs D))
  ∧ triggerEffects rec d lvl st = resetScheduling rec (marked d lvl st)
  ∧ (pauseScheduleStack st ≠ 0 →
     triggerEffects rec d lvl st
     = Some (set_pauseScheduleStack (pauseScheduleStack st) (marked d lvl st)))
  ∧ (pauseScheduleStack st = 0 →
     triggerEffects rec d lvl st
     = drain rec (set_pauseScheduleStack 0 (marked d lvl st))).
Proof.
  intros HD Hnd.
  set (ks := OMap.keys (subs D)).
  set (st0 := pauseScheduling st).
  assert (HD0 : depHeap st0 !! d = Some D) by done.
  assert (Hk0 : dep_keys d st0 = ks) by (unfold dep_keys; by rewrite HD0).
  destruct (bump_fold_spec d lvl D ks Hnd st0 HD0) as (Hd1 & Hq1 & Hp1 & Ht1 & He1).
  set (st1 := foldl (bump_one d lvl) st0 ks) in *.
  assert (HD1 : depHeap st1 !! d = Some D) by (by rewrite Hd1).
  assert (Hk1 : dep_keys d st1 = ks) by (unfold dep_keys; by rewrite HD1).
  destruct (schedule_fold_spec d D ks Hnd st1 HD1) as (Hd2 & Ht2 & Hp2 & Hq2 & He2).
  assert (Hm : marked d lvl st = foldl (schedule_one d) st1 ks).
  { unfold marked, scheduleEffects, bump_effects. fold st0. rewrite Hk0.
    fold st1. by rewrite Hk1. }
  rewrite Hm.
  assert (Hpause : pauseScheduleStack (foldl (schedule_one d) st1 ks)
                   = pauseScheduleStack st + 1) by (by rewrite Hp2, Hp1).
  split_and!.
  - intros e E Hin HE. rewrite He2, decide_True by done.
    rewrite He1, decide_True by done.
    change (effects st0 !! e) with (effects st !! e). rewrite HE. simpl.
    eexists. split; [done|].
    destruct (sched_cond_bump lvl D e E) as (Hc & Hs & Hl & Hss).
    unfold sched_eff. fold (sched_cond D e (bump_eff lvl D e E)). rewrite Hc.
    destruct (enqueued lvl D e E) eqn:Henq; simpl.
    + split; [done|]. by rewrite andb_false_r.
    + split; [done|]. by rewrite Hss, andb_true_r.
  - by rewrite Ht2, Ht1.
  - rewrite Hq2, Hq1. f_equal. apply omap_ext_in. intros e He.
    rewrite He1, decide_True by done.
    change (effects st0 !! e) with (effects st !! e).
    destruct (effects st !! e) as [E|]; simpl; [|done].
    destruct (sched_cond_bump lvl D e E) as (-> & -> & _). done.
  - unfold triggerEffects. by rewrite <- Hm.
  - intros Hp. unfold triggerEffects. fold (marked d lvl st). rewrite Hm.
    rewrite resetScheduling_deferred by lia. do 2 f_equal. lia.
  - intros Hp. unfold triggerEffects. fold (marked d lvl st). rewrite Hm.
    unfold resetScheduling. do 2 f_equal. lia.
Qed.

(** C3 as the specification words it: every effect that passes the guard
    is bumped, notified, and has its scheduler enqueued exactly when it has
    one and is not running or allows recursion. *)
Definition triggerEffects_claim_as_stated (st : State) (d : DepId)
    (lvl : DirtyLevels) : Prop :=
  ∀ e E D,
    effects st !! e = Some E → depHeap st !! d = Some D →
    OMap.get e (subs D) = Some (_trackId E) →
    level_value (_dirtyLevel E) < level_value lvl →
    (∃ E', effects (marked d lvl st) !! e = Some E' ∧ _dirtyLevel E' = lvl)
    ∧ EvTrigger e ∈ drop (length (trace st)) (trace (marked d lvl st))
    ∧ ((∃ s, scheduler E = Some s
             ∧ s ∈ drop (length (queueEffectSchedulers st))
                        (queueEffectSchedulers (marked d lvl st)))
       ↔ (is_Some (scheduler E) ∧ (_runnings E = 0 ∨ allowRecurse E = true))).

(** One effect subscribed to one dep, inside a batch ([pauseScheduling]
    called once). *)
Definition batch_dep : Dep := mkDep [(0%nat, 1%nat)] None.

Definition batch_effect (lvl : DirtyLevels) : ReactiveEffect :=
  mkEffect true [0%nat] false lvl 1%nat 0 false 1%nat []
    (Some (SchedRunIfDirty 0%nat)).

Definition batch_state (lvl : DirtyLevels) (q : list Scheduler)
    (tr : list Event) : State :=
  mkState {[0%nat := batch_effect lvl]} {[0%nat := batch_dep]} ∅ ∅ None true []
    1 q 0%nat 1%nat tr.

(** The counterexample state: the effect was NotDirty, a computed-style
    trigger at level MaybeDirty has notified it and enqueued its scheduler. *)
Definition batch_after_maybe : State :=
  batch_state MaybeDirty [SchedRunIfDirty 0%nat] [EvTrigger 0%nat].

Lemma triggerEffects_claim_fails_after_MaybeDirty :
  ¬ triggerEffects_claim_as_stated batch_after_maybe 0%nat Dirty.
Proof.
  intros H.
  destruct (H 0%nat (batch_effect MaybeDirty) batch_dep) as (_ & Hin & _).
  - reflexivity.
  - reflexivity.
  - reflexivity.
  - simpl. lia.
  - vm_compute in Hin. by apply elem_of_nil in Hin.
Qed.

Lemma triggerEffects_marks_then_defers_witness :
  depHeap (batch_state NotDirty [] []) !! 0%nat = Some batch_dep
  ∧ NoDup (OMap.keys (subs batch_dep))
  ∧ triggerEffects (interp 0) 0%nat MaybeDirty (batch_state NotDirty [] [])
    = Some batch_after_maybe.
Proof.
  assert (Hnd : NoDup (OMap.keys (subs batch_dep))) by apply NoDup_singleton.
  split; [reflexivity|]. split; [exact Hnd|].
  destruct (triggerEffects_marks_then_defers (interp 0) (batch_state NotDirty [] [])
              0%nat batch_dep MaybeDirty eq_refl Hnd) as (_ & _ & _ & _ & H & _).
  rewrite H; [|done]. vm_compute. reflexivity.
Defined.

(** *** The deps a [trigger] collects, as the specification lists them *)







(** *** The tracking and scheduling switches are restored by every call *)

(** The control registers of effect.ts. *)
Definition ctl (st : State) : bool * list bool * Z * option EffectId :=
  (shouldTrack st, trackStack st, pauseScheduleStack st, activeEffect st).

Lemma ctl_upd_effect e f st : ctl (upd_effect e f st) = ctl st.
Proof. unfold upd_effect. by destruct (effects st !! e). Qed.

Lemma ctl_run_cleanup D st : ctl (run_cleanup D st) = ctl st.
Proof.
  unfold run_cleanup. destruct (cleanup D) as [[t k]|]; [|done].
  by destruct (targetMap st !! t).
Qed.

Lemma ctl_cleanupDepEffect d e st : ctl (cleanupDepEffect d e st) = ctl st.
Proof.
  unfold cleanupDepEffect.
  destruct (depHeap st !! d) as [D|]; [|done].
  destruct (effects st !! e) as [E|]; [|done].
  destruct (OMap.get e (subs D)); [|done].
  destruct (decide _); [done|].
  destruct (decide _); [|done]. by rewrite ctl_run_cleanup.
Qed.

Lemma ctl_foldl {A} (f : State → A → State) (l : list A) st :
  (∀ s x, ctl (f s x) = ctl s) → ctl (foldl f st l) = ctl st.
Proof.
  intros Hf. revert st. induction l as [|a l IH]; intros st; simpl; [done|].
  by rewrite IH, Hf.
Qed.

Lemma ctl_preCleanupEffect e st : ctl (preCleanupEffect e st) = ctl st.
Proof. apply ctl_upd_effect. Qed.

Lemma ctl_postCleanupEffect e st : ctl (postCleanupEffect e st) = ctl st.
Proof.
  unfold postCleanupEffect. destruct (effects st !! e) as [E|]; [|done].
  destruct (decide _); [|done].
  rewrite ctl_upd_effect. apply ctl_foldl. intros. apply ctl_cleanupDepEffect.
Qed.

Lemma ctl_trackEffect e d st : ctl (trackEffect e d st) = ctl st.
Proof.
  unfold trackEffect.
  destruct (effects st !! e) as [E|]; [|done].
  destruct (depHeap st !! d) as [D|]; [|done].
  destruct (decide _); [done|].
  destruct (decide _); rewrite ctl_upd_effect; [done|].
  destruct (deps E !! _depsLength E); [|done]. by rewrite ctl_cleanupDepEffect.
Qed.

Lemma ctl_track t k st : ctl (track t k st) = ctl st.
Proof.
  unfold track. destruct (shouldTrack st) eqn:Hs; [|done].
  destruct (activeEffect st) as [e|] eqn:Ha; [|done].
  destruct (OMap.get k _); rewrite ctl_trackEffect.
  - by destruct (targetMap st !! t).
  - by destruct (targetMap st !! t).
Qed.

Lemma ctl_bump_one d lvl st e : ctl (bump_one d lvl st e) = ctl st.
Proof.
  unfold bump_one.
  destruct (effects st !! e); [|done]. destruct (depHeap st !! d); [|done].
  destruct (_ && _); [|done].
  destruct (decide _).
  - change (ctl (log ?ev ?s)) with (ctl s). by rewrite !ctl_upd_effect.
  - by rewrite ctl_upd_effect.
Qed.

Lemma ctl_schedule_one d st e : ctl (schedule_one d st e) = ctl st.
Proof.
  unfold schedule_one.
  destruct (effects st !! e) as [E|]; [|done]. destruct (depHeap st !! d); [|done].
  destruct (scheduler E); [|done]. destruct (_ && _); [|done].
  change (ctl (set_queue ?q ?s)) with (ctl s). by rewrite ctl_upd_effect.
Qed.

Lemma resetTracking_pauseTracking_ctl st st' :
  ctl st' = ctl (pauseTracking st) → ctl (resetTracking st') = ctl st.
Proof.
  intros H. unfold ctl in H. simpl in H. injection H as Hs Ht Hp Ha.
  unfold resetTracking. rewrite Ht, last_snoc. unfold ctl. simpl.
  by rewrite removelast_last, Hp, Ha.
Qed.

Lemma ctl_dirty e st : ctl (dirty e st).2 = ctl st.
Proof.
  unfold dirty. destruct (effects st !! e) as [E|]; [|done]. simpl.
  destruct (decide _); [|done].
  apply resetTracking_pauseTracking_ctl. by rewrite ctl_upd_effect.
Qed.

Lemma ctl_stop e st : ctl (stop e st) = ctl st.
Proof.
  unfold stop. destruct (effects st !! e) as [E|]; [|done].
  destruct (active E); [|done].
  by rewrite ctl_upd_effect, ctl_postCleanupEffect, ctl_preCleanupEffect.
Qed.

Lemma ctl_proxy_get a k st : ctl (proxy_get a k st) = ctl st.
Proof.
  unfold proxy_get. destruct k; try apply ctl_track.
  destruct (bool_decide _); [done|apply ctl_track].
Qed.

Section kernel_balance.
Variable rec : Call → State → option State.
Hypothesis rec_ctl : ∀ c st st', rec c st = Some st' → ctl st' = ctl st.

Lemma ctl_drain st st' : drain rec st = Some st' → ctl st' = ctl st.
Proof.
  unfold drain. destruct (queueEffectSchedulers st) as [|s q]; [by intros [= <-]|].
  destruct (bool_decide _); [|by intros [= <-]].
  destruct (invoke_scheduler rec s _) as [st1|] eqn:Hinv; simpl; [|done].
  intros Hrec%rec_ctl. rewrite Hrec.
  destruct s as [e|n]; simpl in Hinv.
  - destruct (dirty e _) as [b sd] eqn:Hd.
    assert (Hsd : ctl sd = ctl st).
    { replace sd with (dirty e (log (EvScheduler (SchedRunIfDirty e)) (set_queue q st))).2
        by (by rewrite Hd). by rewrite ctl_dirty. }
    destruct b.
    + apply rec_ctl in Hinv. by rewrite Hinv.
    + by injection Hinv as <-.
  - by injection Hinv as <-.
Qed.

Lemma ctl_resetScheduling st st' :
  resetScheduling rec st = Some st' →
  ctl st' = ctl (set_pauseScheduleStack (pauseScheduleStack st - 1) st).
Proof. apply ctl_drain. Qed.

Lemma ctl_reset_pause st st1 st' :
  ctl st1 = ctl (pauseScheduling st) →
  resetScheduling rec st1 = Some st' → ctl st' = ctl st.
Proof.
  intros H1 H2%ctl_resetScheduling. rewrite H2.
  unfold ctl in *. simpl in *. injection H1 as -> -> -> ->.
  do 2 f_equal. lia.
Qed.

Lemma ctl_triggerEffects d lvl st st' :
  triggerEffects rec d lvl st = Some st' → ctl st' = ctl st.
Proof.
  unfold triggerEffects. apply ctl_reset_pause.
  unfold scheduleEffects, bump_effects.
  rewrite ctl_foldl by (intros; apply ctl_schedule_one).
  by rewrite ctl_foldl by (intros; apply ctl_bump_one).
Qed.

Lemma ctl_trigger_deps ds st st' :
  trigger_deps rec ds st = Some st' → ctl st' = ctl st.
Proof.
  revert st. induction ds as [|[d|] ds IH]; intros st; simpl.
  - by intros [= <-].
  - destruct (triggerEffects rec d Dirty st) as [st1|] eqn:H1; simpl; [|done].
    intros H2%IH. apply ctl_triggerEffects in H1. by rewrite H2.
  - apply IH.
Qed.

Lemma ctl_trigger t ty k nv st st' :
  trigger rec t ty k nv st = Some st' → ctl st' = ctl st.
Proof.
  unfold trigger. destruct (targetMap st !! t); [|by intros [= <-]].
  destruct (trigger_deps rec _ _) as [st1|] eqn:H1; simpl; [|done].
  apply ctl_reset_pause. by apply ctl_trigger_deps in H1.
Qed.

Lemma ctl_proxy_set_index a i v st st' :
  proxy_set_index rec a i v st = Some st' → ctl st' = ctl st.
Proof.
  unfold proxy_set_index. destruct (array_elems st a); [|by intros [= <-]].
  destruct (negb _); [by intros ?%ctl_trigger|].
  destruct (bool_decide _); [by intros ?%ctl_trigger|by intros [= <-]].
Qed.

Lemma ctl_proxy_set_length a n st st' :
  proxy_set_length rec a n st = Some st' → ctl st' = ctl st.
Proof.
  unfold proxy_set_length. destruct (array_elems st a); [|by intros [= <-]].
  destruct (bool_decide _); [by intros ?%ctl_trigger|by intros [= <-]].
Qed.

Lemma ctl_native_push a v st st' :
  native_push rec a v st = Some st' → ctl st' = ctl st.
Proof.
  unfold native_push. destruct (array_elems st a) as [l|]; [|by intros [= <-]].
  destruct (proxy_set_index rec a _ v _) as [st2|] eqn:H2; simpl; [|done].
  intros H3%ctl_proxy_set_length. apply ctl_proxy_set_index in H2.
  by rewrite H3, H2, ctl_proxy_get.
Qed.

Lemma ctl_instrumented method st st' :
  (∀ s s', method s = Some s' → ctl s' = ctl s) →
  instrumented rec method st = Some st' → ctl st' = ctl st.
Proof.
  intros Hm. unfold instrumented.
  destruct (method _) as [st1|] eqn:H1; simpl; [|done].
  destruct (resetScheduling rec st1) as [st2|] eqn:H2; simpl; [|done].
  intros [= <-]. apply resetTracking_pauseTracking_ctl.
  eapply ctl_reset_pause; [|exact H2]. by apply Hm in H1.
Qed.

Lemma ctl_exec_op op st st' : exec_op rec op st = Some st' → ctl st' = ctl st.
Proof.
  destruct op; simpl.
  - intros [= <-]. apply ctl_track.
  - apply ctl_trigger.
  - intros [= <-]. apply ctl_proxy_get.
  - apply ctl_proxy_set_index.
  - apply ctl_proxy_set_length.
  - apply ctl_instrumented. intros s s'. apply ctl_native_push.
  - apply rec_ctl.
  - intros [= <-]. apply ctl_stop.
Qed.

Lemma ctl_exec_ops ops st st' : exec_ops rec ops st = Some st' → ctl st' = ctl st.
Proof.
  revert st. induction ops as [|op ops IH]; intros st; simpl; [by intros [= <-]|].
  destruct (exec_op rec op st) as [st1|] eqn:H1; simpl; [|done].
  intros H2%IH. apply ctl_exec_op in H1. by rewrite H2.
Qed.

Lemma ctl_run e st st' : run rec e st = Some st' → ctl st' = ctl st.
Proof.
  unfold run. destruct (effects st !! e) as [E|]; [|by intros [= <-]].
  destruct (negb (active E)).
  - intros H%ctl_exec_ops. rewrite H.
    change (ctl (log ?ev ?s)) with (ctl s). by rewrite ctl_upd_effect.
  - destruct (exec_ops rec (fn E) _) as [st4|] eqn:H4; simpl; [|done].
    intros [= <-]. apply ctl_exec_ops in H4.
    unfold ctl in *. simpl in *.
    injection H4 as Hs Ht Hp Ha.
    pose proof (ctl_upd_effect e (λ E' : ReactiveEffect, with_runnings (_runnings E' - 1) E')
                  (postCleanupEffect e st4)) as H5.
    rewrite ctl_postCleanupEffect in H5. unfold ctl in H5.
    injection H5 as _ -> -> _.
    rewrite Ht, Hp.
    pose proof (ctl_preCleanupEffect e
                  (upd_effect e (λ E' : ReactiveEffect, with_runnings (_runnings E' + 1) E')
                     (set_activeEffect (Some e)
                        (set_shouldTrack true (upd_effect e (with_dirtyLevel NotDirty) st)))))
      as H6.
    rewrite ctl_upd_effect in H6. unfold ctl in H6. simpl in H6.
    injection H6 as _ -> -> _.
    pose proof (ctl_upd_effect e (with_dirtyLevel NotDirty) st) as H7.
    unfold ctl in H7. by injection H7 as -> -> -> ->.
Qed.

Lemma ctl_step c st st' : step rec c st = Some st' → ctl st' = ctl st.
Proof. destruct c; [apply ctl_run|apply ctl_drain]. Qed.
End kernel_balance.

Lemma ctl_interp fuel c st st' : interp fuel c st = Some st' → ctl st' = ctl st.
Proof.
  revert c st st'. induction fuel as [|fuel IH]; intros c st st'; simpl; [done|].
  by apply ctl_step.
Qed.

(** *** An effect that subscribes to nothing is never run by the kernel *)

Definition runs_of (e : EffectId) (st : State) : nat :=
  length (filter (λ ev, ev = EvRun e) (trace st)).

(** The queue and the trace, which the bookkeeping functions leave alone. *)
Definition qt (st : State) : list Scheduler * list Event :=
  (queueEffectSchedulers st, trace st).

(** [isolated b e st]: no dep has [e] as a subscriber, the scheduler that
    [effect()] built for [e] is not queued, no other effect's scheduler or
    body calls [e]'s runner, and (when [b] is set) while [e] is the active
    effect tracking is switched off. *)
Record isolated (b : bool) (e : EffectId) (st : State) : Prop := mk_isolated {
  iso_subs : ∀ d D, depHeap st !! d = Some D → OMap.get e (subs D) = None;
  iso_queue : SchedRunIfDirty e ∉ queueEffectSchedulers st;
  iso_static : ∀ e' E', effects st !! e' = Some E' →
    (e' ≠ e → scheduler E' ≠ Some (SchedRunIfDirty e)) ∧ OpRun e ∉ fn E';
  iso_track : b = true → activeEffect st = Some e → shouldTrack st = false;
}.

Definition keeps (b : bool) (e : EffectId) (st st' : State) : Prop :=
  isolated b e st' ∧ runs_of e st' = runs_of e st.

Lemma keeps_refl b e st : isolated b e st → keeps b e st st.
Proof. by split. Qed.

Lemma keeps_trans b e st1 st2 st3 : keeps b e st1 st2 → keeps b e st2 st3 → keeps b e st1 st3.
Proof. intros [? H1] [? H2]. split; [done|]. by rewrite H2. Qed.

Lemma keeps_frame b e st st' :
  depHeap st' = depHeap st → qt st' = qt st → ctl st' = ctl st →
  (∀ e' E', effects st' !! e' = Some E' →
     ∃ E, effects st !! e' = Some E ∧ scheduler E' = scheduler E ∧ fn E' = fn E) →
  isolated b e st → keeps b e st st'.
Proof.
  intros Hd Hq Hc He [H1 H2 H3 H4].
  unfold qt in Hq. injection Hq as Hq Ht.
  unfold ctl in Hc. injection Hc as Hs _ _ Ha.
  split; [split|].
  - intros d D. rewrite Hd. apply H1.
  - by rewrite Hq.
  - intros e' E' HE'. destruct (He _ _ HE') as (E & HE & -> & ->). by apply H3.
  - by rewrite Ha, Hs.
  - unfold runs_of. by rewrite Ht.
Qed.

Lemma qt_upd_effect e f st : qt (upd_effect e f st) = qt st.
Proof. unfold upd_effect. by destruct (effects st !! e). Qed.

Lemma keeps_upd_effect b e e' f st :
  (∀ E, scheduler (f E) = scheduler E ∧ fn (f E) = fn E) →
  isolated b e st → keeps b e st (upd_effect e' f st).
Proof.
  intros Hf. apply keeps_frame.
  - apply depHeap_upd_effect.
  - apply qt_upd_effect.
  - apply ctl_upd_effect.
  - intros e0 E0. rewrite effects_upd_effect.
    destruct (decide (e' = e0)) as [<-|Hne]; [|by exists E0].
    destruct (effects st !! e') as [E|]; simpl; [|done].
    intros [= <-]. exists E. by destruct (Hf E).
Qed.

Lemma qt_run_cleanup D st : qt (run_cleanup D st) = qt st.
Proof.
  unfold run_cleanup. destruct (cleanup D) as [[t k]|]; [|done].
  by destruct (targetMap st !! t).
Qed.

Lemma qt_cleanupDepEffect d e st : qt (cleanupDepEffect d e st) = qt st.
Proof.
  unfold cleanupDepEffect.
  destruct (depHeap st !! d) as [D|]; [|done].
  destruct (effects st !! e) as [E|]; [|done].
  destruct (OMap.get e (subs D)); [|done].
  destruct (decide _); [done|].
  destruct (decide _); [|done]. by rewrite qt_run_cleanup.
Qed.

Lemma keeps_cleanupDepEffect b e d a st :
  isolated b e st → keeps b e st (cleanupDepEffect d a st).
Proof.
  intros [H1 H2 H3 H4].
  pose proof (qt_cleanupDepEffect d a st) as Hq. unfold qt in Hq.
  injection Hq as Hq Ht.
  pose proof (ctl_cleanupDepEffect d a st) as Hc. unfold ctl in Hc.
  injection Hc as Hs _ _ Ha.
  destruct (cleanupDepEffect_effects d a st) as [He _].
  split; [split|].
  - intros d' D' HD'.
    destruct (OMap.get e (subs D')) as [tid|] eqn:Hg; [|done].
    destruct (cleanupDepEffect_entries _ _ _ _ _ _ _ HD' Hg) as (D & HD & Hg0 & _).
    by rewrite (H1 _ _ HD) in Hg0.
  - by rewrite Hq.
  - intros e' E'. rewrite He. apply H3.
  - by rewrite Ha, Hs.
  - unfold runs_of. by rewrite Ht.
Qed.

Lemma keeps_foldl {A} b e (f : State → A → State) (l : list A) st :
  (∀ s x, isolated b e s → keeps b e s (f s x)) →
  isolated b e st → keeps b e st (foldl f st l).
Proof.
  intros Hf. revert st. induction l as [|a l IH]; intros st Hi; simpl.
  - by apply keeps_refl.
  - eapply keeps_trans; [apply Hf, Hi|]. apply IH. by apply Hf.
Qed.

Lemma keeps_preCleanupEffect b e a st :
  isolated b e st → keeps b e st (preCleanupEffect a st).
Proof. by apply keeps_upd_effect. Qed.

Lemma keeps_postCleanupEffect b e a st :
  isolated b e st → keeps b e st (postCleanupEffect a st).
Proof.
  intros Hi. unfold postCleanupEffect.
  destruct (effects st !! a) as [E|]; [|by apply keeps_refl].
  destruct (decide _); [|by apply keeps_refl].
  set (st1 := foldl _ st _).
  assert (H1 : keeps b e st st1).
  { apply keeps_foldl; [|exact Hi]. intros. by apply keeps_cleanupDepEffect. }
  eapply keeps_trans; [exact H1|]. apply keeps_upd_effect; [done|apply H1].
Qed.

Lemma qt_trackEffect a d st : qt (trackEffect a d st) = qt st.
Proof.
  unfold trackEffect.
  destruct (effects st !! a) as [E|]; [|done].
  destruct (depHeap st !! d) as [D|]; [|done].
  destruct (decide _); [done|].
  destruct (decide _); rewrite qt_upd_effect; [done|].
  destruct (deps E !! _depsLength E); [|done]. by rewrite qt_cleanupDepEffect.
Qed.

Lemma keeps_trackEffect b e a d st :
  a ≠ e → isolated b e st → keeps b e st (trackEffect a d st).
Proof.
  intros Hae Hi. unfold trackEffect.
  destruct (effects st !! a) as [E|] eqn:HE; [|by apply keeps_refl].
  destruct (depHeap st !! d) as [D|] eqn:HD; [|by apply keeps_refl].
  destruct (decide _); [by apply keeps_refl|].
  set (st1 := set_depHeap _ st).
  assert (H1 : keeps b e st st1).
  { destruct Hi as [H1 H2 H3 H4]. split; [split|]; try done.
    intros d' D'. subst st1. simpl.
    destruct (decide (d = d')) as [<-|Hdd].
    - rewrite lookup_insert_eq. intros [= <-]. simpl.
      rewrite OMap.get_set_ne by done. by eapply H1.
    - rewrite lookup_insert_ne by done. apply H1. }
  destruct (decide _).
  - eapply keeps_trans; [exact H1|]. apply keeps_upd_effect; [done|apply H1].
  - assert (H2 : keeps b e st1 (match deps E !! _depsLength E with
                              | Some od => cleanupDepEffect od a st1
                              | None => st1
                              end)).
    { destruct (deps E !! _depsLength E).
      - apply keeps_cleanupDepEffect, H1.
      - apply keeps_refl, H1. }
    eapply keeps_trans; [exact H1|]. eapply keeps_trans; [exact H2|].
    apply keeps_upd_effect; [done|apply H2].
Qed.

Lemma keeps_track e t k st : isolated true e st → keeps true e st (track t k st).
Proof.
  intros Hi. unfold track.
  destruct (shouldTrack st) eqn:Hs; [|by apply keeps_refl].
  destruct (activeEffect st) as [a|] eqn:Ha; [|by apply keeps_refl].
  assert (Hae : a ≠ e).
  { intros ->. pose proof (iso_track _ _ _ Hi eq_refl Ha) as H. congruence. }
  set (st1 := match targetMap st !! t with
              | Some _ => st
              | None => set_targetMap <[t:=[]]> st
              end).
  assert (H1 : keeps true e st st1).
  { subst st1. destruct (targetMap st !! t); [by apply keeps_refl|].
    apply keeps_frame; try done. intros e' E' ?. by exists E'. }
  destruct (OMap.get k _) as [d|].
  - eapply keeps_trans; [exact H1|]. apply keeps_trackEffect; [done|apply H1].
  - eapply keeps_trans; [exact H1|].
    set (st2 := set_nextDep _ _).
    assert (H2 : keeps true e st1 st2).
    { destruct H1 as [[H1 H2 H3 H4] _]. split; [split|]; try done.
      intros d' D'. subst st2. simpl.
      destruct (decide (nextDep st1 = d')) as [<-|Hdd].
      - rewrite lookup_insert_eq. by intros [= <-].
      - rewrite lookup_insert_ne by done. apply H1. }
    eapply keeps_trans; [exact H2|]. apply keeps_trackEffect; [done|apply H2].
Qed.

Lemma runs_of_log e ev st :
  ev ≠ EvRun e → runs_of e (log ev st) = runs_of e st.
Proof.
  intros Hne. unfold runs_of. simpl. rewrite filter_app, length_app.
  rewrite filter_cons_False by done. simpl. lia.
Qed.

Lemma keeps_log b e ev st : ev ≠ EvRun e → isolated b e st → keeps b e st (log ev st).
Proof.
  intros Hne [H1 H2 H3 H4]. split; [by split|]. by apply runs_of_log.
Qed.

Lemma keeps_bump_one b e d lvl st a : isolated b e st → keeps b e st (bump_one d lvl st a).
Proof.
  intros Hi. unfold bump_one.
  destruct (effects st !! a); [|by apply keeps_refl].
  destruct (depHeap st !! d); [|by apply keeps_refl].
  destruct (_ && _); [|by apply keeps_refl].
  assert (H1 : keeps b e st (upd_effect a (with_dirtyLevel lvl) st))
    by (by apply keeps_upd_effect).
  destruct (decide _); [|done].
  eapply keeps_trans; [exact H1|].
  assert (H2 : keeps b e (upd_effect a (with_dirtyLevel lvl) st)
                 (upd_effect a (with_shouldSchedule true)
                    (upd_effect a (with_dirtyLevel lvl) st)))
    by (apply keeps_upd_effect; [done|apply H1]).
  eapply keeps_trans; [exact H2|]. apply keeps_log; [done|apply H2].
Qed.

Lemma keeps_schedule_one b e d st a : isolated b e st → keeps b e st (schedule_one d st a).
Proof.
  intros Hi. unfold schedule_one.
  destruct (effects st !! a) as [E|] eqn:HE; [|by apply keeps_refl].
  destruct (depHeap st !! d) as [D|] eqn:HD; [|by apply keeps_refl].
  destruct (scheduler E) as [sc|] eqn:Hsc; [|by apply keeps_refl].
  destruct (_ && _) eqn:Hcond; [|by apply keeps_refl].
  assert (Hae : a ≠ e).
  { intros ->. apply andb_true_iff in Hcond as [_ Hg].
    apply bool_decide_eq_true_1 in Hg. by rewrite (iso_subs _ _ _ Hi _ _ HD) in Hg. }
  assert (Hsc' : sc ≠ SchedRunIfDirty e).
  { intros ->. by destruct (iso_static _ _ _ Hi _ _ HE) as [Hs _]; apply Hs. }
  pose proof (keeps_upd_effect b e a (with_shouldSchedule false) st
                (λ E, conj eq_refl eq_refl) Hi) as [[H1 H2 H3 H4] Hr].
  split; [split|]; try done.
  simpl. rewrite not_elem_of_app, list_elem_of_singleton.
  split; [apply (iso_queue _ _ _ Hi)|congruence].
Qed.

Lemma qt_resetTracking st : qt (resetTracking st) = qt st.
Proof. unfold resetTracking. by destruct (last (trackStack st)). Qed.

Lemma heaps_resetTracking st :
  depHeap (resetTracking st) = depHeap st ∧ effects (resetTracking st) = effects st.
Proof. unfold resetTracking. by destruct (last (trackStack st)). Qed.

Lemma keeps_dirty b e a st : isolated b e st → keeps b e st (dirty a st).2.
Proof.
  intros Hi. unfold dirty. destruct (effects st !! a) as [E|]; [|by apply keeps_refl].
  simpl. destruct (decide _); [|by apply keeps_refl].
  apply keeps_frame; [| | |  |exact Hi].
  - by rewrite (proj1 (heaps_resetTracking _)), depHeap_upd_effect.
  - by rewrite qt_resetTracking, qt_upd_effect.
  - apply resetTracking_pauseTracking_ctl. by rewrite ctl_upd_effect.
  - intros e' E'.
    rewrite (proj2 (heaps_resetTracking _)), effects_upd_effect. simpl.
    destruct (decide (a = e')) as [<-|Hne]; [|by exists E'].
    destruct (effects st !! a) as [E0|]; simpl; [|done].
    intros [= <-]. exists E0. by destruct (bool_decide _).
Qed.

Lemma keeps_stop b e a st : isolated b e st → keeps b e st (stop a st).
Proof.
  intros Hi. unfold stop. destruct (effects st !! a) as [E|]; [|by apply keeps_refl].
  destruct (active E); [|by apply keeps_refl].
  pose proof (keeps_preCleanupEffect b e a st Hi) as H1.
  pose proof (keeps_postCleanupEffect b e a _ (proj1 H1)) as H2.
  eapply keeps_trans; [exact H1|]. eapply keeps_trans; [exact H2|].
  apply keeps_upd_effect; [done|apply H2].
Qed.

Lemma keeps_proxy_get e a k st :
  isolated true e st → keeps true e st (proxy_get a k st).
Proof.
  intros Hi. unfold proxy_get. destruct k; try by apply keeps_track.
  destruct (bool_decide _); [by apply keeps_refl|by apply keeps_track].
Qed.

Lemma isolated_ctl b e st st' :
  depHeap st' = depHeap st → qt st' = qt st → effects st' = effects st →
  isolated b e st →
  (b = true → activeEffect st' = Some e → shouldTrack st' = false) →
  keeps b e st st'.
Proof.
  intros Hd Hq He [H1 H2 H3 H4] H4'. unfold qt in Hq. injection Hq as Hq Ht.
  split; [split|]; try done.
  - intros d D. rewrite Hd. apply H1.
  - by rewrite Hq.
  - intros e' E'. rewrite He. apply H3.
  - unfold runs_of. by rewrite Ht.
Qed.

Section kernel_isolation.
Variable rec : Call → State → option State.
Variable e : EffectId.
Hypothesis rec_ctl : ∀ c st st', rec c st = Some st' → ctl st' = ctl st.
Hypothesis rec_iso : ∀ c st st',
  c ≠ CallRun e → isolated true e st → rec c st = Some st' → keeps true e st st'.

Lemma iso_drain st st' : isolated true e st → drain rec st = Some st' → keeps true e st st'.
Proof.
  intros Hi. unfold drain.
  destruct (queueEffectSchedulers st) as [|s q] eqn:Hq;
    [intros [= <-]; by apply keeps_refl|].
  destruct (bool_decide _); [|intros [= <-]; by apply keeps_refl].
  set (st0 := log (EvScheduler s) (set_queue q st)).
  assert (Hs : s ≠ SchedRunIfDirty e ∧ SchedRunIfDirty e ∉ q).
  { pose proof (iso_queue _ _ _ Hi) as Hn. rewrite Hq in Hn.
    apply not_elem_of_cons in Hn as [? ?]. by split. }
  assert (H0 : keeps true e st st0).
  { destruct Hi as [H1 H2 H3 H4]. split; [split|]; try done; [apply Hs|].
    subst st0. by rewrite runs_of_log. }
  destruct (invoke_scheduler rec s st0) as [st1|] eqn:Hinv; simpl; [|done].
  intros Hrec. eapply keeps_trans; [exact H0|].
  assert (H1 : keeps true e st0 st1).
  { destruct s as [a|n]; simpl in Hinv.
    - destruct (dirty a st0) as [b sd] eqn:Hd.
      assert (Hsd : keeps true e st0 sd).
      { replace sd with (dirty a st0).2 by (by rewrite Hd). apply keeps_dirty, H0. }
      destruct b.
      + eapply keeps_trans; [exact Hsd|].
        eapply rec_iso; [|apply Hsd|exact Hinv]. intros [= ->]. by destruct Hs.
      + by injection Hinv as <-.
    - injection Hinv as <-. apply keeps_refl, H0. }
  eapply keeps_trans; [exact H1|]. eapply rec_iso; [|apply H1|exact Hrec]. done.
Qed.

Lemma iso_resetScheduling st st' :
  isolated true e st → resetScheduling rec st = Some st' → keeps true e st st'.
Proof.
  intros Hi Hr. unfold resetScheduling in Hr.
  assert (H0 : keeps true e st (set_pauseScheduleStack (pauseScheduleStack st - 1) st)).
  { by destruct Hi. }
  eapply keeps_trans; [exact H0|]. eapply iso_drain; [apply H0|exact Hr].
Qed.

Lemma iso_pauseScheduling st : isolated true e st → keeps true e st (pauseScheduling st).
Proof. by intros []. Qed.

Lemma iso_triggerEffects d lvl st st' :
  isolated true e st → triggerEffects rec d lvl st = Some st' → keeps true e st st'.
Proof.
  intros Hi Hr. unfold triggerEffects in Hr.
  pose proof (iso_pauseScheduling st Hi) as H0.
  set (s1 := bump_effects d lvl (pauseScheduling st)) in *.
  assert (H1 : keeps true e (pauseScheduling st) s1).
  { apply keeps_foldl; [|apply H0]. intros. by apply keeps_bump_one. }
  assert (H2 : keeps true e s1 (scheduleEffects d s1)).
  { apply keeps_foldl; [|apply H1]. intros. by apply keeps_schedule_one. }
  eapply keeps_trans; [exact H0|]. eapply keeps_trans; [exact H1|].
  eapply keeps_trans; [exact H2|]. eapply iso_resetScheduling; [apply H2|exact Hr].
Qed.

Lemma iso_trigger_deps ds st st' :
  isolated true e st → trigger_deps rec ds st = Some st' → keeps true e st st'.
Proof.
  revert st. induction ds as [|[d|] ds IH]; intros st Hi; simpl.
  - intros [= <-]. by apply keeps_refl.
  - destruct (triggerEffects rec d Dirty st) as [st1|] eqn:H1; simpl; [|done].
    intros H2. pose proof (iso_triggerEffects _ _ _ _ Hi H1) as Hk.
    eapply keeps_trans; [exact Hk|]. apply IH; [apply Hk|done].
  - by apply IH.
Qed.

Lemma iso_trigger t ty k nv st st' :
  isolated true e st → trigger rec t ty k nv st = Some st' → keeps true e st st'.
Proof.
  intros Hi. unfold trigger.
  destruct (targetMap st !! t); [|intros [= <-]; by apply keeps_refl].
  destruct (trigger_deps rec _ _) as [st1|] eqn:H1; simpl; [|done].
  intros H2. pose proof (iso_pauseScheduling st Hi) as H0.
  pose proof (iso_trigger_deps _ _ _ (proj1 H0) H1) as Hk1.
  eapply keeps_trans; [exact H0|]. eapply keeps_trans; [exact Hk1|].
  eapply iso_resetScheduling; [apply Hk1|exact H2].
Qed.

Lemma iso_set_targets f st : isolated true e st → keeps true e st (set_targets f st).
Proof. by intros []. Qed.

Lemma iso_proxy_set_index a i v st st' :
  isolated true e st → proxy_set_index rec a i v st = Some st' → keeps true e st st'.
Proof.
  intros Hi. unfold proxy_set_index.
  destruct (array_elems st a) as [l|]; [|intros [= <-]; by apply keeps_refl].
  pose proof (iso_set_targets (<[a := TArray (write_index i (VNum v) l)]>) st Hi) as H1.
  destruct (negb _).
  - intros H2. eapply keeps_trans; [exact H1|]. eapply iso_trigger; [apply H1|done].
  - destruct (bool_decide _).
    + intros H2. eapply keeps_trans; [exact H1|]. eapply iso_trigger; [apply H1|done].
    + by intros [= <-].
Qed.

Lemma iso_proxy_set_length a n st st' :
  isolated true e st → proxy_set_length rec a n st = Some st' → keeps true e st st'.
Proof.
  intros Hi. unfold proxy_set_length.
  destruct (array_elems st a) as [l|]; [|intros [= <-]; by apply keeps_refl].
  pose proof (iso_set_targets (<[a := TArray (write_length n l)]>) st Hi) as H1.
  destruct (bool_decide _).
  - intros H2. eapply keeps_trans; [exact H1|]. eapply iso_trigger; [apply H1|done].
  - by intros [= <-].
Qed.

Lemma iso_native_push a v st st' :
  isolated true e st → native_push rec a v st = Some st' → keeps true e st st'.
Proof.
  intros Hi. unfold native_push.
  destruct (array_elems st a) as [l|]; [|intros [= <-]; by apply keeps_refl].
  pose proof (keeps_proxy_get e a KLength st Hi) as H1.
  destruct (proxy_set_index rec a (length l) v _) as [st2|] eqn:H2; simpl; [|done].
  intros H3. pose proof (iso_proxy_set_index _ _ _ _ _ (proj1 H1) H2) as Hk2.
  eapply keeps_trans; [exact H1|]. eapply keeps_trans; [exact Hk2|].
  eapply iso_proxy_set_length; [apply Hk2|done].
Qed.

Lemma iso_instrumented a v st st' :
  isolated true e st →
  instrumented rec (native_push rec a v) st = Some st' → keeps true e st st'.
Proof.
  intros Hi Hinst.
  pose proof (ctl_instrumented rec rec_ctl _ _ _
                (λ s s', ctl_native_push rec rec_ctl a v s s') Hinst) as Hctl.
  unfold instrumented in Hinst.
  set (st0 := pauseScheduling (pauseTracking st)) in *.
  assert (H0 : keeps true e st st0) by (by apply isolated_ctl).
  destruct (native_push rec a v st0) as [st1|] eqn:H1; simpl in Hinst; [|done].
  destruct (resetScheduling rec st1) as [st2|] eqn:H2; simpl in Hinst; [|done].
  injection Hinst as <-.
  pose proof (iso_native_push _ _ _ _ (proj1 H0) H1) as Hk1.
  pose proof (iso_resetScheduling _ _ (proj1 Hk1) H2) as Hk2.
  eapply keeps_trans; [exact H0|]. eapply keeps_trans; [exact Hk1|].
  eapply keeps_trans; [exact Hk2|].
  apply isolated_ctl; [apply heaps_resetTracking|apply qt_resetTracking
                      |apply heaps_resetTracking|apply Hk2|].
  intros _. unfold ctl in Hctl. injection Hctl as -> _ _ ->.
  by apply (iso_track _ _ _ Hi).
Qed.

Lemma iso_exec_op op st st' :
  op ≠ OpRun e → isolated true e st → exec_op rec op st = Some st' →
  keeps true e st st'.
Proof.
  intros Hop Hi. destruct op; simpl.
  - intros [= <-]. by apply keeps_track.
  - by apply iso_trigger.
  - intros [= <-]. by apply keeps_proxy_get.
  - by apply iso_proxy_set_index.
  - by apply iso_proxy_set_length.
  - by apply iso_instrumented.
  - apply rec_iso; [congruence|done].
  - intros [= <-]. by apply keeps_stop.
Qed.

Lemma iso_exec_ops ops st st' :
  OpRun e ∉ ops → isolated true e st → exec_ops rec ops st = Some st' →
  keeps true e st st'.
Proof.
  revert st. induction ops as [|op ops IH]; intros st Hops Hi; simpl.
  - intros [= <-]. by apply keeps_refl.
  - apply not_elem_of_cons in Hops as [Hop Hops].
    destruct (exec_op rec op st) as [st1|] eqn:H1; simpl; [|done].
    intros H2. pose proof (iso_exec_op _ _ _ (not_eq_sym Hop) Hi H1) as Hk.
    eapply keeps_trans; [exact Hk|]. apply IH; [done|apply Hk|done].
Qed.

Lemma iso_run a st st' :
  a ≠ e → isolated true e st → run rec a st = Some st' → keeps true e st st'.
Proof.
  intros Hae Hi Hrun.
  pose proof (ctl_run rec rec_ctl _ _ _ Hrun) as Hctl.
  unfold run in Hrun.
  destruct (effects st !! a) as [E|] eqn:HE;
    [|injection Hrun as <-; by apply keeps_refl].
  destruct (iso_static _ _ _ Hi _ _ HE) as [_ Hbody].
  set (st0 := upd_effect a (with_dirtyLevel NotDirty) st) in *.
  assert (H0 : keeps true e st st0) by (by apply keeps_upd_effect).
  destruct (negb (active E)).
  - assert (Hl : keeps true e st0 (log (EvRun a) st0))
      by (apply keeps_log; [congruence|apply H0]).
    eapply keeps_trans; [exact H0|]. eapply keeps_trans; [exact Hl|].
    eapply iso_exec_ops; [exact Hbody|apply Hl|exact Hrun].
  - set (s1 := set_activeEffect (Some a) (set_shouldTrack true st0)) in *.
    assert (H1 : keeps true e st0 s1).
    { apply isolated_ctl; [done..|apply H0|]. simpl. congruence. }
    set (s2 := upd_effect a (λ E', with_runnings (_runnings E' + 1) E') s1) in *.
    assert (H2 : keeps true e s1 s2) by (apply keeps_upd_effect; [done|apply H1]).
    assert (H3 : keeps true e s2 (preCleanupEffect a s2))
      by apply keeps_preCleanupEffect, H2.
    assert (H3' : keeps true e (preCleanupEffect a s2)
                    (log (EvRun a) (preCleanupEffect a s2)))
      by (apply keeps_log; [congruence|apply H3]).
    destruct (exec_ops rec (fn E) _) as [st4|] eqn:H4; simpl in Hrun; [|done].
    injection Hrun as <-.
    pose proof (iso_exec_ops _ _ _ Hbody (proj1 H3') H4) as Hk4.
    pose proof (keeps_postCleanupEffect true e a st4 (proj1 Hk4)) as Hk5.
    set (s6 := upd_effect a (λ E', with_runnings (_runnings E' - 1) E')
                 (postCleanupEffect a st4)) in *.
    assert (Hk6 : keeps true e (postCleanupEffect a st4) s6)
      by (apply keeps_upd_effect; [done|apply Hk5]).
    eapply keeps_trans; [exact H0|]. eapply keeps_trans; [exact H1|].
    eapply keeps_trans; [exact H2|]. eapply keeps_trans; [exact H3|].
    eapply keeps_trans; [exact H3'|]. eapply keeps_trans; [exact Hk4|].
    eapply keeps_trans; [exact Hk5|]. eapply keeps_trans; [exact Hk6|].
    apply isolated_ctl; [done..|apply Hk6|].
    intros _. unfold ctl in Hctl. injection Hctl as -> _ _ ->.
    by apply (iso_track _ _ _ Hi).
Qed.

Lemma iso_step c st st' :
  c ≠ CallRun e → isolated true e st → step rec c st = Some st' →
  keeps true e st st'.
Proof.
  intros Hc Hi. destruct c as [a|]; simpl.
  - apply iso_run; [congruence|done].
  - by apply iso_drain.
Qed.
End kernel_isolation.

Lemma iso_interp fuel e c st st' :
  c ≠ CallRun e → isolated true e st → interp fuel c st = Some st' →
  keeps true e st st'.
Proof.
  revert c st st'. induction fuel as [|fuel IH]; intros c st st' Hc Hi; simpl; [done|].
  apply iso_step; [apply ctl_interp|apply IH|done..].
Qed.

(** *** [effect(() => a.push(v))] *)

(** Nothing in [st] refers to the effect identity [e]. *)
Definition unreferenced (e : EffectId) (st : State) : Prop :=
  (∀ d D, depHeap st !! d = Some D → OMap.get e (subs D) = None)
  ∧ (SchedRunIfDirty e ∉ queueEffectSchedulers st)
  ∧ (∀ e' E', effects st !! e' = Some E' →
       scheduler E' ≠ Some (SchedRunIfDirty e) ∧ (OpRun e ∉ fn E')).

Lemma isolated_weaken b e st : isolated b e st → isolated false e st.
Proof. intros [H1 H2 H3 H4]. by split. Qed.

Lemma isolated_paused e st :
  isolated false e st → keeps true e st (pauseScheduling (pauseTracking st)).
Proof. intros [H1 H2 H3 H4]. split; [by split|done]. Qed.

Lemma targets_upd_effect e f st :
  targets (upd_effect e f st) = targets st
  ∧ targetMap (upd_effect e f st) = targetMap st.
Proof. unfold upd_effect. by destruct (effects st !! e). Qed.

Lemma targets_run_cleanup D st : targets (run_cleanup D st) = targets st.
Proof.
  unfold run_cleanup. destruct (cleanup D) as [[t k]|]; [|done].
  by destruct (targetMap st !! t).
Qed.

Lemma targets_cleanupDepEffect d e st : targets (cleanupDepEffect d e st) = targets st.
Proof.
  unfold cleanupDepEffect.
  destruct (depHeap st !! d) as [D|]; [|done].
  destruct (effects st !! e) as [E|]; [|done].
  destruct (OMap.get e (subs D)); [|done].
  destruct (decide _); [done|].
  destruct (decide _); [|done]. by rewrite targets_run_cleanup.
Qed.

Lemma targets_postCleanupEffect e st : targets (postCleanupEffect e st) = targets st.
Proof.
  unfold postCleanupEffect. destruct (effects st !! e) as [E|]; [|done].
  destruct (decide _); [|done].
  rewrite (proj1 (targets_upd_effect _ _ _)).
  generalize (drop (_depsLength E) (deps E)). intros ds. revert st.
  induction ds as [|d ds IH]; intros st; simpl; [done|].
  by rewrite IH, targets_cleanupDepEffect.
Qed.

Lemma targets_resetTracking st : targets (resetTracking st) = targets st.
Proof. unfold resetTracking. by destruct (last (trackStack st)). Qed.

Lemma write_index_length v l : write_index (length l) v l = l ++ [v].
Proof. unfold write_index. rewrite decide_False by lia. by rewrite Nat.sub_diag. Qed.

Lemma write_length_same l : write_length (length l) l = l.
Proof. unfold write_length. rewrite decide_True by lia. by rewrite firstn_all. Qed.

(** On an array no effect has read, and with tracking paused, the native
    push performs its three proxy operations without reaching any dep. *)
Lemma native_push_unobserved rec a l v st :
  array_elems st a = Some l → targetMap st !! a = None → shouldTrack st = false →
  ∃ st', native_push rec a v st = Some st'
         ∧ targets st' !! a = Some (TArray (l ++ [VNum v]))
         ∧ queueEffectSchedulers st' = queueEffectSchedulers st
         ∧ pauseScheduleStack st' = pauseScheduleStack st.
Proof.
  intros Harr Htm Hst. unfold native_push. rewrite Harr.
  assert (Hget : proxy_get a KLength st = st).
  { unfold proxy_get, track. by rewrite Hst. }
  rewrite Hget. unfold proxy_set_index. rewrite Harr.
  rewrite (bool_decide_eq_false_2 (length l < length l)%nat) by lia. simpl.
  unfold trigger at 1. simpl. rewrite Htm. simpl.
  unfold proxy_set_length, array_elems. simpl. rewrite lookup_insert_eq.
  rewrite write_index_length.
  rewrite (bool_decide_eq_false_2 (S (length l) ≠ length (l ++ [VNum v]))).
  2:{ rewrite length_app. simpl. lia. }
  eexists. split; [done|]. simpl. rewrite lookup_insert_eq.
  replace (S (length l)) with (length (l ++ [VNum v]))
    by (rewrite length_app; simpl; lia).
  by rewrite write_length_same.
Qed.

Lemma runs_of_log_run e st : runs_of e (log (EvRun e) st) = S (runs_of e st).
Proof.
  unfold runs_of. simpl. rewrite filter_app, length_app.
  rewrite filter_cons_True by done. simpl. lia.
Qed.

Lemma exec_ops_singleton rec op s :
  exec_ops rec [op] s = exec_op rec op s ≫= λ s', Some s'.
Proof. reflexivity. Qed.

Lemma exec_op_push rec a v s :
  exec_op rec (OpArrayPush a v) s = instrumented rec (native_push rec a v) s.
Proof. reflexivity. Qed.

Lemma push_effect_runs_once fuel st a v e st' :
  unreferenced (nextEffect st) st →
  effect fuel [OpArrayPush a v] None st = Some (e, st') →
  e = nextEffect st ∧ runs_of e st' = S (runs_of e st) ∧ isolated false e st'.
Proof.
  intros (Hu1 & Hu2 & Hu3). unfold effect. simpl.
  set (e0 := nextEffect st).
  set (st1 := set_nextEffect (S e0) (set_effects _ st)).
  destruct (run (interp fuel) e0 st1) as [st2|] eqn:Hrun; simpl; [|done].
  intros [= <- <-]. split; [done|].
  assert (Hi1 : isolated false e0 st1).
  { split; try done. intros e' E'. subst st1. simpl.
    destruct (decide (e0 = e')) as [<-|Hne].
    - rewrite lookup_insert_eq. intros [= <-]. simpl. split; [done|].
      intros [=]%list_elem_of_singleton.
    - rewrite lookup_insert_ne by done. intros HE'.
      destruct (Hu3 _ _ HE') as [? ?]. by split. }
  unfold run in Hrun.
  assert (HE : effects st1 !! e0 = Some (new_effect e0 [OpArrayPush a v] None))
    by (subst st1; simpl; by rewrite lookup_insert_eq).
  rewrite HE in Hrun.
  replace (negb (active (new_effect e0 [OpArrayPush a v] None))) with false
    in Hrun by reflexivity.
  replace (fn (new_effect e0 [OpArrayPush a v] None)) with [OpArrayPush a v]
    in Hrun by reflexivity.
  rewrite exec_ops_singleton, exec_op_push in Hrun.
  set (s0 := upd_effect e0 (with_dirtyLevel NotDirty) st1) in *.
  assert (H0 : keeps false e0 st1 s0) by (by apply keeps_upd_effect).
  set (s1 := set_activeEffect (Some e0) (set_shouldTrack true s0)) in *.
  assert (H1 : keeps false e0 s0 s1) by (apply isolated_ctl; [done..|apply H0|done]).
  set (s2 := upd_effect e0 (λ E', with_runnings (_runnings E' + 1) E') s1) in *.
  assert (H2 : keeps false e0 s1 s2) by (apply keeps_upd_effect; [done|apply H1]).
  assert (H3 : keeps false e0 s2 (preCleanupEffect e0 s2))
    by apply keeps_preCleanupEffect, H2.
  set (s3 := log (EvRun e0) (preCleanupEffect e0 s2)) in *.
  assert (Hi3 : isolated false e0 s3) by (destruct H3 as [[] _]; by split).
  assert (Hr3 : runs_of e0 s3 = S (runs_of e0 st)).
  { subst s3. rewrite runs_of_log_run. f_equal.
    destruct H0 as [_ R0], H1 as [_ R1], H2 as [_ R2], H3 as [_ R3].
    rewrite R3, R2, R1, R0. done. }
  destruct (instrumented (interp fuel) (native_push (interp fuel) a v) s3)
    as [s4|] eqn:Hinst; cbn [mbind option_bind] in Hrun; [|done].
  injection Hrun as <-.
  (* inside the wrapper tracking is off, so the isolation lemmas apply *)
  unfold instrumented in Hinst.
  pose proof (isolated_paused e0 s3 Hi3) as Hp.
  destruct (native_push (interp fuel) a v _) as [p1|] eqn:Hpush;
    simpl in Hinst; [|done].
  destruct (resetScheduling (interp fuel) p1) as [p2|] eqn:Hreset;
    simpl in Hinst; [|done].
  injection Hinst as <-.
  assert (Hk1 : keeps true e0 (pauseScheduling (pauseTracking s3)) p1).
  { eapply iso_native_push; [|apply Hp|exact Hpush]. intros c s s'. apply iso_interp. }
  assert (Hk2 : keeps true e0 p1 p2).
  { eapply iso_resetScheduling; [|apply Hk1|exact Hreset].
    intros c s s'. apply iso_interp. }
  assert (Hk3 : keeps false e0 p2 (resetTracking p2)).
  { apply isolated_ctl; [apply heaps_resetTracking|apply qt_resetTracking
                        |apply heaps_resetTracking| |done].
    eapply isolated_weaken, Hk2. }
  pose proof (keeps_postCleanupEffect false e0 e0 _ (proj1 Hk3)) as Hk4.
  set (s6 := upd_effect e0 (λ E', with_runnings (_runnings E' - 1) E')
               (postCleanupEffect e0 (resetTracking p2))).
  assert (Hk5 : keeps false e0 (postCleanupEffect e0 (resetTracking p2)) s6)
    by (apply keeps_upd_effect; [done|apply Hk4]).
  assert (Hk6 : keeps false e0 s6
            (set_shouldTrack (shouldTrack s0) (set_activeEffect (activeEffect s0) s6)))
    by (apply isolated_ctl; [done..|apply Hk5|done]).
  split; [|apply Hk6].
  destruct Hp as [_ Rp], Hk1 as [_ R1'], Hk2 as [_ R2'], Hk3 as [_ R3'],
           Hk4 as [_ R4'], Hk5 as [_ R5'], Hk6 as [_ R6'].
  rewrite R6', R5', R4', R3', R2', R1', Rp. exact Hr3.
Qed.

Lemma push_effect_returns fuel st a l v :
  targets st !! a = Some (TArray l) → targetMap st !! a = None →
  queueEffectSchedulers st = [] →
  ∃ st', effect fuel [OpArrayPush a v] None st = Some (nextEffect st, st')
         ∧ targets st' !! a = Some (TArray (l ++ [VNum v])).
Proof.
  intros Ht Htm Hq. unfold effect. simpl.
  set (e0 := nextEffect st).
  set (st1 := set_nextEffect (S e0) (set_effects _ st)).
  unfold run.
  assert (HE : effects st1 !! e0 = Some (new_effect e0 [OpArrayPush a v] None))
    by (subst st1; simpl; by rewrite lookup_insert_eq).
  rewrite HE. simpl.
  set (s3 := log (EvRun e0) _).
  assert (Hs3 : targets s3 = targets st ∧ targetMap s3 = targetMap st
                ∧ queueEffectSchedulers s3 = []).
  { subst s3. simpl. unfold preCleanupEffect.
    rewrite !(proj1 (targets_upd_effect _ _ _)), !(proj2 (targets_upd_effect _ _ _)).
    simpl.
    rewrite !(proj1 (targets_upd_effect _ _ _)), !(proj2 (targets_upd_effect _ _ _)).
    split_and!; try done.
    repeat (match goal with
            | |- context [queueEffectSchedulers (upd_effect ?x ?f ?s)] =>
                rewrite (proj1 (proj2 (upd_effect_fields x f s)))
            end; simpl).
    done. }
  destruct Hs3 as (Ht3 & Htm3 & Hq3).
  unfold instrumented.
  destruct (native_push_unobserved (interp fuel) a l v
              (pauseScheduling (pauseTracking s3))) as (p1 & Hpush & Hp1 & Hq1 & _).
  { unfold array_elems.
    change (targets (pauseScheduling (pauseTracking s3))) with (targets s3).
    by rewrite Ht3, Ht. }
  { change (targetMap (pauseScheduling (pauseTracking s3))) with (targetMap s3).
    by rewrite Htm3. }
  { done. }
  rewrite Hpush. simpl.
  unfold resetScheduling, drain.
  change (queueEffectSchedulers (set_pauseScheduleStack (pauseScheduleStack p1 - 1) p1))
    with (queueEffectSchedulers p1).
  rewrite Hq1.
  change (queueEffectSchedulers (pauseScheduling (pauseTracking s3)))
    with (queueEffectSchedulers s3).
  rewrite Hq3. cbn [mbind option_bind].
  eexists. split; [reflexivity|].
  cbn [targets set_shouldTrack set_activeEffect].
  rewrite (proj1 (targets_upd_effect _ _ _)), targets_postCleanupEffect,
    targets_resetTracking. exact Hp1.
Qed.

(** C2. The wrapper that [createArrayInstrumentations] installs for push,
    pop, shift, unshift and splice runs the underlying array method with
    tracking off ([shouldTrack = false]) and scheduling paused (the pause
    counter raised by one), and on return the tracking flag, the track
    stack and the pause counter are what they were.  Consequently an effect
    whose body is [a.push(v)] runs exactly once when it is created: it ends
    up subscribed to no dep and with its scheduler not queued; and on an
    array no effect has read yet the creation returns with [v] appended. *)
Theorem array_mutators_suspend_tracking_and_push_effect_runs_once :
  (∀ fuel (method : State → option State) st st',
     (∀ s s', method s = Some s' → ctl s' = ctl s) →
     instrumented (interp fuel) method st = Some st' →
     (∃ st1, method (pauseScheduling (pauseTracking st)) = Some st1)
     ∧ shouldTrack (pauseScheduling (pauseTracking st)) = false
     ∧ pauseScheduleStack (pauseScheduling (pauseTracking st))
       = pauseScheduleStack st + 1
     ∧ ctl st' = ctl st)
  ∧ (∀ fuel st a v e st',
       unreferenced (nextEffect st) st →
       effect fuel [OpArrayPush a v] None st = Some (e, st') →
       runs_of e st' = S (runs_of e st)
       ∧ (∀ d D, depHeap st' !! d = Some D → OMap.get e (subs D) = None)
       ∧ SchedRunIfDirty e ∉ queueEffectSchedulers st')
  ∧ (∀ fuel st a l v,
       targets st !! a = Some (TArray l) → targetMap st !! a = None →
       queueEffectSchedulers st = [] →
       ∃ st', effect fuel [OpArrayPush a v] None st = Some (nextEffect st, st')
              ∧ targets st' !! a = Some (TArray (l ++ [VNum v]))).
Proof.
  split_and!.
  - intros fuel method st st' Hm Hinst.
    pose proof (ctl_instrumented (interp fuel) (ctl_interp fuel) _ _ _ Hm Hinst) as Hc.
    unfold instrumented in Hinst.
    destruct (method (pauseScheduling (pauseTracking st))) as [st1|]; [|done].
    split_and!; [by exists st1|done|done|exact Hc].
  - intros fuel st a v e st' Hu Heff.
    destruct (push_effect_runs_once _ _ _ _ _ _ Hu Heff) as (_ & Hr & Hi).
    split_and!; [exact Hr|apply Hi|apply Hi].
  - intros fuel st a l v. apply push_effect_returns.
Qed.

(** The scenario of the specification: [const arr = reactive([]);
    effect(() => arr.push(1))]. *)
Definition empty_array_state : State :=
  set_targets (<[0%nat := TArray []]>) initial.

Lemma array_mutators_suspend_tracking_and_push_effect_runs_once_witness :
  unreferenced 0%nat empty_array_state
  ∧ ∃ st', effect 0 [OpArrayPush 0%nat 1] None empty_array_state = Some (0%nat, st')
           ∧ runs_of 0%nat st' = 1%nat
           ∧ targets st' !! 0%nat = Some (TArray [VNum 1]).
Proof.
  assert (Hu : unreferenced 0%nat empty_array_state).
  { split_and!.
    - intros d D H. simpl in H. by rewrite lookup_empty in H.
    - apply not_elem_of_nil.
    - intros e' E' H. simpl in H. by rewrite lookup_empty in H. }
  split; [exact Hu|].
  destruct array_mutators_suspend_tracking_and_push_effect_runs_once
    as (_ & Honce & Hret).
  destruct (Hret 0%nat empty_array_state 0%nat [] 1) as (st' & Heff & Harr);
    [reflexivity..|].
  exists st'. split; [exact Heff|].
  destruct (Honce _ _ _ _ _ _ Hu Heff) as (Hr & _). split; [exact Hr|exact Harr].
Defined.

(** *** Nothing is left in the scheduler queue *)

(** The pause counter and the queue of schedulers. *)
Definition sq (st : State) : Z * list Scheduler :=
  (pauseScheduleStack st, queueEffectSchedulers st).

(** With scheduling not paused, no scheduler is waiting. *)
Definition drained (st : State) : Prop :=
  pauseScheduleStack st = 0 → queueEffectSchedulers st = [].

Lemma drained_sq st st' : sq st' = sq st → drained st → drained st'.
Proof. unfold sq, drained. intros [= -> ->]. done. Qed.

Lemma sq_upd_effect e f st : sq (upd_effect e f st) = sq st.
Proof. unfold upd_effect. by destruct (effects st !! e). Qed.

Lemma sq_run_cleanup D st : sq (run_cleanup D st) = sq st.
Proof.
  unfold run_cleanup. destruct (cleanup D) as [[t k]|]; [|done].
  by destruct (targetMap st !! t).
Qed.

Lemma sq_cleanupDepEffect d e st : sq (cleanupDepEffect d e st) = sq st.
Proof.
  unfold cleanupDepEffect.
  destruct (depHeap st !! d) as [D|]; [|done].
  destruct (effects st !! e) as [E|]; [|done].
  destruct (OMap.get e (subs D)); [|done].
  destruct (decide _); [done|].
  destruct (decide _); [|done]. by rewrite sq_run_cleanup.
Qed.

Lemma sq_foldl {A} (f : State → A → State) (l : list A) st :
  (∀ s x, sq (f s x) = sq s) → sq (foldl f st l) = sq st.
Proof.
  intros Hf. revert st. induction l as [|a l IH]; intros st; simpl; [done|].
  by rewrite IH, Hf.
Qed.

Lemma sq_postCleanupEffect e st : sq (postCleanupEffect e st) = sq st.
Proof.
  unfold postCleanupEffect. destruct (effects st !! e) as [E|]; [|done].
  destruct (decide _); [|done].
  rewrite sq_upd_effect. apply sq_foldl. intros. apply sq_cleanupDepEffect.
Qed.

Lemma sq_trackEffect e d st : sq (trackEffect e d st) = sq st.
Proof.
  unfold trackEffect.
  destruct (effects st !! e) as [E|]; [|done].
  destruct (depHeap st !! d) as [D|]; [|done].
  destruct (decide _); [done|].
  destruct (decide _); [by rewrite sq_upd_effect|].
  rewrite sq_upd_effect. destruct (deps E !! _depsLength E); [|done].
  by rewrite sq_cleanupDepEffect.
Qed.

Lemma sq_track t k st : sq (track t k st) = sq st.
Proof.
  unfold track. destruct (shouldTrack st); [|done].
  destruct (activeEffect st) as [e|]; [|done].
  destruct (OMap.get k _).
  - rewrite sq_trackEffect. by destruct (targetMap st !! t).
  - rewrite sq_trackEffect. by destruct (targetMap st !! t).
Qed.

Lemma sq_proxy_get a k st : sq (proxy_get a k st) = sq st.
Proof.
  unfold proxy_get. destruct k; try apply sq_track.
  destruct (bool_decide _); [done|apply sq_track].
Qed.

Lemma sq_resetTracking st : sq (resetTracking st) = sq st.
Proof. unfold resetTracking. by destruct (last (trackStack st)). Qed.

Lemma sq_stop e st : sq (stop e st) = sq st.
Proof.
  unfold stop. destruct (effects st !! e) as [E|]; [|done].
  destruct (active E); [|done].
  rewrite sq_upd_effect, sq_postCleanupEffect. apply sq_upd_effect.
Qed.

Section kernel_drained.
Variable rec : Call → State → option State.
Hypothesis rec_drain : ∀ st st', rec CallDrain st = Some st' → drained st'.
Hypothesis rec_run : ∀ e st st',
  drained st → rec (CallRun e) st = Some st' → drained st'.

Lemma drained_drain st st' : drain rec st = Some st' → drained st'.
Proof.
  unfold drain. destruct (queueEffectSchedulers st) as [|s q] eqn:Hq.
  { intros [= <-] _. done. }
  destruct (bool_decide (pauseScheduleStack st = 0)) eqn:Hp.
  - destruct (invoke_scheduler rec s _) as [st1|]; simpl; [|done].
    apply rec_drain.
  - intros [= <-] H0. by apply bool_decide_eq_false in Hp.
Qed.

Lemma drained_resetScheduling st st' :
  resetScheduling rec st = Some st' → drained st'.
Proof. apply drained_drain. Qed.

Lemma drained_trigger_deps ds st st' :
  drained st → trigger_deps rec ds st = Some st' → drained st'.
Proof.
  revert st. induction ds as [|[d|] ds IH]; intros st Hd; simpl.
  - by intros [= <-].
  - destruct (triggerEffects rec d Dirty st) as [st1|] eqn:H1; simpl; [|done].
    apply IH. by apply drained_resetScheduling in H1.
  - by apply IH.
Qed.

Lemma drained_trigger t ty k nv st st' :
  drained st → trigger rec t ty k nv st = Some st' → drained st'.
Proof.
  intros Hd. unfold trigger. destruct (targetMap st !! t); [|by intros [= <-]].
  destruct (trigger_deps rec _ _) as [st1|]; simpl; [|done].
  apply drained_resetScheduling.
Qed.

Lemma drained_proxy_set_index a i v st st' :
  drained st → proxy_set_index rec a i v st = Some st' → drained st'.
Proof.
  intros Hd. unfold proxy_set_index.
  destruct (array_elems st a); [|by intros [= <-]].
  destruct (negb _); [by apply drained_trigger|].
  destruct (bool_decide _); [by apply drained_trigger|by intros [= <-]].
Qed.

Lemma drained_proxy_set_length a n st st' :
  drained st → proxy_set_length rec a n st = Some st' → drained st'.
Proof.
  intros Hd. unfold proxy_set_length.
  destruct (array_elems st a); [|by intros [= <-]].
  destruct (bool_decide _); [by apply drained_trigger|by intros [= <-]].
Qed.

Lemma drained_instrumented method st st' :
  instrumented rec method st = Some st' → drained st'.
Proof.
  unfold instrumented. destruct (method _) as [st1|]; simpl; [|done].
  destruct (resetScheduling rec st1) as [st2|] eqn:H2; simpl; [|done].
  intros [= <-]. apply (drained_sq st2); [apply sq_resetTracking|].
  by eapply drained_resetScheduling.
Qed.

Lemma drained_exec_op op st st' :
  drained st → exec_op rec op st = Some st' → drained st'.
Proof.
  intros Hd. destruct op; simpl.
  - intros [= <-]. by apply (drained_sq st); [apply sq_track|].
  - by apply drained_trigger.
  - intros [= <-]. by apply (drained_sq st); [apply sq_proxy_get|].
  - by apply drained_proxy_set_index.
  - by apply drained_proxy_set_length.
  - apply drained_instrumented.
  - by apply rec_run.
  - intros [= <-]. by apply (drained_sq st); [apply sq_stop|].
Qed.

Lemma drained_exec_ops ops st st' :
  drained st → exec_ops rec ops st = Some st' → drained st'.
Proof.
  revert st. induction ops as [|op ops IH]; intros st Hd; simpl.
  - by intros [= <-].
  - destruct (exec_op rec op st) as [st1|] eqn:H1; simpl; [|done].
    apply IH. by eapply drained_exec_op.
Qed.

Lemma drained_run e st st' :
  drained st → run rec e st = Some st' → drained st'.
Proof.
  intros Hd. unfold run. destruct (effects st !! e) as [E|]; [|by intros [= <-]].
  destruct (negb (active E)).
  - apply drained_exec_ops. apply (drained_sq st); [|done].
    change (sq (log ?ev ?s)) with (sq s). apply sq_upd_effect.
  - destruct (exec_ops rec (fn E) _) as [st4|] eqn:H4; simpl; [|done].
    intros [= <-].
    apply drained_exec_ops in H4.
    + apply (drained_sq st4); [|done].
      change (sq (set_shouldTrack ?b ?s)) with (sq s).
      change (sq (set_activeEffect ?b ?s)) with (sq s).
      by rewrite sq_upd_effect, sq_postCleanupEffect.
    + apply (drained_sq st); [|done].
      change (sq (log ?ev ?s)) with (sq s). unfold preCleanupEffect.
      rewrite !sq_upd_effect.
      change (sq (set_activeEffect ?b ?s)) with (sq s).
      change (sq (set_shouldTrack ?b ?s)) with (sq s).
      apply sq_upd_effect.
Qed.

Lemma drained_step c st st' :
  c = CallDrain ∨ drained st → step rec c st = Some st' → drained st'.
Proof.
  destruct c as [e|]; simpl.
  - intros [?|Hd]; [done|]. by apply drained_run.
  - intros _. apply drained_drain.
Qed.
End kernel_drained.

Lemma drained_interp fuel c st st' :
  c = CallDrain ∨ drained st → interp fuel c st = Some st' → drained st'.
Proof.
  revert c st st'. induction fuel as [|fuel IH]; intros c st st'; simpl; [done|].
  apply drained_step.
  - intros s s'. apply IH. by left.
  - intros e s s' Hd. apply IH. by right.
Qed.

(** X16. When an operation of the reactivity runtime returns, the runtime
    is at rest.  A sequence of reads, writes, runner calls and stops, and
    the creation of an effect, leave [shouldTrack], the stack of saved
    tracking flags, the pause counter and [activeEffect] as they found
    them, whatever ran in between; and no scheduler is left waiting in the
    queue once scheduling is not paused.  So in every state reached
    through these operations tracking is on, nothing is paused, no effect
    is active and the queue is empty. *)
Theorem runtime_is_at_rest_between_operations :
  (∀ fuel ops st st',
     exec_ops (interp fuel) ops st = Some st' →
     ctl st' = ctl st ∧ (drained st → drained st'))
  ∧ (∀ fuel body options st e st',
       effect fuel body options st = Some (e, st') →
       ctl st' = ctl st ∧ (drained st → drained st'))
  ∧ (∀ st, reachable st →
       shouldTrack st = true ∧ trackStack st = []
       ∧ pauseScheduleStack st = 0 ∧ activeEffect st = None
       ∧ queueEffectSchedulers st = []).
Proof.
  assert (Hops : ∀ fuel ops st st',
            exec_ops (interp fuel) ops st = Some st' →
            ctl st' = ctl st ∧ (drained st → drained st')).
  { intros fuel ops st st' H. split.
    - by eapply ctl_exec_ops; [apply ctl_interp|].
    - intros Hd. eapply (drained_exec_ops (interp fuel)); [| |done|exact H].
      + intros s s'. apply drained_interp. by left.
      + intros e s s' Hs. apply drained_interp. by right. }
  assert (Heff : ∀ fuel body options st e st',
            effect fuel body options st = Some (e, st') →
            ctl st' = ctl st ∧ (drained st → drained st')).
  { intros fuel body options st e st'. unfold effect.
    destruct (from_option lazy false options); [by intros [= <- <-]|].
    destruct (run (interp fuel) _ _) as [st2|] eqn:Hrun; simpl; [|done].
    intros [= <- <-]. split.
    - by apply (ctl_run (interp fuel) (ctl_interp fuel)) in Hrun.
    - intros Hd. eapply (drained_run (interp fuel)); [| | |exact Hrun].
      + intros s s'. apply drained_interp. by left.
      + intros e s s' Hs. apply drained_interp. by right.
      + done. }
  split; [exact Hops|]. split; [exact Heff|].
  intros st Hr.
  assert (H : ctl st = ctl initial ∧ drained st).
  { induction Hr as [|st t T _ [IH1 IH2]|st fuel body options e st' _ [IH1 IH2] He
                     |st fuel ops st' _ [IH1 IH2] Ho].
    - split; [done|]. by intros _.
    - done.
    - destruct (Heff _ _ _ _ _ _ He) as [H1 H2]. split; [by rewrite H1|auto].
    - destruct (Hops _ _ _ _ Ho) as [H1 H2]. split; [by rewrite H1|auto]. }
  destruct H as [Hc Hd]. unfold ctl in Hc. simpl in Hc.
  injection Hc as H1 H2 H3 H4. split_and!; try done. by apply Hd.
Qed.

(** *** [stop] *)




(** *** Writes that change nothing *)

Lemma set_targets_same (f : gmap TargetId Target → gmap TargetId Target) st :
  f (targets st) = targets st → set_targets f st = st.
Proof. intros H. unfold set_targets. rewrite H. by destruct st. Qed.

(** X18. The [set] trap of a reactive array triggers nothing when the
    value written is the value already there: writing [v] at an index that
    holds [v], or the current length to [length], gives back the state as
    it was; no dep is triggered and no effect runs, whoever subscribes to
    the array. *)
Theorem unchanged_write_triggers_nothing (rec : Call → State → option State)
    (a : TargetId) (l : list Value) (st : State) :
  targets st !! a = Some (TArray l) →
  (∀ i v, l !! i = Some (VNum v) → proxy_set_index rec a i v st = Some st)
  ∧ proxy_set_length rec a (length l) st = Some st.
Proof.
  intros Ha. split.
  - intros i v Hi. unfold proxy_set_index, array_elems. rewrite Ha, Hi. simpl.
    pose proof (lookup_lt_Some _ _ _ Hi) as Hlt.
    rewrite bool_decide_eq_true_2 by done. simpl.
    rewrite bool_decide_eq_false_2 by (intros H; by apply H).
    f_equal. apply set_targets_same. unfold write_index.
    rewrite decide_True by done. rewrite list_insert_id by done.
    by apply insert_id.
  - unfold proxy_set_length, array_elems. rewrite Ha.
    rewrite bool_decide_eq_false_2 by (intros H; by apply H).
    f_equal. apply set_targets_same. unfold write_length.
    rewrite decide_True by done. rewrite firstn_all. by apply insert_id.
Qed.

Lemma unchanged_write_triggers_nothing_witness :
  proxy_set_index (interp 8) 0%nat 0%nat 5 demo_session = Some demo_session
  ∧ proxy_set_length (interp 8) 0%nat 2%nat demo_session = Some demo_session.
Proof.
  destruct (unchanged_write_triggers_nothing (interp 8) 0%nat
              [VNum 5; VNum 7] demo_session) as [H1 H2];
    [by vm_compute|].
  split; [by apply H1|exact H2].
Defined.

(** *** The dep lists mirror the subscriptions *)

(** Below its cursor, the dep list of an effect holds no dep twice, and
    every dep in it has the effect as a subscriber with its current
    track-id; dep identities at or beyond [nextDep] are unused. *)
Record mirror (st : State) : Prop := mk_mirror {
  mirror_entries : ∀ e E i d,
    effects st !! e = Some E → (i < _depsLength E)%nat → deps E !! i = Some d →
    ∃ D, depHeap st !! d = Some D ∧ OMap.get e (subs D) = Some (_trackId E);
  mirror_fresh : ∀ d : DepId, is_Some (depHeap st !! d) → (d < nextDep st)%nat;
  mirror_nodup : ∀ e E,
    effects st !! e = Some E → NoDup (take (_depsLength E) (deps E));
}.

Lemma mirror_initial : mirror initial.
Proof.
  split; simpl.
  - intros e E i d H. by rewrite lookup_empty in H.
  - intros d [D H]. by rewrite lookup_empty in H.
  - intros e E H. by rewrite lookup_empty in H.
Qed.

Lemma mirror_same st st' :
  effects st' = effects st → depHeap st' = depHeap st →
  nextDep st' = nextDep st → mirror st → mirror st'.
Proof.
  intros He Hd Hn [H1 H2 H3]. split.
  - intros e E i d. rewrite He, Hd. apply H1.
  - intros d. rewrite Hd, Hn. apply H2.
  - intros e E. rewrite He. apply H3.
Qed.

Lemma nextDep_upd_effect e f st : nextDep (upd_effect e f st) = nextDep st.
Proof. unfold upd_effect. by destruct (effects st !! e). Qed.

Lemma mirror_upd_effect_frame e f st :
  (∀ E, deps (f E) = deps E ∧ _depsLength (f E) = _depsLength E
        ∧ _trackId (f E) = _trackId E) →
  mirror st → mirror (upd_effect e f st).
Proof.
  intros Hf [H1 H2 H3]. split.
  - intros e' E' i d. rewrite effects_upd_effect, depHeap_upd_effect.
    destruct (decide (e = e')) as [<-|Hne]; [|apply H1].
    destruct (effects st !! e) as [E|] eqn:HE; simpl; [|done].
    intros [= <-]. destruct (Hf E) as (-> & -> & ->). by apply (H1 e E).
  - intros d. rewrite depHeap_upd_effect, nextDep_upd_effect. apply H2.
  - intros e' E'. rewrite effects_upd_effect.
    destruct (decide (e = e')) as [<-|Hne]; [|apply H3].
    destruct (effects st !! e) as [E|] eqn:HE; simpl; [|done].
    intros [= <-]. destruct (Hf E) as (-> & -> & _). by apply (H3 e E).
Qed.

Lemma mirror_preCleanupEffect e st : mirror st → mirror (preCleanupEffect e st).
Proof.
  intros [H1 H2 H3]. unfold preCleanupEffect. split.
  - intros e' E' i d. rewrite effects_upd_effect, depHeap_upd_effect.
    destruct (decide (e = e')) as [<-|Hne]; [|apply H1].
    destruct (effects st !! e) as [E|] eqn:HE; simpl; [|done].
    intros [= <-]. simpl. lia.
  - intros d. rewrite depHeap_upd_effect, nextDep_upd_effect. apply H2.
  - intros e' E'. rewrite effects_upd_effect.
    destruct (decide (e = e')) as [<-|Hne]; [|apply H3].
    destruct (effects st !! e) as [E|] eqn:HE; simpl; [|done].
    intros [= <-]. simpl. apply NoDup_nil_2.
Qed.

(** [cleanupDepEffect] keeps every entry that is current. *)
Lemma cleanupDepEffect_current d e st d' D e' E' :
  depHeap st !! d' = Some D → effects st !! e' = Some E' →
  OMap.get e' (subs D) = Some (_trackId E') →
  ∃ D', depHeap (cleanupDepEffect d e st) !! d' = Some D'
        ∧ OMap.get e' (subs D') = Some (_trackId E').
Proof.
  intros HD HE Hg. unfold cleanupDepEffect.
  destruct (depHeap st !! d) as [D0|] eqn:HD0; [|by exists D].
  destruct (effects st !! e) as [E|] eqn:HE0; [|by exists D].
  destruct (OMap.get e (subs D0)) as [tid|] eqn:Hg0; [|by exists D].
  destruct (decide (_trackId E = tid)) as [|Hne]; [by exists D|].
  set (Dn := with_subs (OMap.delete e (subs D0)) D0).
  assert (Hheap : depHeap (if decide (length (subs Dn) = 0%nat)
                           then run_cleanup Dn (set_depHeap <[d:=Dn]> st)
                           else set_depHeap <[d:=Dn]> st)
                  = <[d:=Dn]> (depHeap st)).
  { destruct (decide (length (subs Dn) = 0%nat)); [|done].
    by destruct (run_cleanup_frame Dn (set_depHeap <[d:=Dn]> st)) as (_ & -> & _). }
  rewrite Hheap. destruct (decide (d = d')) as [<-|Hdd].
  - rewrite lookup_insert_eq. exists Dn. split; [done|].
    rewrite HD0 in HD. injection HD as <-. subst Dn. simpl.
    destruct (decide (e = e')) as [<-|Hee].
    + rewrite HE0 in HE. injection HE as <-. rewrite Hg0 in Hg.
      injection Hg as Ht. by destruct Hne.
    + by rewrite OMap.get_delete_ne.
  - rewrite lookup_insert_ne by done. by exists D.
Qed.

Lemma nextDep_run_cleanup D st : nextDep (run_cleanup D st) = nextDep st.
Proof.
  unfold run_cleanup. destruct (cleanup D) as [[t k]|]; [|done].
  by destruct (targetMap st !! t).
Qed.

Lemma cleanupDepEffect_heap d e st :
  nextDep (cleanupDepEffect d e st) = nextDep st
  ∧ ∀ x, is_Some (depHeap (cleanupDepEffect d e st) !! x)
         → is_Some (depHeap st !! x).
Proof.
  unfold cleanupDepEffect.
  destruct (depHeap st !! d) as [D0|] eqn:HD0; [|done].
  destruct (effects st !! e) as [E|]; [|done].
  destruct (OMap.get e (subs D0)) as [tid|]; [|done].
  destruct (decide (_trackId E = tid)) as [|Hne]; [done|].
  set (Dn := with_subs (OMap.delete e (subs D0)) D0).
  assert (Hheap : depHeap (if decide (length (subs Dn) = 0%nat)
                           then run_cleanup Dn (set_depHeap <[d:=Dn]> st)
                           else set_depHeap <[d:=Dn]> st)
                  = <[d:=Dn]> (depHeap st)).
  { destruct (decide (length (subs Dn) = 0%nat)); [|done].
    by destruct (run_cleanup_frame Dn (set_depHeap <[d:=Dn]> st)) as (_ & -> & _). }
  split.
  - destruct (decide (length (subs Dn) = 0%nat)); [|done].
    by rewrite nextDep_run_cleanup.
  - intros x. rewrite Hheap. destruct (decide (d = x)) as [<-|Hne'].
    + intros _. by rewrite HD0.
    + by rewrite lookup_insert_ne.
Qed.

Lemma mirror_cleanupDepEffect d e st : mirror st → mirror (cleanupDepEffect d e st).
Proof.
  intros [H1 H2 H3].
  destruct (cleanupDepEffect_effects d e st) as [He _].
  destruct (cleanupDepEffect_heap d e st) as [Hn Hdom].
  split.
  - intros e' E' i d'. rewrite He. intros HE Hi Hd.
    destruct (H1 _ _ _ _ HE Hi Hd) as (D & HD & Hg).
    by eapply cleanupDepEffect_current.
  - intros x Hx. rewrite Hn. by apply H2, Hdom.
  - intros e' E'. rewrite He. apply H3.
Qed.

Lemma mirror_foldl {A} (f : State → A → State) (l : list A) st :
  (∀ s x, mirror s → mirror (f s x)) → mirror st → mirror (foldl f st l).
Proof. intros Hf. revert st. induction l; simpl; auto. Qed.

Lemma mirror_postCleanupEffect e st : mirror st → mirror (postCleanupEffect e st).
Proof.
  intros Hm. unfold postCleanupEffect.
  destruct (effects st !! e) as [E|] eqn:HE; [|done].
  destruct (decide (_depsLength E < length (deps E))%nat) as [Hlt|]; [|done].
  set (st1 := foldl _ st _).
  assert (Hm1 : mirror st1).
  { apply mirror_foldl; [|done]. intros. by apply mirror_cleanupDepEffect. }
  destruct (cleanup_fold_effects (drop (_depsLength E) (deps E)) e st) as [He _].
  fold st1 in He. destruct Hm1 as [H1 H2 H3]. split.
  - intros e' E' i d. rewrite effects_upd_effect, depHeap_upd_effect, He.
    destruct (decide (e = e')) as [<-|Hne]; [|rewrite <- He; apply H1].
    rewrite HE. simpl. intros [= <-]. simpl. intros Hi Hd.
    rewrite lookup_take_lt in Hd by done.
    apply (H1 e E i d); [by rewrite He|done..].
  - intros d. rewrite depHeap_upd_effect, nextDep_upd_effect. apply H2.
  - intros e' E'. rewrite effects_upd_effect, He.
    destruct (decide (e = e')) as [<-|Hne]; [|rewrite <- He; apply H3].
    rewrite HE. simpl. intros [= <-]. simpl.
    rewrite take_take, Nat.min_id. apply (H3 e E). by rewrite He.
Qed.

Lemma take_array_write {A} (n : nat) (x : A) (l : list A) :
  (n ≤ length l)%nat → take (S n) (array_write n x l) = take n l ++ [x].
Proof.
  intros Hn. unfold array_write.
  assert (Hlen : length (take n l) = n) by (rewrite length_take; lia).
  rewrite take_app_ge by lia. rewrite Hlen.
  replace (S n - n)%nat with 1%nat by lia. done.
Qed.

Lemma mirror_trackEffect e d st : wf st → mirror st → mirror (trackEffect e d st).
Proof.
  intros Hwf Hm. unfold trackEffect.
  destruct (effects st !! e) as [E|] eqn:HE; [|done].
  destruct (depHeap st !! d) as [D|] eqn:HD; [|done].
  destruct (decide (OMap.get e (subs D) = Some (_trackId E))) as [|Hnew]; [done|].
  set (Dn := with_subs (OMap.set e (_trackId E) (subs D)) D).
  set (st1 := set_depHeap <[d:=Dn]> st).
  pose proof (wf_depsLength _ Hwf _ _ HE) as Hlen.
  destruct Hm as [H1 H2 H3].
  (* the current entries of [st] are entries of [st1] *)
  assert (Hst1 : ∀ e' E' i d',
            effects st !! e' = Some E' → (i < _depsLength E')%nat →
            deps E' !! i = Some d' →
            ∃ D1, depHeap st1 !! d' = Some D1
                  ∧ OMap.get e' (subs D1) = Some (_trackId E')).
  { intros e' E' i d' HE' Hi Hd'.
    destruct (H1 _ _ _ _ HE' Hi Hd') as (D0 & HD0 & Hg0).
    subst st1. simpl. destruct (decide (d = d')) as [<-|Hdd].
    - rewrite lookup_insert_eq. exists Dn. split; [done|].
      rewrite HD in HD0. injection HD0 as <-. subst Dn. simpl.
      destruct (decide (e = e')) as [<-|Hee].
      + rewrite HE in HE'. injection HE' as <-. apply OMap.get_set_eq.
      + by rewrite OMap.get_set_ne.
    - rewrite lookup_insert_ne by done. by exists D0. }
  assert (Hnew1 : ∃ D1, depHeap st1 !! d = Some D1
                        ∧ OMap.get e (subs D1) = Some (_trackId E)).
  { exists Dn. subst st1. simpl. rewrite lookup_insert_eq. split; [done|].
    apply OMap.get_set_eq. }
  assert (Hdom1 : ∀ x, is_Some (depHeap st1 !! x) → is_Some (depHeap st !! x)).
  { intros x. subst st1. simpl. destruct (decide (d = x)) as [<-|Hne].
    - intros _. by rewrite HD.
    - by rewrite lookup_insert_ne. }
  (* the dep is not below the cursor *)
  assert (Hnotin : d ∉ take (_depsLength E) (deps E)).
  { intros Hin. apply elem_of_take in Hin as (i & Hi & Hlt).
    destruct (H1 _ _ _ _ HE Hlt Hi) as (D0 & HD0 & Hg0).
    rewrite HD in HD0. injection HD0 as <-. done. }
  destruct (decide (deps E !! _depsLength E = Some d)) as [Hold|Hold].
  - split.
    + intros e' E' i d'. rewrite effects_upd_effect, depHeap_upd_effect.
      destruct (decide (e = e')) as [<-|Hne]; [|by apply Hst1].
      simpl. rewrite HE. simpl. intros [= <-]. simpl. intros Hi Hd'.
      destruct (decide (i = _depsLength E)) as [->|Hne].
      * rewrite Hold in Hd'. by injection Hd' as <-.
      * apply (Hst1 e E i d'); [done|lia|done].
    + intros x. rewrite depHeap_upd_effect, nextDep_upd_effect.
      intros Hx%Hdom1. by apply H2.
    + intros e' E'. rewrite effects_upd_effect.
      destruct (decide (e = e')) as [<-|Hne]; [|apply H3].
      simpl. rewrite HE. simpl. intros [= <-]. simpl.
      rewrite (take_S_r _ _ _ Hold). apply NoDup_app.
      split; [by apply (H3 e E)|]. split; [|apply NoDup_singleton].
      intros x Hx ->%list_elem_of_singleton. done.
  - set (st2 := match deps E !! _depsLength E with
                | Some od => cleanupDepEffect od e st1
                | None => st1
                end).
    assert (He2 : effects st2 = effects st).
    { subst st2. destruct (deps E !! _depsLength E) as [od|]; [|done].
      by destruct (cleanupDepEffect_effects od e st1) as [-> _]. }
    assert (Hcur2 : ∀ d' D1 e' E',
              depHeap st1 !! d' = Some D1 → effects st !! e' = Some E' →
              OMap.get e' (subs D1) = Some (_trackId E') →
              ∃ D2, depHeap st2 !! d' = Some D2
                    ∧ OMap.get e' (subs D2) = Some (_trackId E')).
    { intros d' D1 e' E' HD1 HE' Hg1. subst st2.
      destruct (deps E !! _depsLength E) as [od|]; [|by exists D1].
      by eapply cleanupDepEffect_current. }
    assert (Hdom2 : nextDep st2 = nextDep st
                    ∧ ∀ x, is_Some (depHeap st2 !! x) → is_Some (depHeap st !! x)).
    { subst st2. destruct (deps E !! _depsLength E) as [od|]; [|done].
      destruct (cleanupDepEffect_heap od e st1) as [-> Hd]. split; [done|].
      intros x Hx. by apply Hdom1, Hd. }
    destruct Hdom2 as [Hn2 Hdom2].
    split.
    + intros e' E' i d'. rewrite effects_upd_effect, depHeap_upd_effect, He2.
      destruct (decide (e = e')) as [<-|Hne].
      * rewrite HE. simpl. intros [= <-]. simpl. intros Hi.
        rewrite array_write_lookup by done.
        destruct (decide (i = _depsLength E)) as [->|Hne].
        -- intros [= <-]. destruct Hnew1 as (D1 & HD1 & Hg1).
           by eapply Hcur2.
        -- intros Hd'.
           destruct (Hst1 e E i d') as (D1 & HD1 & Hg1); [done|lia|done|].
           by eapply Hcur2.
      * intros HE' Hi Hd'.
        destruct (Hst1 e' E' i d' HE' Hi Hd') as (D1 & HD1 & Hg1).
        by eapply Hcur2.
    + intros x. rewrite depHeap_upd_effect, nextDep_upd_effect, Hn2.
      intros Hx%Hdom2. by apply H2.
    + intros e' E'. rewrite effects_upd_effect, He2.
      destruct (decide (e = e')) as [<-|Hne]; [|apply H3].
      rewrite HE. simpl. intros [= <-]. simpl.
      rewrite take_array_write by done. apply NoDup_app.
      split; [by apply (H3 e E)|]. split; [|apply NoDup_singleton].
      intros x Hx ->%list_elem_of_singleton. done.
Qed.

(** The two invariants together. *)
Definition good (st : State) : Prop := wf st ∧ mirror st.

Lemma good_same st st' :
  effects st' = effects st → depHeap st' = depHeap st →
  nextEffect st' = nextEffect st → nextDep st' = nextDep st →
  good st → good st'.
Proof.
  intros He Hd Hn Hn' [Hw Hm]. split; [by eapply wf_same|by eapply mirror_same].
Qed.

Lemma good_upd_effect_frame e f st :
  (∀ E, deps (f E) = deps E ∧ _depsLength (f E) = _depsLength E
        ∧ _trackId (f E) = _trackId E) →
  good st → good (upd_effect e f st).
Proof.
  intros Hf [Hw Hm].
  split; [by apply wf_upd_effect_frame|by apply mirror_upd_effect_frame].
Qed.

Lemma good_foldl {A} (f : State → A → State) (l : list A) st :
  (∀ s x, good s → good (f s x)) → good st → good (foldl f st l).
Proof. intros Hf. revert st. induction l; simpl; auto. Qed.

Lemma good_track t k st : good st → good (track t k st).
Proof.
  intros [Hwf Hm]. split; [by apply wf_track|]. unfold track.
  destruct (shouldTrack st); [|done].
  destruct (activeEffect st) as [e|]; [|done].
  set (st1 := match targetMap st !! t with
              | Some _ => st
              | None => set_targetMap <[t:=[]]> st
              end).
  assert (Hg1 : good st1).
  { subst st1. destruct (targetMap st !! t); [done|].
    by apply (good_same st). }
  destruct Hg1 as [Hwf1 Hm1].
  destruct (OMap.get k (default [] (targetMap st !! t))) as [d|].
  - by apply mirror_trackEffect.
  - apply mirror_trackEffect.
    + destruct Hwf1 as [H1 H2 H3]. split; simpl; [done| |done].
      intros d D e' tid.
      destruct (decide (nextDep st1 = d)) as [<-|Hne].
      * rewrite lookup_insert_eq. by intros [= <-].
      * rewrite lookup_insert_ne by done. apply H2.
    + destruct Hm1 as [H1 H2 H3]. split; simpl; [|  |done].
      * intros e' E' i d HE Hi Hd.
        destruct (H1 _ _ _ _ HE Hi Hd) as (D & HD & Hg).
        exists D. split; [|done]. rewrite lookup_insert_ne; [done|].
        intros <-. assert (nextDep st1 < nextDep st1)%nat; [|lia].
        apply H2. by eexists.
      * intros d. destruct (decide (nextDep st1 = d)) as [<-|Hne]; [lia|].
        rewrite lookup_insert_ne by done. intros Hd%H2. lia.
Qed.

Lemma good_bump_one d lvl st e : good st → good (bump_one d lvl st e).
Proof.
  intros Hg. unfold bump_one.
  destruct (effects st !! e); [|done]. destruct (depHeap st !! d); [|done].
  destruct (_ && _); [|done].
  destruct (decide _).
  - eapply good_same;
      [..|apply good_upd_effect_frame, good_upd_effect_frame, Hg]; done.
  - by apply good_upd_effect_frame.
Qed.

Lemma good_schedule_one d st e : good st → good (schedule_one d st e).
Proof.
  intros Hg. unfold schedule_one.
  destruct (effects st !! e) as [E|]; [|done]. destruct (depHeap st !! d); [|done].
  destruct (scheduler E); [|done]. destruct (_ && _); [|done].
  eapply good_same; [..|apply good_upd_effect_frame, Hg]; done.
Qed.

Lemma good_resetTracking st : good st → good (resetTracking st).
Proof.
  intros Hg. unfold resetTracking.
  destruct (last (trackStack st)); by apply (good_same st).
Qed.

Lemma good_dirty e st : good st → good (dirty e st).2.
Proof.
  intros Hg. unfold dirty.
  destruct (effects st !! e) as [E|]; [|done]. simpl.
  destruct (decide (_dirtyLevel E = MaybeDirty)); [|done].
  apply good_resetTracking, good_upd_effect_frame.
  - intros E'. by destruct (bool_decide _).
  - by apply (good_same st).
Qed.

Lemma good_stop e st : good st → good (stop e st).
Proof.
  intros [Hwf Hm]. split; [by apply wf_stop|]. unfold stop.
  destruct (effects st !! e) as [E|]; [|done]. destruct (active E); [|done].
  by apply mirror_upd_effect_frame, mirror_postCleanupEffect,
    mirror_preCleanupEffect.
Qed.

Lemma good_proxy_get a k st : good st → good (proxy_get a k st).
Proof.
  intros Hg. unfold proxy_get.
  destruct k; try (by apply good_track).
  destruct (bool_decide _); [done|by apply good_track].
Qed.

Section kernel_mirror.
Variable rec : Call → State → option State.
Hypothesis rec_good : ∀ c st st', good st → rec c st = Some st' → good st'.

Lemma good_drain st st' : good st → drain rec st = Some st' → good st'.
Proof.
  intros Hg. unfold drain.
  destruct (queueEffectSchedulers st) as [|s q]; [by intros [= <-]|].
  destruct (bool_decide _); [|by intros [= <-]].
  set (st0 := log (EvScheduler s) (set_queue q st)).
  assert (H0 : good st0) by (by apply (good_same st)).
  destruct (invoke_scheduler rec s st0) as [st1|] eqn:Hinv; simpl; [|done].
  apply rec_good.
  destruct s as [e|n]; simpl in Hinv.
  - destruct (dirty e st0) as [b sd] eqn:Hd.
    assert (Hsd : good sd).
    { replace sd with (dirty e st0).2 by (by rewrite Hd). by apply good_dirty. }
    destruct b; [by eapply rec_good|by injection Hinv as <-].
  - by injection Hinv as <-.
Qed.

Lemma good_resetScheduling st st' :
  good st → resetScheduling rec st = Some st' → good st'.
Proof.
  intros Hg. unfold resetScheduling. apply good_drain. by apply (good_same st).
Qed.

Lemma good_triggerEffects d lvl st st' :
  good st → triggerEffects rec d lvl st = Some st' → good st'.
Proof.
  intros Hg. unfold triggerEffects. apply good_resetScheduling.
  apply good_foldl; [intros; by apply good_schedule_one|].
  apply good_foldl; [intros; by apply good_bump_one|].
  by apply (good_same st).
Qed.

Lemma good_trigger_deps ds st st' :
  good st → trigger_deps rec ds st = Some st' → good st'.
Proof.
  revert st. induction ds as [|[d|] ds IH]; intros st Hg; simpl.
  - by intros [= <-].
  - destruct (triggerEffects rec d Dirty st) as [st1|] eqn:H1; simpl; [|done].
    apply IH. by eapply good_triggerEffects.
  - by apply IH.
Qed.

Lemma good_trigger t ty k nv st st' :
  good st → trigger rec t ty k nv st = Some st' → good st'.
Proof.
  intros Hg. unfold trigger.
  destruct (targetMap st !! t) as [depsMap|]; [|by intros [= <-]].
  destruct (trigger_deps rec _ (pauseScheduling st)) as [st1|] eqn:H1;
    simpl; [|done].
  apply good_resetScheduling. eapply good_trigger_deps; [|exact H1].
  by apply (good_same st).
Qed.

Lemma good_proxy_set_index a i v st st' :
  good st → proxy_set_index rec a i v st = Some st' → good st'.
Proof.
  intros Hg. unfold proxy_set_index.
  destruct (array_elems st a) as [l|]; [|by intros [= <-]].
  set (st1 := set_targets _ st).
  assert (H1 : good st1) by (by apply (good_same st)).
  destruct (negb _); [by apply good_trigger|].
  destruct (bool_decide _); [by apply good_trigger|by intros [= <-]].
Qed.

Lemma good_proxy_set_length a n st st' :
  good st → proxy_set_length rec a n st = Some st' → good st'.
Proof.
  intros Hg. unfold proxy_set_length.
  destruct (array_elems st a) as [l|]; [|by intros [= <-]].
  set (st1 := set_targets _ st).
  assert (H1 : good st1) by (by apply (good_same st)).
  destruct (bool_decide _); [by apply good_trigger|by intros [= <-]].
Qed.

Lemma good_native_push a v st st' :
  good st → native_push rec a v st = Some st' → good st'.
Proof.
  intros Hg. unfold native_push.
  destruct (array_elems st a) as [l|]; [|by intros [= <-]].
  destruct (proxy_set_index rec a (length l) v _) as [st2|] eqn:H2;
    simpl; [|done].
  apply good_proxy_set_length. eapply good_proxy_set_index; [|exact H2].
  by apply good_proxy_get.
Qed.

Lemma good_instrumented method st st' :
  (∀ s s', good s → method s = Some s' → good s') →
  good st → instrumented rec method st = Some st' → good st'.
Proof.
  intros Hm Hg. unfold instrumented.
  destruct (method _) as [st1|] eqn:H1; simpl; [|done].
  destruct (resetScheduling rec st1) as [st2|] eqn:H2; simpl; [|done].
  intros [= <-]. apply good_resetTracking.
  eapply good_resetScheduling; [|exact H2]. eapply Hm; [|exact H1].
  by apply (good_same st).
Qed.

Lemma good_exec_op op st st' : good st → exec_op rec op st = Some st' → good st'.
Proof.
  intros Hg. destruct op; simpl.
  - intros [= <-]. by apply good_track.
  - by apply good_trigger.
  - intros [= <-]. by apply good_proxy_get.
  - by apply good_proxy_set_index.
  - by apply good_proxy_set_length.
  - apply good_instrumented; [|done]. intros s s'. apply good_native_push.
  - by apply rec_good.
  - intros [= <-]. by apply good_stop.
Qed.

Lemma good_exec_ops ops st st' :
  good st → exec_ops rec ops st = Some st' → good st'.
Proof.
  revert st. induction ops as [|op ops IH]; intros st Hg; simpl.
  - by intros [= <-].
  - destruct (exec_op rec op st) as [st1|] eqn:H1; simpl; [|done].
    apply IH. by eapply good_exec_op.
Qed.

Lemma good_run e st st' : good st → run rec e st = Some st' → good st'.
Proof.
  intros Hg. unfold run.
  destruct (effects st !! e) as [E|] eqn:HE; [|by intros [= <-]].
  set (st0 := upd_effect e (with_dirtyLevel NotDirty) st).
  assert (H0 : good st0) by (by apply good_upd_effect_frame).
  destruct (negb (active E)).
  - apply good_exec_ops. by apply (good_same st0).
  - destruct (exec_ops rec (fn E) _) as [st4|] eqn:H4; simpl; [|done].
    intros [= <-].
    apply good_exec_ops in H4.
    + eapply good_same; [..|apply good_upd_effect_frame]; try done.
      destruct H4 as [Hw4 Hm4].
      split; [by apply wf_postCleanupEffect|by apply mirror_postCleanupEffect].
    + apply (good_same
                 (preCleanupEffect e
                    (upd_effect e (λ E', with_runnings (_runnings E' + 1) E')
                       (set_activeEffect (Some e) (set_shouldTrack true st0)))));
        [done..|].
      split.
      * apply wf_preCleanupEffect, wf_upd_effect_frame; [done|].
        eapply wf_same; [..|apply H0]; done.
      * apply mirror_preCleanupEffect, mirror_upd_effect_frame; [done|].
        eapply mirror_same; [..|apply H0]; done.
Qed.

Lemma good_step c st st' : good st → step rec c st = Some st' → good st'.
Proof.
  intros Hg. destruct c; simpl; [by apply good_run|by apply good_drain].
Qed.
End kernel_mirror.

Lemma good_interp fuel c st st' :
  good st → interp fuel c st = Some st' → good st'.
Proof.
  revert c st st'. induction fuel as [|fuel IH]; intros c st st' Hg; simpl; [done|].
  by apply good_step.
Qed.

Lemma reachable_good st : reachable st → good st.
Proof.
  induction 1 as [|st t T _ IH|st fuel body options e st' _ IH Heff
                  |st fuel ops st' _ IH Hops].
  - split; [apply wf_initial|apply mirror_initial].
  - by apply (good_same st).
  - unfold effect in Heff.
    set (n := nextEffect st) in *.
    set (st1 := set_nextEffect (S n) (set_effects _ st)) in *.
    assert (Hfresh : effects st !! n = None).
    { destruct (effects st !! n) eqn:Hn; [|done].
      assert (n < nextEffect st)%nat by (apply (wf_fresh _ (proj1 IH)); by eexists).
      subst n. lia. }
    assert (Hg1 : good st1).
    { destruct IH as [[W1 W2 W3] [M1 M2 M3]]. split; split; simpl.
      - intros e0 E0. destruct (decide (n = e0)) as [<-|Hne].
        + rewrite lookup_insert_eq. intros [= <-]. simpl. lia.
        + rewrite lookup_insert_ne by done. apply W1.
      - intros d D e0 tid HD Hg.
        destruct (W2 _ _ _ _ HD Hg) as (E0 & HE0 & Hok).
        exists E0. split; [|done].
        rewrite lookup_insert_ne; [done|]. intros <-. by rewrite Hfresh in HE0.
      - intros e0. destruct (decide (n = e0)) as [<-|Hne]; [lia|].
        rewrite lookup_insert_ne by done. intros H%W3. fold n in H. lia.
      - intros e0 E0 i d. destruct (decide (n = e0)) as [<-|Hne].
        + rewrite lookup_insert_eq. intros [= <-]. simpl. lia.
        + rewrite lookup_insert_ne by done. apply M1.
      - done.
      - intros e0 E0. destruct (decide (n = e0)) as [<-|Hne].
        + rewrite lookup_insert_eq. intros [= <-]. simpl. apply NoDup_nil_2.
        + rewrite lookup_insert_ne by done. apply M3. }
    destruct (from_option lazy false options).
    + by injection Heff as <- <-.
    + destruct (run (interp fuel) n st1) as [st2|] eqn:Hrun; simpl in Heff;
        [|done].
      injection Heff as <- <-.
      eapply (good_run (interp fuel)); [|exact Hg1|exact Hrun].
      intros c s s'. apply good_interp.
  - eapply (good_exec_ops (interp fuel)); [|exact IH|exact Hops].
    intros c s s'. apply good_interp.
Qed.

(** X22. At rest, the dep list of an effect and the subscriber maps of the
    deps mirror each other: in every state reached through effect
    creation, reads, writes, runner calls and stops, an effect's [deps]
    holds no dep twice, and a dep is in it exactly when the dep has the
    effect as a subscriber. *)
Theorem deps_mirror_subscriptions (st : State) (e : EffectId)
    (E : ReactiveEffect) :
  reachable st → effects st !! e = Some E →
  NoDup (deps E)
  ∧ (∀ d, d ∈ deps E
          ↔ ∃ D, depHeap st !! d = Some D ∧ e ∈ OMap.keys (subs D)).
Proof.
  intros Hr HE.
  destruct (reachable_good st Hr) as [Hwf [M1 M2 M3]].
  destruct (reachable_wf st Hr) as [_ Hs].
  pose proof (Hs e E HE) as Hlen. split.
  - specialize (M3 e E HE). by rewrite Hlen, firstn_all in M3.
  - intros d. split.
    + intros Hin. apply list_elem_of_lookup in Hin as [i Hi].
      destruct (M1 e E i d HE) as (D & HD & Hg); [|done|].
      * rewrite Hlen. by eapply lookup_lt_Some.
      * exists D. split; [done|]. by eapply OMap.get_Some_keys.
    + intros (D & HD & Hin).
      destruct (OMap.get e (subs D)) as [tid|] eqn:Hg.
      2:{ by apply OMap.get_None_keys in Hg. }
      destruct (wf_entries _ Hwf _ _ _ _ HD Hg) as (E0 & HE0 & i & Hi & _).
      rewrite HE in HE0. injection HE0 as <-.
      apply list_elem_of_lookup. by exists i.
Qed.

Lemma deps_mirror_subscriptions_witness :
  ∃ E, effects demo_session !! 0%nat = Some E
    ∧ NoDup (deps E)
    ∧ (∀ d, d ∈ deps E
            ↔ ∃ D, depHeap demo_session !! d = Some D
                   ∧ 0%nat ∈ OMap.keys (subs D)).
Proof.
  destruct (effects demo_session !! 0%nat) as [E|] eqn:HE;
    [|by vm_compute in HE].
  exists E. split; [done|].
  exact (deps_mirror_subscriptions demo_session 0%nat E
           demo_session_reachable HE).
Defined.

End Reactivity.

(** ** The proxy registry: [reactive] and the raw-escape *)

Module ReactiveProxy.

Definition ObjId := nat.

(** A heap object is a plain (raw) object or a [Proxy] over a target, built
    by [createReactive(o, isShallow, isReadonly)]. *)
Inductive Obj :=
  | Raw
  | Proxy (target : ObjId) (isShallow isReadonly : bool).

Record State := mkState {
  heap : gmap ObjId Obj;
  reactiveMap : list (ObjId * ObjId);   (** [new Map()], keyed by identity *)
  next : ObjId;
}.

(** [createReactive(o, isShallow, isReadonly)]: [new Proxy(o, handlers)] is
    a fresh object. *)
Definition createReactive (o : ObjId) (isShallow isReadonly : bool) (st : State)
    : ObjId * State :=
  (next st,
   mkState (<[next st := Proxy o isShallow isReadonly]> (heap st))
     (reactiveMap st) (S (next st))).

(** [reactive(o)]. *)
Definition reactive (o : ObjId) (st : State) : ObjId * State :=
  match OMap.get o (reactiveMap st) with
  | Some existProxy => (existProxy, st)
  | None =>
      let '(proxy, st1) := createReactive o false false st in
      (proxy, mkState (heap st1) (OMap.set o proxy (reactiveMap st1)) (next st1))
  end.

(** The [get] trap for the key ['raw']: [return target].  A raw object has
    no such property. *)
Definition raw (p : ObjId) (st : State) : option ObjId :=
  match heap st !! p with
  | Some (Proxy target _ _) => Some target
  | _ => None
  end.

(** The [ReactiveFlags.RAW] branch of [BaseReactiveHandler.get]: the target
    is handed out when the receiver is the proxy registered for it in the
    map that belongs to the handler's flags, or has the same prototype.
    The four registries live in reactive.ts and are taken as a parameter,
    as is the prototype of each object. *)
Definition raw_branch (isReadonly shallow : bool)
    (registry : bool → bool → list (ObjId * ObjId))
    (getPrototypeOf : ObjId → option ObjId)
    (target receiver : ObjId) : option ObjId :=
  if bool_decide (OMap.get target (registry isReadonly shallow) = Some receiver)
     || bool_decide (getPrototypeOf target = getPrototypeOf receiver)
  then Some target
  else None.

(** Every registered proxy is a proxy over its key, and identities at or
    beyond [next] are unused. *)
Record wf (st : State) : Prop := mk_wf {
  wf_registered : ∀ x p, OMap.get x (reactiveMap st) = Some p →
    ∃ s r, heap st !! p = Some (Proxy x s r);
  wf_next : ∀ o : ObjId, is_Some (heap st !! o) → (o < next st)%nat;
}.

Lemma reactive_wf x st : wf st → wf (reactive x st).2.
Proof.
  intros [H1 H2]. unfold reactive.
  destruct (OMap.get x (reactiveMap st)) as [p|] eqn:Hg; [by split|].
  simpl. split; simpl.
  - intros y q. destruct (decide (x = y)) as [<-|Hne].
    + rewrite OMap.get_set_eq. intros [= <-]. rewrite lookup_insert_eq. by eexists _, _.
    + rewrite OMap.get_set_ne by done. intros Hy.
      destruct (H1 _ _ Hy) as (s & r & Hq). exists s, r.
      rewrite lookup_insert_ne; [done|]. intros <-.
      assert (next st < next st)%nat; [|lia]. apply H2. by eexists.
  - intros o. destruct (decide (next st = o)) as [<-|Hne]; [lia|].
    rewrite lookup_insert_ne by done. intros H%H2. lia.
Qed.

(** C5 as the specification words it, for one raw object [x]. *)
Definition registry_claim_as_stated (x : ObjId) (st : State) : Prop :=
  let '(p1, st1) := reactive x st in
  let '(p2, st2) := reactive x st1 in
  let '(p3, st3) := reactive p1 st2 in
  p2 = p1 ∧ p3 = p1 ∧ raw p1 st3 = Some x.

Definition one_raw_object : State := mkState {[0%nat := Raw]} [] 1%nat.

Lemma registry_claim_fails_on_proxy_argument :
  ¬ registry_claim_as_stated 0%nat one_raw_object.
Proof. vm_compute. intros (_ & H & _). discriminate H. Qed.

(** C5 (amended). For every raw object [x]: [reactive(x)] returns the same
    proxy on every call, and the raw-escape of that proxy is [x] (through
    the ['raw'] key of the trap as well as through the RAW branch of
    [BaseReactiveHandler.get] with the registry as [reactive] left it);
    [reactive] applied to that proxy, though, registers and returns another
    proxy, whose raw-escape is the first proxy. *)
Theorem reactive_is_stable_on_raw_objects (x : ObjId) (st : State)
    (registry : bool → bool → list (ObjId * ObjId))
    (getPrototypeOf : ObjId → option ObjId) :
  wf st → heap st !! x = Some Raw →
  let p1 := (reactive x st).1 in
  let st1 := (reactive x st).2 in
  let p2 := (reactive x st1).1 in
  let st2 := (reactive x st1).2 in
  let p3 := (reactive p1 st2).1 in
  let st3 := (reactive p1 st2).2 in
  p2 = p1 ∧ st2 = st1
  ∧ raw p1 st1 = Some x
  ∧ (registry false false = reactiveMap st1 →
     raw_branch false false registry getPrototypeOf x p1 = Some x)
  ∧ p3 ≠ p1 ∧ raw p3 st3 = Some p1 ∧ raw p1 st3 = Some x.
Proof.
  intros Hwf Hx p1 st1 p2 st2 p3 st3.
  assert (Hwf1 : wf st1) by (by apply reactive_wf).
  assert (Hreg : OMap.get x (reactiveMap st1) = Some p1).
  { subst p1 st1. unfold reactive.
    destruct (OMap.get x (reactiveMap st)) as [p|] eqn:Hg; [done|].
    simpl. by rewrite OMap.get_set_eq. }
  assert (H2 : p2 = p1 ∧ st2 = st1).
  { subst p2 st2. unfold reactive. by rewrite Hreg. }
  destruct H2 as [Hp2 Hst2].
  destruct (wf_registered _ Hwf1 _ _ Hreg) as (s & r & Hp1).
  assert (Hraw1 : raw p1 st1 = Some x) by (unfold raw; by rewrite Hp1).
  assert (Hx1 : heap st1 !! x = Some Raw).
  { subst st1. unfold reactive.
    destruct (OMap.get x (reactiveMap st)) as [p|]; [done|]. simpl.
    rewrite lookup_insert_ne; [done|]. intros <-.
    assert (next st < next st)%nat; [|lia]. apply (wf_next _ Hwf). by eexists. }
  clearbody p1 st1. subst p2 st2.
  split_and!; try done.
  - intros Hr. unfold raw_branch. rewrite Hr, Hreg.
    by rewrite bool_decide_eq_true_2.
  - (* a proxy is registered only under its own target, never under itself *)
    subst p3. rewrite Hst2. unfold reactive.
    destruct (OMap.get p1 (reactiveMap st1)) as [q|] eqn:Hq; simpl.
    + intros ->. destruct (wf_registered _ Hwf1 _ _ Hq) as (s' & r' & Hq').
      rewrite Hp1 in Hq'. injection Hq' as -> _ _. by rewrite Hx1 in Hp1.
    + intros Heq. assert (p1 < next st1)%nat; [|lia].
      apply (wf_next _ Hwf1). by eexists.
  - subst p3 st3. rewrite Hst2. unfold reactive.
    destruct (OMap.get p1 (reactiveMap st1)) as [q|] eqn:Hq; simpl.
    + destruct (wf_registered _ Hwf1 _ _ Hq) as (s' & r' & Hq').
      unfold raw. by rewrite Hq'.
    + unfold raw. simpl. by rewrite lookup_insert_eq.
  - subst st3. rewrite Hst2. unfold reactive.
    destruct (OMap.get p1 (reactiveMap st1)) as [q|] eqn:Hq; simpl; [done|].
    unfold raw. simpl. rewrite lookup_insert_ne; [by rewrite Hp1|].
    intros <-. assert (next st1 < next st1)%nat; [|lia].
    apply (wf_next _ Hwf1). by eexists.
Qed.

Lemma one_raw_object_wf : wf one_raw_object.
Proof.
  split; simpl.
  - intros x p H. discriminate H.
  - intros o [ob H]. destruct (decide (o = 0%nat)) as [->|Hne]; [lia|].
    by rewrite lookup_singleton_ne in H.
Qed.

Lemma reactive_is_stable_on_raw_objects_witness :
  wf one_raw_object ∧ heap one_raw_object !! 0%nat = Some Raw
  ∧ (reactive 0%nat (reactive 0%nat one_raw_object).2).1
    = (reactive 0%nat one_raw_object).1
  ∧ raw (reactive 0%nat one_raw_object).1 (reactive 0%nat one_raw_object).2
    = Some 0%nat.
Proof.
  split; [exact one_raw_object_wf|]. split; [reflexivity|].
  destruct (reactive_is_stable_on_raw_objects 0%nat one_raw_object
              (λ _ _, []) (λ _, None) one_raw_object_wf eq_refl)
    as (H1 & _ & H2 & _).
  split; [exact H1|exact H2].
Defined.

(** ** The other three constructors *)

(** [shallowReactive(o)], [readonly(o)] and [shallowReadonly(o)]. *)
Definition shallowReactive (o : ObjId) (st : State) : ObjId * State :=
  createReactive o true false st.
Definition readonly (o : ObjId) (st : State) : ObjId * State :=
  createReactive o false true st.
Definition shallowReadonly (o : ObjId) (st : State) : ObjId * State :=
  createReactive o true true st.

Inductive Constructor :=
  | CReactive
  | CShallowReactive
  | CReadonly
  | CShallowReadonly.

Definition construct (c : Constructor) (o : ObjId) (st : State) : ObjId * State :=
  match c with
  | CReactive => reactive o st
  | CShallowReactive => shallowReactive o st
  | CReadonly => readonly o st
  | CShallowReadonly => shallowReadonly o st
  end.

Definition flags (c : Constructor) : bool * bool :=
  match c with
  | CReactive => (false, false)
  | CShallowReactive => (true, false)
  | CReadonly => (false, true)
  | CShallowReadonly => (true, true)
  end.

(** No proxy is registered for two objects. *)
Definition registry_injective (st : State) : Prop :=
  ∀ x y p, OMap.get x (reactiveMap st) = Some p →
           OMap.get y (reactiveMap st) = Some p → x = y.

Lemma createReactive_wf o s r st : wf st → wf (createReactive o s r st).2.
Proof.
  intros [H1 H2]. split; simpl.
  - intros x p Hx. destruct (H1 _ _ Hx) as (s' & r' & Hp). exists s', r'.
    rewrite lookup_insert_ne; [done|]. intros <-.
    assert (next st < next st)%nat; [|lia]. apply H2. by eexists.
  - intros o'. destruct (decide (next st = o')) as [<-|Hne]; [lia|].
    rewrite lookup_insert_ne by done. intros H%H2. lia.
Qed.

Lemma construct_wf c o st : wf st → wf (construct c o st).2.
Proof.
  destruct c; [apply reactive_wf|apply createReactive_wf..].
Qed.

Lemma construct_injective c o st :
  wf st → registry_injective st → registry_injective (construct c o st).2.
Proof.
  intros Hwf Hinj. destruct c; try done.
  simpl. unfold reactive.
  destruct (OMap.get o (reactiveMap st)) as [q|] eqn:Hq; [done|].
  unfold registry_injective. simpl. intros x y p.
  assert (Hold : ∀ z, OMap.get z (reactiveMap st) = Some (next st) → False).
  { intros z Hz. destruct (wf_registered _ Hwf _ _ Hz) as (s & r & Hp).
    assert (next st < next st)%nat; [|lia]. apply (wf_next _ Hwf). by eexists. }
  destruct (decide (o = x)) as [<-|Hx], (decide (o = y)) as [<-|Hy]; [done|..].
  - rewrite OMap.get_set_eq, OMap.get_set_ne by done.
    intros [= <-] Hy'. by destruct (Hold _ Hy').
  - rewrite OMap.get_set_eq, OMap.get_set_ne by done.
    intros Hx' [= <-]. by destruct (Hold _ Hx').
  - rewrite !OMap.get_set_ne by done. apply Hinj.
Qed.

(** The states reached by calls of the four constructors, from a heap of
    raw objects and an empty registry. *)
Inductive reachable : State → Prop :=
  | reach_start h n :
      (∀ o : ObjId, is_Some (h !! o) → (o < n)%nat) →
      reachable (mkState h [] n)
  | reach_construct c o st :
      reachable st → reachable (construct c o st).2.

Lemma reachable_inv st : reachable st → wf st ∧ registry_injective st.
Proof.
  induction 1 as [h n Hn|c o st _ [IH1 IH2]].
  - split; [|by intros x y p H]. by split.
  - split; [by apply construct_wf|by apply construct_injective].
Qed.

(** X19. Proxies are never shared.  In every state reached by calls of
    [reactive], [shallowReactive], [readonly] and [shallowReadonly], the
    registry of [reactive] holds distinct proxies for distinct objects.  A
    call that does not find its argument in the registry returns a proxy
    that did not exist before, over the argument and with the flags of the
    constructor; and only [reactive] remembers it: the other three return
    yet another proxy when called again with the same argument. *)
Theorem proxies_are_never_shared (st : State) (c : Constructor) (o : ObjId) :
  reachable st →
  let p := (construct c o st).1 in
  let st' := (construct c o st).2 in
  registry_injective st'
  ∧ (c ≠ CReactive ∨ OMap.get o (reactiveMap st) = None →
     heap st !! p = None
     ∧ heap st' !! p = Some (Proxy o (flags c).1 (flags c).2))
  ∧ ((construct c o st').1 = p ↔ c = CReactive)
  ∧ (∀ x, x ≠ o → OMap.get x (reactiveMap st') = OMap.get x (reactiveMap st))
  ∧ (∀ q, is_Some (heap st !! q) → heap st' !! q = heap st !! q).
Proof.
  intros [Hwf Hinj]%reachable_inv p st'.
  assert (Hfresh : heap st !! next st = None).
  { destruct (heap st !! next st) eqn:H; [|done].
    assert (next st < next st)%nat; [|lia]. apply (wf_next _ Hwf). by eexists. }
  split; [by apply construct_injective|].
  assert (Hnew : ∀ s r, (createReactive o s r (createReactive o s r st).2).1
                        ≠ (createReactive o s r st).1) by (simpl; lia).
  assert (Hkeep : ∀ q, is_Some (heap st !! q) → q ≠ next st).
  { intros q Hq ->. rewrite Hfresh in Hq. by destruct Hq. }
  subst p st'. destruct c; simpl.
  - unfold reactive.
    destruct (OMap.get o (reactiveMap st)) as [q|] eqn:Hq; simpl.
    + split_and!; try done.
      * by intros [?|?].
      * by rewrite Hq.
    + split_and!.
      * intros _. by rewrite lookup_insert_eq.
      * by rewrite OMap.get_set_eq.
      * intros x Hx. by rewrite OMap.get_set_ne.
      * intros q' Hq'. rewrite lookup_insert_ne; [done|]. intros <-.
        by apply (Hkeep _ Hq').
  - split_and!; try done.
    + intros _. by rewrite lookup_insert_eq.
    + split; [lia|done].
    + intros q Hq. rewrite lookup_insert_ne; [done|]. intros <-.
      by apply (Hkeep _ Hq).
  - split_and!; try done.
    + intros _. by rewrite lookup_insert_eq.
    + split; [lia|done].
    + intros q Hq. rewrite lookup_insert_ne; [done|]. intros <-.
      by apply (Hkeep _ Hq).
  - split_and!; try done.
    + intros _. by rewrite lookup_insert_eq.
    + split; [lia|done].
    + intros q Hq. rewrite lookup_insert_ne; [done|]. intros <-.
      by apply (Hkeep _ Hq).
Qed.

Lemma proxies_are_never_shared_witness :
  (readonly 0%nat (readonly 0%nat one_raw_object).2).1
  ≠ (readonly 0%nat one_raw_object).1
  ∧ heap (readonly 0%nat one_raw_object).2 !! (readonly 0%nat one_raw_object).1
    = Some (Proxy 0%nat false true).
Proof.
  assert (Hr : reachable one_raw_object).
  { apply reach_start. intros o [x H].
    destruct (decide (o = 0%nat)) as [->|Hne]; [lia|].
    by rewrite lookup_singleton_ne in H. }
  destruct (proxies_are_never_shared one_raw_object CReadonly 0%nat Hr)
    as (_ & H1 & H2 & _).
  split.
  - intros H. apply H2 in H. discriminate H.
  - apply H1. by left.
Defined.

End ReactiveProxy.

(** ** The scheduler: scheduler.ts *)

Module Scheduler.

Definition JobId := nat.

(** What calling a job does to the scheduler. *)
Inductive Action :=
  | ActQueueJob (j : JobId)
  | ActInvalidateJob (j : JobId)
  | ActQueuePostFlushCb (j : JobId).

(** A [SchedulerJob]: the function object's properties, and its effect on
    the scheduler when called.  [active] is [false] only when
    [job.active === false]. *)
Record SchedulerJob := mkJob {
  id : option Z;
  pre : bool;
  active : bool;
  allowRecurse : bool;
  body : list Action;
}.

(** The JavaScript numbers [getId] and [comparator] produce. *)
Inductive JsNumber :=
  | Num (z : Z)
  | PosInfinity
  | NegInfinity
  | NaN.

Definition getId (job : SchedulerJob) : JsNumber :=
  match id job with
  | None => PosInfinity
  | Some z => Num z
  end.

(** [a - b] on the values [getId] returns. *)
Definition js_sub (a b : JsNumber) : JsNumber :=
  match a, b with
  | Num x, Num y => Num (x - y)
  | Num _, PosInfinity => NegInfinity
  | Num _, NegInfinity => PosInfinity
  | PosInfinity, PosInfinity => NaN
  | PosInfinity, _ => match b with NaN => NaN | _ => PosInfinity end
  | NegInfinity, NegInfinity => NaN
  | NegInfinity, _ => match b with NaN => NaN | _ => NegInfinity end
  | NaN, _ => NaN
  | _, NaN => NaN
  end.

(** [a < b]. *)
Definition js_lt (a b : JsNumber) : bool :=
  match a, b with
  | Num x, Num y => bool_decide (x < y)
  | Num _, PosInfinity => true
  | NegInfinity, Num _ => true
  | NegInfinity, PosInfinity => true
  | _, _ => false
  end.

(** [a === b]. *)
Definition js_eq (a b : JsNumber) : bool :=
  match a, b with
  | Num x, Num y => bool_decide (x = y)
  | PosInfinity, PosInfinity => true
  | NegInfinity, NegInfinity => true
  | _, _ => false
  end.

Definition comparator (a b : SchedulerJob) : JsNumber :=
  let diff := js_sub (getId a) (getId b) in
  if js_eq diff (Num 0) then
    if pre a && negb (pre b) then Num (-1)
    else if pre b && negb (pre a) then Num 1
    else diff
  else diff.

(** [Array.prototype.sort(cmp)] puts [x] before [y] when [cmp(x, y) < 0];
    a NaN result counts as [+0]; the sort is stable. *)
Definition sorts_before (cmp : SchedulerJob → SchedulerJob → JsNumber)
    (a b : SchedulerJob) : bool :=
  js_lt (cmp a b) (Num 0).

Record State := mkState {
  queue : list JobId;
  flushIndex : nat;
  isFlushing : bool;
  isFlushPending : bool;
  pendingPostFlushCbs : list JobId;
  activePostFlushCbs : option (list JobId);
  postFlushIndex : nat;
  executed : list JobId;      (** the jobs called so far, in order *)
}.

Definition initial : State := mkState [] 0 false false [] None 0 [].

Definition set_queue (q : list JobId) (st : State) : State :=
  mkState q (flushIndex st) (isFlushing st) (isFlushPending st)
    (pendingPostFlushCbs st) (activePostFlushCbs st) (postFlushIndex st)
    (executed st).
Definition set_flushIndex (i : nat) (st : State) : State :=
  mkState (queue st) i (isFlushing st) (isFlushPending st)
    (pendingPostFlushCbs st) (activePostFlushCbs st) (postFlushIndex st)
    (executed st).
Definition set_isFlushing (b : bool) (st : State) : State :=
  mkState (queue st) (flushIndex st) b (isFlushPending st)
    (pendingPostFlushCbs st) (activePostFlushCbs st) (postFlushIndex st)
    (executed st).
Definition set_isFlushPending (b : bool) (st : State) : State :=
  mkState (queue st) (flushIndex st) (isFlushing st) b
    (pendingPostFlushCbs st) (activePostFlushCbs st) (postFlushIndex st)
    (executed st).
Definition set_pending (l : list JobId) (st : State) : State :=
  mkState (queue st) (flushIndex st) (isFlushing st) (isFlushPending st)
    l (activePostFlushCbs st) (postFlushIndex st) (executed st).
Definition set_activePost (l : option (list JobId)) (st : State) : State :=
  mkState (queue st) (flushIndex st) (isFlushing st) (isFlushPending st)
    (pendingPostFlushCbs st) l (postFlushIndex st) (executed st).
Definition set_postFlushIndex (i : nat) (st : State) : State :=
  mkState (queue st) (flushIndex st) (isFlushing st) (isFlushPending st)
    (pendingPostFlushCbs st) (activePostFlushCbs st) i (executed st).
Definition set_executed (l : list JobId) (st : State) : State :=
  mkState (queue st) (flushIndex st) (isFlushing st) (isFlushPending st)
    (pendingPostFlushCbs st) (activePostFlushCbs st) (postFlushIndex st) l.

Lemma mid_bounds (s e : nat) : (s < e → s ≤ (s + e) / 2 < e)%nat.
Proof.
  intros H. split.
  - apply Nat.div_le_lower_bound; lia.
  - apply Nat.Div0.div_lt_upper_bound; lia.
Qed.

(** The binary search loop of [findInsertionIndex]; [goes_first middle]
    is the test on [queue[middle]]. *)
Equations? search (goes_first : nat → bool) (start end_ : nat) : nat
    by wf (end_ - start)%nat lt :=
  search goes_first start end_ with decide (start < end_)%nat := {
    | left _ =>
        let middle := ((start + end_) / 2)%nat in
        if goes_first middle
        then search goes_first (middle + 1)%nat end_
        else search goes_first start middle
    | right _ => start }.
Proof.
  all: pose proof (mid_bounds start end_ l) as Hm;
    change (start ≤ middle < end_)%nat in Hm; lia.
Qed.

(** [Array.prototype.indexOf]. *)
Fixpoint indexOf (j : JobId) (l : list JobId) : option nat :=
  match l with
  | [] => None
  | x :: l' => if decide (x = j) then Some 0%nat else S <$> indexOf j l'
  end.

(** [arr.includes(j, fromIndex)]. *)
Definition includes (j : JobId) (fromIndex : nat) (l : list JobId) : bool :=
  bool_decide (j ∈ drop fromIndex l).

(** [arr.splice(k, 0, j)]; an index past the end appends. *)
Definition splice_in (k : nat) (j : JobId) (l : list JobId) : list JobId :=
  take k l ++ j :: drop k l.

(** [[...new Set(l)]]: first occurrences, in order. *)
Fixpoint dedupe (seen l : list JobId) : list JobId :=
  match l with
  | [] => []
  | x :: l' => if decide (x ∈ seen) then dedupe seen l' else x :: dedupe (x :: seen) l'
  end.

Section scheduler.
Variable jobs : JobId → SchedulerJob.

(** Stable sort of job references. *)
Fixpoint sort_insert (cmp : SchedulerJob → SchedulerJob → JsNumber)
    (x : JobId) (l : list JobId) : list JobId :=
  match l with
  | [] => [x]
  | y :: l' =>
      if sorts_before cmp (jobs y) (jobs x) then y :: sort_insert cmp x l'
      else x :: y :: l'
  end.

Definition sort (cmp : SchedulerJob → SchedulerJob → JsNumber)
    (l : list JobId) : list JobId :=
  foldr (sort_insert cmp) [] l.

(** The loop test of [findInsertionIndex]:
    [middleJobId < id || (middleJobId === id && middleJob.pre)]. *)
Definition goes_first (q : list JobId) (i : Z) (middle : nat) : bool :=
  match q !! middle with
  | Some m =>
      let middleJobId := getId (jobs m) in
      js_lt middleJobId (Num i) || (js_eq middleJobId (Num i) && pre (jobs m))
  | None => false
  end.

Definition findInsertionIndex (i : Z) (st : State) : nat :=
  search (goes_first (queue st) i) (flushIndex st + 1) (length (queue st)).

Definition queueFlush (st : State) : State :=
  if negb (isFlushing st) && negb (isFlushPending st)
  then set_isFlushPending true st
  else st.

Definition queueJob (j : JobId) (st : State) : State :=
  if bool_decide (length (queue st) = 0%nat)
     || negb (includes j
                (if isFlushing st && allowRecurse (jobs j)
                 then flushIndex st + 1 else flushIndex st)%nat
                (queue st))
  then
    let q :=
      match id (jobs j) with
      | None => queue st ++ [j]
      | Some i => splice_in (findInsertionIndex i st) j (queue st)
      end in
    queueFlush (set_queue q st)
  else st.

Definition invalidateJob (j : JobId) (st : State) : State :=
  match indexOf j (queue st) with
  | Some i =>
      if decide (flushIndex st < i)%nat then set_queue (delete i (queue st)) st
      else st
  | None => st
  end.

(** [queuePostFlushCb(cb)] for a single callback. *)
Definition queuePostFlushCb (j : JobId) (st : State) : State :=
  let dup :=
    match activePostFlushCbs st with
    | Some a =>
        includes j (if allowRecurse (jobs j)
                    then postFlushIndex st + 1 else postFlushIndex st)%nat a
    | None => false
    end in
  queueFlush (if dup then st else set_pending (pendingPostFlushCbs st ++ [j]) st).

Definition exec_action (a : Action) (st : State) : State :=
  match a with
  | ActQueueJob j => queueJob j st
  | ActInvalidateJob j => invalidateJob j st
  | ActQueuePostFlushCb j => queuePostFlushCb j st
  end.

(** Calling a job. *)
Definition call_job (j : JobId) (st : State) : State :=
  foldl (λ s a, exec_action a s) (set_executed (executed st ++ [j]) st)
    (body (jobs j)).

(** One turn of the [for] loop of [flushJobs] on [job = queue[flushIndex]]:
    the loop body, then [flushIndex++]; the production build, where the
    recursion check is a no-op. *)
Definition flush_iteration (j : JobId) (st : State) : State :=
  let st1 := if active (jobs j) then call_job j st else st in
  set_flushIndex (flushIndex st1 + 1) st1.

(** The [for] loop of [flushJobs], entered with [flushIndex] set.  [None]
    means the step budget ran out. *)
Fixpoint flush_loop (fuel : nat) (st : State) : option State :=
  match fuel with
  | O => None
  | S fuel' =>
      match queue st !! flushIndex st with
      | Some j => flush_loop fuel' (flush_iteration j st)
      | None => Some st
      end
  end.

(** The [for] loop of [flushPostFlushCbs]. *)
Fixpoint post_loop (fuel : nat) (st : State) : option State :=
  match fuel with
  | O => None
  | S fuel' =>
      match default [] (activePostFlushCbs st) !! postFlushIndex st with
      | Some j =>
          let st1 := call_job j st in
          post_loop fuel' (set_postFlushIndex (postFlushIndex st1 + 1) st1)
      | None => Some st
      end
  end.

Definition flushPostFlushCbs (fuel : nat) (st : State) : option State :=
  match pendingPostFlushCbs st with
  | [] => Some st
  | _ :: _ =>
      let deduped :=
        sort (λ a b, js_sub (getId a) (getId b)) (dedupe [] (pendingPostFlushCbs st)) in
      let st1 := set_pending [] st in
      match activePostFlushCbs st1 with
      | Some a => Some (set_activePost (Some (a ++ deduped)) st1)
      | None =>
          st2 ← post_loop fuel (set_postFlushIndex 0 (set_activePost (Some deduped) st1));
          Some (set_postFlushIndex 0 (set_activePost None st2))
      end
  end.

Fixpoint flushJobs (fuel : nat) (st : State) : option State :=
  match fuel with
  | O => None
  | S fuel' =>
      let st1 :=
        set_queue (sort comparator (queue st))
          (set_isFlushing true (set_isFlushPending false st)) in
      st2 ← flush_loop fuel' (set_flushIndex 0 st1);
      let st3 := set_queue [] (set_flushIndex 0 st2) in
      st4 ← flushPostFlushCbs fuel' st3;
      let st5 := set_isFlushing false st4 in
      if bool_decide (queue st5 ≠ []) || bool_decide (pendingPostFlushCbs st5 ≠ [])
      then flushJobs fuel' st5
      else Some st5
  end.

End scheduler.

(** *** The binary search *)

Lemma search_step (P : nat → bool) (s e : nat) :
  search P s e =
    if decide (s < e)%nat then
      if P ((s + e) / 2)%nat then search P ((s + e) / 2 + 1)%nat e
      else search P s ((s + e) / 2)%nat
    else s.
Proof. rewrite search_equation_1. by destruct (decide (s < e)%nat). Qed.

Lemma search_spec (P : nat → bool) (s e : nat) :
  (s ≤ e)%nat →
  (∀ i j, (s ≤ i)%nat → (i ≤ j)%nat → (j < e)%nat → P j = true → P i = true) →
  (s ≤ search P s e ≤ e)%nat
  ∧ (∀ i, (s ≤ i < search P s e)%nat → P i = true)
  ∧ (∀ i, (search P s e ≤ i < e)%nat → P i = false).
Proof.
  remember (e - s)%nat as n eqn:Hn. revert s e Hn.
  induction n as [n IH] using lt_wf_ind. intros s e Hn Hle Hmono.
  rewrite search_step.
  destruct (decide (s < e)%nat) as [Hlt|Hge].
  2:{ split; [lia|split; intros; lia]. }
  pose proof (mid_bounds s e Hlt) as Hm.
  set (middle := ((s + e) / 2)%nat) in *.
  destruct (P middle) eqn:HP.
  - destruct (IH (e - (middle + 1))%nat ltac:(lia) (middle + 1)%nat e eq_refl)
      as (Hb & Hl & Hr); [lia| |].
    { intros i j ? ? ?. apply Hmono; lia. }
    split; [lia|split; [|done]].
    intros i Hi. destruct (decide (i ≤ middle)%nat).
    + apply (Hmono i middle); [lia..|done].
    + apply Hl. lia.
  - destruct (IH (middle - s)%nat ltac:(lia) s middle eq_refl)
      as (Hb & Hl & Hr); [lia| |].
    { intros i j ? ? ?. apply Hmono; lia. }
    split; [lia|split; [done|]].
    intros i Hi. destruct (decide (i < middle)%nat).
    + apply Hr. lia.
    + destruct (P i) eqn:HPi; [|done].
      rewrite (Hmono middle i) in HP; [done|lia..|done].
Qed.

(** *** The order the comparator induces *)

(** Jobs with a numeric id rank by id, a pre job just before a non-pre job
    of the same id; all jobs without id share the last rank. *)
Definition rank (job : SchedulerJob) : option Z :=
  match id job with
  | Some z => Some (2 * z + (if pre job then 0 else 1))
  | None => None
  end.

Definition rank_lt (a b : option Z) : Prop :=
  match a, b with
  | Some x, Some y => x < y
  | Some _, None => True
  | None, _ => False
  end.

Definition rank_le (a b : option Z) : Prop :=
  match a, b with
  | Some x, Some y => x ≤ y
  | _, None => True
  | None, Some _ => False
  end.

Definition job_le (jobs : JobId → SchedulerJob) (x y : JobId) : Prop :=
  rank_le (rank (jobs x)) (rank (jobs y)).

Lemma sorts_before_rank a b :
  sorts_before comparator a b = true ↔ rank_lt (rank a) (rank b).
Proof.
  unfold sorts_before, comparator, getId, rank, rank_lt.
  destruct (id a) as [x|], (id b) as [y|]; simpl; try done.
  destruct (bool_decide (x - y = 0)) eqn:Hd.
  - apply bool_decide_eq_true_1 in Hd.
    destruct (pre a), (pre b); simpl; rewrite ?bool_decide_eq_true;
      (split; [try done; lia|intros; try done; lia]).
  - apply bool_decide_eq_false_1 in Hd. simpl. rewrite bool_decide_eq_true.
    destruct (pre a), (pre b); lia.
Qed.

Lemma rank_le_not_lt a b : rank_le a b ↔ ¬ rank_lt b a.
Proof. destruct a, b; simpl; try tauto. lia. Qed.

Lemma rank_lt_le a b : rank_lt a b → rank_le a b.
Proof. destruct a, b; simpl; try tauto. lia. Qed.

Lemma rank_le_trans a b c : rank_le a b → rank_le b c → rank_le a c.
Proof. destruct a, b, c; simpl; try tauto. lia. Qed.

Global Instance job_le_trans jobs : Transitive (job_le jobs).
Proof. intros x y z. apply rank_le_trans. Qed.

Lemma sort_insert_elem_of jobs cmp x l y :
  y ∈ sort_insert jobs cmp x l ↔ y = x ∨ y ∈ l.
Proof.
  induction l as [|z l IH]; simpl.
  - rewrite list_elem_of_singleton, elem_of_nil. tauto.
  - destruct (sorts_before cmp (jobs z) (jobs x)).
    + rewrite !elem_of_cons, IH. tauto.
    + rewrite !elem_of_cons. tauto.
Qed.

Lemma sort_insert_sorted jobs x l :
  StronglySorted (job_le jobs) l →
  StronglySorted (job_le jobs) (sort_insert jobs comparator x l).
Proof.
  induction 1 as [|z l Hs IH Hall]; simpl.
  - repeat constructor.
  - destruct (sorts_before comparator (jobs z) (jobs x)) eqn:Hb.
    + apply sorts_before_rank in Hb.
      constructor; [done|].
      apply Forall_forall. intros y [->|Hy]%sort_insert_elem_of.
      * by apply rank_lt_le.
      * by eapply Forall_forall in Hall.
    + assert (Hxz : job_le jobs x z).
      { apply rank_le_not_lt. intros H%sorts_before_rank. congruence. }
      constructor; [by constructor|].
      constructor; [done|].
      eapply Forall_impl; [exact Hall|]. intros y Hy. by etrans.
Qed.

Lemma sort_sorted jobs l : StronglySorted (job_le jobs) (sort jobs comparator l).
Proof.
  induction l as [|x l IH]; simpl; [constructor|]. by apply sort_insert_sorted.
Qed.

Lemma sort_insert_perm jobs cmp x l : sort_insert jobs cmp x l ≡ₚ x :: l.
Proof.
  induction l as [|z l IH]; simpl; [done|].
  destruct (sorts_before cmp (jobs z) (jobs x)); [|done].
  rewrite IH. apply Permutation_swap.
Qed.

Lemma sort_perm jobs cmp l : sort jobs cmp l ≡ₚ l.
Proof.
  induction l as [|x l IH]; simpl; [done|]. by rewrite sort_insert_perm, IH.
Qed.

(** Stability: jobs of one rank keep their queueing order. *)
Lemma sort_insert_stable jobs r x l :
  filter (λ j, rank (jobs j) = r) (sort_insert jobs comparator x l)
  = filter (λ j, rank (jobs j) = r) (x :: l).
Proof.
  induction l as [|z l IH]; simpl; [done|].
  destruct (sorts_before comparator (jobs z) (jobs x)) eqn:Hb; [|done].
  apply sorts_before_rank in Hb.
  rewrite (filter_cons _ z (sort_insert _ _ _ _)), IH.
  rewrite (filter_cons _ x (z :: l)), (filter_cons _ z l), (filter_cons _ x l).
  destruct (decide (rank (jobs z) = r)) as [Hz|Hz];
    destruct (decide (rank (jobs x) = r)) as [Hx|Hx]; try done.
  exfalso. rewrite Hz, Hx in Hb. destruct r; simpl in Hb; lia.
Qed.

Lemma sort_stable jobs r l :
  filter (λ j, rank (jobs j) = r) (sort jobs comparator l)
  = filter (λ j, rank (jobs j) = r) l.
Proof.
  induction l as [|x l IH]; [done|].
  change (sort jobs comparator (x :: l))
    with (sort_insert jobs comparator x (sort jobs comparator l)).
  rewrite sort_insert_stable, !filter_cons, IH. done.
Qed.

Lemma StronglySorted_lookup {A} (R : relation A) (l : list A) a b x y :
  StronglySorted R l → (a < b)%nat → l !! a = Some x → l !! b = Some y → R x y.
Proof.
  intros Hs Hab Ha Hb. rewrite <- (take_drop b l) in Hs.
  eapply StronglySorted_app_1_elem_of; [exact Hs| |].
  - apply elem_of_take. by exists a.
  - apply list_elem_of_lookup. exists 0%nat. rewrite lookup_drop.
    by rewrite Nat.add_0_r.
Qed.

(** *** A flush during which no job touches the scheduler *)

Lemma flush_loop_plain jobs fuel st :
  (∀ j, j ∈ queue st → body (jobs j) = []) →
  (length (queue st) - flushIndex st < fuel)%nat →
  flush_loop jobs fuel st
  = Some (set_flushIndex (flushIndex st `max` length (queue st))
            (set_executed
               (executed st ++ filter (λ j, active (jobs j))
                                 (drop (flushIndex st) (queue st))) st)).
Proof.
  revert st. induction fuel as [|fuel IH]; intros st Hb Hf; [lia|]. simpl.
  destruct (queue st !! flushIndex st) as [j|] eqn:Hj.
  - pose proof (lookup_lt_Some _ _ _ Hj) as Hlt.
    assert (Hbody : body (jobs j) = []).
    { apply Hb. apply list_elem_of_lookup. by eexists. }
    rewrite (drop_S _ _ _ Hj).
    unfold flush_iteration, call_job. rewrite Hbody. simpl.
    destruct (active (jobs j)) eqn:Hact; simpl.
    + rewrite filter_cons_True by (by rewrite Hact).
      rewrite IH; simpl; [|done|lia].
      unfold set_flushIndex, set_executed. simpl.
      rewrite <- app_assoc, Nat.add_1_r. simpl.
      by replace (S (flushIndex st) `max` length (queue st))%nat
        with (flushIndex st `max` length (queue st))%nat by lia.
    + rewrite filter_cons_False by (rewrite Hact; intros []).
      rewrite IH; simpl; [|done|lia].
      unfold set_flushIndex, set_executed. simpl.
      rewrite Nat.add_1_r.
      by replace (S (flushIndex st) `max` length (queue st))%nat
        with (flushIndex st `max` length (queue st))%nat by lia.
  - apply lookup_ge_None_1 in Hj. rewrite drop_ge by done. simpl.
    rewrite app_nil_r. f_equal. destruct st. unfold set_flushIndex, set_executed.
    simpl in *. f_equal. lia.
Qed.

Lemma flushJobs_plain jobs fuel st :
  (∀ j, j ∈ queue st → body (jobs j) = []) →
  pendingPostFlushCbs st = [] →
  (S (length (queue st)) < fuel)%nat →
  ∃ st', flushJobs jobs fuel st = Some st'
         ∧ executed st'
           = executed st ++ filter (λ j, active (jobs j)) (sort jobs comparator (queue st))
         ∧ queue st' = [] ∧ isFlushing st' = false.
Proof.
  intros Hb Hp Hf. destruct fuel as [|fuel]; [lia|]. simpl.
  rewrite flush_loop_plain; simpl.
  - unfold flushPostFlushCbs. simpl. rewrite Hp. simpl. rewrite Hp. simpl.
    eexists. split; [done|]. simpl. by rewrite drop_0.
  - intros j Hj. apply Hb. by rewrite <- (sort_perm jobs comparator).
  - rewrite (sort_perm jobs comparator). lia.
Qed.

(** *** Order among the pending jobs *)

(** From position [n] on, the queue holds its jobs in rank order. *)
Definition ordered_from (jobs : JobId → SchedulerJob) (n : nat)
    (q : list JobId) : Prop :=
  ∀ a b x y, (n ≤ a)%nat → (a < b)%nat →
    q !! a = Some x → q !! b = Some y → job_le jobs x y.

Lemma ordered_from_sorted jobs q :
  StronglySorted (job_le jobs) q → ordered_from jobs 0 q.
Proof. intros Hs a b x y _ Hab. by apply StronglySorted_lookup. Qed.

Lemma ordered_from_weaken jobs n m q :
  (n ≤ m)%nat → ordered_from jobs n q → ordered_from jobs m q.
Proof. intros Hnm H a b x y Ha. apply H. lia. Qed.

Lemma goes_first_rank jobs q i m :
  goes_first jobs q i m = true
  ↔ ∃ x, q !! m = Some x ∧ rank_le (rank (jobs x)) (Some (2 * i)).
Proof.
  unfold goes_first. destruct (q !! m) as [x|]; simpl.
  2:{ split; [done|]. by intros (x & ? & _). }
  assert (js_lt (getId (jobs x)) (Num i)
          || js_eq (getId (jobs x)) (Num i) && pre (jobs x) = true
          ↔ rank_le (rank (jobs x)) (Some (2 * i))) as ->.
  { unfold getId, rank. destruct (id (jobs x)) as [z|]; simpl; [|done].
    rewrite orb_true_iff, andb_true_iff, !bool_decide_eq_true.
    destruct (pre (jobs x)); split; try lia; intros [?|[? ?]]; try done; lia. }
  split; [by exists x|]. by intros (? & [= <-] & ?).
Qed.

Lemma lookup_splice_in k j l a :
  (k ≤ length l)%nat →
  splice_in k j l !! a
  = if decide (a < k)%nat then l !! a
    else if decide (a = k) then Some j else l !! (a - 1)%nat.
Proof.
  intros Hk. unfold splice_in.
  destruct (decide (a < k)%nat) as [Hak|Hak].
  - rewrite lookup_app_l by (rewrite length_take; lia).
    by rewrite lookup_take_lt.
  - rewrite lookup_app_r by (rewrite length_take; lia).
    rewrite length_take, Nat.min_l by done.
    destruct (decide (a = k)) as [->|Hne].
    + by rewrite Nat.sub_diag.
    + destruct (a - k)%nat as [|d] eqn:Hd; [lia|]. simpl.
      rewrite lookup_drop. f_equal. lia.
Qed.

Lemma findInsertionIndex_spec jobs i st :
  (flushIndex st < length (queue st))%nat →
  ordered_from jobs (S (flushIndex st)) (queue st) →
  (flushIndex st < findInsertionIndex jobs i st ≤ length (queue st))%nat
  ∧ (∀ a x, (flushIndex st < a < findInsertionIndex jobs i st)%nat →
       queue st !! a = Some x → rank_le (rank (jobs x)) (Some (2 * i)))
  ∧ (∀ a x, (findInsertionIndex jobs i st ≤ a)%nat →
       queue st !! a = Some x → rank_lt (Some (2 * i)) (rank (jobs x))).
Proof.
  intros Hlt Hord. unfold findInsertionIndex.
  destruct (search_spec (goes_first jobs (queue st) i)
              (flushIndex st + 1) (length (queue st))) as (Hb & Hl & Hr);
    [lia| |].
  { intros a b Ha Hab Hb.
    rewrite !goes_first_rank. intros (y & Hy & Hle).
    destruct (lookup_lt_is_Some_2 (queue st) a) as [x Hx]; [lia|].
    exists x. split; [done|].
    destruct (decide (a = b)) as [->|Hne]; [congruence|].
    eapply rank_le_trans; [|exact Hle].
    apply (Hord a b x y); [lia|lia|done|done]. }
  split; [lia|split].
  - intros a x Ha Hx.
    specialize (Hl a ltac:(lia)). apply goes_first_rank in Hl.
    destruct Hl as (x' & Hx' & Hle). congruence.
  - intros a x Ha Hx.
    pose proof (lookup_lt_Some _ _ _ Hx) as Hlen.
    specialize (Hr a ltac:(lia)).
    destruct (rank (jobs x)) as [r|] eqn:Hrank; simpl; [|done].
    destruct (decide (2 * i < r)) as [|Hge]; [done|].
    assert (goes_first jobs (queue st) i a = true); [|congruence].
    apply goes_first_rank. exists x. split; [done|]. rewrite Hrank. simpl. lia.
Qed.

(** The rank of a job with a numeric id lies just at or above [2 * id]. *)
Lemma rank_of_id job i :
  id job = Some i →
  rank_le (Some (2 * i)) (rank job)
  ∧ ∀ r, rank_lt (Some (2 * i)) r → rank_le (rank job) r.
Proof.
  intros Hi. unfold rank. rewrite Hi. simpl. split.
  - destruct (pre job); lia.
  - intros [r|]; simpl; [|done]. destruct (pre job); lia.
Qed.

Lemma queueJob_queue jobs j st :
  queue (queueJob jobs j st) = queue st
  ∨ queue (queueJob jobs j st)
    = match id (jobs j) with
      | None => queue st ++ [j]
      | Some i => splice_in (findInsertionIndex jobs i st) j (queue st)
      end.
Proof.
  unfold queueJob.
  destruct (_ || _); [|by left]. right.
  unfold queueFlush. by destruct (_ && _).
Qed.

Lemma queueJob_flushIndex jobs j st :
  flushIndex (queueJob jobs j st) = flushIndex st.
Proof.
  unfold queueJob. destruct (_ || _); [|done].
  unfold queueFlush. by destruct (_ && _).
Qed.

Lemma queueJob_keeps_order jobs j st :
  (flushIndex st < length (queue st))%nat →
  ordered_from jobs (S (flushIndex st)) (queue st) →
  (flushIndex st < length (queue (queueJob jobs j st)))%nat
  ∧ ordered_from jobs (S (flushIndex st)) (queue (queueJob jobs j st)).
Proof.
  intros Hlt Hord.
  destruct (queueJob_queue jobs j st) as [->| ->]; [done|].
  destruct (id (jobs j)) as [i|] eqn:Hid.
  - destruct (findInsertionIndex_spec jobs i st Hlt Hord) as (Hk & Hl & Hr).
    destruct (rank_of_id _ _ Hid) as [Hlo Hhi].
    set (k := findInsertionIndex jobs i st) in *.
    split.
    { unfold splice_in. rewrite length_app, length_take. simpl.
      rewrite length_drop. lia. }
    intros a b x y Ha Hab.
    rewrite !lookup_splice_in by lia.
    destruct (decide (a < k)%nat) as [Hak|Hak];
      destruct (decide (b < k)%nat) as [Hbk|Hbk]; try lia.
    + apply Hord; [lia|done].
    + destruct (decide (b = k)) as [->|Hbne].
      * intros Hx [= <-]. eapply rank_le_trans; [|exact Hlo].
        apply (Hl a x); [lia|done].
      * intros Hx Hy. apply (Hord a (b - 1)%nat x y); [lia|lia|done|done].
    + destruct (decide (a = k)) as [->|Hane];
        destruct (decide (b = k)) as [->|Hbne]; try lia.
      * intros [= <-] Hy. apply Hhi. apply (Hr (b - 1)%nat); [lia|done].
      * intros Hx Hy. apply (Hord (a - 1)%nat (b - 1)%nat x y); [lia|lia|done|done].
  - split; [rewrite length_app; simpl; lia|].
    intros a b x y Ha Hab Hx.
    rewrite lookup_snoc_Some. intros [[Hb Hy]| [-> <-]].
    + apply (Hord a b x y); try done.
      rewrite lookup_app_l in Hx; [done|lia].
    + unfold job_le, rank at 2. rewrite Hid. by destruct (rank (jobs x)).
Qed.

(** *** [indexOf] and [invalidateJob] *)

Lemma indexOf_Some j l i :
  indexOf j l = Some i ↔ l !! i = Some j ∧ j ∉ take i l.
Proof.
  revert i. induction l as [|x l IH]; intros i; simpl.
  - split; [done|]. by intros [? _].
  - destruct (decide (x = j)) as [->|Hne].
    + split.
      * intros [= <-]. split; [done|]. simpl. apply not_elem_of_nil.
      * intros [Hi Hn]. destruct i as [|i]; [done|].
        exfalso. apply Hn. simpl. apply list_elem_of_here.
    + destruct i as [|i]; simpl.
      * split; [by destruct (indexOf j l)|]. intros [[= ?] _]. done.
      * rewrite not_elem_of_cons. specialize (IH i).
        destruct (indexOf j l) as [k|]; simpl.
        -- split.
           ++ intros [= ->]. destruct IH as [IH _].
              destruct (IH eq_refl). split; [done|]. split; congruence.
           ++ intros (Hl & _ & Ht). destruct IH as [_ IH].
              specialize (IH (conj Hl Ht)). congruence.
        -- split; [done|]. intros (Hl & _ & Ht). destruct IH as [_ IH].
           by specialize (IH (conj Hl Ht)).
Qed.

Lemma indexOf_None j l : indexOf j l = None ↔ j ∉ l.
Proof.
  induction l as [|x l IH]; simpl.
  - split; [intros _; apply not_elem_of_nil|done].
  - rewrite not_elem_of_cons. destruct (decide (x = j)) as [->|Hne].
    + split; [done|]. by intros [? _].
    + rewrite <- IH. destruct (indexOf j l); simpl; split; try done.
      by intros [_ ?].
Qed.

Lemma invalidateJob_flushIndex j st :
  flushIndex (invalidateJob j st) = flushIndex st.
Proof.
  unfold invalidateJob. destruct (indexOf j (queue st)); [|done].
  by destruct (decide _).
Qed.

Lemma invalidateJob_keeps_order jobs j st :
  (flushIndex st < length (queue st))%nat →
  ordered_from jobs (S (flushIndex st)) (queue st) →
  (flushIndex st < length (queue (invalidateJob j st)))%nat
  ∧ ordered_from jobs (S (flushIndex st)) (queue (invalidateJob j st)).
Proof.
  intros Hlt Hord. unfold invalidateJob.
  destruct (indexOf j (queue st)) as [i|] eqn:Hi; [|done].
  destruct (decide (flushIndex st < i)%nat) as [Hfi|]; [|done]. simpl.
  apply indexOf_Some in Hi as [Hi _].
  pose proof (lookup_lt_Some _ _ _ Hi) as Hlen.
  split; [rewrite length_delete by (by eexists); lia|].
  intros a b x y Ha Hab. rewrite !list_lookup_delete.
  destruct (decide (a < i)%nat), (decide (b < i)%nat); try lia;
    intros Hx Hy; (eapply Hord; [| |exact Hx|exact Hy]; lia).
Qed.

Lemma take_splice_in n k j l :
  (n ≤ k)%nat → (k ≤ length l)%nat → take n (splice_in k j l) = take n l.
Proof.
  intros Hn Hk. unfold splice_in.
  rewrite take_app_le by (rewrite length_take; lia).
  rewrite take_take. f_equal. lia.
Qed.

Lemma take_delete_after {A} n i (l : list A) :
  (n ≤ i)%nat → take n (delete i l) = take n l.
Proof.
  intros Hn. destruct (decide (i < length l)%nat) as [Hi|Hi].
  - rewrite delete_take_drop.
    rewrite take_app_le by (rewrite length_take; lia).
    rewrite take_take. f_equal. lia.
  - f_equal. apply list_eq. intros a. rewrite list_lookup_delete.
    destruct (decide (a < i)%nat); [done|].
    rewrite !lookup_ge_None_2; [done|lia..].
Qed.

(** A job called during a flush touches neither [flushIndex] nor the part
    of the queue up to the running job, and leaves the jobs behind it in
    rank order. *)
Record body_inv (jobs : JobId → SchedulerJob) (st0 st : State) : Prop := {
  bi_index : flushIndex st = flushIndex st0;
  bi_done : take (S (flushIndex st0)) (queue st) = take (S (flushIndex st0)) (queue st0);
  bi_length : (flushIndex st0 < length (queue st))%nat;
  bi_order : ordered_from jobs (S (flushIndex st0)) (queue st);
}.

Lemma body_inv_exec_action jobs st0 st a :
  body_inv jobs st0 st → body_inv jobs st0 (exec_action jobs a st).
Proof.
  intros [Hi Hd Hl Ho]. destruct a as [j|j|j]; simpl.
  - rewrite <- Hi in Hl, Ho.
    destruct (queueJob_keeps_order jobs j st Hl Ho) as [Hl' Ho'].
    split; rewrite ?queueJob_flushIndex; rewrite <- ?Hi; try done.
    rewrite <- Hi in Hd. rewrite <- Hd.
    destruct (queueJob_queue jobs j st) as [->| ->]; [done|].
    destruct (id (jobs j)) as [i|].
    + destruct (findInsertionIndex_spec jobs i st Hl Ho) as (Hk & _ & _).
      apply take_splice_in; lia.
    + apply take_app_le. lia.
  - rewrite <- Hi in Hl, Ho.
    destruct (invalidateJob_keeps_order jobs j st Hl Ho) as [Hl' Ho'].
    split; rewrite ?invalidateJob_flushIndex; rewrite <- ?Hi; try done.
    rewrite <- Hi in Hd. rewrite <- Hd.
    unfold invalidateJob. destruct (indexOf j (queue st)) as [i|]; [|done].
    destruct (decide (flushIndex st < i)%nat); [|done]. simpl.
    apply take_delete_after. lia.
  - assert (Hq : queue (queuePostFlushCb jobs j st) = queue st
                 ∧ flushIndex (queuePostFlushCb jobs j st) = flushIndex st).
    { unfold queuePostFlushCb, queueFlush.
      destruct (match activePostFlushCbs st with Some _ => _ | None => _ end);
        destruct (_ && _); done. }
    destruct Hq as [Hq Hf]. split; rewrite ?Hq, ?Hf; done.
Qed.

Lemma body_inv_call_job jobs st j :
  queue st !! flushIndex st = Some j →
  ordered_from jobs (flushIndex st) (queue st) →
  body_inv jobs st (call_job jobs j st).
Proof.
  intros Hj Hord. unfold call_job.
  assert (H0 : body_inv jobs st (set_executed (executed st ++ [j]) st)).
  { split; simpl; try done.
    - by apply lookup_lt_Some in Hj.
    - eapply ordered_from_weaken; [|exact Hord]. lia. }
  revert H0. generalize (set_executed (executed st ++ [j]) st).
  induction (body (jobs j)) as [|a l IH]; intros s Hs; simpl; [done|].
  apply IH. by apply body_inv_exec_action.
Qed.

Lemma flush_iteration_order jobs st j :
  queue st !! flushIndex st = Some j →
  ordered_from jobs (flushIndex st) (queue st) →
  flushIndex (flush_iteration jobs j st) = S (flushIndex st)
  ∧ take (S (flushIndex st)) (queue (flush_iteration jobs j st))
    = take (S (flushIndex st)) (queue st)
  ∧ ordered_from jobs (flushIndex (flush_iteration jobs j st))
      (queue (flush_iteration jobs j st)).
Proof.
  intros Hj Hord. unfold flush_iteration.
  destruct (active (jobs j)); simpl.
  - destruct (body_inv_call_job jobs st j Hj Hord) as [Hi Hd Hl Ho].
    rewrite Hi, Nat.add_1_r. done.
  - rewrite Nat.add_1_r. split; [done|split; [done|]].
    eapply ordered_from_weaken; [|exact Hord]. lia.
Qed.

(** The states at the head of the loop of one flush. *)
Inductive loop_head (jobs : JobId → SchedulerJob) (st0 : State) : State → Prop :=
  | head_first : loop_head jobs st0 st0
  | head_next st j :
      loop_head jobs st0 st →
      queue st !! flushIndex st = Some j →
      loop_head jobs st0 (flush_iteration jobs j st).

(** The state in which [flushJobs] enters its loop. *)
Definition flush_start (jobs : JobId → SchedulerJob) (st : State) : State :=
  set_flushIndex 0
    (set_queue (sort jobs comparator (queue st))
       (set_isFlushing true (set_isFlushPending false st))).

Lemma loop_head_ordered jobs st st' :
  loop_head jobs (flush_start jobs st) st' →
  ordered_from jobs (flushIndex st') (queue st').
Proof.
  induction 1 as [|s j Hh IH Hj].
  - simpl. apply ordered_from_sorted, sort_sorted.
  - by apply flush_iteration_order.
Qed.

Lemma flush_loop_heads jobs fuel st0 st st' :
  loop_head jobs st0 st → flush_loop jobs fuel st = Some st' →
  loop_head jobs st0 st' ∧ queue st' !! flushIndex st' = None.
Proof.
  revert st. induction fuel as [|fuel IH]; intros st Hh; simpl; [done|].
  destruct (queue st !! flushIndex st) as [j|] eqn:Hj.
  - apply IH. by econstructor.
  - by intros [= <-].
Qed.

(** *** Execution order within a flush *)

(** The reading of the ordering claim on the embedding: the jobs one flush
    executes, taken in execution order, are in rank order. *)
Definition flush_order_claim_as_stated : Prop :=
  ∀ jobs fuel st st',
    executed st = [] →
    flush_loop jobs fuel (flush_start jobs st) = Some st' →
    StronglySorted (job_le jobs) (executed st').

(** A parent component's update job (id 1), and the update job of its child
    (id 2), which queues the parent's job when it runs. *)
Definition parent_update : SchedulerJob := mkJob (Some 1) false true false [].
Definition child_update : SchedulerJob :=
  mkJob (Some 2) false true false [ActQueueJob 0%nat].
Definition family (j : JobId) : SchedulerJob :=
  match j with
  | O => parent_update
  | _ => child_update
  end.

(** With only the child's job queued, the flush runs the child's job, which
    queues the parent's: the parent's job (id 1) runs after the child's
    (id 2). *)
Lemma flush_order_claim_fails_on_insertion_during_flush :
  ¬ flush_order_claim_as_stated.
Proof.
  intros H.
  specialize (H family 3%nat (set_queue [1%nat] initial) _ eq_refl eq_refl).
  vm_compute in H.
  apply StronglySorted_inv in H as [_ H].
  apply Forall_inv in H. vm_compute in H. by apply H.
Qed.

(** Three jobs that leave the scheduler alone, queued in decreasing id
    order. *)
Definition plain_jobs (j : JobId) : SchedulerJob :=
  mkJob (Some (3 - Z.of_nat j)) false true false [].

(** C6 (amended). [flushJobs] sorts the queue by rank (numeric id first, a
    pre job before a non-pre job of the same id, all jobs without id last
    whatever their pre flag), stably and without losing a job.  A flush
    whose jobs leave the scheduler alone returns, having executed exactly
    the active jobs of the sorted queue in that order.  In any flush, the
    loop runs from the sorted queue, and at every turn the job picked and
    the jobs waiting behind it are in rank order, while a turn leaves the
    queue up to and including the job it ran as it was: a job queued during
    the flush is placed among the waiting jobs, after the running one, so it
    runs after the jobs already executed even when its id is smaller. *)
Theorem flush_runs_waiting_jobs_in_rank_order
    (jobs : JobId → SchedulerJob) (st : State) :
  (StronglySorted (job_le jobs) (sort jobs comparator (queue st))
   ∧ sort jobs comparator (queue st) ≡ₚ queue st
   ∧ ∀ r, filter (λ j, rank (jobs j) = r) (sort jobs comparator (queue st))
          = filter (λ j, rank (jobs j) = r) (queue st))
  ∧ (∀ fuel,
       (∀ j, j ∈ queue st → body (jobs j) = []) →
       pendingPostFlushCbs st = [] →
       (S (length (queue st)) < fuel)%nat →
       ∃ st', flushJobs jobs fuel st = Some st'
              ∧ executed st'
                = executed st ++ filter (λ j, active (jobs j))
                                   (sort jobs comparator (queue st)))
  ∧ (∀ fuel st', flush_loop jobs fuel (flush_start jobs st) = Some st' →
       loop_head jobs (flush_start jobs st) st')
  ∧ (∀ st', loop_head jobs (flush_start jobs st) st' →
       ordered_from jobs (flushIndex st') (queue st')
       ∧ ∀ j, queue st' !! flushIndex st' = Some j →
           flushIndex (flush_iteration jobs j st') = S (flushIndex st')
           ∧ take (S (flushIndex st')) (queue (flush_iteration jobs j st'))
             = take (S (flushIndex st')) (queue st')).
Proof.
  split; [|split; [|split]].
  - split; [apply sort_sorted|split; [apply sort_perm|]].
    intros r. apply sort_stable.
  - intros fuel Hb Hp Hf.
    destruct (flushJobs_plain jobs fuel st Hb Hp Hf) as (st' & H1 & H2 & _).
    by exists st'.
  - intros fuel st' H.
    by destruct (flush_loop_heads jobs fuel _ _ _ (head_first _ _) H).
  - intros st' Hh. pose proof (loop_head_ordered _ _ _ Hh) as Ho.
    split; [done|]. intros j Hj.
    by destruct (flush_iteration_order jobs st' j Hj Ho) as (? & ? & _).
Qed.

Lemma flush_runs_waiting_jobs_in_rank_order_witness :
  (∃ st', flushJobs plain_jobs 5 (set_queue [0; 1; 2]%nat initial) = Some st'
          ∧ executed st' = [2; 1; 0]%nat)
  ∧ ordered_from family 1 [1; 0]%nat.
Proof.
  split.
  - destruct (flush_runs_waiting_jobs_in_rank_order plain_jobs
                (set_queue [0; 1; 2]%nat initial)) as (_ & H & _).
    apply (H 5%nat); [intros j _; reflexivity|reflexivity|simpl; lia].
  - destruct (flush_runs_waiting_jobs_in_rank_order family
                (set_queue [1%nat] initial)) as (_ & _ & _ & H).
    destruct (H (flush_iteration family 1%nat
                   (flush_start family (set_queue [1%nat] initial)))) as [Ho _].
    + apply head_next; [apply head_first|reflexivity].
    + vm_compute in Ho. exact Ho.
Defined.

(** *** Invalidation *)

(** The reading of the invalidation claim: a job that is in the queue and
    has not been executed is out of the queue after [invalidateJob], and the
    next flush does not run it. *)
Definition invalidate_claim_as_stated (jobs : JobId → SchedulerJob)
    (j : JobId) (st : State) : Prop :=
  j ∈ queue st → j ∉ executed st →
  (j ∉ queue (invalidateJob j st))
  ∧ ∀ fuel st', flushJobs jobs fuel (invalidateJob j st) = Some st' →
      j ∉ executed st'.

(** Before any flush [flushIndex] is 0, and the job queued first sits at
    index 0: [i > flushIndex] fails, the job stays and the flush runs it. *)
Lemma invalidate_claim_fails_on_first_queued_job :
  ¬ invalidate_claim_as_stated plain_jobs 0%nat (queueJob plain_jobs 0%nat initial).
Proof.
  intros H. destruct H as [H _].
  - vm_compute. apply list_elem_of_here.
  - vm_compute. apply not_elem_of_nil.
  - apply H. vm_compute. apply list_elem_of_here.
Qed.

Lemma elem_of_drop_inv {A} (x : A) n l : x ∈ drop n l → x ∈ l.
Proof.
  intros [i Hi]%list_elem_of_lookup. rewrite lookup_drop in Hi.
  apply list_elem_of_lookup. by eexists.
Qed.

Lemma invalidateJob_removed j st i :
  indexOf j (queue st) = Some i → (flushIndex st < i)%nat →
  j ∉ drop (S i) (queue st) →
  invalidateJob j st = set_queue (delete i (queue st)) st
  ∧ j ∉ delete i (queue st).
Proof.
  intros Hi Hlt Hn. unfold invalidateJob. rewrite Hi.
  rewrite decide_True by done. split; [done|].
  apply indexOf_Some in Hi as [Hi Ht].
  rewrite delete_take_drop, elem_of_app. tauto.
Qed.

(** C9 (amended). [invalidateJob(j)] looks at the first occurrence of [j] in
    the queue.  When it lies behind [flushIndex], that entry is spliced out
    and nothing else changes; if [j] occurs only there, [j] is then not in
    the queue, and neither the running flush nor the next one executes it
    (jobs that leave the scheduler alone).  When the first occurrence lies at
    or before [flushIndex] -- the job being run, a job already run in this
    flush, or the job at index 0 while no flush is running -- or [j] is not
    queued, the state is unchanged. *)
Theorem invalidateJob_removes_behind_flushIndex
    (jobs : JobId → SchedulerJob) (j : JobId) (st : State) :
  (∀ i, indexOf j (queue st) = Some i → (flushIndex st < i)%nat →
     invalidateJob j st = set_queue (delete i (queue st)) st
     ∧ (j ∉ drop (S i) (queue st) →
        (j ∉ queue (invalidateJob j st))
        ∧ ∀ fuel,
            (∀ x, x ∈ queue st → body (jobs x) = []) →
            pendingPostFlushCbs st = [] →
            (S (length (queue st)) < fuel)%nat →
            (∃ st' l, flush_loop jobs fuel (invalidateJob j st) = Some st'
                      ∧ executed st' = executed st ++ l ∧ j ∉ l)
            ∧ (∃ st' l, flushJobs jobs fuel (invalidateJob j st) = Some st'
                        ∧ executed st' = executed st ++ l ∧ j ∉ l)))
  ∧ (∀ i, indexOf j (queue st) = Some i → (i ≤ flushIndex st)%nat →
       invalidateJob j st = st)
  ∧ (j ∉ queue st → invalidateJob j st = st).
Proof.
  split; [|split].
  - intros i Hi Hlt. split.
    { unfold invalidateJob. rewrite Hi. by rewrite decide_True. }
    intros Hn. destruct (invalidateJob_removed j st i Hi Hlt Hn) as [-> Hd].
    split; [done|]. intros fuel Hb Hp Hf.
    assert (Hsub : ∀ x, x ∈ delete i (queue st) → x ∈ queue st).
    { intros x. apply list_elem_of_delete_inv. }
    assert (Hlen : (length (delete i (queue st)) ≤ length (queue st))%nat).
    { apply sublist_length, sublist_delete. }
    split.
    + rewrite flush_loop_plain; simpl; [|by auto|lia].
      eexists _, _. split; [done|]. simpl. split; [done|].
      intros [_ Hin%elem_of_drop_inv]%list_elem_of_filter. done.
    + destruct (flushJobs_plain jobs fuel (set_queue (delete i (queue st)) st))
        as (st' & H1 & H2 & _); simpl; [by auto|done|lia|].
      exists st', (filter (λ x, active (jobs x))
                     (sort jobs comparator (delete i (queue st)))).
      split; [done|]. split; [done|].
      intros [_ Hin]%list_elem_of_filter.
      by rewrite (sort_perm jobs comparator) in Hin.
  - intros i Hi Hle. unfold invalidateJob. rewrite Hi.
    rewrite decide_False by lia. done.
  - intros Hn. apply indexOf_None in Hn. unfold invalidateJob. by rewrite Hn.
Qed.

Lemma invalidateJob_removes_behind_flushIndex_witness :
  invalidateJob 2%nat (set_queue [0; 1; 2]%nat initial)
  = set_queue [0; 1]%nat initial
  ∧ invalidateJob 0%nat (set_queue [0; 1; 2]%nat initial)
    = set_queue [0; 1; 2]%nat initial.
Proof.
  destruct (invalidateJob_removes_behind_flushIndex plain_jobs 2%nat
              (set_queue [0; 1; 2]%nat initial)) as (H1 & _).
  destruct (invalidateJob_removes_behind_flushIndex plain_jobs 0%nat
              (set_queue [0; 1; 2]%nat initial)) as (_ & H2 & _).
  split.
  - destruct (H1 2%nat eq_refl) as [H _]; [simpl; lia|exact H].
  - apply (H2 0%nat eq_refl). simpl. lia.
Defined.

(** ** Further properties of the scheduler *)

(** The binary search stays inside the interval it is given, whatever the
    test. *)
Lemma search_bounds (P : nat → bool) (s e : nat) :
  (s ≤ e)%nat → (s ≤ search P s e ≤ e)%nat.
Proof.
  remember (e - s)%nat as n eqn:Hn. revert s e Hn.
  induction n as [n IH] using lt_wf_ind. intros s e Hn Hle.
  rewrite search_step.
  destruct (decide (s < e)%nat) as [Hlt|Hge]; [|lia].
  pose proof (mid_bounds s e Hlt) as Hm.
  destruct (P ((s + e) / 2)%nat).
  - destruct (IH (e - ((s + e) / 2 + 1))%nat ltac:(lia) ((s + e) / 2 + 1)%nat e eq_refl);
      lia.
  - destruct (IH ((s + e) / 2 - s)%nat ltac:(lia) s ((s + e) / 2)%nat eq_refl); lia.
Qed.

Lemma search_empty (P : nat → bool) (s e : nat) : (e ≤ s)%nat → search P s e = s.
Proof. intros H. rewrite search_step. by rewrite decide_False by lia. Qed.

Lemma findInsertionIndex_bounds jobs i st :
  (flushIndex st < length (queue st))%nat →
  (flushIndex st < findInsertionIndex jobs i st ≤ length (queue st))%nat.
Proof.
  intros H. unfold findInsertionIndex.
  pose proof (search_bounds (goes_first jobs (queue st) i)
                (flushIndex st + 1) (length (queue st))). lia.
Qed.

(** Where [queueJob] puts a job it does queue. *)
Definition queued_at (jobs : JobId → SchedulerJob) (j : JobId) (st : State) : nat :=
  match id (jobs j) with
  | None => length (queue st)
  | Some i => findInsertionIndex jobs i st `min` length (queue st)
  end.

Lemma splice_in_past_end k j l : (length l ≤ k)%nat → splice_in k j l = l ++ [j].
Proof.
  intros H. unfold splice_in. by rewrite take_ge, drop_ge by lia.
Qed.

Lemma queueJob_inserted_queue jobs j st :
  match id (jobs j) with
  | None => queue st ++ [j]
  | Some i => splice_in (findInsertionIndex jobs i st) j (queue st)
  end = splice_in (queued_at jobs j st) j (queue st).
Proof.
  unfold queued_at. destruct (id (jobs j)) as [i|].
  - destruct (decide (findInsertionIndex jobs i st ≤ length (queue st))%nat).
    + by rewrite Nat.min_l.
    + rewrite Nat.min_r by lia. by rewrite !splice_in_past_end by lia.
  - by rewrite splice_in_past_end.
Qed.

Lemma queued_at_bounds jobs j st :
  (flushIndex st < length (queue st))%nat →
  (flushIndex st < queued_at jobs j st ≤ length (queue st))%nat.
Proof.
  intros H. unfold queued_at. destruct (id (jobs j)) as [i|]; [|lia].
  pose proof (findInsertionIndex_bounds jobs i st H). lia.
Qed.

(** The two outcomes of [queueJob]. *)
Lemma queueJob_cases jobs j st :
  let from := (if isFlushing st && allowRecurse (jobs j)
               then flushIndex st + 1 else flushIndex st)%nat in
  (queue st ≠ [] ∧ j ∈ drop from (queue st) ∧ queueJob jobs j st = st)
  ∨ ((queue st = [] ∨ j ∉ drop from (queue st))
     ∧ queueJob jobs j st
       = queueFlush (set_queue (splice_in (queued_at jobs j st) j (queue st)) st)).
Proof.
  intros from. unfold queueJob. fold from.
  destruct (bool_decide (length (queue st) = 0%nat)) eqn:Hl; simpl.
  - apply bool_decide_eq_true_1 in Hl. right.
    split; [left; by destruct (queue st)|].
    by rewrite queueJob_inserted_queue.
  - apply bool_decide_eq_false_1 in Hl.
    unfold includes. destruct (bool_decide (j ∈ drop from (queue st))) eqn:Hi; simpl.
    + apply bool_decide_eq_true_1 in Hi. left.
      split; [by destruct (queue st)|done].
    + apply bool_decide_eq_false_1 in Hi. right. split; [by right|].
      by rewrite queueJob_inserted_queue.
Qed.

Lemma queueFlush_fields st :
  queue (queueFlush st) = queue st
  ∧ flushIndex (queueFlush st) = flushIndex st
  ∧ isFlushing (queueFlush st) = isFlushing st
  ∧ pendingPostFlushCbs (queueFlush st) = pendingPostFlushCbs st
  ∧ activePostFlushCbs (queueFlush st) = activePostFlushCbs st
  ∧ postFlushIndex (queueFlush st) = postFlushIndex st
  ∧ executed (queueFlush st) = executed st
  ∧ (isFlushing st = true → isFlushPending (queueFlush st) = isFlushPending st)
  ∧ queueFlush (queueFlush st) = queueFlush st.
Proof.
  unfold queueFlush.
  destruct (isFlushing st) eqn:H1, (isFlushPending st) eqn:H2; simpl;
    rewrite ?H1, ?H2; simpl; split_and!; done.
Qed.

Lemma lookup_splice_in_at k j l :
  (k ≤ length l)%nat → splice_in k j l !! k = Some j.
Proof.
  intros H. rewrite lookup_splice_in by done.
  rewrite decide_False by lia. by rewrite decide_True.
Qed.

Lemma elem_of_drop_lookup {A} (x : A) n l i :
  l !! i = Some x → (n ≤ i)%nat → x ∈ drop n l.
Proof.
  intros Hi Hn. apply list_elem_of_lookup. exists (i - n)%nat.
  rewrite lookup_drop. by replace (n + (i - n))%nat with i by lia.
Qed.

(** X1. Queueing a job that is already waiting changes nothing: a second
    [queueJob(j)] right after the first leaves the scheduler as the first
    left it.  The precondition is the one the module keeps: a job is being
    run ([flushIndex] points into the queue), or the queue is searched from
    its start. *)
Theorem queueJob_is_idempotent (jobs : JobId → SchedulerJob) (j : JobId) (st : State) :
  (flushIndex st < length (queue st))%nat
  ∨ (flushIndex st = 0%nat ∧ isFlushing st && allowRecurse (jobs j) = false) →
  queueJob jobs j (queueJob jobs j st) = queueJob jobs j st.
Proof.
  intros Hpre.
  destruct (queueJob_cases jobs j st) as [(_ & _ & H)|(Hnot & Heq)];
    [by rewrite !H|].
  rewrite Heq.
  set (q' := splice_in (queued_at jobs j st) j (queue st)).
  destruct (queueFlush_fields (set_queue q' st))
    as (Hq & Hfi & Hfl & _ & _ & _ & _ & _ & _).
  simpl in Hq, Hfi, Hfl.
  destruct (queueJob_cases jobs j (queueFlush (set_queue q' st)))
    as [(_ & _ & H)|([Hempty|Hnotin] & _)]; [done| |].
  - rewrite Hq in Hempty. unfold q', splice_in in Hempty.
    by destruct (take _ _).
  - exfalso. apply Hnotin. rewrite Hq, Hfi, Hfl.
    assert (Hk : (queued_at jobs j st ≤ length (queue st))%nat).
    { unfold queued_at. destruct (id (jobs j)); lia. }
    apply (elem_of_drop_lookup _ _ _ (queued_at jobs j st)).
    { by apply lookup_splice_in_at. }
    destruct Hpre as [Hlt|[H0 Hb]].
    + pose proof (queued_at_bounds jobs j st Hlt).
      destruct (isFlushing st && allowRecurse (jobs j)); lia.
    + rewrite Hb, H0. lia.
Qed.

Lemma queueJob_is_idempotent_witness :
  queueJob plain_jobs 1%nat (queueJob plain_jobs 1%nat (set_queue [0%nat] initial))
  = queueJob plain_jobs 1%nat (set_queue [0%nat] initial).
Proof.
  apply queueJob_is_idempotent. left. simpl. lia.
Defined.

Lemma drop_splice_in n k j l :
  (n ≤ k)%nat → (k ≤ length l)%nat →
  drop n (splice_in k j l) = splice_in (k - n) j (drop n l).
Proof.
  intros Hn Hk. unfold splice_in.
  rewrite drop_app_le by (rewrite length_take; lia).
  f_equal.
  - apply list_eq. intros a. rewrite lookup_drop.
    destruct (decide (a < k - n)%nat).
    + rewrite !lookup_take_lt by lia. by rewrite lookup_drop.
    + rewrite !lookup_take_ge by lia. done.
  - f_equal. rewrite drop_drop. f_equal. lia.
Qed.

Lemma drop_delete_after {A} n i (l : list A) :
  (n ≤ i)%nat → drop n (delete i l) = delete (i - n)%nat (drop n l).
Proof.
  intros Hn. apply list_eq. intros a.
  rewrite lookup_drop, !list_lookup_delete, lookup_drop.
  destruct (decide (n + a < i)%nat), (decide (a < i - n)%nat); try lia; f_equal; lia.
Qed.

Lemma NoDup_splice_in k j l : j ∉ l → NoDup l → NoDup (splice_in k j l).
Proof.
  intros Hj Hl. unfold splice_in. rewrite <- (take_drop k l) in Hl, Hj.
  apply NoDup_app in Hl as (H1 & H2 & H3).
  rewrite not_elem_of_app in Hj. destruct Hj as [Hj1 Hj2].
  apply NoDup_app. split; [done|]. split.
  - intros x Hx [->|Hx']%elem_of_cons; [done|]. by apply (H2 x).
  - by apply NoDup_cons.
Qed.

(** While a job is being run, the actions it can take keep [flushIndex],
    keep it pointing into the queue, and never make a job wait twice behind
    it. *)
Record pending_inv (st0 st : State) : Prop := {
  pi_index : flushIndex st = flushIndex st0;
  pi_length : (flushIndex st0 < length (queue st))%nat;
  pi_nodup : NoDup (drop (S (flushIndex st0)) (queue st));
}.

Lemma pending_inv_exec_action jobs st0 st a :
  pending_inv st0 st → pending_inv st0 (exec_action jobs a st).
Proof.
  intros [Hi Hl Hn]. destruct a as [j|j|j]; simpl.
  - destruct (queueJob_cases jobs j st) as [(_ & _ & ->)|(Hnot & ->)]; [done|].
    destruct (queueFlush_fields
                (set_queue (splice_in (queued_at jobs j st) j (queue st)) st))
      as (Hq & Hfi & _). simpl in Hq, Hfi.
    rewrite <- Hi in Hl, Hn.
    pose proof (queued_at_bounds jobs j st Hl) as Hk.
    split; rewrite ?Hq, ?Hfi, <- ?Hi; [done| |].
    + unfold splice_in. rewrite length_app, length_take. simpl.
      rewrite length_drop. lia.
    + rewrite drop_splice_in by lia. apply NoDup_splice_in; [|done].
      destruct Hnot as [Hempty|Hnot]; [rewrite Hempty in Hl; simpl in Hl; lia|].
      intros Hin. apply Hnot.
      destruct (isFlushing st && allowRecurse (jobs j)).
      * by rewrite Nat.add_1_r.
      * apply list_elem_of_lookup in Hin as [i Hin]. rewrite lookup_drop in Hin.
        eapply elem_of_drop_lookup; [exact Hin|lia].
  - unfold invalidateJob. destruct (indexOf j (queue st)) as [i|] eqn:Hidx; [|done].
    destruct (decide (flushIndex st < i)%nat) as [Hlt|]; [|done].
    apply indexOf_Some in Hidx as [Hidx _].
    pose proof (lookup_lt_Some _ _ _ Hidx).
    rewrite <- Hi in Hl, Hn.
    split; simpl; rewrite <- ?Hi; [done| |].
    + rewrite length_delete by (by eexists). lia.
    + rewrite drop_delete_after by lia.
      eapply sublist_NoDup; [exact Hn|apply sublist_delete].
  - assert (Hq : queue (queuePostFlushCb jobs j st) = queue st
                 ∧ flushIndex (queuePostFlushCb jobs j st) = flushIndex st).
    { unfold queuePostFlushCb.
      destruct (match activePostFlushCbs st with Some _ => _ | None => _ end);
        destruct (queueFlush_fields st) as (? & ? & _);
        destruct (queueFlush_fields (set_pending (pendingPostFlushCbs st ++ [j]) st))
          as (? & ? & _); done. }
    destruct Hq as [Hq Hf]. split; rewrite ?Hq, ?Hf; done.
Qed.

Lemma pending_inv_call_job jobs st j :
  queue st !! flushIndex st = Some j →
  NoDup (drop (flushIndex st) (queue st)) →
  pending_inv st (call_job jobs j st).
Proof.
  intros Hj Hn. unfold call_job.
  assert (H0 : pending_inv st (set_executed (executed st ++ [j]) st)).
  { split; simpl; [done|by apply lookup_lt_Some in Hj|].
    rewrite (drop_S _ _ _ Hj) in Hn. by apply NoDup_cons in Hn as [_ ?]. }
  revert H0. generalize (set_executed (executed st ++ [j]) st).
  induction (body (jobs j)) as [|a l IH]; intros s Hs; simpl; [done|].
  apply IH. by apply pending_inv_exec_action.
Qed.

Lemma flush_iteration_nodup jobs st j :
  queue st !! flushIndex st = Some j →
  NoDup (drop (flushIndex st) (queue st)) →
  NoDup (drop (flushIndex (flush_iteration jobs j st))
           (queue (flush_iteration jobs j st))).
Proof.
  intros Hj Hn. unfold flush_iteration.
  destruct (active (jobs j)); simpl.
  - destruct (pending_inv_call_job jobs st j Hj Hn) as [Hi Hl Hd].
    by rewrite Hi, Nat.add_1_r.
  - rewrite Nat.add_1_r. rewrite (drop_S _ _ _ Hj) in Hn.
    by apply NoDup_cons in Hn as [_ ?].
Qed.

(** X2. No job waits twice.  Outside a flush, [queueJob] keeps the queue
    free of duplicates; in a flush of such a queue, at every turn of the
    loop the jobs from [flushIndex] on are pairwise distinct, whatever the
    jobs queue or invalidate when they run. *)
Theorem no_job_waits_twice (jobs : JobId → SchedulerJob) (st : State) :
  NoDup (queue st) →
  (∀ j, isFlushing st = false → flushIndex st = 0%nat →
     NoDup (queue (queueJob jobs j st)))
  ∧ (∀ st', loop_head jobs (flush_start jobs st) st' →
       NoDup (drop (flushIndex st') (queue st'))).
Proof.
  intros Hn. split.
  - intros j Hf H0.
    destruct (queueJob_cases jobs j st) as [(_ & _ & ->)|(Hnot & ->)]; [done|].
    destruct (queueFlush_fields
                (set_queue (splice_in (queued_at jobs j st) j (queue st)) st))
      as (-> & _). simpl.
    apply NoDup_splice_in; [|done].
    destruct Hnot as [->|Hnot]; [apply not_elem_of_nil|].
    by rewrite Hf, H0 in Hnot.
  - induction 1 as [|s j Hh IH Hj].
    + simpl. by rewrite (sort_perm jobs comparator).
    + by apply flush_iteration_nodup.
Qed.

Lemma no_job_waits_twice_witness :
  NoDup (drop 1 [1; 0]%nat).
Proof.
  destruct (no_job_waits_twice family (set_queue [1%nat] initial)) as [_ H].
  { simpl. apply NoDup_singleton. }
  assert (Hh : loop_head family (flush_start family (set_queue [1%nat] initial))
                 (flush_iteration family 1%nat
                    (flush_start family (set_queue [1%nat] initial)))).
  { apply head_next; [apply head_first|reflexivity]. }
  apply H in Hh. vm_compute in Hh. exact Hh.
Defined.

(** X3. Queueing a job and invalidating it again gives back the queue:
    when a job is being run, or the queue is not empty (so that the new job
    lands behind [flushIndex]), and [j] is not in the queue,
    [invalidateJob(j)] after [queueJob(j)] restores the queue. *)
Theorem invalidateJob_undoes_queueJob (jobs : JobId → SchedulerJob)
    (j : JobId) (st : State) :
  (flushIndex st < length (queue st))%nat →
  j ∉ queue st →
  queue (invalidateJob j (queueJob jobs j st)) = queue st.
Proof.
  intros Hlt Hj.
  destruct (queueJob_cases jobs j st) as [(_ & Hin & _)|(_ & ->)].
  { exfalso. apply Hj. by apply elem_of_drop_inv in Hin. }
  set (k := queued_at jobs j st).
  pose proof (queued_at_bounds jobs j st Hlt) as Hk. fold k in Hk.
  destruct (queueFlush_fields (set_queue (splice_in k j (queue st)) st))
    as (Hq & Hfi & _). simpl in Hq, Hfi.
  unfold invalidateJob. rewrite Hq, Hfi.
  assert (Hidx : indexOf j (splice_in k j (queue st)) = Some k).
  { apply indexOf_Some. split; [apply lookup_splice_in_at; lia|].
    rewrite take_splice_in by lia. intros Hin. apply Hj.
    apply elem_of_take in Hin as (a & Ha & _).
    apply list_elem_of_lookup. by exists a. }
  rewrite Hidx, decide_True by lia. simpl.
  unfold splice_in. rewrite delete_take_drop.
  rewrite take_app_le, take_take by (rewrite length_take; lia).
  rewrite Nat.min_id.
  replace (S k) with (length (take k (queue st)) + 1)%nat
    by (rewrite length_take; lia).
  rewrite <- drop_drop, drop_app_length. simpl. by rewrite drop_0, take_drop.
Qed.

Lemma invalidateJob_undoes_queueJob_witness :
  queue (invalidateJob 1%nat (queueJob plain_jobs 1%nat (set_queue [0; 2]%nat initial)))
  = [0; 2]%nat.
Proof.
  apply (invalidateJob_undoes_queueJob plain_jobs 1%nat (set_queue [0; 2]%nat initial)).
  - simpl. lia.
  - simpl. rewrite !not_elem_of_cons. split; [lia|]. split; [lia|].
    apply not_elem_of_nil.
Defined.

(** *** What calling a job leaves alone *)

Record job_frame (st st' : State) : Prop := {
  jf_flushing : isFlushing st' = isFlushing st;
  jf_active : activePostFlushCbs st' = activePostFlushCbs st;
  jf_index : flushIndex st' = flushIndex st;
  jf_post : postFlushIndex st' = postFlushIndex st;
  jf_pending : isFlushing st = true → isFlushPending st' = isFlushPending st;
}.

Lemma job_frame_refl st : job_frame st st.
Proof. by split. Qed.

Lemma job_frame_trans st1 st2 st3 :
  job_frame st1 st2 → job_frame st2 st3 → job_frame st1 st3.
Proof.
  intros [A1 A2 A3 A4 A5] [B1 B2 B3 B4 B5].
  split; try congruence. intros H. rewrite B5 by congruence. by apply A5.
Qed.

Lemma job_frame_queueFlush st : job_frame st (queueFlush st).
Proof.
  destruct (queueFlush_fields st) as (_ & ? & ? & _ & ? & ? & _ & ? & _).
  by split.
Qed.

Lemma job_frame_exec_action jobs a st : job_frame st (exec_action jobs a st).
Proof.
  destruct a as [j|j|j]; simpl.
  - destruct (queueJob_cases jobs j st) as [(_ & _ & ->)|(_ & ->)];
      [apply job_frame_refl|].
    eapply job_frame_trans; [|apply job_frame_queueFlush]. by split.
  - unfold invalidateJob. destruct (indexOf j (queue st)); [|apply job_frame_refl].
    destruct (decide _); [by split|apply job_frame_refl].
  - unfold queuePostFlushCb.
    destruct (match activePostFlushCbs st with Some _ => _ | None => _ end).
    + apply job_frame_queueFlush.
    + eapply job_frame_trans; [|apply job_frame_queueFlush]. by split.
Qed.

Lemma job_frame_call_job jobs j st : job_frame st (call_job jobs j st).
Proof.
  unfold call_job.
  assert (H0 : job_frame st (set_executed (executed st ++ [j]) st)) by (by split).
  revert H0. generalize (set_executed (executed st ++ [j]) st).
  induction (body (jobs j)) as [|a l IH]; intros s Hs; simpl; [done|].
  apply IH. eapply job_frame_trans; [exact Hs|apply job_frame_exec_action].
Qed.

Lemma flush_loop_frame jobs fuel st st' :
  flush_loop jobs fuel st = Some st' →
  isFlushing st' = isFlushing st
  ∧ activePostFlushCbs st' = activePostFlushCbs st
  ∧ (isFlushing st = true → isFlushPending st' = isFlushPending st).
Proof.
  revert st. induction fuel as [|fuel IH]; intros st; simpl; [done|].
  destruct (queue st !! flushIndex st) as [j|]; [|by intros [= <-]].
  intros H. apply IH in H as (H1 & H2 & H3).
  assert (Hf : isFlushing (flush_iteration jobs j st) = isFlushing st
               ∧ activePostFlushCbs (flush_iteration jobs j st)
                 = activePostFlushCbs st
               ∧ (isFlushing st = true →
                  isFlushPending (flush_iteration jobs j st) = isFlushPending st)).
  { unfold flush_iteration. destruct (active (jobs j)); [|done].
    by destruct (job_frame_call_job jobs j st). }
  destruct Hf as (F1 & F2 & F5).
  split; [congruence|]. split; [congruence|].
  intros Hfl. rewrite H3 by congruence. by apply F5.
Qed.

Lemma post_loop_frame jobs fuel st st' :
  post_loop jobs fuel st = Some st' →
  isFlushing st' = isFlushing st
  ∧ activePostFlushCbs st' = activePostFlushCbs st
  ∧ flushIndex st' = flushIndex st
  ∧ (isFlushing st = true → isFlushPending st' = isFlushPending st).
Proof.
  revert st. induction fuel as [|fuel IH]; intros st; simpl; [done|].
  destruct (default [] (activePostFlushCbs st) !! postFlushIndex st) as [j|];
    [|by intros [= <-]].
  intros H. apply IH in H as (H1 & H2 & H3 & H4). simpl in *.
  destruct (job_frame_call_job jobs j st) as [F1 F2 F3 _ F5].
  split; [congruence|]. split; [congruence|]. split; [congruence|].
  intros Hfl. rewrite H4 by congruence. by apply F5.
Qed.

(** X4. When [flushJobs] returns, the scheduler is idle and nothing is left
    behind: the queue and the pending post-flush callbacks are empty (what
    jobs and callbacks queued in between has been flushed as well),
    [isFlushing] and [isFlushPending] are false, [flushIndex] is 0 and no
    post-flush list is active.  [flushJobs] is entered from the microtask
    scheduled by [queueFlush], never from inside a post-flush callback. *)
Theorem flushJobs_leaves_scheduler_idle (jobs : JobId → SchedulerJob)
    (fuel : nat) (st st' : State) :
  activePostFlushCbs st = None →
  flushJobs jobs fuel st = Some st' →
  queue st' = [] ∧ pendingPostFlushCbs st' = []
  ∧ isFlushing st' = false ∧ isFlushPending st' = false
  ∧ flushIndex st' = 0%nat ∧ activePostFlushCbs st' = None.
Proof.
  revert st. induction fuel as [|fuel IH]; intros st Hact; simpl; [done|].
  destruct (flush_loop jobs fuel _) as [st2|] eqn:Hloop; simpl; [|done].
  apply flush_loop_frame in Hloop as (L1 & L2 & L3). simpl in L1, L2, L3.
  specialize (L3 eq_refl).
  set (st3 := set_queue [] (set_flushIndex 0 st2)).
  assert (Hpost : ∀ st4, flushPostFlushCbs jobs fuel st3 = Some st4 →
            isFlushing st4 = true ∧ isFlushPending st4 = false
            ∧ flushIndex st4 = 0%nat ∧ activePostFlushCbs st4 = None).
  { intros st4. unfold flushPostFlushCbs.
    change (pendingPostFlushCbs st3) with (pendingPostFlushCbs st2).
    destruct (pendingPostFlushCbs st2) as [|c cs].
    - intros [= <-]. simpl. by rewrite L1, L2, L3.
    - simpl. rewrite L2, Hact.
      destruct (post_loop jobs fuel _) as [s|] eqn:Hp; simpl; [|done].
      intros [= <-]. simpl.
      apply post_loop_frame in Hp as (P1 & _ & P3 & P4). simpl in P1, P3, P4.
      rewrite P1, P3, P4 by done. by rewrite L1, L3. }
  destruct (flushPostFlushCbs jobs fuel st3) as [st4|] eqn:H4; simpl; [|done].
  destruct (Hpost st4 eq_refl) as (Q1 & Q2 & Q3 & Q4).
  destruct (bool_decide (queue st4 ≠ []) || bool_decide (pendingPostFlushCbs st4 ≠ []))
    eqn:Hmore.
  - apply IH. done.
  - intros [= <-]. simpl.
    apply orb_false_iff in Hmore as [Hq Hp].
    apply bool_decide_eq_false_1 in Hq, Hp.
    split; [destruct (queue st4); [done|exfalso; by apply Hq]|].
    split; [destruct (pendingPostFlushCbs st4); [done|exfalso; by apply Hp]|].
    done.
Qed.

Lemma flushJobs_leaves_scheduler_idle_witness :
  ∃ st', flushJobs family 5 (set_queue [1%nat] initial) = Some st'
         ∧ queue st' = [] ∧ isFlushing st' = false.
Proof.
  destruct (flushJobs family 5 (set_queue [1%nat] initial)) as [st'|] eqn:H;
    [|by vm_compute in H].
  exists st'. split; [done|].
  destruct (flushJobs_leaves_scheduler_idle family 5%nat
              (set_queue [1%nat] initial) st' eq_refl H) as (H1 & _ & H3 & _).
  by split.
Defined.

(** *** Post-flush callbacks *)













(** *** Pre-flush jobs *)

(** [instance && cb.id !== instance.uid]; [instance] is given by its uid. *)
Definition other_instance (instance : option Z) (job : SchedulerJob) : bool :=
  match instance with
  | Some uid => negb (bool_decide (id job = Some uid))
  | None => false
  end.

(** The loop of [flushPreFlushCbs] from index [i], in the production build.
    A pre job of the instance is spliced out of the queue and called, and
    the loop goes on at the same index; [None] means the step budget ran
    out. *)
Fixpoint pre_loop (jobs : JobId → SchedulerJob) (instance : option Z)
    (fuel : nat) (i : nat) (st : State) : option State :=
  match fuel with
  | O => None
  | S fuel' =>
      match queue st !! i with
      | Some cb =>
          if pre (jobs cb) then
            if other_instance instance (jobs cb)
            then pre_loop jobs instance fuel' (S i) st
            else
              pre_loop jobs instance fuel' i
                (call_job jobs cb (set_queue (delete i (queue st)) st))
          else pre_loop jobs instance fuel' (S i) st
      | None => Some st
      end
  end.

(** [flushPreFlushCbs(instance)], with the default start index. *)
Definition flushPreFlushCbs (jobs : JobId → SchedulerJob) (instance : option Z)
    (fuel : nat) (st : State) : option State :=
  pre_loop jobs instance fuel
    (if isFlushing st then flushIndex st + 1 else 0)%nat st.

(** The jobs [flushPreFlushCbs] picks. *)
Definition picked (jobs : JobId → SchedulerJob) (instance : option Z)
    (j : JobId) : bool :=
  pre (jobs j) && negb (other_instance instance (jobs j)).

Lemma pre_loop_plain jobs instance fuel i st :
  (∀ j, j ∈ queue st → body (jobs j) = []) →
  (length (queue st) - i < fuel)%nat →
  pre_loop jobs instance fuel i st
  = Some (set_executed
            (executed st ++ filter (λ j, picked jobs instance j) (drop i (queue st)))
            (set_queue
               (take i (queue st)
                ++ filter (λ j, ¬ picked jobs instance j) (drop i (queue st)))
               st)).
Proof.
  revert i st. induction fuel as [|fuel IH]; intros i st Hb Hf; [lia|]. simpl.
  destruct (queue st !! i) as [cb|] eqn:Hcb.
  - pose proof (lookup_lt_Some _ _ _ Hcb) as Hlt.
    rewrite (drop_S _ _ _ Hcb).
    assert (Hskip : picked jobs instance cb = false →
              pre_loop jobs instance fuel (S i) st
              = Some (set_executed
                        (executed st
                         ++ filter (λ j, picked jobs instance j) (cb :: drop (S i) (queue st)))
                        (set_queue
                           (take i (queue st)
                            ++ filter (λ j, ¬ picked jobs instance j)
                                 (cb :: drop (S i) (queue st))) st))).
    { intros Hp. rewrite IH by (done || lia).
      rewrite filter_cons_False by (rewrite Hp; intros []).
      rewrite filter_cons_True by (rewrite Hp; intros []).
      rewrite (take_S_r _ _ _ Hcb), <- app_assoc. done. }
    unfold picked in *.
    destruct (pre (jobs cb)) eqn:Hpre; [|by apply Hskip].
    destruct (other_instance instance (jobs cb)) eqn:Ho; [by apply Hskip|].
    clear Hskip.
    assert (Hbody : body (jobs cb) = []).
    { apply Hb. apply list_elem_of_lookup. by eexists. }
    unfold call_job. rewrite Hbody. simpl.
    rewrite IH; simpl.
    + rewrite filter_cons_True by (by rewrite Hpre, Ho).
      rewrite filter_cons_False by (rewrite Hpre, Ho; intros H; by apply H).
      rewrite take_delete_after by done.
      rewrite drop_delete_after by done. rewrite Nat.sub_diag.
      rewrite (drop_S _ _ _ Hcb). simpl.
      unfold set_executed, set_queue. simpl. by rewrite <- app_assoc.
    + intros j Hj. apply Hb. by eapply list_elem_of_delete_inv.
    + rewrite length_delete by (by eexists). lia.
  - apply lookup_ge_None_1 in Hcb. rewrite drop_ge, take_ge by done.
    simpl. rewrite !app_nil_r. by destruct st.
Qed.

(** X6. [flushPreFlushCbs] calls every pre job waiting behind the running
    job (from the start of the queue when no flush is running) once, in
    queue order, and takes it out of the queue; with an instance given,
    only the pre jobs whose id is that instance's uid.  The other jobs stay
    queued in their order.  A job is called whether or not it is active.
    (Jobs that leave the scheduler alone.) *)
Theorem flushPreFlushCbs_runs_and_removes_pre_jobs (jobs : JobId → SchedulerJob)
    (instance : option Z) (fuel : nat) (st : State) :
  (∀ j, j ∈ queue st → body (jobs j) = []) →
  (length (queue st) < fuel)%nat →
  let i := (if isFlushing st then flushIndex st + 1 else 0)%nat in
  ∃ st', flushPreFlushCbs jobs instance fuel st = Some st'
    ∧ executed st'
      = executed st ++ filter (λ j, picked jobs instance j) (drop i (queue st))
    ∧ queue st'
      = take i (queue st)
        ++ filter (λ j, ¬ picked jobs instance j) (drop i (queue st))
    ∧ (∀ j, j ∈ drop i (queue st') → picked jobs instance j = false)
    ∧ flushIndex st' = flushIndex st.
Proof.
  intros Hb Hf i. unfold flushPreFlushCbs. fold i.
  rewrite pre_loop_plain by (done || lia).
  eexists. split; [done|]. simpl. split; [done|]. split; [done|].
  split; [|done].
  intros j Hj.
  destruct (decide (i ≤ length (queue st))%nat).
  - rewrite drop_app_length' in Hj by (rewrite length_take; lia).
    apply list_elem_of_filter in Hj as [Hj _].
    by destruct (picked jobs instance j).
  - rewrite drop_ge in Hj; [by apply elem_of_nil in Hj|].
    rewrite length_app, length_take, drop_ge by lia. simpl. lia.
Qed.

(** A watcher's pre job (id 1), a component update (id 1), and the pre job
    of another component (id 2). *)
Definition mixed_jobs (j : JobId) : SchedulerJob :=
  match j with
  | O => mkJob (Some 1) true true false []
  | S O => mkJob (Some 1) false true false []
  | _ => mkJob (Some 2) true false false []
  end.

Lemma flushPreFlushCbs_runs_and_removes_pre_jobs_witness :
  ∃ st', flushPreFlushCbs mixed_jobs None 4 (set_queue [1; 0; 2]%nat initial)
         = Some st'
         ∧ executed st' = [0; 2]%nat ∧ queue st' = [1%nat].
Proof.
  destruct (flushPreFlushCbs_runs_and_removes_pre_jobs mixed_jobs None 4%nat
              (set_queue [1; 0; 2]%nat initial))
    as (st' & H1 & H2 & H3 & _).
  - intros j _. by destruct j as [|[|j]].
  - simpl. lia.
  - exists st'. split; [exact H1|]. rewrite H2, H3. split; reflexivity.
Defined.

End Scheduler.

(** * The KeepAlive cache (runtime-core/src/components/KeepAlive.ts) *)

Module KeepAlive.

(** The [ShapeFlags] enum, as far as KeepAlive reads it. *)
Module ShapeFlags.
Definition STATEFUL_COMPONENT : Z := Z.shiftl 1 2.
Definition SUSPENSE : Z := Z.shiftl 1 7.
Definition COMPONENT_SHOULD_KEEP_ALIVE : Z := Z.shiftl 1 8.
Definition COMPONENT_KEPT_ALIVE : Z := Z.shiftl 1 9.
End ShapeFlags.

(** VNodes are mutable objects: the state keeps them in a heap and the cache,
    [current] and [instance.subTree] hold references. *)
Definition VNodeId := nat.

(** Component definitions, compared by identity. *)
Definition Component := nat.

Record VNode := mkVNode {
  type : Component;
  key : option string;           (** [None]: [vnode.key == null] *)
  shapeFlag : Z;
  el : option nat;
  component : option nat;
  ssContent : option VNodeId;
}.

(** [CacheKey]: [vnode.key], or the component when the vnode has no key. *)
Inductive CacheKey :=
  | ByKey (k : string)
  | ByComponent (c : Component).

Global Instance CacheKey_eq_dec : EqDecision CacheKey.
Proof. solve_decision. Defined.

(** [MatchPattern]: a comma-separated list of names (given split), a regular
    expression (given as its [test]), or an array of these. *)
Inductive Pattern :=
  | PatNames (names : list string)
  | PatRegExp (test : string → bool).

Inductive MatchPattern :=
  | PatOne (p : Pattern)
  | PatArray (ps : list Pattern).

Definition matches_one (p : Pattern) (name : string) : bool :=
  match p with
  | PatNames names => bool_decide (name ∈ names)
  | PatRegExp test => test name
  end.

Definition matches (pattern : MatchPattern) (name : string) : bool :=
  match pattern with
  | PatArray ps => existsb (λ p, matches_one p name) ps
  | PatOne p => matches_one p name
  end.

(** The props; [None] is an absent (or otherwise falsy) prop.  [max] is
    given as a number. *)
Record KeepAliveProps := mkProps {
  include : option MatchPattern;
  exclude : option MatchPattern;
  max : option Z;
}.

(** An entry of the array [slots.default()] returns. *)
Inductive Child :=
  | ChildVNode (v : VNodeId)
  | ChildOther.

(** What the render function returns. *)
Inductive Rendered :=
  | RNull
  | RChildren (children : list Child)
  | RChild (c : option Child)
  | RVNode (v : VNodeId).

Record State := mkState {
  heap : gmap VNodeId VNode;
  next : VNodeId;
  cache : list (CacheKey * VNodeId);   (** the [Map], in insertion order *)
  keys : list CacheKey;                (** the [Set], in insertion order *)
  current : option VNodeId;
  pendingCacheKey : option CacheKey;
  subTree : option VNodeId;            (** [instance.subTree] *)
  unmounted : list VNodeId;            (** the calls of the renderer's unmount *)
}.

Definition initial (h : gmap VNodeId VNode) (n : VNodeId) : State :=
  mkState h n [] [] None None None [].

Definition set_heap (h : gmap VNodeId VNode) (st : State) : State :=
  mkState h (next st) (cache st) (keys st) (current st) (pendingCacheKey st)
    (subTree st) (unmounted st).
Definition set_next (n : VNodeId) (st : State) : State :=
  mkState (heap st) n (cache st) (keys st) (current st) (pendingCacheKey st)
    (subTree st) (unmounted st).
Definition set_cache (c : list (CacheKey * VNodeId)) (st : State) : State :=
  mkState (heap st) (next st) c (keys st) (current st) (pendingCacheKey st)
    (subTree st) (unmounted st).
Definition set_keys (k : list CacheKey) (st : State) : State :=
  mkState (heap st) (next st) (cache st) k (current st) (pendingCacheKey st)
    (subTree st) (unmounted st).
Definition set_current (c : option VNodeId) (st : State) : State :=
  mkState (heap st) (next st) (cache st) (keys st) c (pendingCacheKey st)
    (subTree st) (unmounted st).
Definition set_pendingCacheKey (k : option CacheKey) (st : State) : State :=
  mkState (heap st) (next st) (cache st) (keys st) (current st) k
    (subTree st) (unmounted st).
Definition set_subTree (v : option VNodeId) (st : State) : State :=
  mkState (heap st) (next st) (cache st) (keys st) (current st)
    (pendingCacheKey st) v (unmounted st).
Definition set_unmounted (l : list VNodeId) (st : State) : State :=
  mkState (heap st) (next st) (cache st) (keys st) (current st)
    (pendingCacheKey st) (subTree st) l.

Definition with_shapeFlag (f : Z) (vn : VNode) : VNode :=
  mkVNode (type vn) (key vn) f (el vn) (component vn) (ssContent vn).
Definition with_ssContent (c : option VNodeId) (vn : VNode) : VNode :=
  mkVNode (type vn) (key vn) (shapeFlag vn) (el vn) (component vn) c.
Definition with_mounted (e c : option nat) (vn : VNode) : VNode :=
  mkVNode (type vn) (key vn) (shapeFlag vn) e c (ssContent vn).

(** [Set.prototype.add], [Set.prototype.delete] and
    [keys.values().next().value]. *)
Definition set_add (k : CacheKey) (s : list CacheKey) : list CacheKey :=
  if decide (k ∈ s) then s else s ++ [k].
Definition set_delete (k : CacheKey) (s : list CacheKey) : list CacheKey :=
  filter (λ k', k' ≠ k) s.
Definition set_first (s : list CacheKey) : option CacheKey := head s.

(** [flag & bit] as a truth value. *)
Definition has_flag (flag bit : Z) : bool := negb (Z.land flag bit =? 0).

(** [resetShapeFlag]: clears the two keep-alive bits.  [None] stands for the
    TypeError of reading [shapeFlag] of [undefined]. *)
Definition reset_flags (f : Z) : Z :=
  Z.land (Z.land f (Z.lnot ShapeFlags.COMPONENT_SHOULD_KEEP_ALIVE))
    (Z.lnot ShapeFlags.COMPONENT_KEPT_ALIVE).

Definition resetShapeFlag (v : VNodeId) (st : State) : option State :=
  vn ← heap st !! v;
  Some (set_heap (<[v := with_shapeFlag (reset_flags (shapeFlag vn)) vn]> (heap st)) st).

(** [unmount]: resets the flags, then calls the renderer's unmount, which
    is recorded. *)
Definition unmount (v : VNodeId) (st : State) : option State :=
  st1 ← resetShapeFlag v st;
  Some (set_unmounted (unmounted st1 ++ [v]) st1).

(** Modelled from the spec: [isSameVNodeType] is imported from vnode.ts,
    which is not part of the sources; two vnodes are of the same type when
    their [type] and their [key] are identical, the test the
    [onBeforeUnmount] hook of KeepAlive writes out. *)
Definition isSameVNodeType (n1 n2 : VNode) : bool :=
  bool_decide (type n1 = type n2) && bool_decide (key n1 = key n2).

Definition pruneCacheEntry (k : CacheKey) (st : State) : option State :=
  cached ← OMap.get k (cache st);
  st1 ← match current st with
        | None => unmount cached st
        | Some cur =>
            c ← heap st !! cached;
            n ← heap st !! cur;
            if negb (isSameVNodeType c n) then unmount cached st
            else resetShapeFlag cur st
        end;
  Some (set_keys (set_delete k (keys st1))
          (set_cache (OMap.delete k (cache st1)) st1)).

(** [getInnerChild]. *)
Definition getInnerChild (v : VNodeId) (st : State) : option VNodeId :=
  vn ← heap st !! v;
  if has_flag (shapeFlag vn) ShapeFlags.SUSPENSE then ssContent vn else Some v.

(** [cacheSubtree], the mounted and updated hook. *)
Definition cacheSubtree (st : State) : option State :=
  match pendingCacheKey st with
  | Some k =>
      t ← subTree st;
      v ← getInnerChild t st;
      Some (set_cache (OMap.set k v (cache st)) st)
  | None => Some st
  end.

(** The key under which a vnode is cached. *)
Definition cache_key (vn : VNode) : CacheKey :=
  match key vn with
  | None => ByComponent (type vn)
  | Some k => ByKey k
  end.

Definition truthy (name : option string) : bool :=
  match name with
  | Some s => negb (bool_decide (s = EmptyString))
  | None => false
  end.

Section render.
(** From the other modules of the runtime: the component name a vnode is
    filtered by, and whether a vnode type is the Suspense component. *)
Variable getComponentName : VNode → option string.
Variable isSuspense : Component → bool.
Variable props : KeepAliveProps.

(** [pruneCache(filter)]; [Map.prototype.forEach] visits every entry
    present when it starts, unless deleted before its turn. *)
Definition pruneCache (filter : option (string → bool)) (st : State) : option State :=
  foldl (λ acc '(k, v),
           st' ← acc;
           match OMap.get k (cache st') with
           | None => Some st'
           | Some v' =>
               vn ← heap st' !! v';
               let name := getComponentName vn in
               if truthy name
                  && match filter, name with
                     | Some f, Some n => negb (f n)
                     | _, _ => true
                     end
               then pruneCacheEntry k st'
               else Some st'
           end)
    (Some st) (cache st).

(** The filter on [include] and [exclude]. *)
Definition filtered_out (name : option string) : bool :=
  match include props with
  | Some inc =>
      negb (truthy name) || negb (matches inc (default EmptyString name))
  | None => false
  end
  || match exclude props with
     | Some exc => truthy name && matches exc (default EmptyString name)
     | None => false
     end.

(** [max && keys.size > parseInt(max, 10)]. *)
Definition over_max (size : nat) : bool :=
  match max props with
  | Some m => negb (m =? 0) && (m <? Z.of_nat size)
  | None => false
  end.

(** [cloneVNode] with the assignment to [rawVNode.ssContent]. *)
Definition clone (raw v : VNodeId) (vn rv : VNode) (st : State) : VNodeId * State :=
  let v' := next st in
  let h1 := <[v' := vn]> (heap st) in
  let h2 :=
    if has_flag (shapeFlag rv) ShapeFlags.SUSPENSE
    then <[raw := with_ssContent (Some v') rv]> h1
    else h1 in
  (v', set_next (S v') (set_heap h2 st)).

(** The render function [setup] returns; [slot] is [slots.default], given
    by the children it returns. *)
Definition render (slot : option (list Child)) (st : State)
    : option (Rendered * State) :=
  let st := set_pendingCacheKey None st in
  match slot with
  | None => Some (RNull, st)
  | Some children =>
      let rawVNode := children !! 0%nat in
      if decide (1 < length children)%nat
      then Some (RChildren children, set_current None st)
      else
        match rawVNode with
        | Some (ChildVNode raw) =>
            rv ← heap st !! raw;
            if negb (has_flag (shapeFlag rv) ShapeFlags.STATEFUL_COMPONENT)
               && negb (has_flag (shapeFlag rv) ShapeFlags.SUSPENSE)
            then Some (RChild rawVNode, set_current None st)
            else
              v ← getInnerChild raw st;
              vn ← heap st !! v;
              let name := getComponentName vn in
              if filtered_out name
              then Some (RChild rawVNode, set_current (Some v) st)
              else
                let k := cache_key vn in
                let cachedVNode := OMap.get k (cache st) in
                let '(v, st) :=
                  match el vn with
                  | Some _ => clone raw v vn rv st
                  | None => (v, st)
                  end in
                let st := set_pendingCacheKey (Some k) st in
                st ← match cachedVNode with
                     | Some c =>
                         cv ← heap st !! c;
                         vn ← heap st !! v;
                         let vn1 := with_mounted (el cv) (component cv) vn in
                         let vn2 :=
                           with_shapeFlag
                             (Z.lor (shapeFlag vn1) ShapeFlags.COMPONENT_KEPT_ALIVE)
                             vn1 in
                         Some (set_keys (set_add k (set_delete k (keys st)))
                                 (set_heap (<[v := vn2]> (heap st)) st))
                     | None =>
                         let st := set_keys (set_add k (keys st)) st in
                         if over_max (length (keys st))
                         then oldest ← set_first (keys st);
                              pruneCacheEntry oldest st
                         else Some st
                     end;
                vn ← heap st !! v;
                let st :=
                  set_heap
                    (<[v := with_shapeFlag
                              (Z.lor (shapeFlag vn)
                                 ShapeFlags.COMPONENT_SHOULD_KEEP_ALIVE) vn]>
                       (heap st)) st in
                let st := set_current (Some v) st in
                Some (if isSuspense (type rv) then RVNode raw else RVNode v, st)
        | _ => Some (RChild rawVNode, set_current None st)
        end
  end.

(** One render of the KeepAlive instance, the renderer storing the vnode
    it returns as [instance.subTree], then the mounted or updated hook. *)
Definition render_and_cache (slot : option (list Child)) (st : State)
    : option State :=
  '(r, st1) ← render slot st;
  let st2 :=
    match r with
    | RVNode v => set_subTree (Some v) st1
    | RChild (Some (ChildVNode v)) => set_subTree (Some v) st1
    | _ => set_subTree None st1
    end in
  cacheSubtree st2.

End render.

(** ** The keep-alive bits *)

(** [resetShapeFlag] clears bits 8 and 9 and keeps every other bit. *)
Lemma reset_flags_testbit f i :
  0 ≤ i →
  Z.testbit (reset_flags f) i
  = if decide (i = 8 ∨ i = 9) then false else Z.testbit f i.
Proof.
  intros Hi. unfold reset_flags.
  change ShapeFlags.COMPONENT_SHOULD_KEEP_ALIVE with (2 ^ 8).
  change ShapeFlags.COMPONENT_KEPT_ALIVE with (2 ^ 9).
  rewrite !Z.land_spec, !Z.lnot_spec, !Z.pow2_bits_eqb by lia.
  destruct (Z.eqb_spec 8 i) as [H8|H8], (Z.eqb_spec 9 i) as [H9|H9];
    cbn [negb]; rewrite ?andb_false_r, ?andb_true_r;
    destruct (decide (i = 8 ∨ i = 9)); try done; lia.
Qed.


(** ** The key set *)

Lemma elem_of_set_delete k k' s : k' ∈ set_delete k s ↔ k' ≠ k ∧ k' ∈ s.
Proof. unfold set_delete. by rewrite list_elem_of_filter. Qed.

Lemma set_add_delete k s : set_add k (set_delete k s) = set_delete k s ++ [k].
Proof.
  unfold set_add. rewrite decide_False; [done|].
  rewrite elem_of_set_delete. tauto.
Qed.

Lemma set_delete_NoDup k s : NoDup s → NoDup (set_delete k s).
Proof. apply NoDup_filter. Qed.

Lemma set_add_NoDup k s : NoDup s → NoDup (set_add k s).
Proof.
  intros H. unfold set_add. destruct (decide (k ∈ s)); [done|].
  apply NoDup_app. split; [done|]. split; [|apply NoDup_singleton].
  intros x Hx ->%list_elem_of_singleton. done.
Qed.

(** ** Pruning one entry *)

Lemma resetShapeFlag_Some v vn st :
  heap st !! v = Some vn →
  resetShapeFlag v st
  = Some (set_heap (<[v := with_shapeFlag (reset_flags (shapeFlag vn)) vn]> (heap st)) st).
Proof. intros H. unfold resetShapeFlag. by rewrite H. Qed.

(** What [pruneCacheEntry] does when the key is cached and the vnodes it
    reads exist. *)
Lemma pruneCacheEntry_spec k st cached c :
  OMap.get k (cache st) = Some cached →
  heap st !! cached = Some c →
  (∀ cur, current st = Some cur → is_Some (heap st !! cur)) →
  ∃ st', pruneCacheEntry k st = Some st'
    ∧ cache st' = OMap.delete k (cache st)
    ∧ keys st' = set_delete k (keys st)
    ∧ current st' = current st
    ∧ pendingCacheKey st' = pendingCacheKey st
    ∧ subTree st' = subTree st
    ∧ next st' = next st
    ∧ ((∃ cur n, current st = Some cur ∧ heap st !! cur = Some n
          ∧ isSameVNodeType c n = true
          ∧ unmounted st' = unmounted st
          ∧ heap st'
            = <[cur := with_shapeFlag (reset_flags (shapeFlag n)) n]> (heap st))
       ∨ ((current st = None
           ∨ ∃ cur n, current st = Some cur ∧ heap st !! cur = Some n
               ∧ isSameVNodeType c n = false)
          ∧ unmounted st' = unmounted st ++ [cached]
          ∧ heap st'
            = <[cached := with_shapeFlag (reset_flags (shapeFlag c)) c]> (heap st))).
Proof.
  intros Hk Hc Hcur. unfold pruneCacheEntry. rewrite Hk. simpl.
  destruct (current st) as [cur|] eqn:Hcu.
  - destruct (Hcur cur eq_refl) as [n Hn]. rewrite Hc, Hn. simpl.
    destruct (isSameVNodeType c n) eqn:Hs; simpl.
    + rewrite (resetShapeFlag_Some _ _ _ Hn). simpl.
      eexists. split; [done|]. simpl. split_and!; try done.
      left. by exists cur, n.
    + unfold unmount. rewrite (resetShapeFlag_Some _ _ _ Hc). simpl.
      eexists. split; [done|]. simpl. split_and!; try done.
      right. split_and!; try done. right. by exists cur, n.
  - unfold unmount. rewrite (resetShapeFlag_Some _ _ _ Hc). simpl.
    eexists. split; [done|]. simpl. split_and!; try done.
    right. split_and!; try done. by left.
Qed.


(** ** The render function on a cacheable child *)

Section render_facts.
Variable getComponentName : VNode → option string.
Variable isSuspense : Component → bool.
Variable props : KeepAliveProps.

Lemma clone_frame raw v vn rv st v1 st1 :
  match el vn with
  | Some _ => clone raw v vn rv st
  | None => (v, st)
  end = (v1, st1) →
  heap st !! v = Some vn →
  cache st1 = cache st ∧ keys st1 = keys st ∧ current st1 = current st
  ∧ unmounted st1 = unmounted st
  ∧ (∀ x, is_Some (heap st !! x) → is_Some (heap st1 !! x))
  ∧ is_Some (heap st1 !! v1)
  ∧ (el vn = None → v1 = v).
Proof.
  intros Hc Hv. destruct (el vn) as [e|].
  - unfold clone in Hc. injection Hc as <- <-. simpl.
    split_and!; try done.
    + intros x Hx. destruct (has_flag _ _).
      * rewrite !lookup_insert_is_Some. 
        destruct (decide (raw = x)); [by left|right].
        split; [done|]. destruct (decide (next st = x)); [by left|by right].
      * rewrite lookup_insert_is_Some.
        destruct (decide (next st = x)); [by left|by right].
    + destruct (has_flag _ _).
      * rewrite !lookup_insert_is_Some.
        destruct (decide (raw = next st)); [by left|right].
        split; [done|]. by left.
      * rewrite lookup_insert_is_Some. by left.
  - injection Hc as <- <-. split_and!; try done; by eexists.
Qed.

Lemma render_cacheable_child raw rv v vn st :
  heap st !! raw = Some rv →
  negb (has_flag (shapeFlag rv) ShapeFlags.STATEFUL_COMPONENT)
    && negb (has_flag (shapeFlag rv) ShapeFlags.SUSPENSE) = false →
  getInnerChild raw st = Some v →
  heap st !! v = Some vn →
  filtered_out props (getComponentName vn) = false →
  let k := cache_key vn in
  (∀ c, OMap.get k (cache st) = Some c → is_Some (heap st !! c) →
     ∃ r st' v1,
       render getComponentName isSuspense props (Some [ChildVNode raw]) st = Some (r, st')
       ∧ keys st' = set_delete k (keys st) ++ [k]
       ∧ cache st' = cache st
       ∧ unmounted st' = unmounted st
       ∧ pendingCacheKey st' = Some k
       ∧ current st' = Some v1 ∧ (el vn = None → v1 = v))
  ∧ (OMap.get k (cache st) = None →
     over_max props (length (set_add k (keys st))) = false →
     ∃ r st' v1,
       render getComponentName isSuspense props (Some [ChildVNode raw]) st = Some (r, st')
       ∧ keys st' = set_add k (keys st)
       ∧ cache st' = cache st
       ∧ unmounted st' = unmounted st
       ∧ pendingCacheKey st' = Some k
       ∧ current st' = Some v1 ∧ (el vn = None → v1 = v))
  ∧ (OMap.get k (cache st) = None →
     over_max props (length (set_add k (keys st))) = true →
     ∀ oldest cached,
       set_first (set_add k (keys st)) = Some oldest →
       OMap.get oldest (cache st) = Some cached →
       is_Some (heap st !! cached) →
       (∀ cur, current st = Some cur → is_Some (heap st !! cur)) →
       ∃ r st' v1,
         render getComponentName isSuspense props (Some [ChildVNode raw]) st = Some (r, st')
         ∧ keys st' = set_delete oldest (set_add k (keys st))
         ∧ cache st' = OMap.delete oldest (cache st)
         ∧ (unmounted st' = unmounted st
            ∨ unmounted st' = unmounted st ++ [cached])
         ∧ pendingCacheKey st' = Some k
         ∧ current st' = Some v1 ∧ (el vn = None → v1 = v)).
Proof.
  intros Hraw Hcomp Hinner Hvn Hfilt k.
  assert (Hrender :
    render getComponentName isSuspense props (Some [ChildVNode raw]) st
    = let st0 := set_pendingCacheKey None st in
      let '(v1, st1) :=
        match el vn with
        | Some _ => clone raw v vn rv st0
        | None => (v, st0)
        end in
      let st2 := set_pendingCacheKey (Some k) st1 in
      st3 ← match OMap.get k (cache st) with
            | Some c =>
                cv ← heap st2 !! c;
                vn ← heap st2 !! v1;
                let vn1 := with_mounted (el cv) (component cv) vn in
                let vn2 :=
                  with_shapeFlag
                    (Z.lor (shapeFlag vn1) ShapeFlags.COMPONENT_KEPT_ALIVE) vn1 in
                Some (set_keys (set_add k (set_delete k (keys st2)))
                        (set_heap (<[v1 := vn2]> (heap st2)) st2))
            | None =>
                let st' := set_keys (set_add k (keys st2)) st2 in
                if over_max props (length (keys st'))
                then oldest ← set_first (keys st'); pruneCacheEntry oldest st'
                else Some st'
            end;
      vn ← heap st3 !! v1;
      Some (if isSuspense (type rv) then RVNode raw else RVNode v1,
            set_current (Some v1)
              (set_heap
                 (<[v1 := with_shapeFlag
                            (Z.lor (shapeFlag vn)
                               ShapeFlags.COMPONENT_SHOULD_KEEP_ALIVE) vn]>
                    (heap st3)) st3))).
  { unfold render. cbn [length lookup list_lookup].
    rewrite decide_False by (simpl; lia).
    change (heap (set_pendingCacheKey None st)) with (heap st).
    rewrite Hraw. cbn [mbind option_bind]. rewrite Hcomp.
    change (getInnerChild raw (set_pendingCacheKey None st))
      with (getInnerChild raw st).
    rewrite Hinner. cbn [mbind option_bind]. rewrite Hvn.
    cbn [mbind option_bind]. rewrite Hfilt.
    change (cache (set_pendingCacheKey None st)) with (cache st).
    fold k. cbv zeta.
    destruct (match el vn with Some _ => _ | None => _ end) as [v1 st1].
    done. }
  rewrite Hrender. clear Hrender. cbv zeta.
  destruct (match el vn with Some _ => _ | None => _ end) as [v1 st1] eqn:Hcl.
  destruct (clone_frame _ _ _ _ _ _ _ Hcl Hvn)
    as (Hca & Hke & Hcu & Hun & Hfr & Hv1 & Hel).
  simpl in Hca, Hke, Hcu, Hun, Hfr.
  split; [|split].
  - intros c Hc Hcv. rewrite Hc.
    destruct (Hfr c Hcv) as [cv Hcv1]. destruct Hv1 as [vn1 Hvn1].
    simpl. rewrite Hcv1. simpl. rewrite Hvn1. simpl.
    rewrite lookup_insert_eq. simpl.
    eexists _, _, v1. split; [done|]. simpl.
    rewrite Hke, Hca, Hun, set_add_delete. done.
  - intros Hc Hov. rewrite Hc. simpl. rewrite Hke, Hov.
    destruct Hv1 as [vn1 Hvn1]. simpl. rewrite Hvn1. simpl.
    eexists _, _, v1. split; [done|]. simpl. by rewrite ?Hke, ?Hca, ?Hun.
  - intros Hc Hov oldest cached Hold Hcached Hch Hcur. rewrite Hc. simpl.
    rewrite Hke, Hov, Hold. simpl.
    destruct (Hfr cached Hch) as [c Hc1].
    destruct (pruneCacheEntry_spec oldest
                (set_keys (set_add k (keys st))
                   (set_pendingCacheKey (Some k) st1)) cached c)
      as (st3 & Hp & Hca3 & Hke3 & Hcu3 & Hpe3 & _ & _ & Hcase); simpl.
    { by rewrite Hca. }
    { done. }
    { intros cur Hc'. apply Hfr, Hcur. by rewrite <- Hcu. }
    rewrite Hp. simpl in *.
    assert (Hv3 : is_Some (heap st3 !! v1)).
    { destruct Hcase as [(cur & n & _ & _ & _ & _ & ->)|(_ & _ & ->)];
        rewrite lookup_insert_is_Some;
        match goal with |- ?a = ?b ∨ _ => destruct (decide (a = b)) end;
        auto. }
    destruct Hv3 as [vn3 Hvn3]. rewrite Hvn3. simpl.
    eexists _, _, v1. split; [done|]. simpl.
    rewrite ?Hke3, ?Hca3, ?Hca, ?Hpe3.
    split_and!; try done.
    destruct Hcase as [(cur & n & _ & _ & _ & -> & _)|(_ & -> & _)];
      rewrite Hun; auto.
Qed.

End render_facts.

(** ** The scenario: three components, [max = 2] *)

(** A stateful component vnode without key, not yet mounted. *)
Definition component_vnode (c : Component) : VNode :=
  mkVNode c None ShapeFlags.STATEFUL_COMPONENT None None None.

(** The vnodes of the components A, B and C. *)
Definition three_children : gmap VNodeId VNode :=
  {[ 0%nat := component_vnode 10%nat;
     1%nat := component_vnode 20%nat;
     2%nat := component_vnode 30%nat ]}.

Definition max_two : KeepAliveProps := mkProps None None (Some 2).

(** KeepAlive renders with the given child, and the hook caches it. *)
Definition show (v : VNodeId) (st : State) : option State :=
  render_and_cache (λ _, None) (λ _, false) max_two (Some [ChildVNode v]) st.

Definition after_A_B : option State :=
  show 0%nat (initial three_children 3%nat) ≫= show 1%nat.

Definition after_A_B_C : option State := after_A_B ≫= show 2%nat.

Definition state_after_A_B : State :=
  default (initial three_children 3%nat) after_A_B.

(** C7. The render function caches a component child under [vnode.key], or
    under the component when the vnode has no key.  On a hit the key moves
    to the end of the key set, and nothing is evicted.  On a miss the key is
    added at the end; when [max] is set (a number other than 0) and the key
    set has then more than [max] keys, the first key of the set is deleted
    from the cache and from the key set, its vnode being unmounted unless
    it is the current one; otherwise nothing is evicted.  The hook that runs
    after the render stores the rendered vnode under the pending key.  With
    [max = 2] and A, B, C shown in turn, A is evicted and unmounted, B and
    C are cached, and C is current. *)
Theorem keepalive_cache_evicts_least_recently_used
    (getComponentName : VNode → option string) (isSuspense : Component → bool)
    (props : KeepAliveProps) (raw v : VNodeId) (rv vn : VNode) (st : State) :
  heap st !! raw = Some rv →
  negb (has_flag (shapeFlag rv) ShapeFlags.STATEFUL_COMPONENT)
    && negb (has_flag (shapeFlag rv) ShapeFlags.SUSPENSE) = false →
  getInnerChild raw st = Some v →
  heap st !! v = Some vn →
  filtered_out props (getComponentName vn) = false →
  let k := cache_key vn in
  let rendered := render getComponentName isSuspense props (Some [ChildVNode raw]) st in
  ((∀ s, key vn = Some s → k = ByKey s)
   ∧ (key vn = None → k = ByComponent (type vn)))
  ∧ (∀ c, OMap.get k (cache st) = Some c → is_Some (heap st !! c) →
       ∃ r st' v1, rendered = Some (r, st')
         ∧ keys st' = set_delete k (keys st) ++ [k]
         ∧ cache st' = cache st
         ∧ unmounted st' = unmounted st
         ∧ pendingCacheKey st' = Some k
         ∧ current st' = Some v1 ∧ (el vn = None → v1 = v))
  ∧ (OMap.get k (cache st) = None →
     over_max props (length (set_add k (keys st))) = false →
     ∃ r st' v1, rendered = Some (r, st')
       ∧ keys st' = set_add k (keys st)
       ∧ cache st' = cache st
       ∧ unmounted st' = unmounted st
       ∧ pendingCacheKey st' = Some k
       ∧ current st' = Some v1 ∧ (el vn = None → v1 = v))
  ∧ (OMap.get k (cache st) = None →
     over_max props (length (set_add k (keys st))) = true →
     ∀ oldest cached,
       set_first (set_add k (keys st)) = Some oldest →
       OMap.get oldest (cache st) = Some cached →
       is_Some (heap st !! cached) →
       (∀ cur, current st = Some cur → is_Some (heap st !! cur)) →
       ∃ r st' v1, rendered = Some (r, st')
         ∧ keys st' = set_delete oldest (set_add k (keys st))
         ∧ cache st' = OMap.delete oldest (cache st)
         ∧ (unmounted st' = unmounted st
            ∨ unmounted st' = unmounted st ++ [cached])
         ∧ pendingCacheKey st' = Some k
         ∧ current st' = Some v1 ∧ (el vn = None → v1 = v))
  ∧ (∀ m size, max props = Some m →
       over_max props size = true ↔ m ≠ 0 ∧ m < Z.of_nat size)
  ∧ (∀ s t u, pendingCacheKey s = Some k → subTree s = Some t →
       getInnerChild t s = Some u →
       ∃ s', cacheSubtree s = Some s' ∧ OMap.get k (cache s') = Some u
             ∧ keys s' = keys s ∧ unmounted s' = unmounted s)
  ∧ ∃ st', after_A_B_C = Some st'
      ∧ cache st' = [(ByComponent 20%nat, 1%nat); (ByComponent 30%nat, 2%nat)]
      ∧ keys st' = [ByComponent 20%nat; ByComponent 30%nat]
      ∧ current st' = Some 2%nat
      ∧ unmounted st' = [0%nat].
Proof.
  intros Hraw Hcomp Hinner Hvn Hfilt k rendered.
  destruct (render_cacheable_child getComponentName isSuspense props
              raw rv v vn st Hraw Hcomp Hinner Hvn Hfilt) as (Hhit & Hmiss & Hevict).
  split; [|split; [exact Hhit|split; [exact Hmiss|split; [exact Hevict|]]]].
  - unfold k, cache_key. split.
    + by intros s ->.
    + by intros ->.
  - split; [|split].
    + intros m size Hm. unfold over_max. rewrite Hm.
      rewrite andb_true_iff, negb_true_iff, Z.eqb_neq, Z.ltb_lt. done.
    + intros s t u Hp Ht Hu. unfold cacheSubtree. rewrite Hp, Ht. simpl.
      rewrite Hu. simpl. eexists. split; [done|]. simpl.
      by rewrite OMap.get_set_eq.
    + eexists. split; [by vm_compute|]. done.
Qed.

Lemma keepalive_cache_evicts_least_recently_used_witness :
  ∃ r st' v1,
    render (λ _, None) (λ _, false) max_two (Some [ChildVNode 2%nat])
      state_after_A_B = Some (r, st')
    ∧ keys st' = set_delete (ByComponent 10%nat)
                   (set_add (ByComponent 30%nat) (keys state_after_A_B))
    ∧ cache st' = OMap.delete (ByComponent 10%nat) (cache state_after_A_B)
    ∧ current st' = Some v1 ∧ v1 = 2%nat.
Proof.
  destruct (keepalive_cache_evicts_least_recently_used
              (λ _, None) (λ _, false) max_two 2%nat 2%nat
              (component_vnode 30%nat) (component_vnode 30%nat)
              state_after_A_B)
    as (_ & _ & _ & H & _); try (vm_compute; reflexivity).
  destruct (H eq_refl eq_refl (ByComponent 10%nat) 0%nat)
    as (r & st' & v1 & Hr & Hk & Hc & _ & _ & Hcur & Hv1);
    try (vm_compute; reflexivity).
  { eexists. vm_compute. reflexivity. }
  { intros cur Hcur. vm_compute in Hcur. injection Hcur as <-.
    eexists. vm_compute. reflexivity. }
  exists r, st', v1. split; [exact Hr|].
  split; [exact Hk|]. split; [exact Hc|]. split; [exact Hcur|].
  apply Hv1. reflexivity.
Defined.


(** ** Further properties of the cache *)

Lemma keys_set {K V} `{EqDecision K} (k : K) (v : V) (m : list (K * V)) :
  OMap.keys (OMap.set k v m)
  = if decide (k ∈ OMap.keys m) then OMap.keys m else OMap.keys m ++ [k].
Proof.
  unfold OMap.keys. induction m as [|[k' v'] m IH].
  - simpl. destruct (decide (k ∈ [])) as [H|H]; [by apply elem_of_nil in H|done].
  - cbn [OMap.set]. destruct (decide (k = k')) as [->|Hne].
    + cbn [fmap list_fmap fst].
      destruct (decide (k' ∈ k' :: m.*1)) as [H|H]; [done|].
      exfalso. apply H, list_elem_of_here.
    + cbn [fmap list_fmap fst]. fold (fmap (M := list) (@fst K V)).
      rewrite IH.
      destruct (decide (k ∈ m.*1)) as [Hin|Hin];
        destruct (decide (k ∈ k' :: m.*1)) as [Hin'|Hin']; try done.
      * exfalso. apply Hin'. by apply list_elem_of_further.
      * exfalso. apply elem_of_cons in Hin' as [?|?]; done.
Qed.

Lemma keys_delete {K V} `{EqDecision K} (k : K) (m : list (K * V)) :
  OMap.keys (OMap.delete k m) = filter (λ k', k' ≠ k) (OMap.keys m).
Proof.
  unfold OMap.keys. induction m as [|[k' v'] m IH]; [done|].
  cbn [OMap.delete]. destruct (decide (k = k')) as [->|Hne]; csimpl.
  - rewrite filter_cons_False; [done|]. intros H. by apply H.
  - rewrite filter_cons_True by done. by rewrite IH.
Qed.

Lemma length_set_delete k s :
  NoDup s → k ∈ s → S (length (set_delete k s)) = length s.
Proof.
  unfold set_delete. induction 1 as [|x s Hx Hs IH]; [by intros ?%elem_of_nil|].
  intros [->|Hin]%elem_of_cons.
  - rewrite filter_cons_False by (intros H; by apply H). simpl. f_equal.
    clear IH. induction s as [|y s IH]; [done|].
    apply not_elem_of_cons in Hx as [Hne Hx]. apply NoDup_cons in Hs as [_ Hs].
    rewrite filter_cons_True by done. simpl. f_equal. by apply IH.
  - rewrite filter_cons_True by (intros ->; done). simpl. f_equal. by apply IH.
Qed.

Lemma set_delete_absent k s : k ∉ s → set_delete k s = s.
Proof.
  unfold set_delete. induction s as [|x s IH]; [done|].
  intros [Hne Hs]%not_elem_of_cons.
  rewrite filter_cons_True by done. f_equal. by apply IH.
Qed.

Lemma pruneCacheEntry_fields k st st' :
  pruneCacheEntry k st = Some st' →
  keys st' = set_delete k (keys st)
  ∧ cache st' = OMap.delete k (cache st)
  ∧ pendingCacheKey st' = pendingCacheKey st
  ∧ current st' = current st
  ∧ next st' = next st
  ∧ (∀ x, is_Some (heap st !! x) → is_Some (heap st' !! x)).
Proof.
  unfold pruneCacheEntry.
  destruct (OMap.get k (cache st)) as [cached|]; simpl; [|done].
  assert (Hreset : ∀ v s, resetShapeFlag v st = Some s →
            keys s = keys st ∧ cache s = cache st
            ∧ pendingCacheKey s = pendingCacheKey st ∧ current s = current st
            ∧ next s = next st ∧ unmounted s = unmounted st
            ∧ ∀ x, is_Some (heap st !! x) → is_Some (heap s !! x)).
  { intros v s. unfold resetShapeFlag.
    destruct (heap st !! v) as [vn|] eqn:Hv; simpl; [|done].
    intros [= <-]. simpl. split_and!; try done.
    intros x Hx. rewrite lookup_insert_is_Some.
    destruct (decide (v = x)); [by left|by right]. }
  assert (Hunmount : ∀ v s, unmount v st = Some s →
            keys s = keys st ∧ cache s = cache st
            ∧ pendingCacheKey s = pendingCacheKey st ∧ current s = current st
            ∧ next s = next st
            ∧ ∀ x, is_Some (heap st !! x) → is_Some (heap s !! x)).
  { intros v s. unfold unmount.
    destruct (resetShapeFlag v st) as [s1|] eqn:Hr; simpl; [|done].
    intros [= <-]. simpl.
    by destruct (Hreset v s1 Hr) as (? & ? & ? & ? & ? & ? & ?). }
  intros H.
  assert (∃ s, Some s = Some s ∧
            keys s = keys st ∧ cache s = cache st
            ∧ pendingCacheKey s = pendingCacheKey st ∧ current s = current st
            ∧ next s = next st
            ∧ (∀ x, is_Some (heap st !! x) → is_Some (heap s !! x))
            ∧ st' = set_keys (set_delete k (keys s))
                      (set_cache (OMap.delete k (cache s)) s))
    as (s & _ & H1 & H2 & H3 & H4 & H5 & H6 & ->).
  { destruct (current st) as [cur|].
    - destruct (heap st !! cached) as [c|]; simpl in H; [|done].
      destruct (heap st !! cur) as [n|]; simpl in H; [|done].
      destruct (negb (isSameVNodeType c n)).
      + destruct (unmount cached st) as [s|] eqn:Hu; simpl in H; [|done].
        injection H as <-. exists s. split; [done|].
        by destruct (Hunmount _ _ Hu) as (? & ? & ? & ? & ? & ?).
      + destruct (resetShapeFlag cur st) as [s|] eqn:Hu; simpl in H; [|done].
        injection H as <-. exists s. split; [done|].
        by destruct (Hreset _ _ Hu) as (? & ? & ? & ? & ? & ? & ?).
    - destruct (unmount cached st) as [s|] eqn:Hu; simpl in H; [|done].
      injection H as <-. exists s. split; [done|].
      by destruct (Hunmount _ _ Hu) as (? & ? & ? & ? & ? & ?). }
  simpl. by rewrite H1, H2.
Qed.

Section cache_bound.
Variable getComponentName : VNode → option string.
Variable isSuspense : Component → bool.
Variable props : KeepAliveProps.

(** What a render does to the key set and the cache, on each of its
    paths. *)
Lemma render_keys slot st r st' :
  render getComponentName isSuspense props slot st = Some (r, st') →
  (pendingCacheKey st' = None ∧ keys st' = keys st ∧ cache st' = cache st)
  ∨ (∃ k, pendingCacheKey st' = Some k ∧ cache st' = cache st
       ∧ ((is_Some (OMap.get k (cache st))
           ∧ keys st' = set_delete k (keys st) ++ [k])
          ∨ (OMap.get k (cache st) = None
             ∧ over_max props (length (set_add k (keys st))) = false
             ∧ keys st' = set_add k (keys st))))
  ∨ (∃ k oldest, pendingCacheKey st' = Some k
       ∧ OMap.get k (cache st) = None
       ∧ over_max props (length (set_add k (keys st))) = true
       ∧ set_first (set_add k (keys st)) = Some oldest
       ∧ keys st' = set_delete oldest (set_add k (keys st))
       ∧ cache st' = OMap.delete oldest (cache st)).
Proof.
  unfold render. destruct slot as [children|]; [|intros [= <- <-]; by left].
  destruct (decide (1 < length children)%nat); [intros [= <- <-]; by left|].
  destruct (children !! 0%nat) as [[raw|]|]; try (intros [= <- <-]; by left).
  change (heap (set_pendingCacheKey None st)) with (heap st).
  destruct (heap st !! raw) as [rv|] eqn:Hraw; simpl; [|done].
  destruct (negb _ && negb _); [intros [= <- <-]; by left|].
  change (getInnerChild raw (set_pendingCacheKey None st))
    with (getInnerChild raw st).
  destruct (getInnerChild raw st) as [v|]; simpl; [|done].
  destruct (heap st !! v) as [vn|] eqn:Hvn; simpl; [|done].
  destruct (filtered_out props (getComponentName vn));
    [intros [= <- <-]; by left|].
  set (k := cache_key vn).
  destruct (match el vn with Some _ => _ | None => _ end) as [v1 st1] eqn:Hcl.
  destruct (clone_frame _ _ _ _ _ _ _ Hcl Hvn)
    as (Hca & Hke & _ & _ & Hfr & Hv1 & _).
  simpl in Hca, Hke, Hfr.
  destruct (OMap.get k (cache st)) as [c|] eqn:Hget.
  - simpl. destruct (heap st1 !! c) as [cv|]; simpl; [|done].
    destruct (heap st1 !! v1) as [vn1|]; simpl; [|done].
    rewrite lookup_insert_eq. simpl. intros [= <- <-]. simpl.
    right. left. exists k. rewrite Hca, Hke, Hget, set_add_delete.
    split; [done|]. split; [done|]. left. by split.
  - simpl. rewrite Hke.
    destruct (over_max props (length (set_add k (keys st)))) eqn:Hov.
    + destruct (set_first (set_add k (keys st))) as [oldest|] eqn:Hold;
        simpl; [|done].
      destruct (pruneCacheEntry oldest _) as [st3|] eqn:Hp; simpl; [|done].
      apply pruneCacheEntry_fields in Hp as (P1 & P2 & P3 & _).
      simpl in P1, P2, P3.
      destruct (heap st3 !! v1) as [vn3|]; simpl; [|done].
      intros [= <- <-]. simpl. right. right. exists k, oldest.
      rewrite P1, P2, P3, Hca. done.
    + simpl. destruct (heap st1 !! v1) as [vn1|]; simpl; [|done].
      intros [= <- <-]. simpl. right. left. exists k.
      rewrite Hca. split; [done|]. split; [done|]. right. done.
Qed.

(** The cache between two renders: the key set and the keys of the cache
    hold no key twice, every cached key is in the key set, and the key set
    holds at most [m] keys. *)
Record cache_inv (m : nat) (st : State) : Prop := {
  ci_keys : NoDup (keys st);
  ci_cache : NoDup (OMap.keys (cache st));
  ci_sub : ∀ k, k ∈ OMap.keys (cache st) → k ∈ keys st;
  ci_max : (length (keys st) ≤ m)%nat;
}.

Lemma cache_inv_size m st : cache_inv m st → (length (cache st) ≤ m)%nat.
Proof.
  intros [H1 H2 H3 H4].
  replace (length (cache st)) with (length (OMap.keys (cache st)))
    by (unfold OMap.keys; apply length_fmap).
  etrans; [|exact H4]. apply submseteq_length. by apply NoDup_submseteq.
Qed.

Lemma cacheSubtree_fields st st' :
  cacheSubtree st = Some st' →
  keys st' = keys st
  ∧ match pendingCacheKey st with
    | Some k => ∃ v, cache st' = OMap.set k v (cache st)
    | None => cache st' = cache st
    end.
Proof.
  unfold cacheSubtree. destruct (pendingCacheKey st) as [k|].
  - destruct (subTree st) as [t|]; simpl; [|done].
    destruct (getInnerChild t st) as [v|]; simpl; [|done].
    intros [= <-]. split; [done|]. by exists v.
  - by intros [= <-].
Qed.

Lemma cache_inv_set m k v (ks : list CacheKey) (c : list (CacheKey * VNodeId)) :
  NoDup ks → NoDup (OMap.keys c) → (∀ x, x ∈ OMap.keys c → x ∈ ks) →
  k ∈ ks → (length ks ≤ m)%nat →
  NoDup (OMap.keys (OMap.set k v c))
  ∧ (∀ x, x ∈ OMap.keys (OMap.set k v c) → x ∈ ks).
Proof.
  intros H1 H2 H3 Hk H4. rewrite keys_set.
  destruct (decide (k ∈ OMap.keys c)) as [Hin|Hin]; [done|]. split.
  - apply NoDup_app. split; [done|]. split; [|apply NoDup_singleton].
    intros x Hx ->%list_elem_of_singleton. done.
  - intros x [Hx| ->%list_elem_of_singleton]%elem_of_app; [by apply H3|done].
Qed.

Lemma cache_inv_pruneCacheEntry m k st st' :
  cache_inv m st → pruneCacheEntry k st = Some st' → cache_inv m st'.
Proof.
  intros [H1 H2 H3 H4] (P1 & P2 & _)%pruneCacheEntry_fields. split.
  - rewrite P1. by apply set_delete_NoDup.
  - rewrite P2, keys_delete. by apply NoDup_filter.
  - intros x. rewrite P1, P2, keys_delete, list_elem_of_filter.
    intros [Hne Hx]. apply elem_of_set_delete. split; [done|by apply H3].
  - rewrite P1. etrans; [|exact H4]. unfold set_delete. apply length_filter.
Qed.

Lemma over_max_false m (size : nat) :
  max props = Some (Z.of_nat m) → (1 ≤ m)%nat →
  over_max props size = false → (size ≤ m)%nat.
Proof.
  unfold over_max. intros -> Hm.
  destruct (Z.eqb_spec (Z.of_nat m) 0) as [?|_]; [lia|]. simpl.
  intros H%Z.ltb_ge. lia.
Qed.

Lemma over_max_true m (size : nat) :
  max props = Some (Z.of_nat m) →
  over_max props size = true → (m < size)%nat.
Proof.
  unfold over_max. intros ->.
  intros [_ H%Z.ltb_lt]%andb_true_iff. lia.
Qed.

Lemma cache_inv_render_and_cache m slot st st' :
  max props = Some (Z.of_nat m) → (1 ≤ m)%nat →
  cache_inv m st →
  render_and_cache getComponentName isSuspense props slot st = Some st' →
  cache_inv m st'.
Proof.
  intros Hmax Hm Hinv. unfold render_and_cache.
  destruct (render _ _ _ slot st) as [[r st1]|] eqn:Hr; simpl; [|done].
  set (st2 := match r with
              | RVNode v => set_subTree (Some v) st1
              | RChild (Some (ChildVNode v)) => set_subTree (Some v) st1
              | _ => set_subTree None st1
              end).
  assert (Hst2 : keys st2 = keys st1 ∧ cache st2 = cache st1
                 ∧ pendingCacheKey st2 = pendingCacheKey st1).
  { subst st2. destruct r as [| |[[]|]|]; done. }
  destruct Hst2 as (K2 & C2 & P2).
  intros (K3 & C3)%cacheSubtree_fields. rewrite P2 in C3. rewrite K2 in K3.
  destruct Hinv as [H1 H2 H3 H4].
  apply render_keys in Hr
    as [(Hp & Hk & Hc)|[(k & Hp & Hc & Hk)|(k & oldest & Hp & Hg & Hov & Hold & Hk & Hc)]].
  - rewrite Hp in C3. rewrite C2, Hc in C3.
    split; rewrite ?K3, ?C3, ?Hk; done.
  - rewrite Hp in C3. destruct C3 as [v C3]. rewrite C2, Hc in C3.
    assert (Hks : NoDup (keys st1) ∧ k ∈ keys st1
                  ∧ (∀ x, x ∈ keys st → x ∈ keys st1)
                  ∧ (length (keys st1) ≤ m)%nat).
    { destruct Hk as [[Hsome ->]|(Hnone & Hov & ->)].
      - assert (Hin : k ∈ keys st).
        { destruct Hsome as [c Hc']. apply H3. by eapply OMap.get_Some_keys. }
        split_and!.
        + rewrite <- set_add_delete. by apply set_add_NoDup, set_delete_NoDup.
        + apply elem_of_app. right. apply list_elem_of_here.
        + intros x Hx. apply elem_of_app. destruct (decide (x = k)) as [->|Hne].
          * right. apply list_elem_of_here.
          * left. by apply elem_of_set_delete.
        + rewrite length_app. simpl.
          pose proof (length_set_delete k (keys st) H1 Hin). lia.
      - split_and!.
        + by apply set_add_NoDup.
        + unfold set_add. destruct (decide (k ∈ keys st)); [done|].
          apply elem_of_app. right. apply list_elem_of_here.
        + intros x Hx. unfold set_add. destruct (decide (k ∈ keys st)); [done|].
          apply elem_of_app. by left.
        + by eapply over_max_false. }
    destruct Hks as (N1 & N2 & N3 & N4).
    destruct (cache_inv_set m k v (keys st1) (cache st) N1 H2) as [Q1 Q2];
      [by intros x Hx; apply N3, H3|done|done|].
    split; rewrite ?K3, ?C3; done.
  - rewrite Hp in C3. destruct C3 as [v C3]. rewrite C2, Hc in C3.
    apply (over_max_true m) in Hov; [|done].
    assert (Hk' : k ∉ keys st).
    { intros Hin. unfold set_add in Hov. rewrite decide_True in Hov by done. lia. }
    assert (Hadd : set_add k (keys st) = keys st ++ [k]).
    { unfold set_add. by rewrite decide_False. }
    rewrite Hadd in Hold, Hk, Hov. rewrite length_app in Hov. simpl in Hov.
    assert (Ho : oldest ∈ keys st).
    { unfold set_first in Hold. destruct (keys st) as [|y ks] eqn:E.
      - simpl in H4, Hov. lia.
      - simpl in Hold. injection Hold as ->. apply list_elem_of_here. }
    assert (Hne : k ≠ oldest) by (intros ->; done).
    assert (N0 : NoDup (keys st ++ [k])).
    { rewrite <- Hadd. by apply set_add_NoDup. }
    assert (N1 : NoDup (keys st1)) by (rewrite Hk; by apply set_delete_NoDup).
    assert (N2 : k ∈ keys st1).
    { rewrite Hk. apply elem_of_set_delete. split; [done|].
      apply elem_of_app. right. apply list_elem_of_here. }
    assert (N4 : (length (keys st1) ≤ m)%nat).
    { rewrite Hk.
      pose proof (length_set_delete oldest (keys st ++ [k]) N0) as HL.
      rewrite length_app in HL. simpl in HL.
      specialize (HL ltac:(apply elem_of_app; by left)). lia. }
    destruct (cache_inv_set m k v (keys st1) (OMap.delete oldest (cache st)) N1)
      as [Q1 Q2]; [| |done|done|].
    + rewrite keys_delete. by apply NoDup_filter.
    + intros x. rewrite keys_delete, list_elem_of_filter. intros [Hx1 Hx2].
      rewrite Hk. apply elem_of_set_delete. split; [done|].
      apply elem_of_app. left. by apply H3.
    + split; rewrite ?K3, ?C3; done.
Qed.

Lemma cache_inv_pruneCache m filter st st' :
  cache_inv m st → pruneCache getComponentName filter st = Some st' →
  cache_inv m st'.
Proof.
  unfold pruneCache. generalize (cache st). intros l. revert st.
  induction l as [|[k v] l IH]; intros st Hinv; simpl.
  - by intros [= <-].
  - destruct (OMap.get k (cache st)) as [v'|]; [|by apply IH].
    destruct (heap st !! v') as [vn|]; simpl.
    + destruct (truthy _ && _); [|by apply IH].
      destruct (pruneCacheEntry k st) as [s|] eqn:Hp.
      * apply IH. by eapply cache_inv_pruneCacheEntry.
      * intros H. exfalso. clear -H. induction l as [|[] l IHl]; [done|].
        by apply IHl.
    + intros H. exfalso. clear -H. induction l as [|[] l IHl]; [done|].
      by apply IHl.
Qed.

End cache_bound.

(** What happens to a KeepAlive instance between its setup and its
    unmounting: it renders with the children its slot returns, the mounted
    or updated hook following, or the watcher on [include] and [exclude]
    prunes the cache. *)
Inductive Event :=
  | EvRender (slot : option (list Child))
  | EvPrune (filter : option (string → bool)).

Definition event (getComponentName : VNode → option string)
    (isSuspense : Component → bool) (props : KeepAliveProps)
    (ev : Event) (st : State) : option State :=
  match ev with
  | EvRender slot => render_and_cache getComponentName isSuspense props slot st
  | EvPrune filter => pruneCache getComponentName filter st
  end.

Definition events (getComponentName : VNode → option string)
    (isSuspense : Component → bool) (props : KeepAliveProps)
    (evs : list Event) (st : State) : option State :=
  foldl (λ acc ev, acc ≫= event getComponentName isSuspense props ev)
    (Some st) evs.

(** X7. With [max] a number of at least 1, the cache of a KeepAlive
    instance never holds more than [max] vnodes, and its key set never more
    than [max] keys, whatever it renders and however its cache is pruned;
    no key is cached twice, and every cached key is in the key set. *)
Theorem cache_never_exceeds_max getComponentName isSuspense props
    (m : nat) h n evs st' :
  max props = Some (Z.of_nat m) → (1 ≤ m)%nat →
  events getComponentName isSuspense props evs (initial h n) = Some st' →
  (length (cache st') ≤ m)%nat
  ∧ (length (keys st') ≤ m)%nat
  ∧ NoDup (OMap.keys (cache st'))
  ∧ (∀ k, k ∈ OMap.keys (cache st') → k ∈ keys st').
Proof.
  intros Hmax Hm Hev.
  assert (Hinv : cache_inv m st').
  { assert (H0 : cache_inv m (initial h n)).
    { split; simpl; [apply NoDup_nil_2|apply NoDup_nil_2| |lia].
      by intros k ?%elem_of_nil. }
    revert Hev H0. unfold events. generalize (initial h n). intros st.
    revert st. induction evs as [|ev evs IH]; intros st; simpl.
    - by intros [= <-].
    - destruct (event _ _ _ ev st) as [s|] eqn:He.
      + intros Hev H0. apply (IH s Hev).
        destruct ev; simpl in He.
        * by eapply cache_inv_render_and_cache.
        * by eapply cache_inv_pruneCache.
      + intros H. exfalso. clear -H. induction evs as [|e evs IHe]; [done|].
        by apply IHe. }
  split; [by eapply cache_inv_size|]. by destruct Hinv.
Qed.

(** A, B and C shown in turn, the cache pruned of every named component,
    then A shown again. *)
Definition five_events : list Event :=
  [EvRender (Some [ChildVNode 0%nat]); EvRender (Some [ChildVNode 1%nat]);
   EvRender (Some [ChildVNode 2%nat]); EvPrune None;
   EvRender (Some [ChildVNode 0%nat])].

Definition state_after_five_events : State :=
  default (initial three_children 3%nat)
    (events (λ _, None) (λ _, false) max_two five_events
       (initial three_children 3%nat)).

Lemma cache_never_exceeds_max_witness :
  (length (cache state_after_five_events) ≤ 2)%nat
  ∧ (length (keys state_after_five_events) ≤ 2)%nat
  ∧ NoDup (OMap.keys (cache state_after_five_events))
  ∧ (∀ k, k ∈ OMap.keys (cache state_after_five_events)
          → k ∈ keys state_after_five_events).
Proof.
  apply (cache_never_exceeds_max (λ _, None) (λ _, false) max_two 2
           three_children 3%nat five_events);
    [reflexivity|lia|vm_compute; reflexivity].
Defined.

(** ** The keep-alive bits of a rendered vnode *)

Lemma has_flag_testbit f i : 0 ≤ i → has_flag f (2 ^ i) = Z.testbit f i.
Proof.
  intros Hi. unfold has_flag. destruct (Z.testbit f i) eqn:Hb.
  - destruct (Z.eqb_spec (Z.land f (2 ^ i)) 0) as [H0|]; [|done].
    assert (Ht : Z.testbit (Z.land f (2 ^ i)) i = false)
      by (rewrite H0; apply Z.bits_0).
    rewrite Z.land_spec, Hb, Z.pow2_bits_true in Ht by done. done.
  - replace (Z.land f (2 ^ i)) with 0; [done|].
    symmetry. apply Z.bits_inj'. intros j Hj.
    rewrite Z.land_spec, Z.bits_0, Z.pow2_bits_eqb by done.
    destruct (Z.eqb_spec i j) as [->|_]; [by rewrite Hb|by rewrite andb_false_r].
Qed.



(** The clone the render function works on when the vnode is mounted
    already: it is a copy of the vnode, and the mounted state of every
    other vnode is as before. *)
Lemma clone_heap raw v vn rv st v1 st1 c cv :
  match el vn with
  | Some _ => clone raw v vn rv st
  | None => (v, st)
  end = (v1, st1) →
  heap st !! raw = Some rv →
  heap st !! v = Some vn →
  heap st !! c = Some cv →
  heap st !! next st = None →
  heap st1 !! v1 = Some vn
  ∧ ∃ cv1, heap st1 !! c = Some cv1
      ∧ el cv1 = el cv ∧ component cv1 = component cv.
Proof.
  intros Hcl Hraw Hv Hc Hfresh. destruct (el vn) as [e|].
  - unfold clone in Hcl. injection Hcl as <- <-.
    assert (Hr : raw ≠ next st) by (intros ->; by rewrite Hfresh in Hraw).
    assert (Hcn : c ≠ next st) by (intros ->; by rewrite Hfresh in Hc).
    cbn [heap set_next set_heap].
    destruct (has_flag (shapeFlag rv) ShapeFlags.SUSPENSE).
    + split.
      * by rewrite lookup_insert_ne, lookup_insert_eq.
      * destruct (decide (raw = c)) as [->|Hne].
        -- rewrite lookup_insert_eq. eexists. split; [done|].
           rewrite Hraw in Hc. by injection Hc as <-.
        -- rewrite !lookup_insert_ne by done. by exists cv.
    + split; [by rewrite lookup_insert_eq|].
      rewrite lookup_insert_ne by done. by exists cv.
  - injection Hcl as <- <-. split; [done|]. by exists cv.
Qed.

Lemma has_flag_lor f i j :
  0 ≤ i → 0 ≤ j →
  has_flag (Z.lor f (2 ^ j)) (2 ^ i)
  = if decide (i = j) then true else has_flag f (2 ^ i).
Proof.
  intros Hi Hj. rewrite !has_flag_testbit by done.
  rewrite Z.lor_spec, Z.pow2_bits_eqb by done.
  destruct (decide (i = j)) as [->|Hne].
  - by rewrite Z.eqb_refl, orb_true_r.
  - destruct (Z.eqb_spec j i); [done|]. by rewrite orb_false_r.
Qed.

(** X9. On a cache hit the vnode the render function returns is revived,
    not mounted afresh: it takes the [el] and the [component] of the
    cached vnode and carries both keep-alive bits, its type, its key and
    its other shape bits being those of the child; it is the current
    vnode. *)
Theorem cache_hit_reuses_mounted_instance
    (getComponentName : VNode → option string) (isSuspense : Component → bool)
    (props : KeepAliveProps) (raw v c : VNodeId) (rv vn cv : VNode)
    (st : State) :
  heap st !! raw = Some rv →
  negb (has_flag (shapeFlag rv) ShapeFlags.STATEFUL_COMPONENT)
    && negb (has_flag (shapeFlag rv) ShapeFlags.SUSPENSE) = false →
  getInnerChild raw st = Some v →
  heap st !! v = Some vn →
  filtered_out props (getComponentName vn) = false →
  OMap.get (cache_key vn) (cache st) = Some c →
  heap st !! c = Some cv →
  heap st !! next st = None →
  ∃ r st' v1 vn',
    render getComponentName isSuspense props (Some [ChildVNode raw]) st
      = Some (r, st')
    ∧ r = (if isSuspense (type rv) then RVNode raw else RVNode v1)
    ∧ current st' = Some v1
    ∧ heap st' !! v1 = Some vn'
    ∧ type vn' = type vn ∧ key vn' = key vn
    ∧ el vn' = el cv ∧ component vn' = component cv
    ∧ has_flag (shapeFlag vn') ShapeFlags.COMPONENT_KEPT_ALIVE = true
    ∧ has_flag (shapeFlag vn') ShapeFlags.COMPONENT_SHOULD_KEEP_ALIVE = true
    ∧ has_flag (shapeFlag vn') ShapeFlags.STATEFUL_COMPONENT
      = has_flag (shapeFlag vn) ShapeFlags.STATEFUL_COMPONENT
    ∧ has_flag (shapeFlag vn') ShapeFlags.SUSPENSE
      = has_flag (shapeFlag vn) ShapeFlags.SUSPENSE.
Proof.
  intros Hraw Hflags Hinner Hv Hfilt Hget Hc Hfresh.
  unfold render. cbn [length lookup list_lookup].
  rewrite decide_False by (simpl; lia).
  change (heap (set_pendingCacheKey None st)) with (heap st).
  rewrite Hraw. cbn [mbind option_bind]. rewrite Hflags.
  change (getInnerChild raw (set_pendingCacheKey None st))
    with (getInnerChild raw st).
  rewrite Hinner. cbn [mbind option_bind]. rewrite Hv.
  cbn [mbind option_bind]. rewrite Hfilt.
  change (cache (set_pendingCacheKey None st)) with (cache st).
  rewrite Hget.
  destruct (match el vn with Some _ => _ | None => _ end) as [v1 st1] eqn:Hcl.
  destruct (clone_heap raw v vn rv (set_pendingCacheKey None st) v1 st1 c cv
              Hcl Hraw Hv Hc Hfresh)
    as (Hv1 & cv1 & Hc1 & Hel & Hcomp).
  change (heap (set_pendingCacheKey (Some (cache_key vn)) st1)) with (heap st1).
  rewrite Hc1. cbn [mbind option_bind]. rewrite Hv1. cbn [mbind option_bind].
  cbn [heap set_keys set_heap]. rewrite lookup_insert_eq.
  cbn [mbind option_bind].
  eexists _, _, v1, _. split; [reflexivity|]. split; [reflexivity|].
  split; [reflexivity|]. cbn [heap set_current set_heap].
  rewrite lookup_insert_eq. split; [reflexivity|].
  cbn [type key el component shapeFlag with_shapeFlag with_mounted].
  rewrite Hel, Hcomp. split_and!; try done.
  - change ShapeFlags.COMPONENT_SHOULD_KEEP_ALIVE with (2 ^ 8).
    change ShapeFlags.COMPONENT_KEPT_ALIVE with (2 ^ 9).
    by rewrite !has_flag_lor by lia.
  - change ShapeFlags.COMPONENT_SHOULD_KEEP_ALIVE with (2 ^ 8).
    change ShapeFlags.COMPONENT_KEPT_ALIVE with (2 ^ 9).
    by rewrite !has_flag_lor by lia.
  - change ShapeFlags.COMPONENT_SHOULD_KEEP_ALIVE with (2 ^ 8).
    change ShapeFlags.COMPONENT_KEPT_ALIVE with (2 ^ 9).
    change ShapeFlags.STATEFUL_COMPONENT with (2 ^ 2).
    by rewrite !has_flag_lor by lia.
  - change ShapeFlags.COMPONENT_SHOULD_KEEP_ALIVE with (2 ^ 8).
    change ShapeFlags.COMPONENT_KEPT_ALIVE with (2 ^ 9).
    change ShapeFlags.SUSPENSE with (2 ^ 7).
    by rewrite !has_flag_lor by lia.
Qed.

(** Component A is cached with its mounted vnode, and a new vnode of A
    comes from the slot. *)
Definition mounted_A : State :=
  mkState
    {[ 0%nat := mkVNode 10%nat None 260 (Some 7%nat) (Some 70%nat) None;
       5%nat := component_vnode 10%nat ]}
    6%nat [(ByComponent 10%nat, 0%nat)] [ByComponent 10%nat]
    None None None [].

Lemma cache_hit_reuses_mounted_instance_witness :
  ∃ r st' v1 vn',
    render (λ _, None) (λ _, false) max_two (Some [ChildVNode 5%nat]) mounted_A
      = Some (r, st')
    ∧ r = RVNode v1
    ∧ current st' = Some v1
    ∧ heap st' !! v1 = Some vn'
    ∧ type vn' = 10%nat ∧ key vn' = None
    ∧ el vn' = Some 7%nat ∧ component vn' = Some 70%nat
    ∧ has_flag (shapeFlag vn') ShapeFlags.COMPONENT_KEPT_ALIVE = true
    ∧ has_flag (shapeFlag vn') ShapeFlags.COMPONENT_SHOULD_KEEP_ALIVE = true
    ∧ has_flag (shapeFlag vn') ShapeFlags.STATEFUL_COMPONENT = true
    ∧ has_flag (shapeFlag vn') ShapeFlags.SUSPENSE = false.
Proof.
  apply (cache_hit_reuses_mounted_instance (λ _, None) (λ _, false) max_two
           5%nat 5%nat 0%nat (component_vnode 10%nat) (component_vnode 10%nat)
           (mkVNode 10%nat None 260 (Some 7%nat) (Some 70%nat) None)
           mounted_A); vm_compute; reflexivity.
Defined.

(** ** Pruning by [include] and [exclude] *)

Section prune.
Variable getComponentName : VNode → option string.
(** The name is that of the component, [getComponentName(vnode.type)]: it
    does not depend on the shape flag. *)
Hypothesis name_by_type : ∀ f vn,
  getComponentName (with_shapeFlag f vn) = getComponentName vn.

(** The callback of the watcher on [include] and [exclude]:
    [include && pruneCache(name => matches(include, name))], then
    [exclude && pruneCache(name => !matches(exclude, name))]. *)
Definition prune_on_change (props : KeepAliveProps) (st : State) : option State :=
  st1 ← match include props with
        | Some inc => pruneCache getComponentName (Some (matches inc)) st
        | None => Some st
        end;
  match exclude props with
  | Some exc =>
      pruneCache getComponentName (Some (λ name, negb (matches exc name))) st1
  | None => Some st1
  end.

(** The name of the component of a vnode. *)
Definition name_of (st : State) (v : VNodeId) : option string :=
  heap st !! v ≫= getComponentName.

(** The test of [pruneCache]: [name && (!filter || !filter(name))]. *)
Definition prunes (filter : option (string → bool)) (name : option string) : bool :=
  truthy name
  && match filter, name with
     | Some f, Some n => negb (f n)
     | _, _ => true
     end.

(** What one of the two calls of the watcher prunes: nothing when the prop
    is not set. *)
Definition prunes_if (flt : option (string → bool)) (name : option string) : bool :=
  match flt with
  | Some f => prunes (Some f) name
  | None => false
  end.

(** A named component that [include] does not match or [exclude]
    matches. *)
Definition rejected (props : KeepAliveProps) (name : option string) : bool :=
  prunes_if (matches <$> include props) name
  || prunes_if ((λ exc n, negb (matches exc n)) <$> exclude props) name.

Lemma filter_all_true {A} (P : A → Prop) `{∀ x, Decision (P x)} (l : list A) :
  (∀ x, P x) → filter P l = l.
Proof.
  intros HP. induction l as [|x l IH]; [done|].
  rewrite filter_cons_True by done. by f_equal.
Qed.

Lemma filter_all_false {A} (P : A → Prop) `{∀ x, Decision (P x)} (l : list A) :
  (∀ x, ¬ P x) → filter P l = [].
Proof.
  intros HP. induction l as [|x l IH]; [done|].
  by rewrite filter_cons_False by apply HP.
Qed.

Lemma get_app_absent (k : CacheKey) (l1 l2 : list (CacheKey * VNodeId)) :
  k ∉ OMap.keys l1 → OMap.get k (l1 ++ l2) = OMap.get k l2.
Proof.
  unfold OMap.keys. induction l1 as [|[k' v'] l1 IH]; [done|].
  csimpl. intros [Hne Hin]%not_elem_of_cons.
  rewrite decide_False by done. by apply IH.
Qed.

Lemma delete_absent (k : CacheKey) (l : list (CacheKey * VNodeId)) :
  k ∉ OMap.keys l → OMap.delete k l = l.
Proof.
  unfold OMap.keys. induction l as [|[k' v'] l IH]; [done|].
  csimpl. intros [Hne Hin]%not_elem_of_cons.
  rewrite decide_False by done. f_equal. by apply IH.
Qed.

Lemma delete_app_absent (k : CacheKey) (l1 l2 : list (CacheKey * VNodeId)) :
  k ∉ OMap.keys l1 → OMap.delete k (l1 ++ l2) = l1 ++ OMap.delete k l2.
Proof.
  unfold OMap.keys. induction l1 as [|[k' v'] l1 IH]; [done|].
  csimpl. intros [Hne Hin]%not_elem_of_cons.
  rewrite decide_False by done. f_equal. by apply IH.
Qed.

Lemma resetShapeFlag_names v st st' :
  resetShapeFlag v st = Some st' → ∀ x, name_of st' x = name_of st x.
Proof.
  unfold resetShapeFlag, name_of.
  destruct (heap st !! v) as [vn|] eqn:Hv; simpl; [|done].
  intros [= <-] x. simpl. destruct (decide (v = x)) as [<-|Hne].
  - rewrite lookup_insert_eq, Hv. simpl. apply name_by_type.
  - by rewrite lookup_insert_ne.
Qed.

Lemma pruneCacheEntry_names k st st' :
  pruneCacheEntry k st = Some st' → ∀ x, name_of st' x = name_of st x.
Proof.
  unfold pruneCacheEntry.
  destruct (OMap.get k (cache st)) as [cached|]; simpl; [|done].
  assert (Hunmount : ∀ v s, unmount v st = Some s →
            ∀ x, name_of s x = name_of st x).
  { intros v s. unfold unmount.
    destruct (resetShapeFlag v st) as [s1|] eqn:Hr; simpl; [|done].
    intros [= <-] x. by rewrite <- (resetShapeFlag_names _ _ _ Hr x). }
  intros H.
  assert (∃ s, (∀ x, name_of s x = name_of st x)
            ∧ st' = set_keys (set_delete k (keys s))
                      (set_cache (OMap.delete k (cache s)) s))
    as (s & Hs & ->).
  { destruct (current st) as [cur|].
    - destruct (heap st !! cached) as [c|]; simpl in H; [|done].
      destruct (heap st !! cur) as [n|]; simpl in H; [|done].
      destruct (negb (isSameVNodeType c n)).
      + destruct (unmount cached st) as [s|] eqn:Hu; simpl in H; [|done].
        injection H as <-. exists s. split; [by eapply Hunmount|done].
      + destruct (resetShapeFlag cur st) as [s|] eqn:Hu; simpl in H; [|done].
        injection H as <-. exists s.
        split; [by eapply resetShapeFlag_names|done].
    - destruct (unmount cached st) as [s|] eqn:Hu; simpl in H; [|done].
      injection H as <-. exists s. split; [by eapply Hunmount|done]. }
  exact Hs.
Qed.

(** The loop of [pruneCache] with the entries [seen] visited and the
    entries [todo] to come. *)
Lemma pruneCache_loop flt st0 (todo : list (CacheKey * VNodeId)) :
  ∀ (seen : list (CacheKey * VNodeId)) st st',
  NoDup (OMap.keys (seen ++ todo)) →
  cache st = filter (λ kv, prunes flt (name_of st0 kv.2) = false) seen ++ todo →
  keys st
  = filter (λ k, k ∉ (filter (λ kv, prunes flt (name_of st0 kv.2) = true) seen).*1)
      (keys st0) →
  (∀ x, name_of st x = name_of st0 x) →
  current st = current st0 →
  foldl (λ acc '(k, v),
           st' ← acc;
           match OMap.get k (cache st') with
           | None => Some st'
           | Some v' =>
               vn ← heap st' !! v';
               let name := getComponentName vn in
               if truthy name
                  && match flt, name with
                     | Some f, Some n => negb (f n)
                     | _, _ => true
                     end
               then pruneCacheEntry k st'
               else Some st'
           end) (Some st) todo = Some st' →
  cache st'
  = filter (λ kv, prunes flt (name_of st0 kv.2) = false) (seen ++ todo)
  ∧ keys st'
    = filter (λ k, k ∉ (filter (λ kv, prunes flt (name_of st0 kv.2) = true)
                          (seen ++ todo)).*1)
        (keys st0)
  ∧ (∀ x, name_of st' x = name_of st0 x)
  ∧ current st' = current st0.
Proof.
  induction todo as [|[k v] todo IH]; intros seen st st' Hnd Hc Hk Hn Hcur.
  { simpl. intros [= <-]. by rewrite app_nil_r in *. }
  cbn [foldl]. cbn [mbind option_bind].
  assert (Hk1 : (k ∉ OMap.keys seen) ∧ (k ∉ OMap.keys todo)).
  { unfold OMap.keys in *. rewrite fmap_app in Hnd. csimpl in Hnd.
    apply NoDup_app in Hnd as (_ & Hd & Ht). apply NoDup_cons in Ht as [Ht _].
    split; [|done]. intros Hin. apply (Hd _ Hin), list_elem_of_here. }
  destruct Hk1 as [Hkd Hkt].
  assert (Hkf : k ∉ OMap.keys
            (filter (λ kv, prunes flt (name_of st0 kv.2) = false) seen)).
  { intros Hin. apply Hkd. unfold OMap.keys in *.
    apply list_elem_of_fmap in Hin as (kv & -> & Hin).
    apply list_elem_of_filter in Hin as [_ Hin].
    apply list_elem_of_fmap. by exists kv. }
  assert (Hget : OMap.get k (cache st) = Some v).
  { rewrite Hc, get_app_absent by done. simpl. by rewrite decide_True. }
  rewrite Hget.
  assert (Hnd' : NoDup (OMap.keys ((seen ++ [(k, v)]) ++ todo))).
  { by rewrite <- app_assoc. }
  replace (seen ++ (k, v) :: todo) with ((seen ++ [(k, v)]) ++ todo)
    by (by rewrite <- app_assoc).
  destruct (heap st !! v) as [vn|] eqn:Hv; cbn [mbind option_bind].
  2:{ intros H. exfalso. clear -H. induction todo as [|[] l IHl]; [done|].
      by apply IHl. }
  assert (Hname : name_of st0 v = getComponentName vn).
  { rewrite <- Hn. unfold name_of. by rewrite Hv. }
  fold (prunes flt (getComponentName vn)). rewrite <- Hname.
  destruct (prunes flt (name_of st0 v)) eqn:Hp.
  - destruct (pruneCacheEntry k st) as [s|] eqn:Hs.
    2:{ intros H. exfalso. clear -H. induction todo as [|[] l IHl]; [done|].
        by apply IHl. }
    pose proof (pruneCacheEntry_names _ _ _ Hs) as Hns.
    apply pruneCacheEntry_fields in Hs as (P1 & P2 & _ & P4 & _).
    apply IH; [done| | | |by rewrite P4].
    + rewrite P2, Hc, delete_app_absent by done. simpl.
      rewrite decide_True by done. rewrite delete_absent by done.
      rewrite filter_app, filter_cons_False, filter_nil, app_nil_r; [done|].
      simpl. by rewrite Hp.
    + rewrite P1, Hk. unfold set_delete. rewrite list_filter_filter.
      apply list_filter_iff. intros x.
      rewrite filter_app, fmap_app, filter_cons_True, filter_nil by done.
      simpl. rewrite not_elem_of_app, not_elem_of_cons. 
      split; [intros [? ?]|intros (? & ? & ?)]; split_and!; try done.
      apply not_elem_of_nil.
    + intros x. by rewrite Hns.
  - apply IH; [done| | |done|done].
    + rewrite Hc, filter_app, filter_cons_True, filter_nil by done.
      by rewrite <- app_assoc.
    + rewrite Hk. apply list_filter_iff. intros x.
      rewrite filter_app, fmap_app, filter_cons_False, filter_nil, app_nil_r;
        [done|]. simpl. by rewrite Hp.
Qed.

Lemma pruneCache_spec flt st st' :
  NoDup (OMap.keys (cache st)) →
  pruneCache getComponentName flt st = Some st' →
  cache st' = filter (λ kv, prunes flt (name_of st kv.2) = false) (cache st)
  ∧ keys st'
    = filter (λ k, k ∉ (filter (λ kv, prunes flt (name_of st kv.2) = true)
                          (cache st)).*1)
        (keys st)
  ∧ (∀ x, name_of st' x = name_of st x)
  ∧ current st' = current st.
Proof.
  intros Hnd Hp. unfold pruneCache in Hp.
  apply (pruneCache_loop flt st (cache st) [] st st'); try done.
  symmetry. apply filter_all_true. intros x. apply not_elem_of_nil.
Qed.

Lemma pruneCache_if_spec (flt : option (string → bool)) st st' :
  NoDup (OMap.keys (cache st)) →
  match flt with
  | Some f => pruneCache getComponentName (Some f) st
  | None => Some st
  end = Some st' →
  cache st' = filter (λ kv, prunes_if flt (name_of st kv.2) = false) (cache st)
  ∧ keys st'
    = filter (λ k, k ∉ (filter (λ kv, prunes_if flt (name_of st kv.2) = true)
                          (cache st)).*1)
        (keys st)
  ∧ (∀ x, name_of st' x = name_of st x)
  ∧ current st' = current st.
Proof.
  intros Hnd. destruct flt as [f|]; [by apply pruneCache_spec|].
  intros [= <-]. simpl. split_and!; try done.
  - symmetry. by apply filter_all_true.
  - symmetry. apply filter_all_true. intros k.
    rewrite filter_all_false by done. apply not_elem_of_nil.
Qed.

(** X20. When [include] or [exclude] change, the watcher prunes the cache
    of exactly the entries whose component has a name that [include] does
    not match or [exclude] matches; the other entries stay, in their order,
    as do their keys in the key set, and components without a name are
    never pruned.  Every named component left in the cache is matched by
    [include] and not matched by [exclude]. *)
Theorem include_exclude_prune_the_cache (props : KeepAliveProps)
    (st st' : State) :
  NoDup (OMap.keys (cache st)) →
  prune_on_change props st = Some st' →
  cache st'
  = filter (λ kv, rejected props (name_of st kv.2) = false) (cache st)
  ∧ keys st'
    = filter (λ k, k ∉ (filter (λ kv, rejected props (name_of st kv.2) = true)
                          (cache st)).*1)
        (keys st)
  ∧ current st' = current st
  ∧ (∀ k v, OMap.get k (cache st) = Some v → name_of st v = None →
       OMap.get k (cache st') = Some v)
  ∧ (∀ k v n, OMap.get k (cache st') = Some v →
       name_of st' v = Some n → n ≠ EmptyString →
       (∀ inc, include props = Some inc → matches inc n = true)
       ∧ (∀ exc, exclude props = Some exc → matches exc n = false)).
Proof.
  intros Hnd. unfold prune_on_change.
  set (f1 := matches <$> include props).
  set (f2 := (λ exc n, negb (matches exc n)) <$> exclude props).
  assert (H1 : ∀ s, match include props with
                    | Some inc => pruneCache getComponentName (Some (matches inc)) s
                    | None => Some s
                    end
                    = match f1 with
                      | Some f => pruneCache getComponentName (Some f) s
                      | None => Some s
                      end).
  { intros s. subst f1. by destruct (include props). }
  assert (H2 : ∀ s, match exclude props with
                    | Some exc =>
                        pruneCache getComponentName
                          (Some (λ name, negb (matches exc name))) s
                    | None => Some s
                    end
                    = match f2 with
                      | Some f => pruneCache getComponentName (Some f) s
                      | None => Some s
                      end).
  { intros s. subst f2. by destruct (exclude props). }
  rewrite H1. destruct (match f1 with Some _ => _ | None => _ end)
    as [st1|] eqn:Hst1; cbn [mbind option_bind]; [|done].
  rewrite H2. intros Hst2.
  destruct (pruneCache_if_spec f1 st st1 Hnd Hst1) as (C1 & K1 & N1 & U1).
  assert (Hnd1 : NoDup (OMap.keys (cache st1))).
  { rewrite C1. unfold OMap.keys. eapply sublist_NoDup; [exact Hnd|].
    apply fmap_sublist, sublist_filter. }
  destruct (pruneCache_if_spec f2 st1 st' Hnd1 Hst2) as (C2 & K2 & N2 & U2).
  assert (Hrej : ∀ name, rejected props name = false
                 ↔ prunes_if f2 name = false ∧ prunes_if f1 name = false).
  { intros name. unfold rejected. fold f1 f2.
    rewrite orb_false_iff. tauto. }
  assert (Hcache : cache st'
            = filter (λ kv, rejected props (name_of st kv.2) = false) (cache st)).
  { rewrite C2, C1, list_filter_filter. apply list_filter_iff.
    intros kv. by rewrite N1, Hrej. }
  split; [exact Hcache|]. split.
  { rewrite K2, K1, list_filter_filter. apply list_filter_iff. intros k.
    rewrite C1. split.
    - intros [Hk2 Hk1] Hin.
      apply list_elem_of_fmap in Hin as (kv & -> & Hin).
      apply list_elem_of_filter in Hin as [Hr Hin].
      destruct (prunes_if f1 (name_of st kv.2)) eqn:Hp1.
      + apply Hk1. apply list_elem_of_fmap. exists kv. split; [done|].
        by apply list_elem_of_filter.
      + apply Hk2. apply list_elem_of_fmap. exists kv. split; [done|].
        apply list_elem_of_filter. split.
        * rewrite N1. unfold rejected in Hr. fold f1 f2 in Hr.
          by rewrite Hp1 in Hr.
        * by apply list_elem_of_filter.
    - intros Hk. split.
      + intros Hin. apply Hk.
        apply list_elem_of_fmap in Hin as (kv & -> & Hin).
        apply list_elem_of_filter in Hin as [Hr Hin].
        apply list_elem_of_filter in Hin as [_ Hin].
        apply list_elem_of_fmap. exists kv. split; [done|].
        apply list_elem_of_filter. split; [|done].
        unfold rejected. fold f1 f2. rewrite N1 in Hr. rewrite Hr.
        apply orb_true_r.
      + intros Hin. apply Hk.
        apply list_elem_of_fmap in Hin as (kv & -> & Hin).
        apply list_elem_of_filter in Hin as [Hr Hin].
        apply list_elem_of_fmap. exists kv. split; [done|].
        apply list_elem_of_filter. split; [|done].
        unfold rejected. fold f1 f2. by rewrite Hr. }
  split; [by rewrite U2|].
  assert (Hnd' : NoDup (OMap.keys (cache st'))).
  { rewrite Hcache. unfold OMap.keys. eapply sublist_NoDup; [exact Hnd|].
    apply fmap_sublist, sublist_filter. }
  split.
  - intros k v Hg Hname. apply OMap.elem_of_get; [done|].
    rewrite Hcache. apply list_elem_of_filter. split.
    + simpl. rewrite Hname. unfold rejected, prunes_if, prunes.
      by destruct (matches <$> include props),
        ((λ exc n, negb (matches exc n)) <$> exclude props).
    + by apply OMap.get_Some_elem_of.
  - intros k v n Hg Hname Hn.
    apply OMap.get_Some_elem_of in Hg. rewrite Hcache in Hg.
    apply list_elem_of_filter in Hg as [Hr _]. simpl in Hr.
    rewrite N2, N1 in Hname. rewrite Hname in Hr.
    apply orb_false_iff in Hr as [Hr1 Hr2].
    assert (Ht : truthy (Some n) = true).
    { simpl. by rewrite bool_decide_eq_false_2. }
    split.
    + intros inc Hinc. rewrite Hinc in Hr1. simpl in Hr1.
      unfold prunes in Hr1. rewrite Ht in Hr1. simpl in Hr1.
      by apply negb_false_iff in Hr1.
    + intros exc Hexc. rewrite Hexc in Hr2. simpl in Hr2.
      unfold prunes in Hr2. rewrite Ht in Hr2. simpl in Hr2.
      apply negb_false_iff in Hr2. by apply negb_true_iff in Hr2.
Qed.
End prune.

(** Components A and B are named, C is not; [include] is ["A"]. *)
Definition names_A_B (vn : VNode) : option string :=
  if decide (type vn = 10%nat) then Some "A"%string
  else if decide (type vn = 20%nat) then Some "B"%string
  else None.

Definition include_A : KeepAliveProps :=
  mkProps (Some (PatOne (PatNames ["A"%string]))) None None.

Definition state_after_include_A : State :=
  default state_after_A_B (prune_on_change names_A_B include_A state_after_A_B).

Lemma include_exclude_prune_the_cache_witness :
  prune_on_change names_A_B include_A state_after_A_B
  = Some state_after_include_A
  ∧ cache state_after_A_B = [(ByComponent 10%nat, 0%nat); (ByComponent 20%nat, 1%nat)]
  ∧ cache state_after_include_A = [(ByComponent 10%nat, 0%nat)]
  ∧ keys state_after_include_A = [ByComponent 10%nat].
Proof.
  assert (Hrun : prune_on_change names_A_B include_A state_after_A_B
                 = Some state_after_include_A) by (vm_compute; reflexivity).
  destruct (include_exclude_prune_the_cache names_A_B (λ _ _, eq_refl)
              include_A state_after_A_B state_after_include_A)
    as (Hc & Hk & _); [|exact Hrun|].
  { apply (bool_decide_unpack _). vm_compute. exact I. }
  split; [exact Hrun|]. split; [vm_compute; reflexivity|].
  rewrite Hc, Hk. split; vm_compute; reflexivity.
Defined.

(** ** Unmounting the KeepAlive instance *)

(** The [onBeforeUnmount] hook.  [Map.prototype.forEach] visits every
    entry, none being deleted meanwhile.  [None] stands for the TypeError
    of reading a property of [undefined] or [null]: [instance.subTree]
    itself in [getInnerChild], or [vnode.component] in
    [vnode.component!.da].  Queueing the [deactivated] hooks [da] of the
    displayed component is left to the renderer. *)
Definition onBeforeUnmount (st : State) : option State :=
  foldl (λ acc '(_, cached),
           st' ← acc;
           t ← subTree st';
           v ← getInnerChild t st';
           c ← heap st' !! cached;
           vn ← heap st' !! v;
           if bool_decide (type c = type vn) && bool_decide (key c = key vn)
           then _ ← component vn; resetShapeFlag v st'
           else unmount cached st')
    (Some st) (cache st).

(** The vnode [c] has the type and the key of [vn]. *)
Definition same_component (st : State) (vn : VNode) (c : VNodeId) : bool :=
  match heap st !! c with
  | Some cn => bool_decide (type cn = type vn) && bool_decide (key cn = key vn)
  | None => false
  end.

(** [b] is [a] but for its two keep-alive bits, which are as in [a] or
    cleared. *)
Definition flags_reset_or_kept (a b : option VNode) : Prop :=
  match a, b with
  | Some a, Some b =>
      b = with_shapeFlag (shapeFlag b) a
      ∧ (shapeFlag b = shapeFlag a ∨ shapeFlag b = reset_flags (shapeFlag a))
  | None, None => True
  | _, _ => False
  end.

Lemma reset_flags_idempotent f : reset_flags (reset_flags f) = reset_flags f.
Proof.
  apply Z.bits_inj'. intros i Hi. rewrite !reset_flags_testbit by done.
  by destruct (decide (i = 8 ∨ i = 9)).
Qed.

Lemma has_flag_reset_other f i :
  0 ≤ i → i ≠ 8 → i ≠ 9 →
  has_flag (reset_flags f) (2 ^ i) = has_flag f (2 ^ i).
Proof.
  intros Hi H8 H9. rewrite !has_flag_testbit, reset_flags_testbit by done.
  rewrite decide_False; [done|]. intros [?|?]; done.
Qed.

Lemma with_shapeFlag_same vn : with_shapeFlag (shapeFlag vn) vn = vn.
Proof. by destruct vn. Qed.

Lemma flags_reset_or_kept_refl a : flags_reset_or_kept a a.
Proof.
  destruct a as [a|]; [|done]. simpl. split; [|by left].
  by rewrite with_shapeFlag_same.
Qed.

Lemma flags_reset_or_kept_reset a b :
  flags_reset_or_kept a (Some b) →
  flags_reset_or_kept a (Some (with_shapeFlag (reset_flags (shapeFlag b)) b)).
Proof.
  destruct a as [a|]; [|done]. simpl. intros [Hb Hf]. split.
  - rewrite Hb. by destruct a.
  - right. destruct Hf as [->| ->]; [done|apply reset_flags_idempotent].
Qed.

Lemma flags_reset_or_kept_fields a b va vb :
  flags_reset_or_kept a b → a = Some va → b = Some vb →
  type vb = type va ∧ key vb = key va
  ∧ component vb = component va ∧ ssContent vb = ssContent va
  ∧ has_flag (shapeFlag vb) ShapeFlags.SUSPENSE
    = has_flag (shapeFlag va) ShapeFlags.SUSPENSE.
Proof.
  intros H -> ->. simpl in H. destruct H as [Hb Hf].
  rewrite Hb. simpl. split_and!; try done.
  destruct Hf as [->| ->]; [done|].
  change ShapeFlags.SUSPENSE with (2 ^ 7). by apply has_flag_reset_other.
Qed.

(** The loop of the hook, with the entries [seen] visited and the entries
    [todo] to come. *)
Lemma onBeforeUnmount_loop st0 t v vn (todo : list (CacheKey * VNodeId)) :
  subTree st0 = Some t → getInnerChild t st0 = Some v →
  heap st0 !! v = Some vn →
  ∀ (seen : list (CacheKey * VNodeId)) st st',
  unmounted st
  = unmounted st0 ++ filter (λ c, same_component st0 vn c = false) seen.*2 →
  cache st = cache st0 → keys st = keys st0 →
  current st = current st0 → subTree st = subTree st0 →
  (∀ x, flags_reset_or_kept (heap st0 !! x) (heap st !! x)) →
  foldl (λ acc '(_, cached),
           st' ← acc;
           t ← subTree st';
           v ← getInnerChild t st';
           c ← heap st' !! cached;
           vn ← heap st' !! v;
           if bool_decide (type c = type vn) && bool_decide (key c = key vn)
           then _ ← component vn; resetShapeFlag v st'
           else unmount cached st')
    (Some st) todo = Some st' →
  unmounted st'
  = unmounted st0
    ++ filter (λ c, same_component st0 vn c = false) (seen ++ todo).*2
  ∧ cache st' = cache st0 ∧ keys st' = keys st0
  ∧ current st' = current st0 ∧ subTree st' = subTree st0
  ∧ (∀ x, flags_reset_or_kept (heap st0 !! x) (heap st' !! x)).
Proof.
  intros Ht Hv Hvn.
  induction todo as [|[k c] todo IH]; intros seen st st' Hu Hc Hk Hcur Hsub Hheap.
  { simpl. intros [= <-]. by rewrite app_nil_r. }
  cbn [foldl]. cbn [mbind option_bind].
  assert (Hsub' : subTree st = Some t) by (by rewrite Hsub).
  rewrite Hsub'. cbn [mbind option_bind].
  assert (Hfail : ∀ l : list (CacheKey * VNodeId),
            foldl (λ acc '(_, cached),
                     st' ← acc;
                     t ← subTree st';
                     v ← getInnerChild t st';
                     c ← heap st' !! cached;
                     vn ← heap st' !! v;
                     if bool_decide (type c = type vn)
                        && bool_decide (key c = key vn)
                     then _ ← component vn; resetShapeFlag v st'
                     else unmount cached st')
              None l = Some st' → False).
  { intros l. induction l as [|[] l IHl]; [done|]. apply IHl. }
  assert (Hinner : getInnerChild t st = Some v).
  { unfold getInnerChild in *. pose proof (Hheap t) as Hrt.
    destruct (heap st0 !! t) as [tn|] eqn:Htn; [|done].
    destruct (heap st !! t) as [tn'|] eqn:Htn'; [|done].
    destruct (flags_reset_or_kept_fields _ _ _ _ Hrt eq_refl eq_refl)
      as (_ & _ & _ & Hss & Hsusp).
    simpl in *. by rewrite Hsusp, Hss. }
  rewrite Hinner. cbn [mbind option_bind].
  pose proof (Hheap c) as Hrc. pose proof (Hheap v) as Hrv.
  rewrite Hvn in Hrv.
  destruct (heap st !! c) as [cn'|] eqn:Hcn'; cbn [mbind option_bind];
    [|intros H; by destruct (Hfail _ H)].
  destruct (heap st !! v) as [vn'|] eqn:Hvn'; [|done].
  cbn [mbind option_bind].
  destruct (heap st0 !! c) as [cn|] eqn:Hcn; [|done].
  destruct (flags_reset_or_kept_fields _ _ _ _ Hrc eq_refl eq_refl)
    as (Hty & Hky & _).
  destruct (flags_reset_or_kept_fields _ _ _ _ Hrv eq_refl eq_refl)
    as (Hty' & Hky' & Hcomp & _).
  rewrite Hty, Hky, Hty', Hky'.
  assert (Hsame : same_component st0 vn c
                  = bool_decide (type cn = type vn) && bool_decide (key cn = key vn)).
  { unfold same_component. by rewrite Hcn. }
  rewrite <- Hsame.
  replace (seen ++ (k, c) :: todo) with ((seen ++ [(k, c)]) ++ todo)
    by (by rewrite <- app_assoc).
  destruct (same_component st0 vn c) eqn:Hs.
  - destruct (component vn') as [ci|]; cbn [mbind option_bind];
      [|intros H; by destruct (Hfail _ H)].
    rewrite (resetShapeFlag_Some _ _ _ Hvn').
    apply IH; try done.
    + simpl. rewrite Hu, fmap_app, filter_app. simpl.
      rewrite filter_cons_False by (by rewrite Hs).
      by rewrite filter_nil, app_nil_r.
    + intros x. simpl. destruct (decide (v = x)) as [<-|Hne].
      * rewrite lookup_insert_eq. pose proof (Hheap v) as Hx.
        rewrite Hvn' in Hx. by apply flags_reset_or_kept_reset.
      * rewrite lookup_insert_ne by done. apply Hheap.
  - unfold unmount. rewrite (resetShapeFlag_Some _ _ _ Hcn').
    cbn [mbind option_bind]. apply IH; try done.
    + simpl. rewrite Hu, fmap_app, filter_app. simpl.
      rewrite filter_cons_True by done.
      by rewrite filter_nil, app_assoc.
    + intros x. simpl. destruct (decide (c = x)) as [<-|Hne].
      * rewrite lookup_insert_eq. pose proof (Hheap c) as Hx.
        rewrite Hcn' in Hx. by apply flags_reset_or_kept_reset.
      * rewrite lookup_insert_ne by done. apply Hheap.
Qed.

(** X21. When the KeepAlive instance is unmounted, the hook unmounts every
    cached vnode once, in cache order, except those of the type and key of
    the displayed vnode: the displayed component is left to the unmounting
    of KeepAlive itself.  The cache, the key set and [current] are as
    before, and nothing in a vnode changes but its two keep-alive bits,
    which are kept or cleared. *)
Theorem onBeforeUnmount_spares_displayed_component
    (st st' : State) (t v : VNodeId) (vn : VNode) :
  subTree st = Some t → getInnerChild t st = Some v →
  heap st !! v = Some vn →
  onBeforeUnmount st = Some st' →
  unmounted st'
  = unmounted st
    ++ filter (λ c, same_component st vn c = false) (cache st).*2
  ∧ (same_component st vn v = true ∧ v ∉ drop (length (unmounted st)) (unmounted st'))
  ∧ cache st' = cache st ∧ keys st' = keys st ∧ current st' = current st
  ∧ (∀ x, flags_reset_or_kept (heap st !! x) (heap st' !! x)).
Proof.
  intros Ht Hv Hvn Hrun.
  destruct (onBeforeUnmount_loop st t v vn (cache st) Ht Hv Hvn [] st st')
    as (Hu & Hc & Hk & Hcur & _ & Hheap); try done.
  { simpl. by rewrite app_nil_r. }
  { intros x. apply flags_reset_or_kept_refl. }
  simpl in Hu. split; [done|]. split; [|done].
  assert (Hsame : same_component st vn v = true).
  { unfold same_component. rewrite Hvn. by rewrite !bool_decide_eq_true_2. }
  split; [done|]. rewrite Hu, drop_app_length.
  intros [Hin _]%list_elem_of_filter. by rewrite Hsame in Hin.
Qed.

(** A and B are cached and mounted, B is displayed. *)
Definition mounted_A_B : State :=
  mkState
    {[ 0%nat := mkVNode 10%nat None 260 (Some 7%nat) (Some 70%nat) None;
       1%nat := mkVNode 20%nat None 260 (Some 8%nat) (Some 80%nat) None ]}
    2%nat [(ByComponent 10%nat, 0%nat); (ByComponent 20%nat, 1%nat)]
    [ByComponent 10%nat; ByComponent 20%nat]
    (Some 1%nat) None (Some 1%nat) [].

Definition state_after_unmount : State :=
  default mounted_A_B (onBeforeUnmount mounted_A_B).

Lemma onBeforeUnmount_spares_displayed_component_witness :
  onBeforeUnmount mounted_A_B = Some state_after_unmount
  ∧ unmounted state_after_unmount = [0%nat]
  ∧ cache state_after_unmount = cache mounted_A_B.
Proof.
  assert (Hrun : onBeforeUnmount mounted_A_B = Some state_after_unmount)
    by (vm_compute; reflexivity).
  destruct (onBeforeUnmount_spares_displayed_component mounted_A_B
              state_after_unmount 1%nat 1%nat
              (mkVNode 20%nat None 260 (Some 8%nat) (Some 80%nat) None))
    as (Hu & _ & Hc & _); [reflexivity|reflexivity|reflexivity|exact Hrun|].
  split; [exact Hrun|]. split; [|exact Hc].
  rewrite Hu. vm_compute. reflexivity.
Defined.

End KeepAlive.

(** * Whitespace handling of the template parser (compiler-core/src/parser.ts) *)

Module Parser.

(** The character codes the whitespace tests read ([CharCodes]). *)
Module CharCodes.
Definition Tab : Z := 0x9.
Definition NewLine : Z := 0xa.
Definition FormFeed : Z := 0xc.
Definition CarriageReturn : Z := 0xd.
Definition Space : Z := 0x20.
End CharCodes.

(** A string, as the sequence of its UTF-16 code units. *)
Definition Str := list Z.

Definition isWhitespace (c : Z) : bool :=
  (c =? CharCodes.Space) || (c =? CharCodes.NewLine) || (c =? CharCodes.Tab)
  || (c =? CharCodes.FormFeed) || (c =? CharCodes.CarriageReturn).

Definition isAllWhitespace (str : Str) : bool := forallb isWhitespace str.

Definition hasNewlineChar (str : Str) : bool :=
  existsb (λ c, (c =? CharCodes.NewLine) || (c =? CharCodes.CarriageReturn)) str.

(** The loop of [condense], with its variable [prevCharIsWhitespace]; the
    result is what the loop appends to [ret]. *)
Fixpoint condense_from (prevCharIsWhitespace : bool) (str : Str) : Str :=
  match str with
  | [] => []
  | c :: rest =>
      if isWhitespace c then
        if prevCharIsWhitespace then condense_from true rest
        else CharCodes.Space :: condense_from true rest
      else c :: condense_from false rest
  end.

Definition condense (str : Str) : Str := condense_from false str.

(** [str.replace(/\r\n/g, '\n')]. *)
Fixpoint replace_windows_newlines (str : Str) : Str :=
  match str with
  | [] => []
  | c :: rest =>
      match rest with
      | c' :: rest' =>
          if (c =? CharCodes.CarriageReturn) && (c' =? CharCodes.NewLine)
          then CharCodes.NewLine :: replace_windows_newlines rest'
          else c :: replace_windows_newlines rest
      | [] => [c]
      end
  end.

(** [str.replace(/^\r?\n/, '')]. *)
Definition remove_leading_newline (str : Str) : Str :=
  match str with
  | c :: rest =>
      if c =? CharCodes.NewLine then rest
      else if c =? CharCodes.CarriageReturn then
        match rest with
        | c' :: rest' => if c' =? CharCodes.NewLine then rest' else str
        | [] => str
        end
      else str
  | [] => str
  end.

(** Modelled from the spec: the [NodeTypes] enum is declared in ast.ts,
    which is not part of the sources; these are the variants of the
    template AST a child node can be.  Their numeric values are truthy, so
    that [!prev] tests the absence of a neighbour. *)
Inductive NodeTypes :=
  | ELEMENT
  | TEXT
  | COMMENT
  | INTERPOLATION.

Global Instance NodeTypes_eq_dec : EqDecision NodeTypes.
Proof. solve_decision. Defined.

(** The fields of a child node [condenseWhitespace] reads and writes;
    [content] is the text of a text node. *)
Record TemplateChildNode := mkNode {
  type : NodeTypes;
  content : Str;
}.

Definition with_content (s : Str) (node : TemplateChildNode) : TemplateChildNode :=
  mkNode (type node) s.

(** [currentOptions.whitespace]. *)
Inductive Whitespace :=
  | preserve
  | condense_mode.

Section condenseWhitespace.
Variable whitespace : Whitespace.
(** [inPre], the depth of [<pre>] elements, as a truth value. *)
Variable inPre : bool.
(** [tag && currentOptions.isPreTag(tag)]. *)
Variable tag_is_pre : bool.

Definition shouldCondense : bool :=
  match whitespace with
  | preserve => false
  | condense_mode => true
  end.

(** The condition under which a whitespace-only text node is removed;
    [prev] and [next] are [nodes[i - 1]?.type] and [nodes[i + 1]?.type]. *)
Definition removes (prev next : option NodeTypes) (str : Str) : bool :=
  match prev, next with
  | None, _ => true
  | _, None => true
  | Some p, Some n =>
      shouldCondense
      && ((bool_decide (p = COMMENT)
           && (bool_decide (n = COMMENT) || bool_decide (n = ELEMENT)))
          || (bool_decide (p = ELEMENT)
              && (bool_decide (n = COMMENT)
                  || (bool_decide (n = ELEMENT) && hasNewlineChar str))))
  end.

(** One turn of the [for] loop, at index [i]; the array holds [None] where
    a node has been replaced by [null]. *)
Definition visit (i : nat)
    (s : list (option TemplateChildNode) * bool)
    : list (option TemplateChildNode) * bool :=
  let '(nodes, removedWhitespace) := s in
  match nodes !! i with
  | Some (Some node) =>
      if bool_decide (type node = TEXT) then
        if negb inPre then
          if isAllWhitespace (content node) then
            let prev :=
              match i with
              | O => None
              | S j => type <$> mjoin (nodes !! j)
              end in
            let next := type <$> mjoin (nodes !! S i) in
            if removes prev next (content node)
            then (<[i := None]> nodes, true)
            else (<[i := Some (with_content [CharCodes.Space] node)]> nodes,
                  removedWhitespace)
          else if shouldCondense
            then (<[i := Some (with_content (condense (content node)) node)]> nodes,
                  removedWhitespace)
            else s
        else
          (<[i := Some (with_content (replace_windows_newlines (content node)) node)]>
             nodes, removedWhitespace)
      else s
  | _ => s
  end.

(** Removing the leading newline of the first child of a [<pre>]. *)
Definition trim_pre (nodes : list (option TemplateChildNode))
    : list (option TemplateChildNode) :=
  if inPre && tag_is_pre then
    match nodes with
    | Some first :: rest =>
        if bool_decide (type first = TEXT)
        then Some (with_content (remove_leading_newline (content first)) first) :: rest
        else nodes
    | _ => nodes
    end
  else nodes.

(** [condenseWhitespace(nodes, tag)].  The result is [nodes.filter(Boolean)]
    when a node was removed, and the array itself, which then holds no
    [null], otherwise. *)
Definition condenseWhitespace (nodes : list TemplateChildNode)
    : list TemplateChildNode :=
  let '(arr, removedWhitespace) :=
    foldl (λ s i, visit i s) (Some <$> nodes, false) (seq 0 (length nodes)) in
  omap id (trim_pre arr).

End condenseWhitespace.

(** ** The loop as a single pass over the children *)

(** What becomes of one node, given the types of the siblings before and
    after it: [None] when it is removed. *)
Definition rule (whitespace : Whitespace) (prev next : option NodeTypes)
    (node : TemplateChildNode) : option TemplateChildNode :=
  if bool_decide (type node = TEXT) then
    if isAllWhitespace (content node) then
      if removes whitespace prev next (content node) then None
      else Some (with_content [CharCodes.Space] node)
    else if shouldCondense whitespace
      then Some (with_content (condense (content node)) node)
      else Some node
  else Some node.

(** The pass from left to right; [prev] is the type of the sibling before,
    [None] when there is none or it has been removed. *)
Fixpoint sweep (whitespace : Whitespace) (prev : option NodeTypes)
    (nodes : list TemplateChildNode) : list (option TemplateChildNode) :=
  match nodes with
  | [] => []
  | node :: rest =>
      let r := rule whitespace prev (type <$> head rest) node in
      r :: sweep whitespace (type <$> r) rest
  end.

(** Inside [<pre>]: what becomes of one node. *)
Definition normalize_newlines (node : TemplateChildNode) : TemplateChildNode :=
  if bool_decide (type node = TEXT)
  then with_content (replace_windows_newlines (content node)) node
  else node.

Definition last_type (arr : list (option TemplateChildNode)) : option NodeTypes :=
  type <$> mjoin (last arr).

Lemma last_type_snoc arr r : last_type (arr ++ [r]) = type <$> r.
Proof. unfold last_type. by rewrite last_snoc. Qed.

Lemma lookup_before_end {A} (l1 : list A) x l2 j :
  length l1 = S j → (l1 ++ x :: l2) !! j = last l1.
Proof.
  intros Hl. destruct l1 as [|y l1] using rev_ind; [done|].
  rewrite length_app in Hl. simpl in Hl.
  rewrite last_snoc, <- app_assoc. simpl.
  apply list_lookup_middle. lia.
Qed.

Lemma insert_middle {A} (l1 : list A) x y l2 :
  <[length l1 := y]> (l1 ++ x :: l2) = l1 ++ y :: l2.
Proof.
  rewrite insert_app_r_alt by lia. by rewrite Nat.sub_diag.
Qed.

Lemma visit_rule ws pre node rest b :
  ∃ b',
    visit ws false (length pre) (pre ++ Some node :: (Some <$> rest), b)
    = (pre ++ rule ws (last_type pre) (type <$> head rest) node :: (Some <$> rest), b').
Proof.
  unfold visit. rewrite list_lookup_middle by done.
  assert (Hprev : match length pre with
                  | O => None
                  | S j => type <$> mjoin ((pre ++ Some node :: (Some <$> rest)) !! j)
                  end = last_type pre).
  { destruct (length pre) as [|j] eqn:Hl.
    - by destruct pre.
    - by rewrite (lookup_before_end _ _ _ j Hl). }
  assert (Hnext : type <$> mjoin ((pre ++ Some node :: (Some <$> rest)) !! S (length pre))
                  = type <$> head rest).
  { rewrite lookup_app_r by lia.
    replace (S (length pre) - length pre)%nat with 1%nat by lia.
    by destruct rest. }
  rewrite Hprev, Hnext. unfold rule.
  destruct (bool_decide (type node = TEXT)); [|by eexists]. simpl.
  destruct (isAllWhitespace (content node)).
  - destruct (removes ws _ _ _); rewrite insert_middle; by eexists.
  - destruct (shouldCondense ws); [rewrite insert_middle|]; by eexists.
Qed.

Lemma visit_loop ws rest : ∀ pre b,
  (foldl (λ s i, visit ws false i s) (pre ++ (Some <$> rest), b)
     (seq (length pre) (length rest))).1
  = pre ++ sweep ws (last_type pre) rest.
Proof.
  induction rest as [|node rest IH]; intros pre b; [done|].
  cbn [length seq foldl fmap list_fmap].
  destruct (visit_rule ws pre node rest b) as [b' ->].
  cbn [sweep].
  set (r := rule ws (last_type pre) (type <$> head rest) node).
  rewrite (cons_middle r pre), app_assoc.
  replace (S (length pre)) with (length (pre ++ [r]))
    by (rewrite length_app; simpl; lia).
  by rewrite IH, last_type_snoc, <- app_assoc.
Qed.

Lemma visit_pre ws pre node rest b :
  visit ws true (length pre) (pre ++ Some node :: (Some <$> rest), b)
  = (pre ++ Some (normalize_newlines node) :: (Some <$> rest), b).
Proof.
  unfold visit, normalize_newlines. rewrite list_lookup_middle by done.
  destruct (bool_decide (type node = TEXT)); [|done]. simpl.
  by rewrite insert_middle.
Qed.

Lemma visit_loop_pre ws rest : ∀ pre b,
  foldl (λ s i, visit ws true i s) (pre ++ (Some <$> rest), b)
    (seq (length pre) (length rest))
  = (pre ++ (Some <$> (normalize_newlines <$> rest)), b).
Proof.
  induction rest as [|node rest IH]; intros pre b; [done|].
  cbn [length seq foldl fmap list_fmap].
  rewrite visit_pre.
  rewrite (cons_middle (Some (normalize_newlines node)) pre), app_assoc.
  replace (S (length pre)) with (length (pre ++ [Some (normalize_newlines node)]))
    by (rewrite length_app; simpl; lia).
  rewrite IH. by rewrite <- app_assoc.
Qed.

Lemma omap_id_Some {A} (l : list A) : omap id (Some <$> l) = l.
Proof. induction l as [|x l IH]; [done|]. simpl. by f_equal. Qed.

Lemma condenseWhitespace_outside_pre ws tp nodes :
  condenseWhitespace ws false tp nodes = omap id (sweep ws None nodes).
Proof.
  unfold condenseWhitespace.
  pose proof (visit_loop ws nodes [] false) as H. simpl in H.
  destruct (foldl _ _ _) as [arr b]. simpl in H. by rewrite H.
Qed.

Lemma condenseWhitespace_inside_pre ws tp nodes :
  condenseWhitespace ws true tp nodes
  = match normalize_newlines <$> nodes with
    | first :: rest =>
        if tp && bool_decide (type first = TEXT)
        then with_content (remove_leading_newline (content first)) first :: rest
        else first :: rest
    | [] => []
    end.
Proof.
  unfold condenseWhitespace.
  pose proof (visit_loop_pre ws nodes [] false) as H. simpl in H.
  rewrite H. unfold trim_pre. simpl.
  destruct (normalize_newlines <$> nodes) as [|first rest]; [by destruct tp|].
  destruct tp; simpl; [|by rewrite omap_id_Some].
  destruct (bool_decide (type first = TEXT)); simpl; by rewrite omap_id_Some.
Qed.

(** ** [condense] *)

Lemma condense_from_no_whitespace b u :
  forallb (λ c, negb (isWhitespace c)) u = true → condense_from b u = u.
Proof.
  revert b. induction u as [|c u IH]; intros b; simpl; [done|].
  intros [Hc Hu]%andb_true_iff. apply negb_true_iff in Hc. rewrite Hc.
  by rewrite IH.
Qed.

(** After a character that is not whitespace the loop is in its initial
    state. *)
Lemma condense_from_app b u c rest :
  isWhitespace c = false →
  condense_from b (u ++ c :: rest)
  = condense_from b (u ++ [c]) ++ condense_from false rest.
Proof.
  intros Hc. revert b. induction u as [|d u IH]; intros b; simpl.
  - by rewrite Hc.
  - destruct (isWhitespace d); [destruct b|]; simpl; by rewrite IH.
Qed.

Lemma condense_from_true_whitespace w v :
  isAllWhitespace w = true → condense_from true (w ++ v) = condense_from true v.
Proof.
  induction w as [|c w IH]; simpl; [done|].
  intros [Hc Hw]%andb_true_iff. rewrite Hc. by apply IH.
Qed.

Lemma condense_from_true_head v :
  match v with
  | c :: _ => isWhitespace c = false
  | [] => True
  end →
  condense_from true v = condense_from false v.
Proof. destruct v as [|c v]; simpl; [done|]. by intros ->. Qed.

Lemma condense_run u w v :
  match last u with
  | Some c => isWhitespace c = false
  | None => True
  end →
  w ≠ [] → isAllWhitespace w = true →
  match v with
  | c :: _ => isWhitespace c = false
  | [] => True
  end →
  condense (u ++ w ++ v) = condense u ++ CharCodes.Space :: condense v.
Proof.
  intros Hu Hne Hw Hv. unfold condense.
  assert (Hrun : condense_from false (w ++ v)
                 = CharCodes.Space :: condense_from false v).
  { destruct w as [|c w]; [done|]. simpl in *.
    apply andb_true_iff in Hw as [Hc Hw]. rewrite Hc.
    rewrite condense_from_true_whitespace by done.
    by rewrite condense_from_true_head. }
  destruct u as [|c u _] using rev_ind; [done|].
  rewrite last_snoc in Hu.
  rewrite <- app_assoc. simpl.
  rewrite condense_from_app by done. by rewrite Hrun.
Qed.

Lemma condense_whitespace_is_space s b c :
  c ∈ condense_from b s → isWhitespace c = true → c = CharCodes.Space.
Proof.
  revert b. induction s as [|d s IH]; intros b; simpl.
  - by intros ?%elem_of_nil.
  - destruct (isWhitespace d) eqn:Hd; [destruct b|].
    + apply IH.
    + intros [->|H]%elem_of_cons Hc; [done|]. by eapply IH.
    + intros [->|H]%elem_of_cons Hc; [congruence|]. by eapply IH.
Qed.

(** ** The two modes *)

(** The reading of the claim for mode ['preserve']: text nodes are left
    untouched. *)
Definition preserve_claim_as_stated : Prop :=
  ∀ tag_is_pre nodes, condenseWhitespace preserve false tag_is_pre nodes = nodes.

(** The reading of the claim for a whitespace-only text node [w] between
    two siblings [a] and [b], in mode ['condense']: [w] is removed exactly
    when one of the two is a comment, or both are elements and [w] contains
    a newline. *)
Definition removal_claim_as_stated : Prop :=
  ∀ tag_is_pre a w b,
    type a ≠ TEXT → type b ≠ TEXT →
    type w = TEXT → isAllWhitespace (content w) = true →
    condenseWhitespace condense_mode false tag_is_pre [a; w; b] = [a; b]
    ↔ type a = COMMENT ∨ type b = COMMENT
      ∨ (type a = ELEMENT ∧ type b = ELEMENT ∧ hasNewlineChar (content w) = true).

(** In mode ['preserve'] the whitespace between two elements is replaced by
    a single space; in mode ['condense'] the whitespace between a comment
    and an interpolation stays. *)
Lemma whitespace_claim_fails_on_kept_whitespace :
  ¬ preserve_claim_as_stated ∧ ¬ removal_claim_as_stated.
Proof.
  split.
  - intros H.
    specialize (H false [mkNode ELEMENT []; mkNode TEXT [10; 32]; mkNode ELEMENT []]).
    vm_compute in H. discriminate H.
  - intros H.
    destruct (H false (mkNode COMMENT []) (mkNode TEXT [32]) (mkNode INTERPOLATION []))
      as [_ H']; try done.
    specialize (H' (or_introl eq_refl)). vm_compute in H'. discriminate H'.
Qed.

(** C8 (amended).  Outside [<pre>], [condenseWhitespace] is one pass from
    left to right that keeps every node that is not a text node; keeps a
    text node that is not whitespace-only, condensing its content in mode
    ['condense'] and leaving it untouched in mode ['preserve']; and, in
    both modes, removes a whitespace-only text node that has no sibling
    left before it or no sibling after it, and otherwise replaces its
    content by a single space, unless, in mode ['condense'], it lies
    between two comments, between a comment and an element (in either
    order), or between two elements while containing a newline, in which
    case it is removed.  [condense] leaves a string without whitespace as it
    is and replaces a run of whitespace between two such stretches by one
    space.  Inside [<pre>] no node is removed; every text node has its
    [\r\n] replaced by [\n], and the first child of a pre tag, when a text
    node, loses a leading newline. *)
Theorem condenseWhitespace_by_mode
    (ws : Whitespace) (tag_is_pre : bool) (nodes : list TemplateChildNode) :
  condenseWhitespace ws false tag_is_pre nodes = omap id (sweep ws None nodes)
  ∧ (∀ prev next node, type node ≠ TEXT → rule ws prev next node = Some node)
  ∧ (∀ prev next node,
       type node = TEXT → isAllWhitespace (content node) = false →
       rule ws prev next node
       = Some match ws with
              | preserve => node
              | condense_mode => with_content (condense (content node)) node
              end)
  ∧ (∀ prev next node,
       type node = TEXT → isAllWhitespace (content node) = true →
       (rule ws prev next node = None
        ↔ prev = None ∨ next = None
          ∨ (ws = condense_mode
             ∧ ((prev = Some COMMENT
                 ∧ (next = Some COMMENT ∨ next = Some ELEMENT))
                ∨ (prev = Some ELEMENT ∧ next = Some COMMENT)
                ∨ (prev = Some ELEMENT ∧ next = Some ELEMENT
                   ∧ hasNewlineChar (content node) = true))))
       ∧ (rule ws prev next node ≠ None →
          rule ws prev next node = Some (with_content [CharCodes.Space] node)))
  ∧ (∀ u, forallb (λ c, negb (isWhitespace c)) u = true → condense u = u)
  ∧ (∀ u w v,
       match last u with
       | Some c => isWhitespace c = false
       | None => True
       end →
       w ≠ [] → isAllWhitespace w = true →
       match v with
       | c :: _ => isWhitespace c = false
       | [] => True
       end →
       condense (u ++ w ++ v) = condense u ++ CharCodes.Space :: condense v)
  ∧ condenseWhitespace ws true tag_is_pre nodes
    = match normalize_newlines <$> nodes with
      | first :: rest =>
          if tag_is_pre && bool_decide (type first = TEXT)
          then with_content (remove_leading_newline (content first)) first :: rest
          else first :: rest
      | [] => []
      end
  ∧ length (condenseWhitespace ws true tag_is_pre nodes) = length nodes.
Proof.
  split; [apply condenseWhitespace_outside_pre|].
  split.
  { intros prev next node Ht. unfold rule. by rewrite bool_decide_eq_false_2. }
  split.
  { intros prev next node Ht Hw. unfold rule.
    rewrite bool_decide_eq_true_2, Hw by done. by destruct ws. }
  split.
  { intros prev next node Ht Hw. unfold rule.
    rewrite bool_decide_eq_true_2, Hw by done.
    destruct (removes ws prev next (content node)) eqn:Hr.
    - split; [|done]. split; [intros _|done].
      unfold removes in Hr.
      destruct prev as [p|]; [|by left].
      destruct next as [n|]; [|by right; left].
      right. right. destruct ws; [done|]. split; [done|]. simpl in Hr.
      destruct p, n; simpl in Hr; try done; auto 10.
    - split; [|done]. split; [done|]. intros H. exfalso.
      unfold removes in Hr.
      destruct H as [->|[->|(-> & H)]]; [done|by destruct prev|].
      simpl in Hr.
      destruct H as [(-> & [->| ->])|[(-> & ->)|(-> & -> & Hn)]];
        simpl in Hr; try done. by rewrite Hn in Hr. }
  split.
  { intros u Hu. by apply condense_from_no_whitespace. }
  split; [apply condense_run|].
  rewrite condenseWhitespace_inside_pre. split; [done|].
  destruct nodes as [|n nodes]; [done|]. simpl.
  destruct (tag_is_pre && _); simpl; by rewrite length_fmap.
Qed.

Lemma condenseWhitespace_by_mode_witness :
  condense [97; 32; 32; 10; 98] = [97; 32; 98]
  ∧ rule preserve (Some ELEMENT) (Some ELEMENT) (mkNode TEXT [10; 32])
    = Some (mkNode TEXT [32])
  ∧ rule condense_mode (Some ELEMENT) (Some ELEMENT) (mkNode TEXT [10; 32]) = None.
Proof.
  destruct (condenseWhitespace_by_mode preserve false []) as (_ & _ & _ & Hp & _).
  destruct (condenseWhitespace_by_mode condense_mode false [])
    as (_ & _ & _ & Hc & _ & Hrun & _).
  split; [|split].
  - apply (Hrun [97] [32; 32; 10] [98]); [reflexivity|discriminate|reflexivity..].
  - destruct (Hp (Some ELEMENT) (Some ELEMENT) (mkNode TEXT [10; 32]) eq_refl eq_refl)
      as [_ H].
    apply H. vm_compute. discriminate.
  - destruct (Hc (Some ELEMENT) (Some ELEMENT) (mkNode TEXT [10; 32]) eq_refl eq_refl)
      as [[_ H] _].
    apply H. right. right. split; [reflexivity|]. right. right.
    split; [reflexivity|]. split; reflexivity.
Defined.

(** ** The shape of a condensed string *)

(** No whitespace character follows another, and every whitespace character
    is a space; [prev] tells whether a whitespace character comes before
    the string. *)
Fixpoint condensed_from (prev : bool) (str : Str) : bool :=
  match str with
  | [] => true
  | c :: rest =>
      if isWhitespace c
      then negb prev && (c =? CharCodes.Space) && condensed_from true rest
      else condensed_from false rest
  end.

Lemma condense_from_condensed b str : condensed_from b (condense_from b str) = true.
Proof.
  revert b. induction str as [|c str IH]; intros b; [done|].
  simpl. destruct (isWhitespace c) eqn:Hc.
  - destruct b; [apply IH|]. simpl. by rewrite IH.
  - simpl. by rewrite Hc.
Qed.

Lemma condense_from_fixed b str :
  condensed_from b str = true → condense_from b str = str.
Proof.
  revert b. induction str as [|c str IH]; intros b; [done|].
  simpl. destruct (isWhitespace c) eqn:Hc.
  - intros [[Hb Hs%Z.eqb_eq]%andb_true_iff Hr]%andb_true_iff.
    destruct b; [done|]. rewrite Hs. f_equal. by apply IH.
  - intros Hr. f_equal. by apply IH.
Qed.

Lemma condense_from_length b str :
  (length (condense_from b str) ≤ length str)%nat.
Proof.
  revert b. induction str as [|c str IH]; intros b; simpl; [done|].
  destruct (isWhitespace c); [destruct b|]; simpl;
    [specialize (IH true)|specialize (IH true)|specialize (IH false)]; lia.
Qed.

Lemma condense_from_keeps_text b str :
  filter (λ c, isWhitespace c = false) (condense_from b str)
  = filter (λ c, isWhitespace c = false) str.
Proof.
  revert b. induction str as [|c str IH]; intros b; [done|].
  cbn [condense_from]. destruct (isWhitespace c) eqn:Hc.
  - rewrite (filter_cons_False _ c) by (by rewrite Hc).
    destruct b; [apply IH|]. cbv iota.
    rewrite (filter_cons_False _ CharCodes.Space) by (vm_compute; discriminate).
    apply IH.
  - rewrite !(filter_cons_True _ c) by done. f_equal. apply IH.
Qed.

Lemma condensed_from_adjacent b str i c d :
  condensed_from b str = true →
  str !! i = Some c → str !! S i = Some d →
  isWhitespace c = true → isWhitespace d = false.
Proof.
  revert b i. induction str as [|x str IH]; intros b i; [done|].
  simpl. destruct i as [|i].
  - simpl. intros H [= ->] Hd Hc. rewrite Hc in H.
    apply andb_true_iff in H as [_ H].
    destruct str as [|y str]; [done|]. simpl in Hd. injection Hd as ->.
    simpl in H. destruct (isWhitespace d); [done|done].
  - simpl. intros H. destruct (isWhitespace x).
    + apply andb_true_iff in H as [_ H]. by eapply IH.
    + by eapply IH.
Qed.

(** X10. [condense] gives a string in which no whitespace character
    follows another and every whitespace character is a space; the other
    characters are those of the argument, in their order; the result is
    never longer than the argument; and condensing a condensed string
    changes nothing. *)
Theorem condense_gives_single_spaces (str : Str) :
  (∀ i c d, condense str !! i = Some c → condense str !! S i = Some d →
     isWhitespace c = true → isWhitespace d = false)
  ∧ (∀ c, c ∈ condense str → isWhitespace c = true → c = CharCodes.Space)
  ∧ filter (λ c, isWhitespace c = false) (condense str)
    = filter (λ c, isWhitespace c = false) str
  ∧ (length (condense str) ≤ length str)%nat
  ∧ condense (condense str) = condense str.
Proof.
  unfold condense. split_and!.
  - intros i c d. apply condensed_from_adjacent with (b := false).
    apply condense_from_condensed.
  - intros c. apply condense_whitespace_is_space.
  - apply condense_from_keeps_text.
  - apply condense_from_length.
  - apply condense_from_fixed, condense_from_condensed.
Qed.

(** ** What the pass keeps *)

Definition is_whitespace_text (node : TemplateChildNode) : bool :=
  bool_decide (type node = TEXT) && isAllWhitespace (content node).

(** The children left by the pass that starts with [prev] before them. *)
Definition swept (ws : Whitespace) (prev : option NodeTypes)
    (nodes : list TemplateChildNode) : list TemplateChildNode :=
  omap id (sweep ws prev nodes).

Lemma swept_cons ws prev node rest :
  swept ws prev (node :: rest)
  = match rule ws prev (type <$> head rest) node with
    | Some r => r :: swept ws (Some (type r)) rest
    | None => swept ws None rest
    end.
Proof. unfold swept. simpl. by destruct (rule _ _ _ _). Qed.

Lemma isAllWhitespace_condense_from b str :
  isAllWhitespace (condense_from b str) = isAllWhitespace str.
Proof.
  revert b. induction str as [|c str IH]; intros b; [done|].
  simpl. destruct (isWhitespace c) eqn:Hc.
  - destruct b; simpl; by rewrite IH.
  - simpl. by rewrite Hc.
Qed.

Lemma removes_space ws prev next str :
  removes ws prev next str = false →
  removes ws prev next [CharCodes.Space] = false.
Proof.
  unfold removes. destruct prev as [p|]; [|done]. destruct next as [n|]; [|done].
  destruct (shouldCondense ws); [|done]. simpl.
  destruct p, n; simpl; try done.
Qed.

(** A node that is not whitespace-only text stays, a text node with its
    content condensed in mode ['condense']; going over it again changes
    nothing. *)
Lemma rule_keeps ws prev next node :
  is_whitespace_text node = false →
  ∃ r, rule ws prev next node = Some r
    ∧ type r = type node
    ∧ is_whitespace_text r = false
    ∧ (type node ≠ TEXT → r = node)
    ∧ ∀ prev' next', rule ws prev' next' r = Some r.
Proof.
  unfold is_whitespace_text, rule. intros H.
  destruct (bool_decide (type node = TEXT)) eqn:Ht; simpl in H.
  - rewrite H. apply bool_decide_eq_true in Ht.
    destruct (shouldCondense ws) eqn:Hs.
    + eexists. split; [done|]. simpl.
      rewrite bool_decide_eq_true_2 by done.
      unfold condense. rewrite isAllWhitespace_condense_from.
      split; [done|]. split; [by rewrite H|]. split; [done|].
      intros p' n'. rewrite H. unfold with_content. simpl.
      by rewrite (condense_from_fixed false) by apply condense_from_condensed.
    + exists node. rewrite Ht, bool_decide_eq_true_2 by done.
      rewrite H. done.
  - apply bool_decide_eq_false in Ht. exists node.
    rewrite !bool_decide_eq_false_2 by done. done.
Qed.

(** A whitespace-only text node is removed or becomes a single space. *)
Lemma rule_whitespace ws prev next node :
  is_whitespace_text node = true →
  rule ws prev next node
  = if removes ws prev next (content node) then None
    else Some (with_content [CharCodes.Space] node).
Proof.
  unfold is_whitespace_text, rule. intros [Ht Hw]%andb_true_iff.
  by rewrite Ht, Hw.
Qed.

Lemma swept_keeps_other_nodes ws nodes : ∀ prev,
  filter (λ n, type n ≠ TEXT) (swept ws prev nodes)
  = filter (λ n, type n ≠ TEXT) nodes.
Proof.
  induction nodes as [|node rest IH]; intros prev; [done|].
  rewrite swept_cons.
  destruct (is_whitespace_text node) eqn:Hw.
  - assert (Ht : type node = TEXT).
    { apply andb_true_iff in Hw as [Ht _]. by apply bool_decide_eq_true in Ht. }
    rewrite (filter_cons_False _ node) by (intros H; by apply H).
    rewrite rule_whitespace by done.
    destruct (removes _ _ _ _); [apply IH|].
    rewrite filter_cons_False by (intros H; by apply H). apply IH.
  - destruct (rule_keeps ws prev (type <$> head rest) node Hw)
      as (r & -> & Hty & _ & Hsame & _).
    destruct (decide (type node = TEXT)) as [Ht|Ht].
    + rewrite (filter_cons_False _ node) by (intros H; by apply H).
      rewrite (filter_cons_False _ r) by (intros H; apply H; congruence).
      apply IH.
    + rewrite (Hsame Ht). rewrite !(filter_cons_True _ node) by done.
      f_equal. apply IH.
Qed.

Lemma swept_keeps_text ws nodes : ∀ prev,
  length (filter (λ n, is_whitespace_text n = false) (swept ws prev nodes))
  = length (filter (λ n, is_whitespace_text n = false) nodes)
  ∧ (length (swept ws prev nodes) ≤ length nodes)%nat
  ∧ (∀ n, n ∈ swept ws prev nodes → is_whitespace_text n = true →
       content n = [CharCodes.Space]).
Proof.
  induction nodes as [|node rest IH]; intros prev.
  { split; [done|]. split; [done|]. by intros n ?%elem_of_nil. }
  rewrite swept_cons.
  destruct (is_whitespace_text node) eqn:Hw.
  - rewrite (filter_cons_False _ node) by (by rewrite Hw).
    rewrite rule_whitespace by done.
    destruct (removes _ _ _ _).
    + destruct (IH None) as (H1 & H2 & H3).
      split; [done|]. split; [cbn [length]; lia|done].
    + destruct (IH (Some (type (with_content [CharCodes.Space] node))))
        as (H1 & H2 & H3).
      assert (Hw' : is_whitespace_text (with_content [CharCodes.Space] node) = true).
      { apply andb_true_iff in Hw as [Ht _]. unfold is_whitespace_text.
        simpl. by rewrite Ht. }
      rewrite filter_cons_False by (by rewrite Hw').
      split; [done|]. split; [cbn [length]; lia|].
      intros n [->|Hn]%elem_of_cons; [done|by apply H3].
  - destruct (rule_keeps ws prev (type <$> head rest) node Hw)
      as (r & -> & Hty & Hr & _ & _).
    destruct (IH (Some (type r))) as (H1 & H2 & H3).
    rewrite (filter_cons_True _ node), (filter_cons_True _ r) by done.
    split; [cbn [length]; by rewrite H1|]. split; [cbn [length]; lia|].
    intros n [->|Hn]%elem_of_cons; [by rewrite Hr|by apply H3].
Qed.

Lemma swept_head ws nodes n :
  head (swept ws None nodes) = Some n → is_whitespace_text n = false.
Proof.
  induction nodes as [|node rest IH]; [done|].
  rewrite swept_cons.
  destruct (is_whitespace_text node) eqn:Hw.
  - rewrite rule_whitespace by done. simpl. apply IH.
  - destruct (rule_keeps ws None (type <$> head rest) node Hw)
      as (r & -> & _ & Hr & _ & _).
    simpl. by intros [= <-].
Qed.

(** X11. Outside [<pre>], [condenseWhitespace] only ever removes
    whitespace-only text nodes: the other nodes are all kept, those that
    are not text nodes unchanged and in their order.  The result is never
    longer than the children given, never starts with a whitespace-only
    text node, and the whitespace-only text nodes left in it hold a single
    space. *)
Theorem condenseWhitespace_removes_only_whitespace
    (ws : Whitespace) (tag_is_pre : bool) (nodes : list TemplateChildNode) :
  let out := condenseWhitespace ws false tag_is_pre nodes in
  filter (λ n, type n ≠ TEXT) out = filter (λ n, type n ≠ TEXT) nodes
  ∧ length (filter (λ n, is_whitespace_text n = false) out)
    = length (filter (λ n, is_whitespace_text n = false) nodes)
  ∧ (length out ≤ length nodes)%nat
  ∧ (∀ n, head out = Some n → is_whitespace_text n = false)
  ∧ (∀ n, n ∈ out → is_whitespace_text n = true →
       content n = [CharCodes.Space]).
Proof.
  intros out. subst out. rewrite condenseWhitespace_outside_pre.
  fold (swept ws None nodes).
  destruct (swept_keeps_text ws nodes None) as (H1 & H2 & H3).
  split; [apply swept_keeps_other_nodes|]. split; [done|]. split; [done|].
  split; [apply swept_head|done].
Qed.

(** ** Children without two text nodes side by side *)

(** No text node follows a text node; [prev_is_text] tells whether a text
    node comes before the children. *)
Fixpoint adjacent_text_free (prev_is_text : bool)
    (nodes : list TemplateChildNode) : bool :=
  match nodes with
  | [] => true
  | node :: rest =>
      if bool_decide (type node = TEXT)
      then negb prev_is_text && adjacent_text_free true rest
      else adjacent_text_free false rest
  end.

Lemma adjacent_text_free_weaken b nodes :
  adjacent_text_free b nodes = true → adjacent_text_free false nodes = true.
Proof.
  destruct nodes as [|node rest]; [done|]. simpl.
  destruct (bool_decide (type node = TEXT)); [|done].
  by intros [_ ->]%andb_true_iff.
Qed.

Lemma adjacent_text_free_after_text nodes :
  adjacent_text_free true nodes = true →
  match nodes with
  | node :: _ => type node ≠ TEXT
  | [] => True
  end.
Proof.
  destruct nodes as [|node rest]; [done|]. simpl.
  destruct (bool_decide (type node = TEXT)) eqn:Ht; [done|].
  intros _. by apply bool_decide_eq_false in Ht.
Qed.

Lemma is_whitespace_text_other node :
  type node ≠ TEXT → is_whitespace_text node = false.
Proof.
  intros H. unfold is_whitespace_text. by rewrite bool_decide_eq_false_2.
Qed.

Lemma swept_other_cons ws prev node rest :
  type node ≠ TEXT →
  swept ws prev (node :: rest) = node :: swept ws (Some (type node)) rest.
Proof.
  intros Ht. rewrite swept_cons.
  destruct (rule_keeps ws prev (type <$> head rest) node
              (is_whitespace_text_other node Ht)) as (r & -> & _ & _ & Hr & _).
  by rewrite (Hr Ht).
Qed.

Lemma removes_at_end ws prev str : removes ws prev None str = true.
Proof. unfold removes. by destruct prev. Qed.

Lemma swept_adjacent_text_free ws nodes : ∀ prev b,
  adjacent_text_free b nodes = true →
  adjacent_text_free b (swept ws prev nodes) = true.
Proof.
  induction nodes as [|node rest IH]; intros prev b; [done|].
  rewrite swept_cons. cbn [adjacent_text_free].
  destruct (bool_decide (type node = TEXT)) eqn:Ht.
  - intros [Hb Hrest]%andb_true_iff.
    destruct (is_whitespace_text node) eqn:Hw.
    + rewrite rule_whitespace by done.
      destruct (removes _ _ _ _).
      * destruct b; [done|].
        eapply adjacent_text_free_weaken. by apply IH.
      * cbn [adjacent_text_free]. simpl. rewrite Ht, Hb. simpl. by apply IH.
    + destruct (rule_keeps ws prev (type <$> head rest) node Hw)
        as (r & -> & Hty & _ & _ & _).
      cbn [adjacent_text_free]. rewrite Hty, Ht, Hb. simpl. by apply IH.
  - intros Hrest. apply bool_decide_eq_false in Ht.
    destruct (rule_keeps ws prev (type <$> head rest) node
                (is_whitespace_text_other node Ht)) as (r & -> & Hty & _ & _ & _).
    cbn [adjacent_text_free]. rewrite Hty, bool_decide_eq_false_2 by done.
    by apply IH.
Qed.

Lemma swept_last ws nodes : ∀ prev n,
  adjacent_text_free false nodes = true →
  last (swept ws prev nodes) = Some n → is_whitespace_text n = false.
Proof.
  induction nodes as [|node rest IH]; intros prev n; [done|].
  cbn [adjacent_text_free].
  destruct (bool_decide (type node = TEXT)) eqn:Ht.
  - intros Hrest. simpl in Hrest.
    pose proof (adjacent_text_free_after_text _ Hrest) as Hhead.
    apply adjacent_text_free_weaken in Hrest as Hrest'.
    rewrite swept_cons.
    destruct (is_whitespace_text node) eqn:Hw.
    + rewrite rule_whitespace by done.
      destruct (removes _ _ _ _) eqn:Hrem; [by apply IH|].
      destruct rest as [|m rest'].
      { simpl in Hrem. by rewrite removes_at_end in Hrem. }
      rewrite swept_other_cons by done.
      change (last (?x :: ?y :: ?l)) with (last (y :: l)).
      rewrite <- (swept_other_cons ws None) by done. by apply IH.
    + destruct (rule_keeps ws prev (type <$> head rest) node Hw)
        as (r & -> & _ & Hr & _ & _).
      destruct (swept ws (Some (type r)) rest) as [|x l] eqn:E.
      * simpl. by intros [= <-].
      * change (last (r :: x :: l)) with (last (x :: l)). rewrite <- E.
        by apply IH.
  - intros Hrest. apply bool_decide_eq_false in Ht.
    rewrite swept_other_cons by done.
    destruct (swept ws (Some (type node)) rest) as [|x l] eqn:E.
    + simpl. intros [= <-]. by apply is_whitespace_text_other.
    + change (last (node :: x :: l)) with (last (x :: l)). rewrite <- E.
      by apply IH.
Qed.

Lemma swept_idempotent ws nodes : ∀ prev,
  adjacent_text_free false nodes = true →
  swept ws prev (swept ws prev nodes) = swept ws prev nodes.
Proof.
  induction nodes as [|node rest IH]; intros prev; [done|].
  cbn [adjacent_text_free].
  destruct (bool_decide (type node = TEXT)) eqn:Ht.
  - intros Hrest. simpl in Hrest.
    pose proof (adjacent_text_free_after_text _ Hrest) as Hhead.
    apply adjacent_text_free_weaken in Hrest as Hrest'.
    destruct rest as [|m rest'].
    + rewrite swept_cons. simpl.
      destruct (is_whitespace_text node) eqn:Hw.
      * rewrite rule_whitespace, removes_at_end by done. done.
      * destruct (rule_keeps ws prev None node Hw) as (r & -> & _ & _ & _ & Hr).
        unfold swept. simpl. by rewrite Hr.
    + assert (Hm : ∀ q, swept ws q (m :: swept ws (Some (type m)) rest')
                        = m :: swept ws (Some (type m)) rest').
      { intros q. specialize (IH q Hrest').
        by rewrite (swept_other_cons ws q m rest') in IH by done. }
      rewrite swept_cons. cbn [head fmap option_fmap option_map].
      destruct (is_whitespace_text node) eqn:Hw.
      * rewrite rule_whitespace by done.
        destruct (removes ws prev (Some (type m)) (content node)) eqn:Hrem.
        -- rewrite swept_other_cons by done. apply Hm.
        -- rewrite (swept_other_cons ws _ m rest') by done. rewrite swept_cons.
           cbn [head fmap option_fmap option_map].
           rewrite rule_whitespace.
           2:{ apply andb_true_iff in Hw as [Hty _]. unfold is_whitespace_text.
               simpl. by rewrite Hty. }
           simpl. rewrite (removes_space _ _ _ _ Hrem).
           unfold with_content at 1. simpl. f_equal. apply Hm.
      * destruct (rule_keeps ws prev (Some (type m)) node Hw)
          as (r & -> & _ & _ & _ & Hr).
        rewrite (swept_other_cons ws _ m rest') by done. rewrite swept_cons.
        rewrite Hr. f_equal. apply Hm.
  - intros Hrest. apply bool_decide_eq_false in Ht.
    rewrite !swept_other_cons by done. f_equal. by apply IH.
Qed.

(** X12. When no two text nodes lie side by side among the children, as
    the parser leaves them (it appends text to a text node that comes
    last), the result of [condenseWhitespace] outside [<pre>] has no two
    text nodes side by side either, does not end with a whitespace-only
    text node, and the pass changes nothing when applied to it again. *)
Theorem condenseWhitespace_is_idempotent
    (ws : Whitespace) (tag_is_pre : bool) (nodes : list TemplateChildNode) :
  adjacent_text_free false nodes = true →
  let out := condenseWhitespace ws false tag_is_pre nodes in
  adjacent_text_free false out = true
  ∧ (∀ n, last out = Some n → is_whitespace_text n = false)
  ∧ condenseWhitespace ws false tag_is_pre out = out.
Proof.
  intros H out. subst out. rewrite !condenseWhitespace_outside_pre.
  fold (swept ws None nodes). fold (swept ws None (swept ws None nodes)).
  split; [by apply swept_adjacent_text_free|].
  split; [intros n; by apply swept_last|by apply swept_idempotent].
Qed.

(** A comment, a line break, an element, text, and spaces at the end. *)
Definition five_children : list TemplateChildNode :=
  [mkNode COMMENT []; mkNode TEXT [10; 32]; mkNode ELEMENT [];
   mkNode TEXT [32; 97; 32; 32; 98]; mkNode INTERPOLATION [];
   mkNode TEXT [32; 10]].

Lemma condenseWhitespace_is_idempotent_witness :
  let out := condenseWhitespace condense_mode false false five_children in
  adjacent_text_free false out = true
  ∧ (∀ n, last out = Some n → is_whitespace_text n = false)
  ∧ condenseWhitespace condense_mode false false out = out.
Proof.
  apply (condenseWhitespace_is_idempotent condense_mode false five_children).
  reflexivity.
Defined.

(** ** How the parser adds children *)

(** [onText], on the children of the parent ([stack[0] || currentRoot]):
    text is appended to a text node that comes last, and is a new text
    node otherwise.  [content] is the text as it is stored (in the browser
    build, after its entities have been decoded); the source locations of
    the nodes are not part of [TemplateChildNode]. *)
Definition onText (content' : Str) (children : list TemplateChildNode)
    : list TemplateChildNode :=
  match last children with
  | Some lastNode =>
      if bool_decide (type lastNode = TEXT)
      then <[pred (length children) :=
               with_content (content lastNode ++ content') lastNode]> children
      else children ++ [mkNode TEXT content']
  | None => children ++ [mkNode TEXT content']
  end.

(** [addNode]. *)
Definition addNode (node : TemplateChildNode) (children : list TemplateChildNode)
    : list TemplateChildNode :=
  children ++ [node].

(** The text of the text nodes, in order. *)
Fixpoint text_of (nodes : list TemplateChildNode) : Str :=
  match nodes with
  | [] => []
  | node :: rest =>
      (if bool_decide (type node = TEXT) then content node else [])
      ++ text_of rest
  end.

Lemma text_of_app nodes1 nodes2 :
  text_of (nodes1 ++ nodes2) = text_of nodes1 ++ text_of nodes2.
Proof.
  induction nodes1 as [|node nodes1 IH]; [done|].
  simpl. by rewrite IH, app_assoc.
Qed.

Lemma adjacent_text_free_snoc nodes node : ∀ b,
  adjacent_text_free b (nodes ++ [node])
  = adjacent_text_free b nodes
    && (negb (bool_decide (type node = TEXT))
        || negb match last nodes with
                | Some x => bool_decide (type x = TEXT)
                | None => b
                end).
Proof.
  induction nodes as [|x nodes IH]; intros b.
  - simpl. destruct (bool_decide (type node = TEXT)); simpl;
      by rewrite ?andb_true_r.
  - cbn [app adjacent_text_free].
    assert (Hlast : match last (x :: nodes) with
                          | Some y => bool_decide (type y = TEXT)
                          | None => b
                          end
                          = match last nodes with
                            | Some y => bool_decide (type y = TEXT)
                            | None => bool_decide (type x = TEXT)
                            end).
    { rewrite last_cons. by destruct (last nodes). }
    rewrite Hlast. destruct (bool_decide (type x = TEXT)) eqn:Hx.
    + rewrite IH. by rewrite andb_assoc.
    + by rewrite IH.
Qed.

Lemma onText_snoc children lastNode content' :
  type lastNode = TEXT →
  onText content' (children ++ [lastNode])
  = children ++ [with_content (content lastNode ++ content') lastNode].
Proof.
  intros Ht. unfold onText. rewrite last_snoc, bool_decide_eq_true_2 by done.
  rewrite length_app. simpl.
  replace (pred (length children + 1)) with (length children + 0)%nat by lia.
  by rewrite insert_app_r.
Qed.

(** X13. The parser never puts two text nodes side by side: [onText]
    appends the text to a text node that comes last, and adds a text node,
    the last one, otherwise; in both cases the text of the children grows
    by the text given and the nodes before the last stay as they are.
    [addNode] with a node that is not a text node keeps the children free
    of adjacent text nodes as well. *)
Theorem onText_merges_adjacent_text (content' : Str)
    (children : list TemplateChildNode) :
  adjacent_text_free false children = true →
  adjacent_text_free false (onText content' children) = true
  ∧ text_of (onText content' children) = text_of children ++ content'
  ∧ (∃ lastNode, last (onText content' children) = Some lastNode
       ∧ type lastNode = TEXT
       ∧ take (pred (length (onText content' children))) (onText content' children)
         = take (pred (length (onText content' children))) children)
  ∧ (∀ node, type node ≠ TEXT →
       adjacent_text_free false (addNode node children) = true).
Proof.
  intros Hfree. assert (Hadd : ∀ node, type node ≠ TEXT →
                          adjacent_text_free false (addNode node children) = true).
  { intros node Hn. unfold addNode.
    by rewrite adjacent_text_free_snoc, Hfree, bool_decide_eq_false_2. }
  destruct children as [|x children] using rev_ind.
  { split; [done|]. split; [simpl; apply app_nil_r|].
    split; [by exists (mkNode TEXT content')|done]. }
  clear IHchildren.
  destruct (decide (type x = TEXT)) as [Ht|Ht].
  - rewrite onText_snoc by done.
    rewrite adjacent_text_free_snoc in Hfree. rewrite adjacent_text_free_snoc.
    split; [done|]. split.
    + rewrite !text_of_app. simpl. rewrite bool_decide_eq_true_2 by done.
      by rewrite !app_nil_r, app_assoc.
    + split; [|done]. eexists. rewrite last_snoc. split; [done|].
      split; [done|]. rewrite length_app. simpl.
      replace (pred (length children + 1)) with (length children) by lia.
      by rewrite !take_app_length.
  - unfold onText. rewrite last_snoc, bool_decide_eq_false_2 by done.
    split.
    + by rewrite adjacent_text_free_snoc, Hfree, last_snoc,
        (bool_decide_eq_false_2 (type x = TEXT)).
    + split.
      * rewrite (text_of_app (children ++ [x])). simpl.
        by rewrite app_nil_r.
      * split; [|done]. eexists. rewrite last_snoc. split; [done|].
        split; [done|]. rewrite length_app. simpl.
        replace (pred (length (children ++ [x]) + 1))
          with (length (children ++ [x])) by lia.
        by rewrite take_app_length, firstn_all.
Qed.

Lemma onText_merges_adjacent_text_witness :
  adjacent_text_free false
    (onText [98] [mkNode ELEMENT []; mkNode TEXT [97]]) = true
  ∧ text_of (onText [98] [mkNode ELEMENT []; mkNode TEXT [97]])
    = text_of [mkNode ELEMENT []; mkNode TEXT [97]] ++ [98].
Proof.
  destruct (onText_merges_adjacent_text [98]
              [mkNode ELEMENT []; mkNode TEXT [97]]) as (H1 & H2 & _);
    [reflexivity|]. split; [exact H1|exact H2].
Defined.

(** ** [backTrack] *)

(** [currentInput.charCodeAt(i)]; [None] stands for [NaN], which the
    method returns outside the string. *)
Definition charCodeAt (input : Str) (i : Z) : option Z :=
  if decide (i < 0) then None else input !! Z.to_nat i.

(** The loop of [backTrack]:
    [while (currentInput.charCodeAt(i) !== c && i >= 0) i--]. *)
Equations? backTrack_from (input : Str) (c : Z) (i : Z) : Z
    by wf (Z.to_nat (i + 1)) lt :=
  backTrack_from input c i
    with decide (charCodeAt input i ≠ Some c ∧ 0 ≤ i) := {
    | left _ => backTrack_from input c (i - 1)
    | right _ => i }.
Proof. lia. Qed.

Definition backTrack (input : Str) (index : Z) (c : Z) : Z :=
  backTrack_from input c index.

Lemma backTrack_from_step input c i :
  backTrack_from input c i
  = if decide (charCodeAt input i ≠ Some c ∧ 0 ≤ i)
    then backTrack_from input c (i - 1) else i.
Proof.
  rewrite backTrack_from_equation_1.
  by destruct (decide (charCodeAt input i ≠ Some c ∧ 0 ≤ i)).
Qed.

Lemma backTrack_from_spec input c (n : nat) :
  let i := Z.of_nat n - 1 in
  let r := backTrack_from input c i in
  -1 ≤ r ≤ i
  ∧ (0 ≤ r → charCodeAt input r = Some c)
  ∧ (∀ j, r < j ≤ i → charCodeAt input j ≠ Some c).
Proof.
  induction n as [|n IH]; intros i r; subst r i.
  - rewrite backTrack_from_step. rewrite decide_False by lia.
    split; [simpl; lia|]. split; [simpl; lia|]. intros j. simpl. lia.
  - rewrite backTrack_from_step.
    destruct (decide (charCodeAt input (Z.of_nat (S n) - 1) ≠ Some c
                      ∧ 0 ≤ Z.of_nat (S n) - 1)) as [[Hne _]|Hstop].
    + replace (Z.of_nat (S n) - 1 - 1) with (Z.of_nat n - 1) by lia.
      simpl in IH. destruct IH as (H1 & H2 & H3).
      split; [lia|]. split; [done|]. intros j Hj.
      destruct (decide (j = Z.of_nat (S n) - 1)) as [->|Hj']; [done|].
      apply H3. lia.
    + split; [lia|]. split; [|intros j; lia]. intros _.
      destruct (decide (charCodeAt input (Z.of_nat (S n) - 1) = Some c))
        as [Heq|Hne]; [done|].
      exfalso. apply Hstop. split; [done|lia].
Qed.

(** X14. [backTrack(index, c)] gives the position of the last [c] in the
    input at or before [index], and -1 when there is none.  A negative
    [index] is given back as it is. *)
Theorem backTrack_finds_last_occurrence (input : Str) (index c : Z) :
  let r := backTrack input index c in
  (index < 0 → r = index)
  ∧ (0 ≤ index →
     -1 ≤ r ≤ index
     ∧ (0 ≤ r → charCodeAt input r = Some c)
     ∧ (∀ j, r < j ≤ index → charCodeAt input j ≠ Some c)
     ∧ (r = -1 ↔ ∀ j, 0 ≤ j ≤ index → charCodeAt input j ≠ Some c)).
Proof.
  intros r. subst r. unfold backTrack. split.
  - intros Hneg. rewrite backTrack_from_step. by rewrite decide_False by lia.
  - intros Hpos.
    pose proof (backTrack_from_spec input c (Z.to_nat (index + 1))) as H.
    simpl in H. replace (Z.of_nat (Z.to_nat (index + 1)) - 1) with index in H by lia.
    destruct H as (H1 & H2 & H3). split; [done|]. split; [done|].
    split; [done|]. split.
    + intros Hr j Hj. apply H3. lia.
    + intros Hnone.
      destruct (decide (backTrack_from input c index = -1)) as [|Hne]; [done|].
      exfalso. apply (Hnone (backTrack_from input c index)); [lia|].
      apply H2. lia.
Qed.

(** ** Closing tags *)

(** [CharCodes.Lt]. *)
Definition Lt : Z := 0x3c.

(** The two error codes [onclosetag] emits. *)
Inductive ErrorCodes :=
  | X_MISSING_END_TAG
  | X_INVALID_END_TAG.

(** An open element, with the fields [onclosetag] reads: its tag and
    [loc.start.offset]. *)
Record ElementNode := mkElement {
  tag : Str;
  loc_start_offset : nat;
}.

(** The stack of open elements (the innermost first), the calls
    [onCloseTag(el, end, isImplied)] made so far, and the errors handed to
    [onError]. *)
Record ParseState := mkParse {
  stack : list ElementNode;
  closed : list (ElementNode * nat * bool);
  errors : list (ErrorCodes * Z);
}.

Section onclosetag.
Variable isVoidTag : Str → bool.
Variable toLowerCase : Str → Str.
Variable currentInput : Str.
(** Whether [currentOptions.onError] throws, as the default handler does,
    or records the error and returns. *)
Variable onError_throws : bool.

(** [getSlice(start, end)]: [currentInput.slice(start, end)]. *)
Definition getSlice (start end_ : nat) : Str :=
  take (end_ - start) (drop start currentInput).

(** [emitError(code, index)]; [None] is the exception of the handler. *)
Definition emitError (code : ErrorCodes) (index : Z) (st : ParseState)
    : option ParseState :=
  if onError_throws then None
  else Some (mkParse (stack st) (closed st) (errors st ++ [(code, index)])).

(** The call [onCloseTag(el, end, isImplied)], which leaves the stack
    alone. *)
Definition onCloseTag (el : ElementNode) (end_ : nat) (isImplied : bool)
    (st : ParseState) : ParseState :=
  mkParse (stack st) (closed st ++ [(el, end_, isImplied)]) (errors st).

(** The loop [for (let j = 0; j <= i; j++)], with [remaining = i + 1 - j];
    [None] is the TypeError of [onCloseTag(undefined)]. *)
Fixpoint close_loop (end_ : nat) (remaining : nat) (st : ParseState)
    : option ParseState :=
  match remaining with
  | O => Some st
  | S k =>
      match stack st with
      | el :: rest =>
          close_loop end_ k
            (onCloseTag el end_ (bool_decide (0 < k)%nat)
               (mkParse rest (closed st) (errors st)))
      | [] => None
      end
  end.

(** The loop [for (let i = 0; i < stack.length; i++)] from [i] on, [rest]
    being the elements from [stack[i]] on. *)
Fixpoint scan (name : Str) (start end_ : nat) (i : nat)
    (rest : list ElementNode) (st : ParseState) : option ParseState :=
  match rest with
  | e :: rest' =>
      if decide (toLowerCase (tag e) = toLowerCase name) then
        st1 ← (if decide (0 < i)%nat
               then e0 ← head (stack st);
                    emitError X_MISSING_END_TAG (Z.of_nat (loc_start_offset e0)) st
               else Some st);
        close_loop end_ (S i) st1
      else scan name start end_ (S i) rest' st
  | [] =>
      emitError X_INVALID_END_TAG (backTrack currentInput (Z.of_nat start) Lt) st
  end.

(** [onclosetag(start, end)]. *)
Definition onclosetag (start end_ : nat) (st : ParseState) : option ParseState :=
  let name := getSlice start end_ in
  if negb (isVoidTag name) then scan name start end_ 0 (stack st) st
  else Some st.

Lemma close_loop_S end_ k el rest cl er :
  close_loop end_ (S k) (mkParse (el :: rest) cl er)
  = close_loop end_ k
      (mkParse rest (cl ++ [(el, end_, bool_decide (0 < k)%nat)]) er).
Proof. done. Qed.

Lemma close_loop_pops end_ (pre : list ElementNode) e post cl er :
  close_loop end_ (S (length pre)) (mkParse (pre ++ e :: post) cl er)
  = Some (mkParse post
            (cl ++ ((λ el, (el, end_, true)) <$> pre) ++ [(e, end_, false)])
            er).
Proof.
  revert cl. induction pre as [|x pre IH]; intros cl.
  - cbn [length app fmap list_fmap]. by rewrite close_loop_S.
  - change (length (x :: pre)) with (S (length pre)).
    rewrite <- app_comm_cons, close_loop_S.
    rewrite bool_decide_eq_true_2 by lia.
    rewrite IH. cbn [fmap list_fmap]. by rewrite <- app_assoc.
Qed.

Lemma scan_spec name start end_ (rest : list ElementNode) :
  ∀ (seen : list ElementNode) st,
  stack st = seen ++ rest →
  Forall (λ x, toLowerCase (tag x) ≠ toLowerCase name) seen →
  scan name start end_ (length seen) rest st
  = match list_find (λ x, toLowerCase (tag x) = toLowerCase name) rest with
    | Some (k, e) =>
        st1 ← (if decide (0 < length seen + k)%nat
               then e0 ← head (stack st);
                    emitError X_MISSING_END_TAG
                      (Z.of_nat (loc_start_offset e0)) st
               else Some st);
        close_loop end_ (S (length seen + k)) st1
    | None =>
        emitError X_INVALID_END_TAG
          (backTrack currentInput (Z.of_nat start) Lt) st
    end.
Proof.
  induction rest as [|e rest IH]; intros seen st Hst Hseen; [done|].
  cbn [scan list_find].
  destruct (decide (toLowerCase (tag e) = toLowerCase name)) as [He|He].
  - simpl. by rewrite Nat.add_0_r.
  - specialize (IH (seen ++ [e]) st).
    rewrite length_app in IH. simpl in IH.
    replace (length seen + 1)%nat with (S (length seen)) in IH by lia.
    rewrite IH.
    + destruct (list_find _ rest) as [[k e']|]; simpl; [|done].
      by replace (length seen + S k)%nat with (S (length seen + k)) by lia.
    + by rewrite <- app_assoc.
    + apply Forall_app. split; [done|]. by apply Forall_singleton.
Qed.

(** X23. A closing tag closes the innermost open element with its name
    (compared in lower case) together with every element opened inside it:
    these are taken off the stack and handed to [onCloseTag] in order, from
    the innermost on, all but the matching one as implied.  No error is
    reported when the matching element is the innermost open one; otherwise
    X_MISSING_END_TAG is reported first, at the start of the innermost open
    element.  A closing tag that matches no open element reports
    X_INVALID_END_TAG at the last [<] at or before its name and closes
    nothing; the closing tag of a void tag does nothing.  When the error
    handler throws, nothing is closed. *)
Theorem onclosetag_closes_innermost_match (start end_ : nat) (st : ParseState) :
  let name := getSlice start end_ in
  let matching el := toLowerCase (tag el) = toLowerCase name in
  (isVoidTag name = true → onclosetag start end_ st = Some st)
  ∧ (isVoidTag name = false →
     ∀ pre e post,
       stack st = pre ++ e :: post → Forall (λ x, ¬ matching x) pre →
       matching e →
       onclosetag start end_ st
       = match head pre with
         | None =>
             Some (mkParse post (closed st ++ [(e, end_, false)]) (errors st))
         | Some e0 =>
             if onError_throws then None
             else Some (mkParse post
                          (closed st ++ ((λ el, (el, end_, true)) <$> pre)
                             ++ [(e, end_, false)])
                          (errors st
                             ++ [(X_MISSING_END_TAG,
                                  Z.of_nat (loc_start_offset e0))]))
         end)
  ∧ (isVoidTag name = false →
     Forall (λ x, ¬ matching x) (stack st) →
     onclosetag start end_ st
     = if onError_throws then None
       else Some (mkParse (stack st) (closed st)
                    (errors st
                       ++ [(X_INVALID_END_TAG,
                            backTrack currentInput (Z.of_nat start) Lt)]))).
Proof.
  intros name matching. unfold onclosetag. fold name.
  pose proof (scan_spec name start end_ (stack st) [] st eq_refl
                (Forall_nil_2 _)) as Hscan.
  cbn [length Nat.add] in Hscan. split_and!.
  - by intros ->.
  - intros -> pre e post Hst Hpre He. cbn [negb]. rewrite Hscan.
    assert (Hfind : list_find (λ x, toLowerCase (tag x) = toLowerCase name)
                      (stack st) = Some (length pre, e)).
    { apply list_find_Some. split_and!.
      - rewrite Hst. by apply list_lookup_middle.
      - done.
      - intros j y Hy Hj. rewrite Hst, lookup_app_l in Hy by done.
        rewrite Forall_forall in Hpre. apply Hpre.
        by eapply list_elem_of_lookup_2. }
    rewrite Hfind. destruct st as [s c er]. cbn [stack closed errors] in *.
    subst s. destruct pre as [|e0 pre].
    + cbn [length]. rewrite decide_False by lia. cbn [mbind option_bind head].
      apply (close_loop_pops end_ [] e post).
    + rewrite decide_True by (cbn [length]; lia).
      cbn [head app mbind option_bind]. unfold emitError.
      destruct onError_throws; [done|].
      cbn [mbind option_bind stack closed errors].
      apply (close_loop_pops end_ (e0 :: pre) e post).
  - intros -> Hnone. cbn [negb]. rewrite Hscan.
    assert (Hfind : list_find (λ x, toLowerCase (tag x) = toLowerCase name)
                      (stack st) = None).
    { by apply list_find_None. }
    rewrite Hfind. done.
Qed.
End onclosetag.

(** [<div><span></div>]: the closing tag of [div] arrives while [span] is
    open. *)
Definition unclosed_span : Str :=
  [60; 100; 105; 118; 62; 60; 115; 112; 97; 110; 62; 60; 47; 100; 105; 118; 62].

Definition span_in_div : ParseState :=
  mkParse [mkElement [115; 112; 97; 110] 5; mkElement [100; 105; 118] 0] [] [].

Lemma onclosetag_closes_innermost_match_witness :
  onclosetag (λ _, false) id unclosed_span false 13 16 span_in_div
  = Some (mkParse []
            [(mkElement [115; 112; 97; 110] 5, 16%nat, true);
             (mkElement [100; 105; 118] 0, 16%nat, false)]
            [(X_MISSING_END_TAG, 5)]).
Proof.
  destruct (onclosetag_closes_innermost_match (λ _, false) id unclosed_span
              false 13 16 span_in_div) as (_ & H & _).
  apply (H eq_refl [mkElement [115; 112; 97; 110] 5]
           (mkElement [100; 105; 118] 0) []); [reflexivity| |reflexivity].
  apply Forall_singleton. vm_compute. discriminate.
Defined.

End Parser.

(** * The positions the tokenizer reports *)

Module Tokenizer.

Local Open Scope nat_scope.

(** [Position]. *)
Record Position := mkPosition {
  column : nat;
  line : nat;
  offset : nat;
}.

(** The loop of [getPos], from [i = n - 1] down to 0, on the recorded
    newline positions; the result is [line] and [column]. *)
Fixpoint getPos_from (newlines : list nat) (index : nat) (n : nat) : nat * nat :=
  match n with
  | O => (1, index + 1)
  | S i =>
      match newlines !! i with
      | Some newlineIndex =>
          if decide (newlineIndex < index)
          then (i + 2, index - newlineIndex)
          else getPos_from newlines index i
      | None => getPos_from newlines index i
      end
  end.

(** [getPos(index)]. *)
Definition getPos (newlines : list nat) (index : nat) : Position :=
  let '(line, column) := getPos_from newlines index (length newlines) in
  mkPosition column line index.

(** The newlines before [index]. *)
Definition newlines_before (newlines : list nat) (index : nat) : list nat :=
  filter (λ p, p < index) newlines.

Lemma newlines_before_prefix newlines index :
  StronglySorted lt newlines →
  newlines_before newlines index
  = take (length (newlines_before newlines index)) newlines.
Proof.
  unfold newlines_before. induction 1 as [|x l Hl IH Hx]; [done|].
  destruct (decide (x < index)) as [Hlt|Hge].
  - rewrite filter_cons_True by done. simpl. by f_equal.
  - rewrite filter_cons_False by done.
    replace (filter (λ p, p < index) l) with (@nil nat); [done|].
    symmetry. clear IH Hl. induction l as [|y l IHl]; [done|].
    apply Forall_cons in Hx as [Hy Hx].
    rewrite filter_cons_False by lia. by apply IHl.
Qed.

Lemma newlines_before_all l index :
  Forall (λ p, p < index) l → newlines_before l index = l.
Proof.
  unfold newlines_before. induction 1 as [|x l Hx Hl IH]; [done|].
  rewrite filter_cons_True by done. by f_equal.
Qed.

Lemma newlines_before_snoc l x index :
  newlines_before (l ++ [x]) index
  = newlines_before l index ++ (if decide (x < index) then [x] else []).
Proof.
  unfold newlines_before. by rewrite filter_app.
Qed.

Lemma getPos_from_spec newlines index : ∀ n,
  StronglySorted lt newlines → n ≤ length newlines →
  getPos_from newlines index n
  = (1 + length (newlines_before (take n newlines) index),
     match last (newlines_before (take n newlines) index) with
     | Some p => index - p
     | None => index + 1
     end).
Proof.
  intros n Hs. induction n as [|i IH]; intros Hn.
  - by rewrite take_0.
  - destruct (lookup_lt_is_Some_2 newlines i) as [x Hx]; [lia|].
    cbn [getPos_from]. rewrite Hx.
    rewrite (take_S_r _ _ _ Hx), newlines_before_snoc.
    destruct (decide (x < index)) as [Hlt|Hge].
    + rewrite last_snoc, length_app. simpl.
      assert (Hall : newlines_before (take i newlines) index = take i newlines).
      { apply newlines_before_all, Forall_forall. intros y Hy.
        apply elem_of_take in Hy as (k & Hk & Hki).
        pose proof (Scheduler.StronglySorted_lookup lt newlines k i y x
                      Hs Hki Hk Hx).
        lia. }
      rewrite Hall, length_take. f_equal. lia.
    + rewrite app_nil_r. apply IH. lia.
Qed.

(** X15. With the newline positions recorded in increasing order,
    [getPos(index)] gives as line one more than the number of newlines
    before [index], and as column the distance from the last of these, or
    [index + 1] on the first line; lines and columns are at least 1, and
    two indices with the same line and column are the same. *)
Theorem getPos_line_and_column (newlines : list nat) (index : nat) :
  StronglySorted lt newlines →
  let pos := getPos newlines index in
  offset pos = index
  ∧ line pos = 1 + length (newlines_before newlines index)
  ∧ column pos = match last (newlines_before newlines index) with
                 | Some p => index - p
                 | None => index + 1
                 end
  ∧ 1 ≤ column pos
  ∧ (∀ index', line (getPos newlines index') = line pos →
       column (getPos newlines index') = column pos → index' = index).
Proof.
  intros Hs.
  assert (Hpos : ∀ i,
    getPos newlines i
    = mkPosition
        (match last (newlines_before newlines i) with
         | Some p => i - p
         | None => i + 1
         end)
        (1 + length (newlines_before newlines i)) i).
  { intros i. unfold getPos.
    rewrite (getPos_from_spec newlines i (length newlines) Hs) by done.
    by rewrite firstn_all. }
  assert (Hlast : ∀ i p, last (newlines_before newlines i) = Some p → p < i).
  { intros i p Hp. apply last_Some_elem_of in Hp.
    unfold newlines_before in Hp. by apply list_elem_of_filter in Hp as [? _]. }
  intros pos. subst pos. rewrite Hpos. simpl.
  split; [done|]. split; [done|]. split; [done|]. split.
  - destruct (last (newlines_before newlines index)) as [p|] eqn:Hp; [|lia].
    specialize (Hlast _ _ Hp). lia.
  - intros index'. rewrite Hpos. simpl. intros Hline Hcol.
    assert (Hsame : newlines_before newlines index'
                    = newlines_before newlines index).
    { rewrite (newlines_before_prefix newlines index' Hs).
      rewrite (newlines_before_prefix newlines index Hs).
      f_equal. lia. }
    rewrite Hsame in Hcol.
    destruct (last (newlines_before newlines index)) as [p|] eqn:Hp; [|lia].
    pose proof (Hlast index p Hp).
    rewrite <- Hsame in Hp. pose proof (Hlast index' p Hp). lia.
Qed.

Lemma getPos_line_and_column_witness :
  let pos := getPos [3; 7; 12] 9 in
  offset pos = 9
  ∧ line pos = 1 + length (newlines_before [3; 7; 12] 9)
  ∧ column pos = match last (newlines_before [3; 7; 12] 9) with
                 | Some p => 9 - p
                 | None => 9 + 1
                 end
  ∧ 1 ≤ column pos
  ∧ (∀ index', line (getPos [3; 7; 12] index') = line pos →
       column (getPos [3; 7; 12] index') = column pos → index' = 9).
Proof.
  apply (getPos_line_and_column [3; 7; 12] 9).
  repeat constructor; lia.
Defined.

End Tokenizer.

(** ** The effect system under the proxies: [effect], [track] and [trigger] *)

Module MiniReactive.

Local Open Scope nat_scope.

Definition EffectId := nat.
Definition DepsId := nat.
Definition TargetId := nat.

(** Property keys: strings, and the symbol [ITERATE_KEY]. *)
Inductive Key :=
  | ITERATE_KEY
  | KProp (name : string).

Global Instance Key_eq_dec : EqDecision Key.
Proof. solve_decision. Defined.

Inductive TriggerType := SET | ADD | DELETE.

Global Instance TriggerType_eq_dec : EqDecision TriggerType.
Proof. solve_decision. Defined.

(** A read or a write of a reactive object, as the effect system sees it:
    the [get], [has] and [ownKeys] traps call [track], the [set] and
    [deleteProperty] traps call [trigger]. *)
Inductive Access :=
  | Track (target : TargetId) (key : Key)
      (** [track(target, key)] *)
  | Trigger (target : TargetId) (key : Key) (type : TriggerType).
      (** [trigger(target, key, type)] *)

(** What the function of an effect, or a scheduler, may do to the effect
    system. *)
Inductive Op :=
  | OpAccess (a : Access)
  | OpCall (e : EffectId)
      (** [effectFn()] *)
  | OpMutator (inner : list Access).
      (** [push], [pop], [shift], [unshift] or [splice] on a reactive array,
          with the reads and writes of the original method *)

(** An [effectFn]: its [deps], the sets it has been added to, its [fn] and
    [options.scheduler]. *)
Record EffectFn := mkEffectFn {
  deps : list DepsId;
  fn : list Op;
  scheduler : option (list Op);
}.

Inductive Event :=
  | EvFn (e : EffectId)           (** [fn()] entered *)
  | EvScheduler (e : EffectId).   (** [fn.options.scheduler(fn)] entered *)

(** The module-level state: the bucket, with the [Set]s of effects in a
    heap of their own, the effects, [activeEffect], [effectStack] and
    [shouldTrack]. *)
Record State := mkState {
  effects : gmap EffectId EffectFn;
  depSets : gmap DepsId (list EffectId);
  bucket : gmap TargetId (list (Key * DepsId));
  activeEffect : option EffectId;
  effectStack : list EffectId;
  shouldTrack : bool;
  nextDeps : DepsId;
  nextEffect : EffectId;
  trace : list Event;
}.

Definition initial : State := mkState ∅ ∅ ∅ None [] true 0%nat 0%nat [].

Definition set_effects (m : gmap EffectId EffectFn) (st : State) : State :=
  mkState m (depSets st) (bucket st) (activeEffect st) (effectStack st)
    (shouldTrack st) (nextDeps st) (nextEffect st) (trace st).
Definition set_depSets (m : gmap DepsId (list EffectId)) (st : State) : State :=
  mkState (effects st) m (bucket st) (activeEffect st) (effectStack st)
    (shouldTrack st) (nextDeps st) (nextEffect st) (trace st).
Definition set_bucket (m : gmap TargetId (list (Key * DepsId))) (st : State) : State :=
  mkState (effects st) (depSets st) m (activeEffect st) (effectStack st)
    (shouldTrack st) (nextDeps st) (nextEffect st) (trace st).
Definition set_activeEffect (a : option EffectId) (st : State) : State :=
  mkState (effects st) (depSets st) (bucket st) a (effectStack st)
    (shouldTrack st) (nextDeps st) (nextEffect st) (trace st).
Definition set_effectStack (s : list EffectId) (st : State) : State :=
  mkState (effects st) (depSets st) (bucket st) (activeEffect st) s
    (shouldTrack st) (nextDeps st) (nextEffect st) (trace st).
Definition set_shouldTrack (b : bool) (st : State) : State :=
  mkState (effects st) (depSets st) (bucket st) (activeEffect st) (effectStack st)
    b (nextDeps st) (nextEffect st) (trace st).
Definition set_nextDeps (n : DepsId) (st : State) : State :=
  mkState (effects st) (depSets st) (bucket st) (activeEffect st) (effectStack st)
    (shouldTrack st) n (nextEffect st) (trace st).
Definition set_nextEffect (n : EffectId) (st : State) : State :=
  mkState (effects st) (depSets st) (bucket st) (activeEffect st) (effectStack st)
    (shouldTrack st) (nextDeps st) n (trace st).
Definition log (ev : Event) (st : State) : State :=
  mkState (effects st) (depSets st) (bucket st) (activeEffect st) (effectStack st)
    (shouldTrack st) (nextDeps st) (nextEffect st) (trace st ++ [ev]).

(** [Set.prototype.add] and [Set.prototype.delete]. *)
Definition set_add (e : EffectId) (s : list EffectId) : list EffectId :=
  if decide (e ∈ s) then s else s ++ [e].
Definition set_delete (e : EffectId) (s : list EffectId) : list EffectId :=
  filter (λ x, x ≠ e) s.

(** [cleanup(effectFn)]. *)
Definition cleanup (e : EffectId) (st : State) : State :=
  match effects st !! e with
  | Some E =>
      let st1 :=
        foldl (λ s d, set_depSets (alter (set_delete e) d (depSets s)) s)
          st (deps E) in
      set_effects (<[e := mkEffectFn [] (fn E) (scheduler E)]> (effects st1)) st1
  | None => st
  end.

(** [track(target, key)]. *)
Definition track (target : TargetId) (key : Key) (st : State) : State :=
  match activeEffect st with
  | Some e =>
      if shouldTrack st then
        let depsMap := default [] (bucket st !! target) in
        let '(d, st1) :=
          match OMap.get key depsMap with
          | Some d => (d, st)
          | None =>
              let d := nextDeps st in
              (d, set_nextDeps (S d)
                    (set_depSets (<[d := []]> (depSets st))
                       (set_bucket (<[target := OMap.set key d depsMap]> (bucket st))
                          st)))
          end in
        let st2 := set_depSets (alter (set_add e) d (depSets st1)) st1 in
        set_effects
          (alter (λ E, mkEffectFn (deps E ++ [d]) (fn E) (scheduler E)) e
             (effects st2)) st2
      else st
  | None => st
  end.

(** The set [effectsToRuns] of [trigger]. *)
Definition effectsToRun (depsMap : list (Key * DepsId)) (key : Key)
    (type : TriggerType) (st : State) : list EffectId :=
  let effects := default [] (OMap.get key depsMap ≫= λ d, depSets st !! d) in
  if bool_decide (type = ADD) || bool_decide (type = DELETE) then
    foldl (λ acc item, set_add item acc) effects
      (default [] (OMap.get ITERATE_KEY depsMap ≫= λ d, depSets st !! d))
  else effects.

(** Calls into the code of effects, which may call back. *)
Inductive Call :=
  | CallFn (e : EffectId)           (** [effectFn()] *)
  | CallScheduler (e : EffectId).   (** [fn.options.scheduler(fn)] *)

Section kernel.
Variable rec : Call → State → option State.

(** The [forEach] of [trigger], on the copy [effectsToRuns]. *)
Fixpoint run_effects (l : list EffectId) (st : State) : option State :=
  match l with
  | [] => Some st
  | f :: l' =>
      st1 ← (if decide (activeEffect st = Some f) then Some st
             else match effects st !! f with
                  | Some F =>
                      match scheduler F with
                      | Some _ => rec (CallScheduler f) st
                      | None => rec (CallFn f) st
                      end
                  | None => Some st
                  end);
      run_effects l' st1
  end.

(** [trigger(target, key, type)]. *)
Definition trigger (target : TargetId) (key : Key) (type : TriggerType)
    (st : State) : option State :=
  match bucket st !! target with
  | None => Some st
  | Some depsMap => run_effects (effectsToRun depsMap key type st) st
  end.

Definition exec_access (a : Access) (st : State) : option State :=
  match a with
  | Track t k => Some (track t k st)
  | Trigger t k ty => trigger t k ty st
  end.

Fixpoint exec_accesses (l : list Access) (st : State) : option State :=
  match l with
  | [] => Some st
  | a :: l' => st1 ← exec_access a st; exec_accesses l' st1
  end.

(** The instrumented array mutators switch tracking off around the original
    method, and on after it. *)
Definition exec_op (op : Op) (st : State) : option State :=
  match op with
  | OpAccess a => exec_access a st
  | OpCall e => rec (CallFn e) st
  | OpMutator inner =>
      st1 ← exec_accesses inner (set_shouldTrack false st);
      Some (set_shouldTrack true st1)
  end.

Fixpoint exec_ops (ops : list Op) (st : State) : option State :=
  match ops with
  | [] => Some st
  | op :: ops' => st1 ← exec_op op st; exec_ops ops' st1
  end.

(** The function [effectFn] that [effect] builds. *)
Definition effectFn (e : EffectId) (st : State) : option State :=
  match effects st !! e with
  | Some E =>
      let st1 := cleanup e st in
      let st2 :=
        set_effectStack (effectStack st1 ++ [e])
          (set_activeEffect (Some e) st1) in
      st3 ← exec_ops (fn E) (log (EvFn e) st2);
      let stack := removelast (effectStack st3) in
      Some (set_activeEffect (last stack) (set_effectStack stack st3))
  | None => Some st
  end.

Definition call_scheduler (e : EffectId) (st : State) : option State :=
  match effects st !! e with
  | Some E =>
      match scheduler E with
      | Some ops => exec_ops ops (log (EvScheduler e) st)
      | None => Some st
      end
  | None => Some st
  end.

Definition step (c : Call) (st : State) : option State :=
  match c with
  | CallFn e => effectFn e st
  | CallScheduler e => call_scheduler e st
  end.
End kernel.

(** The calls tie the knot with a step budget; [None] means the budget was
    exhausted. *)
Fixpoint interp (fuel : nat) (c : Call) (st : State) : option State :=
  match fuel with
  | O => None
  | S fuel' => step (interp fuel') c st
  end.

(** [effect(fn, options)]. *)
Definition effect (fuel : nat) (body : list Op) (lazy : bool)
    (sched : option (list Op)) (st : State) : option (EffectId * State) :=
  let e := nextEffect st in
  let st1 :=
    set_nextEffect (S e)
      (set_effects (<[e := mkEffectFn [] body sched]> (effects st)) st) in
  if lazy then Some (e, st1)
  else st2 ← effectFn (interp fuel) e st1; Some (e, st2).

(** The states reached through [effect] and through reads, writes and
    calls of effect functions from outside any effect. *)
Inductive reachable : State → Prop :=
  | reach_initial : reachable initial
  | reach_effect st fuel body lazy sched e st' :
      reachable st → effect fuel body lazy sched st = Some (e, st') →
      reachable st'
  | reach_ops st fuel ops st' :
      reachable st → exec_ops (interp fuel) ops st = Some st' → reachable st'.

(** *** The sets of the bucket mirror the [deps] of the effects *)

Record linked (st : State) : Prop := mk_linked {
  linked_deps : ∀ e E d,
    effects st !! e = Some E → d ∈ deps E →
    ∃ S, depSets st !! d = Some S ∧ e ∈ S;
  linked_sets : ∀ d S e,
    depSets st !! d = Some S → e ∈ S →
    ∃ E, effects st !! e = Some E ∧ d ∈ deps E;
  linked_next_deps : ∀ d : DepsId, is_Some (depSets st !! d) → (d < nextDeps st)%nat;
  linked_next_effect : ∀ e : EffectId,
    is_Some (effects st !! e) → (e < nextEffect st)%nat;
  linked_bucket : ∀ t m k d,
    bucket st !! t = Some m → OMap.get k m = Some d → is_Some (depSets st !! d);
  linked_bucket_inj : ∀ t m k t' m' k' d,
    bucket st !! t = Some m → OMap.get k m = Some d →
    bucket st !! t' = Some m' → OMap.get k' m' = Some d →
    t = t' ∧ k = k';
  linked_active : activeEffect st = last (effectStack st);
  linked_stack : ∀ e, e ∈ effectStack st → is_Some (effects st !! e);
}.

Lemma linked_initial : linked initial.
Proof.
  split; simpl.
  - intros e E d H. by rewrite lookup_empty in H.
  - intros d S e H. by rewrite lookup_empty in H.
  - intros d [S H]. by rewrite lookup_empty in H.
  - intros e [E H]. by rewrite lookup_empty in H.
  - intros t m k d H. by rewrite lookup_empty in H.
  - intros t m k t' m' k' d H. by rewrite lookup_empty in H.
  - done.
  - by intros e ?%elem_of_nil.
Qed.

Lemma elem_of_deps_delete e x s : x ∈ set_delete e s ↔ x ≠ e ∧ x ∈ s.
Proof. unfold set_delete. by rewrite list_elem_of_filter. Qed.

Lemma elem_of_deps_add e x s : x ∈ set_add e s ↔ x = e ∨ x ∈ s.
Proof.
  unfold set_add. destruct (decide (e ∈ s)) as [Hin|Hin].
  - split; [by right|]. by intros [->|?].
  - rewrite elem_of_app, list_elem_of_singleton. tauto.
Qed.

(** The loop of [cleanup]: the effect is deleted from the sets listed. *)
Lemma cleanup_loop e (ds : list DepsId) : ∀ st,
  let st1 := foldl (λ s d, set_depSets (alter (set_delete e) d (depSets s)) s)
               st ds in
  effects st1 = effects st ∧ bucket st1 = bucket st
  ∧ nextDeps st1 = nextDeps st ∧ nextEffect st1 = nextEffect st
  ∧ activeEffect st1 = activeEffect st ∧ effectStack st1 = effectStack st
  ∧ shouldTrack st1 = shouldTrack st ∧ trace st1 = trace st
  ∧ ∀ d, depSets st1 !! d
         = (if decide (d ∈ ds) then set_delete e else id) <$> depSets st !! d.
Proof.
  induction ds as [|d0 ds IH]; intros st; simpl.
  { split_and!; try done. intros d. by destruct (depSets st !! d). }
  destruct (IH (set_depSets (alter (set_delete e) d0 (depSets st)) st))
    as (-> & -> & -> & -> & -> & -> & -> & -> & Hs).
  split_and!; try done. intros d. rewrite Hs. simpl.
  destruct (decide (d0 = d)) as [<-|Hne].
  - rewrite lookup_alter_eq.
    destruct (decide (d0 ∈ d0 :: ds)) as [_|Hn];
      [|destruct Hn; apply list_elem_of_here].
    destruct (depSets st !! d0) as [S|]; simpl;
      [|by destruct (decide (d0 ∈ ds))].
    destruct (decide (d0 ∈ ds)); simpl; [|done]. f_equal.
    unfold set_delete. rewrite list_filter_filter. apply list_filter_iff.
    tauto.
  - rewrite lookup_alter_ne by done.
    destruct (decide (d ∈ ds)) as [Hin|Hin].
    + by rewrite decide_True by (by apply list_elem_of_further).
    + rewrite decide_False; [done|].
      intros [?|?]%elem_of_cons; [by subst|done].
Qed.

(** What [cleanup] leaves alone. *)
Lemma cleanup_frame e st :
  bucket (cleanup e st) = bucket st
  ∧ nextDeps (cleanup e st) = nextDeps st
  ∧ nextEffect (cleanup e st) = nextEffect st
  ∧ activeEffect (cleanup e st) = activeEffect st
  ∧ effectStack (cleanup e st) = effectStack st
  ∧ shouldTrack (cleanup e st) = shouldTrack st
  ∧ trace (cleanup e st) = trace st.
Proof.
  unfold cleanup. destruct (effects st !! e) as [E|]; [|done].
  destruct (cleanup_loop e (deps E) st)
    as (_ & ? & ? & ? & ? & ? & ? & ? & _).
  by split_and!.
Qed.

Lemma linked_cleanup e st : linked st → linked (cleanup e st).
Proof.
  intros [H1 H2 H3 H4 H5 Hinj H6 H7].
  destruct (cleanup_frame e st) as (Hb & Hn & Hn' & Ha & Hk & _ & _).
  assert (Hex : ∀ e', is_Some (effects st !! e') →
                      is_Some (effects (cleanup e st) !! e')).
  { intros e' He'. unfold cleanup.
    destruct (effects st !! e) as [E|] eqn:HE; [|done].
    destruct (cleanup_loop e (deps E) st) as (He & _). simpl. rewrite He.
    destruct (decide (e = e')) as [<-|Hne].
    - by rewrite lookup_insert_eq.
    - by rewrite lookup_insert_ne. }
  split; [| | | | |by rewrite Hb|by rewrite Ha, Hk
                  |intros e'; rewrite Hk; intros ?; by apply Hex, H7];
    clear Ha Hk Hex; revert Hb Hn Hn'; unfold cleanup;
    (destruct (effects st !! e) as [E|] eqn:HE; [|done]);
    destruct (cleanup_loop e (deps E) st)
      as (He & _ & _ & _ & _ & _ & _ & _ & Hs);
    set (st1 := foldl _ st (deps E)) in *; simpl; intros Hb Hn Hn'.
  - intros e' E' d. rewrite He, Hs. destruct (decide (e = e')) as [<-|Hne].
    + rewrite lookup_insert_eq. intros [= <-]. simpl. by intros ?%elem_of_nil.
    + rewrite lookup_insert_ne by done. intros HE' Hd.
      destruct (H1 _ _ _ HE' Hd) as (S & HS & Hin). rewrite HS. simpl.
      destruct (decide (d ∈ deps E)); eexists; (split; [done|]); [|done].
      apply elem_of_deps_delete. split; [by intros ->|done].
  - intros d S e'. rewrite He, Hs.
    destruct (depSets st !! d) as [S0|] eqn:HS0; simpl; [|done].
    intros [= <-] Hin.
    assert (Hold : e' ∈ S0 ∧ (d ∈ deps E → e' ≠ e)).
    { destruct (decide (d ∈ deps E)); [|by simpl in Hin].
      apply elem_of_deps_delete in Hin as [? ?]. by split. }
    destruct Hold as [Hin0 Hnot].
    destruct (H2 _ _ _ HS0 Hin0) as (E' & HE' & Hd).
    destruct (decide (e = e')) as [<-|Hne].
    + rewrite HE in HE'. injection HE' as <-. by destruct (Hnot Hd).
    + rewrite lookup_insert_ne by done. by exists E'.
  - intros d. rewrite Hs, Hn. intros Hd. apply H3.
    by destruct (depSets st !! d).
  - intros e'. rewrite He, Hn'. destruct (decide (e = e')) as [<-|Hne].
    + intros _. apply H4. by rewrite HE.
    + rewrite lookup_insert_ne by done. apply H4.
  - intros t m k d. rewrite Hb, Hs. intros Hm Hk.
    destruct (H5 _ _ _ _ Hm Hk) as [S HS]. rewrite HS. simpl. by eexists.
Qed.


(** The [Set] that [track] adds the active effect to, and the state that
    holds it. *)
Definition track_set (target : TargetId) (key : Key) (st : State)
    : DepsId * State :=
  let depsMap := default [] (bucket st !! target) in
  match OMap.get key depsMap with
  | Some d => (d, st)
  | None =>
      let d := nextDeps st in
      (d, set_nextDeps (S d)
            (set_depSets (<[d := []]> (depSets st))
               (set_bucket (<[target := OMap.set key d depsMap]> (bucket st))
                  st)))
  end.

Lemma track_unfold t k st :
  track t k st =
  match activeEffect st with
  | Some e =>
      if shouldTrack st then
        let st2 :=
          set_depSets (alter (set_add e) (track_set t k st).1
                         (depSets (track_set t k st).2)) (track_set t k st).2 in
        set_effects
          (alter (λ E, mkEffectFn (deps E ++ [(track_set t k st).1]) (fn E)
                         (scheduler E)) e (effects st2)) st2
      else st
  | None => st
  end.
Proof.
  unfold track, track_set. destruct (activeEffect st); [|done].
  destruct (shouldTrack st); [|done].
  by destruct (OMap.get k (default [] (bucket st !! t))).
Qed.

Lemma depSets_fresh st :
  linked st → depSets st !! nextDeps st = None.
Proof.
  intros Hl. destruct (depSets st !! nextDeps st) eqn:Hd; [|done].
  assert (nextDeps st < nextDeps st); [|lia].
  apply (linked_next_deps _ Hl). by eexists.
Qed.

Lemma bucket_get_depsMap t k d st :
  OMap.get k (default [] (bucket st !! t)) = Some d ↔
  ∃ m, bucket st !! t = Some m ∧ OMap.get k m = Some d.
Proof.
  destruct (bucket st !! t) as [m|]; simpl.
  - split; [by exists m|]. by intros (? & [= <-] & ?).
  - split; [done|]. by intros (? & ? & ?).
Qed.

(** [track_set] keeps the invariant and returns a set that exists. *)
Lemma linked_track_set t k st :
  linked st →
  linked (track_set t k st).2
  ∧ is_Some (depSets (track_set t k st).2 !! (track_set t k st).1)
  ∧ effects (track_set t k st).2 = effects st
  ∧ activeEffect (track_set t k st).2 = activeEffect st
  ∧ effectStack (track_set t k st).2 = effectStack st
  ∧ shouldTrack (track_set t k st).2 = shouldTrack st
  ∧ trace (track_set t k st).2 = trace st.
Proof.
  intros Hl. unfold track_set.
  destruct (OMap.get k (default [] (bucket st !! t))) as [d|] eqn:Hk; simpl.
  { split_and!; try done.
    apply bucket_get_depsMap in Hk as (m & Hm & Hk).
    by eapply (linked_bucket _ Hl). }
  split_and!; try done; [|by rewrite lookup_insert_eq].
  pose proof (depSets_fresh _ Hl) as Hfresh.
  assert (Hold : ∀ t' m k' d, bucket st !! t' = Some m →
                   OMap.get k' m = Some d → d ≠ nextDeps st).
  { intros t' m k' d Hm Hg ->.
    destruct (linked_bucket _ Hl _ _ _ _ Hm Hg) as [S HS]. congruence. }
  assert (Hnew : ∀ t' m k' d,
            <[t := OMap.set k (nextDeps st) (default [] (bucket st !! t))]>
              (bucket st) !! t' = Some m →
            OMap.get k' m = Some d →
            (t' = t ∧ k' = k ∧ d = nextDeps st)
            ∨ (d ≠ nextDeps st
               ∧ ∃ m0, bucket st !! t' = Some m0 ∧ OMap.get k' m0 = Some d)).
  { intros t' m k' d. destruct (decide (t = t')) as [<-|Hne].
    - rewrite lookup_insert_eq. intros [= <-].
      destruct (decide (k = k')) as [<-|Hk'].
      + rewrite OMap.get_set_eq. intros [= <-]. by left.
      + rewrite OMap.get_set_ne by done.
        intros (m0 & Hm0 & Hg)%bucket_get_depsMap. right.
        split; [by eapply Hold|]. by exists m0.
    - rewrite lookup_insert_ne by done. intros Hm Hg. right.
      split; [by eapply Hold|]. by exists m. }
  destruct Hl as [H1 H2 H3 H4 H5 Hinj H6 H7]. split; simpl.
  - intros e' E' d HE' Hd. destruct (H1 _ _ _ HE' Hd) as (S & HS & Hin).
    exists S. split; [|done]. rewrite lookup_insert_ne; [done|].
    intros <-. congruence.
  - intros d S e'. destruct (decide (nextDeps st = d)) as [<-|Hne].
    + rewrite lookup_insert_eq. intros [= <-]. by intros ?%elem_of_nil.
    + rewrite lookup_insert_ne by done. apply H2.
  - intros d. destruct (decide (nextDeps st = d)) as [<-|Hne]; [lia|].
    rewrite lookup_insert_ne by done. intros Hd%H3. lia.
  - done.
  - intros t' m k' d Hm Hg.
    destruct (Hnew _ _ _ _ Hm Hg) as [(-> & -> & ->)|(Hd & m0 & Hm0 & Hg0)].
    + by rewrite lookup_insert_eq.
    + rewrite lookup_insert_ne by done. by eapply H5.
  - intros t1 m1 k1 t2 m2 k2 d Hm1 Hg1 Hm2 Hg2.
    destruct (Hnew _ _ _ _ Hm1 Hg1) as [(-> & -> & ->)|(Hd1 & m1' & Hm1' & Hg1')];
      destruct (Hnew _ _ _ _ Hm2 Hg2) as [(-> & -> & Hd)|(Hd2 & m2' & Hm2' & Hg2')];
      try done.
    by eapply Hinj.
  - done.
  - done.
Qed.

Lemma active_exists st e :
  linked st → activeEffect st = Some e → is_Some (effects st !! e).
Proof.
  intros Hl Ha. apply (linked_stack _ Hl).
  rewrite (linked_active _ Hl) in Ha. by apply last_Some_elem_of.
Qed.

Lemma linked_track t k st : linked st → linked (track t k st).
Proof.
  intros Hl. rewrite track_unfold.
  destruct (activeEffect st) as [e|] eqn:Ha; [|done].
  destruct (shouldTrack st); [|done].
  destruct (linked_track_set t k st Hl)
    as (Hl1 & [S0 HS0] & He & Ha1 & Hk1 & _ & _).
  assert (Hex : is_Some (effects (track_set t k st).2 !! e)).
  { rewrite He. by apply active_exists. }
  destruct Hex as [E0 HE0].
  set (d := (track_set t k st).1) in *.
  set (st1 := (track_set t k st).2) in *.
  destruct Hl1 as [H1 H2 H3 H4 H5 Hinj H6 H7].
  split; simpl.
  - intros e' E' d'. destruct (decide (e = e')) as [<-|Hne].
    + rewrite lookup_alter_eq, HE0. simpl.
      intros [= <-]. simpl. intros [Hd| ->%list_elem_of_singleton]%elem_of_app.
      * destruct (H1 _ _ _ HE0 Hd) as (S & HS & Hin).
        destruct (decide (d = d')) as [<-|Hdd].
        -- rewrite lookup_alter_eq, HS. simpl. eexists. split; [done|].
           apply elem_of_deps_add. by right.
        -- rewrite lookup_alter_ne by done. by exists S.
      * rewrite lookup_alter_eq, HS0. simpl. eexists. split; [done|].
        apply elem_of_deps_add. by left.
    + rewrite lookup_alter_ne by done. intros HE' Hd.
      destruct (H1 _ _ _ HE' Hd) as (S & HS & Hin).
      destruct (decide (d = d')) as [<-|Hdd].
      * rewrite lookup_alter_eq, HS. simpl. eexists. split; [done|].
        apply elem_of_deps_add. by right.
      * rewrite lookup_alter_ne by done. by exists S.
  - intros d' S e'. destruct (decide (d = d')) as [<-|Hdd].
    + rewrite lookup_alter_eq, HS0. simpl. intros [= <-].
      intros [->|Hin]%elem_of_deps_add.
      * rewrite lookup_alter_eq, HE0. simpl.
        eexists. split; [done|]. simpl. apply elem_of_app. right.
        apply list_elem_of_here.
      * destruct (H2 _ _ _ HS0 Hin) as (E' & HE' & Hd).
        destruct (decide (e = e')) as [<-|Hne].
        -- rewrite lookup_alter_eq, HE'. simpl. eexists. split; [done|].
           simpl. apply elem_of_app. by left.
        -- rewrite lookup_alter_ne by done. by exists E'.
    + rewrite lookup_alter_ne by done. intros HS Hin.
      destruct (H2 _ _ _ HS Hin) as (E' & HE' & Hd).
      destruct (decide (e = e')) as [<-|Hne].
      * rewrite lookup_alter_eq, HE'. simpl. eexists. split; [done|].
        simpl. apply elem_of_app. by left.
      * rewrite lookup_alter_ne by done. by exists E'.
  - intros d'. destruct (decide (d = d')) as [<-|Hdd].
    + intros _. apply H3. by eexists.
    + rewrite lookup_alter_ne by done. apply H3.
  - intros e'. destruct (decide (e = e')) as [<-|Hne].
    + intros _. apply H4. by eexists.
    + rewrite lookup_alter_ne by done. apply H4.
  - intros t' m k' d' Hm' Hk'. destruct (H5 _ _ _ _ Hm' Hk') as [S HS].
    destruct (decide (d = d')) as [<-|Hdd].
    + rewrite lookup_alter_eq, HS. by eexists.
    + rewrite lookup_alter_ne by done. by eexists.
  - done.
  - done.
  - intros e' He'. destruct (H7 _ He') as [E' HE'].
    destruct (decide (e = e')) as [<-|Hne].
    + rewrite lookup_alter_eq, HE'. by eexists.
    + rewrite lookup_alter_ne by done. by eexists.
Qed.

(** What [track] leaves alone. *)
Lemma track_frame t k st :
  linked st →
  activeEffect (track t k st) = activeEffect st
  ∧ effectStack (track t k st) = effectStack st
  ∧ shouldTrack (track t k st) = shouldTrack st
  ∧ trace (track t k st) = trace st.
Proof.
  intros Hl. rewrite track_unfold.
  destruct (activeEffect st) as [e|] eqn:Ha; [|done].
  destruct (shouldTrack st) eqn:Hs; [|done].
  destruct (linked_track_set t k st Hl) as (_ & _ & _ & ? & ? & ? & ?).
  simpl. split_and!; congruence.
Qed.

(** *** Nested effects restore the outer effect *)

(** The active effect is the top of the stack of running effects. *)
Definition balanced (st : State) : Prop :=
  activeEffect st = last (effectStack st).

Definition same_stack (st st' : State) : Prop :=
  effectStack st' = effectStack st ∧ activeEffect st' = activeEffect st.

(** Tracking is on again when a call returns to where it was on. *)
Definition tracking_kept (st st' : State) : Prop :=
  shouldTrack st = true → shouldTrack st' = true.

Lemma same_stack_refl st : same_stack st st.
Proof. done. Qed.

Lemma same_stack_trans st1 st2 st3 :
  same_stack st1 st2 → same_stack st2 st3 → same_stack st1 st3.
Proof. unfold same_stack. intros [? ?] [? ?]. split; congruence. Qed.

Lemma balanced_same_stack st st' :
  balanced st → same_stack st st' → balanced st'.
Proof. unfold balanced, same_stack. intros ? [? ?]. congruence. Qed.

Lemma track_same_stack t k st : same_stack st (track t k st).
Proof.
  unfold track. destruct (activeEffect st) as [e|] eqn:Ha; [|done].
  destruct (shouldTrack st); [|done].
  by destruct (OMap.get k (default [] (bucket st !! t))).
Qed.

Lemma cleanup_same_stack e st : same_stack st (cleanup e st).
Proof. destruct (cleanup_frame e st) as (_ & _ & _ & ? & ? & _). by split. Qed.

Section kernel_balanced.
Variable rec : Call → State → option State.
Hypothesis rec_balanced : ∀ c st st',
  balanced st → rec c st = Some st' → same_stack st st'.

Lemma run_effects_balanced l : ∀ st st',
  balanced st → run_effects rec l st = Some st' → same_stack st st'.
Proof.
  induction l as [|f l IH]; intros st st' Hb; simpl.
  { by intros [= <-]. }
  intros Hrun. apply bind_Some in Hrun as (st1 & H1 & Hrun).
  assert (Hs1 : same_stack st st1).
  { destruct (decide (activeEffect st = Some f)); [by injection H1 as <-|].
    destruct (effects st !! f) as [F|]; [|by injection H1 as <-].
    destruct (scheduler F); by eapply rec_balanced. }
  eapply same_stack_trans; [done|]. apply IH; [|done].
  by eapply balanced_same_stack.
Qed.

Lemma exec_access_balanced a st st' :
  balanced st → exec_access rec a st = Some st' → same_stack st st'.
Proof.
  intros Hb. destruct a as [t k|t k ty]; simpl.
  - intros [= <-]. apply track_same_stack.
  - unfold trigger. destruct (bucket st !! t) as [m|].
    + by apply run_effects_balanced.
    + by intros [= <-].
Qed.

Lemma exec_accesses_balanced l : ∀ st st',
  balanced st → exec_accesses rec l st = Some st' → same_stack st st'.
Proof.
  induction l as [|a l IH]; intros st st' Hb; simpl.
  { by intros [= <-]. }
  intros Hrun. apply bind_Some in Hrun as (st1 & H1 & Hrun).
  pose proof (exec_access_balanced _ _ _ Hb H1) as Hs1.
  eapply same_stack_trans; [done|]. apply IH; [|done].
  by eapply balanced_same_stack.
Qed.

Lemma exec_op_balanced op st st' :
  balanced st → exec_op rec op st = Some st' → same_stack st st'.
Proof.
  intros Hb. destruct op as [a|e|inner]; simpl.
  - by apply exec_access_balanced.
  - by apply rec_balanced.
  - intros Hrun. apply bind_Some in Hrun as (st1 & H1 & [= <-]).
    by apply exec_accesses_balanced in H1.
Qed.

Lemma exec_ops_balanced ops : ∀ st st',
  balanced st → exec_ops rec ops st = Some st' → same_stack st st'.
Proof.
  induction ops as [|op ops IH]; intros st st' Hb; simpl.
  { by intros [= <-]. }
  intros Hrun. apply bind_Some in Hrun as (st1 & H1 & Hrun).
  pose proof (exec_op_balanced _ _ _ Hb H1) as Hs1.
  eapply same_stack_trans; [done|]. apply IH; [|done].
  by eapply balanced_same_stack.
Qed.

Lemma step_balanced c st st' :
  balanced st → step rec c st = Some st' → same_stack st st'.
Proof.
  intros Hb. destruct c as [e|e]; simpl.
  - unfold effectFn. destruct (effects st !! e) as [E|]; [|by intros [= <-]].
    intros Hrun. apply bind_Some in Hrun as (st3 & H3 & [= <-]).
    destruct (cleanup_same_stack e st) as [Hk Ha].
    apply exec_ops_balanced in H3 as [Hk3 _].
    + unfold same_stack. simpl. simpl in Hk3. rewrite Hk3, Hk.
      rewrite removelast_last. split; [done|]. symmetry. apply Hb.
    + unfold balanced. simpl. by rewrite last_snoc.
  - unfold call_scheduler.
    destruct (effects st !! e) as [E|]; [|by intros [= <-]].
    destruct (scheduler E) as [ops|]; [|by intros [= <-]].
    intros Hrun. by apply exec_ops_balanced in Hrun.
Qed.
End kernel_balanced.

Lemma interp_balanced fuel : ∀ c st st',
  balanced st → interp fuel c st = Some st' → same_stack st st'.
Proof.
  induction fuel as [|fuel IH]; intros c st st' Hb; simpl; [done|].
  by apply step_balanced.
Qed.

(** *** The invariant holds in every state reached *)

Lemma linked_stack_frame st st' :
  effects st' = effects st → depSets st' = depSets st →
  bucket st' = bucket st →
  nextDeps st' = nextDeps st → nextEffect st' = nextEffect st →
  activeEffect st' = last (effectStack st') →
  (∀ e, e ∈ effectStack st' → is_Some (effects st !! e)) →
  linked st → linked st'.
Proof.
  intros He Hd Hb Hn Hn' Ha Hk [H1 H2 H3 H4 H5 Hinj H6 H7]. split.
  - intros e E d. rewrite He, Hd. apply H1.
  - intros d S e. rewrite He, Hd. apply H2.
  - intros d. rewrite Hd, Hn. apply H3.
  - intros e. rewrite He, Hn'. apply H4.
  - intros t m k d. rewrite Hb, Hd. apply H5.
  - intros t m k t' m' k' d. rewrite Hb. apply Hinj.
  - done.
  - intros e. rewrite He. apply Hk.
Qed.

Section kernel_linked.
Variable rec : Call → State → option State.
Hypothesis rec_linked : ∀ c st st',
  linked st → rec c st = Some st' → linked st' ∧ same_stack st st'.

Lemma run_effects_linked l : ∀ st st',
  linked st → run_effects rec l st = Some st' →
  linked st' ∧ same_stack st st'.
Proof.
  induction l as [|f l IH]; intros st st' Hl; simpl.
  { by intros [= <-]. }
  intros Hrun. apply bind_Some in Hrun as (st1 & H1 & Hrun).
  assert (Hs1 : linked st1 ∧ same_stack st st1).
  { destruct (decide (activeEffect st = Some f)); [by injection H1 as <-|].
    destruct (effects st !! f) as [F|]; [|by injection H1 as <-].
    destruct (scheduler F); by eapply rec_linked. }
  destruct Hs1 as [Hl1 Hs1]. destruct (IH _ _ Hl1 Hrun) as [Hl' Hs'].
  split; [done|]. by eapply same_stack_trans.
Qed.

Lemma exec_access_linked a st st' :
  linked st → exec_access rec a st = Some st' →
  linked st' ∧ same_stack st st'.
Proof.
  intros Hl. destruct a as [t k|t k ty]; simpl.
  - intros [= <-]. split; [by apply linked_track|apply track_same_stack].
  - unfold trigger. destruct (bucket st !! t) as [m|].
    + by apply run_effects_linked.
    + by intros [= <-].
Qed.

Lemma exec_accesses_linked l : ∀ st st',
  linked st → exec_accesses rec l st = Some st' →
  linked st' ∧ same_stack st st'.
Proof.
  induction l as [|a l IH]; intros st st' Hl; simpl.
  { by intros [= <-]. }
  intros Hrun. apply bind_Some in Hrun as (st1 & H1 & Hrun).
  destruct (exec_access_linked _ _ _ Hl H1) as [Hl1 Hs1].
  destruct (IH _ _ Hl1 Hrun) as [Hl' Hs'].
  split; [done|]. by eapply same_stack_trans.
Qed.

Lemma exec_op_linked op st st' :
  linked st → exec_op rec op st = Some st' →
  linked st' ∧ same_stack st st'.
Proof.
  intros Hl. destruct op as [a|e|inner]; simpl.
  - by apply exec_access_linked.
  - by apply rec_linked.
  - intros Hrun. apply bind_Some in Hrun as (st1 & H1 & [= <-]).
    apply exec_accesses_linked in H1 as [Hl1 Hs1].
    + split; [|done].
      apply (linked_stack_frame st1); [reflexivity..| | |exact Hl1].
      * apply (linked_active _ Hl1).
      * apply (linked_stack _ Hl1).
    + apply (linked_stack_frame st); [reflexivity..| | |exact Hl].
      * apply (linked_active _ Hl).
      * apply (linked_stack _ Hl).
Qed.

Lemma exec_ops_linked ops : ∀ st st',
  linked st → exec_ops rec ops st = Some st' →
  linked st' ∧ same_stack st st'.
Proof.
  induction ops as [|op ops IH]; intros st st' Hl; simpl.
  { by intros [= <-]. }
  intros Hrun. apply bind_Some in Hrun as (st1 & H1 & Hrun).
  destruct (exec_op_linked _ _ _ Hl H1) as [Hl1 Hs1].
  destruct (IH _ _ Hl1 Hrun) as [Hl' Hs'].
  split; [done|]. by eapply same_stack_trans.
Qed.

Lemma effectFn_linked e st st' :
  linked st → effectFn rec e st = Some st' →
  linked st' ∧ same_stack st st'.
Proof.
  intros Hl. unfold effectFn.
  destruct (effects st !! e) as [E|] eqn:HE; [|by intros [= <-]].
  intros Hrun. apply bind_Some in Hrun as (st3 & H3 & [= <-]).
  pose proof (linked_cleanup e st Hl) as Hl1.
  destruct (cleanup_same_stack e st) as [Hk Ha].
  assert (Hl2 : linked (log (EvFn e)
                  (set_effectStack (effectStack (cleanup e st) ++ [e])
                     (set_activeEffect (Some e) (cleanup e st))))).
  { apply (linked_stack_frame (cleanup e st));
      [reflexivity..| | |exact Hl1].
    - simpl. by rewrite last_snoc.
    - simpl. intros e' [Hin| ->%list_elem_of_singleton]%elem_of_app.
      + by apply (linked_stack _ Hl1).
      + unfold cleanup. rewrite HE. simpl. by rewrite lookup_insert_eq. }
  destruct (exec_ops_linked _ _ _ Hl2 H3) as [Hl3 [Hk3 _]].
  simpl in Hk3.
  assert (Hpop : removelast (effectStack st3) = effectStack st).
  { by rewrite Hk3, Hk, removelast_last. }
  split.
  - apply (linked_stack_frame st3); [reflexivity..| | |exact Hl3].
    + done.
    + simpl. rewrite Hpop. intros e' He'. apply (linked_stack _ Hl3).
      rewrite Hk3, Hk. apply elem_of_app. by left.
  - split; simpl; [done|]. rewrite Hpop. symmetry. apply (linked_active _ Hl).
Qed.

Lemma step_linked c st st' :
  linked st → step rec c st = Some st' → linked st' ∧ same_stack st st'.
Proof.
  intros Hl. destruct c as [e|e]; simpl; [by apply effectFn_linked|].
  unfold call_scheduler.
  destruct (effects st !! e) as [E|]; [|by intros [= <-]].
  destruct (scheduler E) as [ops|]; [|by intros [= <-]].
  intros Hrun. apply exec_ops_linked in Hrun; [done|].
  apply (linked_stack_frame st); [reflexivity..| | |exact Hl].
  - apply (linked_active _ Hl).
  - apply (linked_stack _ Hl).
Qed.
End kernel_linked.

Lemma interp_linked fuel : ∀ c st st',
  linked st → interp fuel c st = Some st' → linked st' ∧ same_stack st st'.
Proof.
  induction fuel as [|fuel IH]; intros c st st' Hl; simpl; [done|].
  by apply step_linked.
Qed.

Lemma effect_linked fuel body lazy sched st e st' :
  linked st → effect fuel body lazy sched st = Some (e, st') →
  linked st' ∧ same_stack st st'.
Proof.
  intros Hl. unfold effect.
  assert (Hfresh : effects st !! nextEffect st = None).
  { destruct (effects st !! nextEffect st) eqn:Hd; [|done].
    assert (nextEffect st < nextEffect st); [|lia].
    apply (linked_next_effect _ Hl). by eexists. }
  assert (Hl1 : linked (set_nextEffect (S (nextEffect st))
                  (set_effects (<[nextEffect st := mkEffectFn [] body sched]>
                                  (effects st)) st))).
  { destruct Hl as [H1 H2 H3 H4 H5 Hinj H6 H7]. split; simpl; try done.
    - intros e' E' d. destruct (decide (nextEffect st = e')) as [<-|Hne].
      + rewrite lookup_insert_eq. intros [= <-]. by intros ?%elem_of_nil.
      + rewrite lookup_insert_ne by done. apply H1.
    - intros d S e' HS Hin. destruct (H2 _ _ _ HS Hin) as (E' & HE' & Hd).
      exists E'. split; [|done]. rewrite lookup_insert_ne; [done|].
      intros <-. congruence.
    - intros e'. destruct (decide (nextEffect st = e')) as [<-|Hne]; [lia|].
      rewrite lookup_insert_ne by done. intros He'%H4. lia.
    - intros e' He'. destruct (decide (nextEffect st = e')) as [<-|Hne].
      + by rewrite lookup_insert_eq.
      + rewrite lookup_insert_ne by done. by apply H7. }
  destruct lazy.
  - intros [= <- <-]. by split.
  - intros Hrun. apply bind_Some in Hrun as (st2 & H2 & [= <- <-]).
    apply effectFn_linked in H2; [done| |done].
    intros c s s'. apply interp_linked.
Qed.

Lemma reachable_linked st :
  reachable st → linked st ∧ effectStack st = [] ∧ activeEffect st = None.
Proof.
  induction 1 as [|st fuel body lazy sched e st' _ (Hl & Hk & Ha) Hrun
                  |st fuel ops st' _ (Hl & Hk & Ha) Hrun].
  - split; [apply linked_initial|done].
  - destruct (effect_linked _ _ _ _ _ _ _ Hl Hrun) as [Hl' [Hk' Ha']].
    split; [done|]. split; congruence.
  - apply exec_ops_linked in Hrun as [Hl' [Hk' Ha']]; [| |done].
    + split; [done|]. split; congruence.
    + intros c s s'. apply interp_linked.
Qed.

(** *** Tracking is on between operations *)

Lemma track_shouldTrack t k st : shouldTrack (track t k st) = shouldTrack st.
Proof.
  unfold track. destruct (activeEffect st) as [e|] eqn:Ha; [|done].
  destruct (shouldTrack st) eqn:Hs; [|done].
  by destruct (OMap.get k (default [] (bucket st !! t))).
Qed.

Lemma tracking_kept_refl st : tracking_kept st st.
Proof. by intros ?. Qed.

Lemma tracking_kept_trans st1 st2 st3 :
  tracking_kept st1 st2 → tracking_kept st2 st3 → tracking_kept st1 st3.
Proof. unfold tracking_kept. auto. Qed.

Section kernel_tracking.
Variable rec : Call → State → option State.
Hypothesis rec_tracking : ∀ c st st',
  rec c st = Some st' → tracking_kept st st'.

Lemma run_effects_tracking l : ∀ st st',
  run_effects rec l st = Some st' → tracking_kept st st'.
Proof.
  induction l as [|f l IH]; intros st st'; simpl.
  { intros [= <-]; apply tracking_kept_refl. }
  intros Hrun. apply bind_Some in Hrun as (st1 & H1 & Hrun).
  apply (tracking_kept_trans _ st1); [|by apply IH].
  destruct (decide (activeEffect st = Some f)); [injection H1 as <-; apply tracking_kept_refl|].
  destruct (effects st !! f) as [F|]; [|injection H1 as <-; apply tracking_kept_refl].
  destruct (scheduler F); by eapply rec_tracking.
Qed.

Lemma exec_access_tracking a st st' :
  exec_access rec a st = Some st' → tracking_kept st st'.
Proof.
  destruct a as [t k|t k ty]; simpl.
  - intros [= <-]. unfold tracking_kept. by rewrite track_shouldTrack.
  - unfold trigger. destruct (bucket st !! t) as [m|].
    + by apply run_effects_tracking.
    + intros [= <-]; apply tracking_kept_refl.
Qed.

Lemma exec_op_tracking op st st' :
  exec_op rec op st = Some st' → tracking_kept st st'.
Proof.
  destruct op as [a|e|inner]; simpl.
  - by apply exec_access_tracking.
  - by apply rec_tracking.
  - intros Hrun. apply bind_Some in Hrun as (st1 & H1 & [= <-]). by intros _.
Qed.

Lemma exec_ops_tracking ops : ∀ st st',
  exec_ops rec ops st = Some st' → tracking_kept st st'.
Proof.
  induction ops as [|op ops IH]; intros st st'; simpl.
  { intros [= <-]; apply tracking_kept_refl. }
  intros Hrun. apply bind_Some in Hrun as (st1 & H1 & Hrun).
  apply (tracking_kept_trans _ st1); [by eapply exec_op_tracking|by apply IH].
Qed.

Lemma step_tracking c st st' :
  step rec c st = Some st' → tracking_kept st st'.
Proof.
  destruct c as [e|e]; simpl.
  - unfold effectFn. destruct (effects st !! e) as [E|]; [|intros [= <-]; apply tracking_kept_refl].
    intros Hrun. apply bind_Some in Hrun as (st3 & H3 & [= <-]).
    apply exec_ops_tracking in H3. unfold tracking_kept in *. simpl in *.
    destruct (cleanup_frame e st) as (_ & _ & _ & _ & _ & Hs & _).
    by rewrite Hs in H3.
  - unfold call_scheduler.
    destruct (effects st !! e) as [E|]; [|intros [= <-]; apply tracking_kept_refl].
    destruct (scheduler E) as [ops|]; [|intros [= <-]; apply tracking_kept_refl].
    intros Hrun. by apply exec_ops_tracking in Hrun.
Qed.
End kernel_tracking.

Lemma interp_tracking fuel : ∀ c st st',
  interp fuel c st = Some st' → tracking_kept st st'.
Proof.
  induction fuel as [|fuel IH]; intros c st st'; simpl; [done|].
  by apply step_tracking.
Qed.

Lemma reachable_tracking st : reachable st → shouldTrack st = true.
Proof.
  induction 1 as [|st fuel body lazy sched e st' _ IH Hrun
                  |st fuel ops st' _ IH Hrun]; [done| |].
  - unfold effect in Hrun. destruct lazy.
    + by injection Hrun as <- <-.
    + apply bind_Some in Hrun as (st2 & H2 & [= <- <-]).
      apply (step_tracking (interp fuel) (interp_tracking fuel) (CallFn _))
        in H2.
      by apply H2.
  - apply (exec_ops_tracking (interp fuel) (interp_tracking fuel)) in Hrun.
    by apply Hrun.
Qed.

(** *** Who is subscribed to a key *)

(** The effects that [trigger(target, key)] finds under the key. *)
Definition deps_of (target : TargetId) (key : Key) (st : State)
    : option DepsId :=
  m ← bucket st !! target; OMap.get key m.

Definition subscribers (target : TargetId) (key : Key) (st : State)
    : list EffectId :=
  default [] (d ← deps_of target key st; depSets st !! d).

Lemma deps_delete_absent e s : e ∉ s → set_delete e s = s.
Proof.
  intros He. unfold set_delete. induction s as [|x s IH]; [done|].
  rewrite filter_cons_True.
  - f_equal. apply IH. intros ?. apply He. by right.
  - intros ->. apply He. by left.
Qed.

(** [cleanup] unsubscribes the effect from every key. *)
Lemma subscribers_cleanup e t k st :
  linked st →
  subscribers t k (cleanup e st) = set_delete e (subscribers t k st).
Proof.
  intros Hl. unfold subscribers, deps_of.
  destruct (cleanup_frame e st) as (-> & _).
  destruct (bucket st !! t) as [m|]; [|done]. simpl.
  destruct (OMap.get k m) as [d|]; [|done]. simpl.
  unfold cleanup. destruct (effects st !! e) as [E|] eqn:HE.
  - destruct (cleanup_loop e (deps E) st) as (_ & _ & _ & _ & _ & _ & _ & _ & Hs).
    simpl. rewrite Hs. destruct (depSets st !! d) as [S|] eqn:HS; [|done].
    simpl. destruct (decide (d ∈ deps E)) as [Hd|Hd]; [done|]. simpl.
    symmetry. apply deps_delete_absent. intros Hin.
    destruct (linked_sets _ Hl _ _ _ HS Hin) as (E' & HE' & Hd').
    rewrite HE in HE'. by injection HE' as <-.
  - destruct (depSets st !! d) as [S|] eqn:HS; [|done]. simpl.
    symmetry. apply deps_delete_absent. intros Hin.
    destruct (linked_sets _ Hl _ _ _ HS Hin) as (E' & HE' & Hd').
    congruence.
Qed.

Lemma deps_of_Some t k d st :
  deps_of t k st = Some d ↔
  ∃ m, bucket st !! t = Some m ∧ OMap.get k m = Some d.
Proof. unfold deps_of. apply bind_Some. Qed.

Lemma deps_of_depsMap t k st :
  OMap.get k (default [] (bucket st !! t)) = deps_of t k st.
Proof. unfold deps_of. by destruct (bucket st !! t). Qed.

Lemma subscribers_bucket st st' t k :
  bucket st' = bucket st →
  subscribers t k st' = default [] (d ← deps_of t k st; depSets st' !! d).
Proof. unfold subscribers, deps_of. by intros ->. Qed.

(** [track] subscribes the active effect to the key, and to no other. *)
Lemma subscribers_track e t0 k0 t k st :
  linked st → activeEffect st = Some e → shouldTrack st = true →
  subscribers t k (track t0 k0 st)
  = if bool_decide (t = t0 ∧ k = k0) then set_add e (subscribers t k st)
    else subscribers t k st.
Proof.
  intros Hl Ha Hs. unfold track. rewrite Ha, Hs, deps_of_depsMap.
  destruct (deps_of t0 k0 st) as [d0|] eqn:Hk0; cbv beta iota zeta.
  - rewrite (subscribers_bucket st) by done. simpl. unfold subscribers.
    pose proof Hk0 as (m0 & Hm0 & Hg0)%deps_of_Some.
    destruct (linked_bucket _ Hl _ _ _ _ Hm0 Hg0) as [S0 HS0].
    case_bool_decide as Htk.
    + destruct Htk as [-> ->]. rewrite Hk0. simpl.
      by rewrite lookup_alter_eq, HS0.
    + destruct (deps_of t k st) as [d|] eqn:Hk; [|done]. simpl.
      rewrite lookup_alter_ne; [done|]. intros <-.
      apply deps_of_Some in Hk as (m & Hm & Hg).
      destruct (linked_bucket_inj _ Hl _ _ _ _ _ _ _ Hm Hg Hm0 Hg0).
      by apply Htk.
  - pose proof (depSets_fresh _ Hl) as Hfresh.
    set (b' := <[t0 := OMap.set k0 (nextDeps st) (default [] (bucket st !! t0))]>
                 (bucket st)).
    rewrite (subscribers_bucket (set_bucket b' st)) by done. simpl.
    assert (Hget : deps_of t k (set_bucket b' st)
                   = if bool_decide (t = t0 ∧ k = k0) then Some (nextDeps st)
                     else deps_of t k st).
    { subst b'. unfold deps_of. simpl. case_bool_decide as Htk.
      - destruct Htk as [-> ->]. rewrite lookup_insert_eq. simpl.
        by rewrite OMap.get_set_eq.
      - destruct (decide (t0 = t)) as [<-|Hne].
        + rewrite lookup_insert_eq. simpl.
          rewrite OMap.get_set_ne by (intros <-; by apply Htk).
          by destruct (bucket st !! t0).
        + by rewrite lookup_insert_ne. }
    rewrite Hget. unfold subscribers. case_bool_decide as Htk.
    + destruct Htk as [-> ->]. simpl.
      rewrite lookup_alter_eq, lookup_insert_eq. simpl.
      by rewrite Hk0.
    + destruct (deps_of t k st) as [d|] eqn:Hd; [|done].
      simpl. apply deps_of_Some in Hd as (m & Hm & Hk).
      destruct (linked_bucket _ Hl _ _ _ _ Hm Hk) as [S HS].
      assert (d ≠ nextDeps st) by congruence.
      by rewrite lookup_alter_ne, lookup_insert_ne.
Qed.

Lemma subscribers_same st st' t k :
  bucket st' = bucket st → depSets st' = depSets st →
  subscribers t k st' = subscribers t k st.
Proof. unfold subscribers, deps_of. by intros -> ->. Qed.

Lemma set_add_idemp e s : set_add e (set_add e s) = set_add e s.
Proof.
  unfold set_add at 1. rewrite decide_True; [done|].
  apply elem_of_deps_add. by left.
Qed.

(** The body of an effect that only reads. *)
Definition reads (keys : list (TargetId * Key)) : list Op :=
  (λ tk, OpAccess (Track tk.1 tk.2)) <$> keys.

Lemma exec_reads rec e keys : ∀ st,
  linked st → activeEffect st = Some e → shouldTrack st = true →
  ∃ st', exec_ops rec (reads keys) st = Some st'
    ∧ linked st' ∧ same_stack st st'
    ∧ ∀ t k, subscribers t k st'
             = if bool_decide ((t, k) ∈ keys)
               then set_add e (subscribers t k st)
               else subscribers t k st.
Proof.
  induction keys as [|[t0 k0] keys IH]; intros st Hl Ha Hs.
  { exists st. by split_and!. }
  destruct (track_same_stack t0 k0 st) as [Hk1 Ha1].
  destruct (IH (track t0 k0 st)) as (st' & Hrun & Hl' & Hs' & Hsub).
  { by apply linked_track. }
  { by rewrite Ha1. }
  { by rewrite track_shouldTrack. }
  exists st'. split; [done|]. split; [done|]. split.
  { eapply same_stack_trans; [|done]. by split. }
  intros t k. rewrite Hsub, (subscribers_track e) by done.
  destruct (decide (t = t0 ∧ k = k0)) as [[-> ->]|Hne].
  - rewrite (bool_decide_eq_true_2 (t0 = t0 ∧ k0 = k0)) by done.
    rewrite (bool_decide_eq_true_2 ((t0, k0) ∈ (t0, k0) :: keys))
      by apply list_elem_of_here.
    case_bool_decide; [apply set_add_idemp|done].
  - rewrite (bool_decide_eq_false_2 (t = t0 ∧ k = k0)) by done.
    destruct (decide ((t, k) ∈ keys)) as [Hin|Hin].
    + rewrite !bool_decide_eq_true_2; [done|by apply list_elem_of_further|done].
    + rewrite !bool_decide_eq_false_2; [done| |done].
      intros [[= -> ->]|?]%elem_of_cons; [by apply Hne|done].
Qed.

(** X24: In every state reached through [effect], reads, writes and calls of
    effect functions, an effect is a member of a [Set] of the bucket exactly
    when that set is listed in its [deps]; hence [cleanup] leaves the effect
    subscribed to no key of any target. *)
Theorem deps_list_every_subscription st e d :
  reachable st →
  (e ∈ default [] (depSets st !! d)
   ↔ ∃ E, effects st !! e = Some E ∧ d ∈ deps E)
  ∧ ∀ t k, e ∉ subscribers t k (cleanup e st).
Proof.
  intros [Hl _]%reachable_linked. split; [split|].
  - destruct (depSets st !! d) as [S|] eqn:HS; simpl.
    + by apply (linked_sets _ Hl).
    + by intros ?%elem_of_nil.
  - intros (E & HE & Hd).
    destruct (linked_deps _ Hl _ _ _ HE Hd) as (S & -> & Hin). done.
  - intros t k. rewrite subscribers_cleanup by done.
    rewrite elem_of_deps_delete. by intros [? _].
Qed.

(** X25: A call of an effect function or of a scheduler, however deeply the
    effects it runs are nested, returns with [effectStack] and [activeEffect]
    as they were, provided the active effect was the top of the stack; and
    tracking is on again if it was on, whatever array mutators ran. *)
Theorem nested_effects_restore_outer_effect fuel c st st' :
  activeEffect st = last (effectStack st) →
  interp fuel c st = Some st' →
  effectStack st' = effectStack st
  ∧ activeEffect st' = activeEffect st
  ∧ (shouldTrack st = true → shouldTrack st' = true).
Proof.
  intros Hb Hrun.
  destruct (interp_balanced fuel c st st' Hb Hrun) as [Hk Ha].
  split; [done|]. split; [done|]. by apply (interp_tracking fuel c).
Qed.

(** X26: Running an effect whose function only reads leaves it subscribed to
    exactly the keys read in this run, as the last member of each of their
    sets: the subscriptions of earlier runs are dropped, and the other
    subscribers of every key stay in their order. *)
Theorem effect_subscribes_to_keys_read rec st e E keys :
  reachable st →
  effects st !! e = Some E → fn E = reads keys →
  ∃ st', effectFn rec e st = Some st'
    ∧ ∀ t k, subscribers t k st'
             = if bool_decide ((t, k) ∈ keys)
               then set_delete e (subscribers t k st) ++ [e]
               else set_delete e (subscribers t k st).
Proof.
  intros Hr HE Hfn. pose proof (reachable_tracking _ Hr) as Hs.
  apply reachable_linked in Hr as (Hl & _).
  pose proof (linked_cleanup e st Hl) as Hl1.
  destruct (cleanup_frame e st) as (_ & _ & _ & _ & _ & Hs1 & _).
  assert (Hl2 : linked (log (EvFn e)
                  (set_effectStack (effectStack (cleanup e st) ++ [e])
                     (set_activeEffect (Some e) (cleanup e st))))).
  { apply (linked_stack_frame (cleanup e st));
      [reflexivity..| | |exact Hl1].
    - simpl. by rewrite last_snoc.
    - simpl. intros e' [Hin| ->%list_elem_of_singleton]%elem_of_app.
      + by apply (linked_stack _ Hl1).
      + unfold cleanup. rewrite HE. simpl. by rewrite lookup_insert_eq. }
  destruct (exec_reads rec e keys _ Hl2 eq_refl) as (st3 & Hrun & _ & _ & Hsub).
  { simpl. by rewrite Hs1. }
  unfold effectFn. rewrite HE, Hfn, Hrun. simpl. eexists. split; [done|].
  intros t k.
  rewrite (subscribers_same st3) by done. rewrite Hsub.
  rewrite (subscribers_same (cleanup e st)) by done.
  rewrite subscribers_cleanup by done.
  case_bool_decide; [|done].
  unfold set_add. rewrite decide_False; [done|].
  rewrite elem_of_deps_delete. by intros [? _].
Qed.

(** A session: an effect that reads [ok] and [text], one with a scheduler that
    reads [text], and a write of [text]. *)
Definition session1 : State :=
  default initial
    (snd <$> effect 5 (reads [(0, KProp "ok"); (0, KProp "text")])
               false None initial).

Definition session2 : State :=
  default session1
    (snd <$> effect 5 (reads [(0, KProp "text")]) false (Some [OpCall 0])
               session1).

Definition session : State :=
  default session2
    (exec_ops (interp 5) [OpAccess (Trigger 0 (KProp "text") SET)] session2).

Lemma session_reachable : reachable session.
Proof.
  apply (reach_ops session2 5 [OpAccess (Trigger 0 (KProp "text") SET)]);
    [|vm_compute; reflexivity].
  apply (reach_effect session1 5 (reads [(0, KProp "text")]) false
           (Some [OpCall 0]) 1); [|vm_compute; reflexivity].
  apply (reach_effect initial 5 (reads [(0, KProp "ok"); (0, KProp "text")])
           false None 0); [|vm_compute; reflexivity].
  apply reach_initial.
Qed.

Lemma deps_list_every_subscription_witness :
  reachable session
  ∧ (0 ∈ default [] (depSets session !! 1)
     ↔ ∃ E, effects session !! 0 = Some E ∧ 1 ∈ deps E)
  ∧ ∀ t k, 0 ∉ subscribers t k (cleanup 0 session).
Proof.
  split; [apply session_reachable|].
  apply (deps_list_every_subscription session 0 1 session_reachable).
Defined.

Lemma nested_effects_restore_outer_effect_witness :
  activeEffect session = last (effectStack session)
  ∧ interp 5 (CallScheduler 1) session
    = Some (log (EvFn 0) (log (EvScheduler 1) session))
  ∧ effectStack (log (EvFn 0) (log (EvScheduler 1) session))
    = effectStack session
  ∧ activeEffect (log (EvFn 0) (log (EvScheduler 1) session))
    = activeEffect session
  ∧ (shouldTrack session = true →
     shouldTrack (log (EvFn 0) (log (EvScheduler 1) session)) = true).
Proof.
  assert (Hb : activeEffect session = last (effectStack session))
    by (vm_compute; reflexivity).
  assert (Hrun : interp 5 (CallScheduler 1) session
                 = Some (log (EvFn 0) (log (EvScheduler 1) session)))
    by (vm_compute; reflexivity).
  split; [exact Hb|]. split; [exact Hrun|].
  exact (nested_effects_restore_outer_effect 5 (CallScheduler 1) session _
           Hb Hrun).
Defined.

Lemma effect_subscribes_to_keys_read_witness :
  reachable session
  ∧ effects session !! 1
    = Some (mkEffectFn [1] (reads [(0, KProp "text")]) (Some [OpCall 0]))
  ∧ subscribers 0 (KProp "text") session = [1; 0]
  ∧ ∃ st', effectFn (interp 5) 1 session = Some st'
      ∧ ∀ t k, subscribers t k st'
               = if bool_decide ((t, k) ∈ [(0, KProp "text")])
                 then set_delete 1 (subscribers t k session) ++ [1]
                 else set_delete 1 (subscribers t k session).
Proof.
  split; [apply session_reachable|].
  split; [vm_compute; reflexivity|]. split; [vm_compute; reflexivity|].
  apply (effect_subscribes_to_keys_read (interp 5) session 1
           (mkEffectFn [1] (reads [(0, KProp "text")]) (Some [OpCall 0]))
           [(0, KProp "text")] session_reachable);
    vm_compute; reflexivity.
Defined.

End MiniReactive.
